(** * ELVM Turing-machine backend (target/tm.c): generator and emitted machines

    The backend lowers the ELVM register-machine IR to the transition table
    of a single-tape deterministic Turing machine.  This development embeds
    the generator as a state-and-error monad over the allocator counter and
    the stream of emitted transition lines, gives the emitted tables the
    usual single-tape semantics, and proves properties of the generator
    (shape of the table) and of the emitted micro machines (find, copy,
    add/sub, PUTC, EXIT). *)

From Stdlib Require Import ZArith List Bool Lia String.
Import ListNotations.
Local Open Scope Z_scope.

(* ================================================================= *)
(** ** Alphabet *)

(** [symbol_t] has eleven named members; the loops of the emitters run over
    [num_symbols = 12] values, the twelfth being the one [symbol_names]
    prints as a period.  It is called [DOT] here. *)
Inductive symbol_t : Type :=
  | BLANK | START | END | ZERO | ONE | REGISTER | ADDRESS | VALUE
  | OUTPUT | SRC | DST | DOT.

Definition symbol_names (s : symbol_t) : string :=
  match s with
  | BLANK => "_" | START => "^" | END => "$" | ZERO => "0" | ONE => "1"
  | REGISTER => "r" | ADDRESS => "a" | VALUE => "v" | OUTPUT => "o"
  | SRC => "s" | DST => "d" | DOT => "."
  end%string.

(** The values [0 .. num_symbols-1] in the order the [for] loops visit them. *)
Definition all_symbols : list symbol_t :=
  [BLANK; START; END; ZERO; ONE; REGISTER; ADDRESS; VALUE; OUTPUT; SRC; DST; DOT].

Definition num_symbols : nat := 12.
Definition word_size : nat := 8.

Definition symbol_eqb (a b : symbol_t) : bool :=
  match a, b with
  | BLANK, BLANK | START, START | END, END | ZERO, ZERO | ONE, ONE
  | REGISTER, REGISTER | ADDRESS, ADDRESS | VALUE, VALUE | OUTPUT, OUTPUT
  | SRC, SRC | DST, DST | DOT, DOT => true
  | _, _ => false
  end.

Definition intcmp (x y : Z) : Z :=
  if x >? y then 1 else if x <? y then -1 else 0.

(* ================================================================= *)
(** ** Transition lines and the generator monad *)

(** One emitted line [q a r b d]: in state [q] reading [a], go to state [r],
    write [b], move [d] (-1 = L, 0 = N, +1 = R). *)
Record transition : Type := mkT {
  tr_q : Z; tr_a : symbol_t; tr_r : Z; tr_b : symbol_t; tr_d : Z
}.

(** The globals of tm.c ([next_state], [q_reject]) and the output stream.
    [emitted] holds the transition lines written so far, most recent first;
    comment lines are not kept, a consumer of the table ignores them.
    The C [int] counter is a [Z]: signed overflow is undefined in C and a
    table of 2^31 states is out of reach of any input. *)
Record gstate : Type := mkG {
  next_state : Z;
  q_reject : Z;
  emitted : list transition
}.

(** The table in emission order. *)
Definition table (st : gstate) : list transition := rev (emitted st).

(** Modelled from the spec: [emit_line] and [error] live in target/util,
    outside this file.  Per the spec the output is a sequential stream of
    transition records and an unsupported shape halts the whole process:
    [emit_line] appends a line to the stream at once, [error] stops the
    generator, and the lines already written stay written. *)
Inductive result (A : Type) : Type :=
  | Ok (a : A) (st : gstate)
  | Err (msg : string) (st : gstate).
Arguments Ok {A} a st.
Arguments Err {A} msg st.

Definition M (A : Type) : Type := gstate -> result A.

Definition ret {A} (a : A) : M A := fun st => Ok a st.
Definition bind {A B} (c : M A) (f : A -> M B) : M B :=
  fun st => match c st with
            | Ok a st' => f a st'
            | Err msg st' => Err msg st'
            end.
Definition error {A} (msg : string) : M A := fun st => Err msg st.
Definition emit_line (t : transition) : M unit :=
  fun st => Ok tt (mkG (next_state st) (q_reject st) (t :: emitted st)).

Declare Scope gen_scope.
Delimit Scope gen_scope with gen.
Notation "x <- c ;; k" := (bind c (fun x => k))
  (at level 61, c at next level, right associativity) : gen_scope.
Notation "c ;;; k" := (bind c (fun _ => k))
  (at level 61, right associativity) : gen_scope.
Local Open Scope gen_scope.

(** The state a computation stops in, whether it returned or aborted. *)
Definition final {A} (r : result A) : gstate :=
  match r with Ok _ st => st | Err _ st => st end.

Definition is_ok {A} (r : result A) : bool :=
  match r with Ok _ _ => true | Err _ _ => false end.

Fixpoint for_each {A} (l : list A) (f : A -> M unit) : M unit :=
  match l with
  | [] => ret tt
  | x :: l' => f x ;;; for_each l' f
  end.

(* ================================================================= *)
(** ** State allocator and primitive emitters *)

Definition new_state : M Z :=
  fun st => Ok (next_state st)
               (mkG (next_state st + 1) (q_reject st) (emitted st)).

Definition get_q_reject : M Z := fun st => Ok (q_reject st) st.

Definition tm_transition (q : Z) (a b : symbol_t) (d : Z) (r : Z) : M Z :=
  if (d =? -1) || (d =? 0) || (d =? 1)
  then emit_line (mkT q a r b d) ;;; ret r
  else error "invalid direction".

Definition tm_write (q : Z) (b : symbol_t) (d : Z) (r : Z) : M Z :=
  for_each all_symbols (fun a => tm_transition q a b d r ;;; ret tt) ;;;
  ret r.

Definition tm_write_if (q : Z) (a ba : symbol_t) (da ra : Z)
                       (b : symbol_t) (d r : Z) : M Z :=
  for_each all_symbols (fun s =>
    (if symbol_eqb s a then tm_transition q s ba da ra
     else tm_transition q s b d r) ;;; ret tt) ;;;
  ret r.

Definition tm_write_if2 (q : Z) (a1 b1 : symbol_t) (d1 r1 : Z)
                        (a2 b2 : symbol_t) (d2 r2 : Z)
                        (b : symbol_t) (d r : Z) : M Z :=
  for_each all_symbols (fun s =>
    (if symbol_eqb s a1 then tm_transition q s b1 d1 r1
     else if symbol_eqb s a2 then tm_transition q s b2 d2 r2
     else tm_transition q s b d r) ;;; ret tt) ;;;
  ret r.

Definition tm_move (q d r : Z) : M Z :=
  for_each all_symbols (fun s => tm_transition q s s d r ;;; ret tt) ;;;
  ret r.

Definition tm_move_if (q : Z) (a : symbol_t) (da ra : Z) (d r : Z) : M Z :=
  for_each all_symbols (fun s =>
    (if symbol_eqb s a then tm_transition q s s da ra
     else tm_transition q s s d r) ;;; ret tt) ;;;
  ret r.

Definition tm_move_if2 (q : Z) (a : symbol_t) (da ra : Z)
                       (b : symbol_t) (db rb : Z) (d r : Z) : M Z :=
  for_each all_symbols (fun s =>
    (if symbol_eqb s a then tm_transition q s s da ra
     else if symbol_eqb s b then tm_transition q s s db rb
     else tm_transition q s s d r) ;;; ret tt) ;;;
  ret r.

Definition tm_noop (q r : Z) : M Z := tm_move q 0 r.

(** [(1<<i)&x ? ONE : ZERO]: bit [i] of [x] (two's complement for a
    negative [int] converted to [unsigned]). *)
Definition bit_symbol (x : Z) (i : nat) : symbol_t :=
  if Z.testbit x (Z.of_nat i) then ONE else ZERO.

(** The [for (i = n-1; i > 0; i--)] loop of [tm_write_bits]; the argument is
    the current [i]. *)
Fixpoint tm_write_bits_loop (i : nat) (q : Z) (x : Z) : M Z :=
  match i with
  | O => ret q
  | S i' =>
      r1 <- new_state ;;
      q1 <- tm_move q 1 r1 ;;
      r2 <- new_state ;;
      q2 <- tm_write q1 (bit_symbol x i) 1 r2 ;;
      tm_write_bits_loop i' q2 x
  end.

Definition tm_write_bits (q : Z) (x : Z) (n : nat) (r : Z) : M Z :=
  q1 <- tm_write_bits_loop (n - 1) q x ;;
  r1 <- new_state ;;
  q2 <- tm_move q1 1 r1 ;;
  tm_write q2 (bit_symbol x 0) 1 r.

Definition tm_write_word (q x r : Z) : M Z := tm_write_bits q x word_size r.
Definition tm_write_byte (q x r : Z) : M Z := tm_write_bits q x 8 r.

(* ================================================================= *)
(** ** Composite tape operations *)

Definition tm_find (q d : Z) (a : symbol_t) (r_yes r_no : Z) : M Z :=
  let marker := if d <? 0 then START else END in
  tm_move_if2 q a 0 r_yes marker 0 r_no d q ;;;
  ret r_yes.

Definition tm_rewind (q r : Z) : M Z :=
  tm_move_if q START 0 r (-1) q ;;; ret r.

Definition tm_ffwd (q r : Z) : M Z :=
  tm_move_if q END 0 r 1 q ;;; ret r.

(** The [for (i = word_size-1; i >= 0; i--)] loop of [tm_find_register];
    the argument [k] is [i+1]. *)
Fixpoint tm_find_register_loop (k : nat) (qstart q : Z) (reg : Z) : M Z :=
  match k with
  | O => ret q
  | S i =>
      r1 <- new_state ;;
      q1 <- tm_move q 1 r1 ;;
      q_match <- new_state ;;
      rej <- get_q_reject ;;
      tm_move_if2 q1 (bit_symbol reg i) 1 q_match END 0 rej 1 qstart ;;;
      tm_find_register_loop i qstart q_match reg
  end.

Definition tm_find_register (q : Z) (reg : Z) (r : Z) : M Z :=
  let qstart := q in
  r1 <- new_state ;;
  rej <- get_q_reject ;;
  q1 <- tm_find q 1 REGISTER r1 rej ;;
  r2 <- new_state ;;
  q2 <- tm_move q1 1 r2 ;;
  q3 <- tm_find_register_loop word_size qstart q2 reg ;;
  r3 <- new_state ;;
  q4 <- tm_move q3 1 r3 ;;
  rej' <- get_q_reject ;;
  tm_move_if q4 VALUE 1 r 0 rej' ;;;
  ret r.

Definition BLANK_BEFORE_DST : Z := 4.
Definition BLANK_AFTER_DST : Z := 8.

Definition mode_has (mode flag : Z) : bool := negb (Z.land mode flag =? 0).

Definition tm_copy_helper (q d : Z) (mode : Z) (r : Z) : M Z :=
  r1 <- new_state ;;
  q <- tm_write q SRC 0 r1 ;;
  let q_nextbit := q in
  r2 <- new_state ;;
  q <- tm_write q BLANK 1 r2 ;;
  q0 <- new_state ;;
  q1 <- new_state ;;
  r3 <- new_state ;;
  q_clean <- tm_move_if2 q ZERO 1 q0 ONE 1 q1 0 r3 ;;
  q <- new_state ;;
  rej <- get_q_reject ;;
  r4 <- new_state ;;
  q0 <- tm_write q0 SRC 1 r4 ;;
  r5 <- new_state ;;
  q0 <- tm_find q0 d DST r5 rej ;;
  q0 <- (if mode_has mode BLANK_BEFORE_DST
         then r6 <- new_state ;; tm_write q0 BLANK 1 r6
         else ret q0) ;;
  tm_write q0 ZERO 1 q ;;;
  r7 <- new_state ;;
  q1 <- tm_write q1 SRC 1 r7 ;;
  r8 <- new_state ;;
  q1 <- tm_find q1 d DST r8 rej ;;
  q1 <- (if mode_has mode BLANK_BEFORE_DST
         then r9 <- new_state ;; tm_write q1 BLANK 1 r9
         else ret q1) ;;
  tm_write q1 ONE 1 q ;;;
  q <- (if mode_has mode BLANK_AFTER_DST
        then r10 <- new_state ;; tm_move q 1 r10
        else ret q) ;;
  r11 <- new_state ;;
  q <- tm_write q DST 0 r11 ;;
  tm_find q (- d) SRC q_nextbit rej ;;;
  r12 <- new_state ;;
  q <- tm_find q_clean d DST r12 rej ;;
  tm_write q BLANK 0 r.

Definition tm_copy (q d r : Z) : M Z := tm_copy_helper q d BLANK_BEFORE_DST r.
Definition tm_copy_to_scratch (q d r : Z) : M Z :=
  tm_copy_helper q d BLANK_AFTER_DST r.
Definition tm_copy_compact (q d r : Z) : M Z := tm_copy_helper q d 0 r.

Definition tm_add (q r : Z) : M Z :=
  let s0 := q in
  s1 <- new_state ;;
  m0 <- new_state ;;
  m1 <- new_state ;;
  m2 <- new_state ;;
  rej <- get_q_reject ;;
  tm_write_if2 s0 ZERO BLANK (-1) m0 ONE BLANK (-1) m1 BLANK 0 r ;;;
  tm_write_if2 s1 ZERO BLANK (-1) m1 ONE BLANK (-1) m2 BLANK 0 r ;;;
  tm_write_if2 m0 ZERO ZERO (-1) s0 ONE ONE (-1) s0 ZERO 0 rej ;;;
  tm_write_if2 m1 ZERO ONE (-1) s0 ONE ZERO (-1) s1 ZERO 0 rej ;;;
  tm_write_if2 m2 ZERO ZERO (-1) s1 ONE ONE (-1) s1 ZERO 0 rej ;;;
  ret r.

Definition tm_sub (q r : Z) : M Z :=
  let s0 := q in
  s1 <- new_state ;;
  m0 <- new_state ;;
  m1 <- new_state ;;
  m2 <- new_state ;;
  rej <- get_q_reject ;;
  tm_write_if2 s0 ZERO BLANK (-1) m0 ONE BLANK (-1) m1 BLANK 0 r ;;;
  tm_write_if2 s1 ZERO BLANK (-1) m1 ONE BLANK (-1) m2 BLANK 0 r ;;;
  tm_write_if2 m0 ZERO ZERO (-1) s0 ONE ONE (-1) s0 ZERO 0 rej ;;;
  tm_write_if2 m1 ZERO ONE (-1) s1 ONE ZERO (-1) s0 ZERO 0 rej ;;;
  tm_write_if2 m2 ZERO ZERO (-1) s1 ONE ONE (-1) s1 ZERO 0 rej ;;;
  ret r.

(* ================================================================= *)
(** ** The IR consumed by the backend *)

(** Modelled from the spec: ir/ir.h is outside this file.  An instruction
    carries a program counter, an opcode and operands that are a register
    reference, an immediate integer or some other kind; opcodes other than
    the seven the backend handles are collected in [OTHER_OP].  A register
    is a small integer index ([Reg] is a C enum). *)
Inductive Op : Type := MOV | ADD | SUB | JMP | PUTC | EXIT | DUMP | OTHER_OP.

Definition Reg : Type := Z.

Inductive Value : Type :=
  | REG (reg : Reg)
  | IMM (imm : Z)
  | TMP.

Record Inst : Type := mkInst {
  op : Op; pc : Z; dst : Value; src : Value; jmp : Value
}.

Record Module : Type := mkModule {
  text : list Inst;
  data : list Z
}.

(* ================================================================= *)
(** ** Instruction translator and program driver *)

(** [assert(inst->dst.type == REG)] followed by the uses of [dst.reg]. *)
Definition assert_reg (v : Value) : M Reg :=
  match v with
  | REG r => ret r
  | _ => error "assertion failed"
  end.

(** Line 296-298: the counter starts above the highest pc. *)
Definition initial_next_state (txt : list Inst) : Z :=
  fold_left (fun n inst => if pc inst >=? n then pc inst + 1 else n) txt 0.

(** Body of the register loop (lines 307-313). *)
Definition init_register (q : Z) (reg : Reg) : M Z :=
  r <- new_state ;; q <- tm_write q BLANK 1 r ;;
  r <- new_state ;; q <- tm_write q REGISTER 1 r ;;
  r <- new_state ;; q <- tm_write_word q reg r ;;
  r <- new_state ;; q <- tm_write q BLANK 1 r ;;
  r <- new_state ;; q <- tm_write q VALUE 1 r ;;
  r <- new_state ;; tm_write_word q 0 r.

Fixpoint init_registers (regs : list Reg) (q : Z) : M Z :=
  match regs with
  | [] => ret q
  | reg :: rest => q' <- init_register q reg ;; init_registers rest q'
  end.

(** Body of the memory loop (lines 324-331). *)
Definition init_cell (q : Z) (mp v : Z) : M Z :=
  r <- new_state ;; q <- tm_write q BLANK 1 r ;;
  r <- new_state ;; q <- tm_write q ADDRESS 1 r ;;
  r <- new_state ;; q <- tm_write_word q mp r ;;
  r <- new_state ;; q <- tm_write q BLANK 1 r ;;
  r <- new_state ;; q <- tm_write q VALUE 1 r ;;
  r <- new_state ;; tm_write_word q v r.

Fixpoint init_memory (d : list Z) (mp : Z) (q : Z) : M Z :=
  match d with
  | [] => ret q
  | v :: rest => q' <- init_cell q mp v ;; init_memory rest (mp + 1) q'
  end.

(** Lines 300-335: the prologue, started in state 0. *)
Definition set_q_reject (r : Z) : M unit :=
  fun st => Ok tt (mkG (next_state st) r (emitted st)).

Definition prologue (m : Module) : M Z :=
  rej <- new_state ;;
  set_q_reject rej ;;;
  let q := 0 in
  r <- new_state ;; q <- tm_write q START 1 r ;;
  q <- init_registers [0; 1; 2; 3; 4; 5] q ;;
  q <- init_memory (data m) 0 q ;;
  r <- new_state ;; q <- tm_write q BLANK 1 r ;;
  r <- new_state ;; q <- tm_write q END (-1) r ;;
  r <- new_state ;; tm_rewind q r.

(** Lines 341-343: on a new pc, a no-op into the state of that pc. *)
Definition stitch (q prev_pc : Z) (inst : Inst) : M Z :=
  if negb (pc inst =? prev_pc) && negb (q =? pc inst)
  then tm_noop q (pc inst)
  else ret q.

Definition translate_mov (q : Z) (inst : Inst) : M Z :=
  d <- assert_reg (dst inst) ;;
  match src inst with
  | REG s =>
      if d =? s then ret q
      else
        r <- new_state ;; q <- tm_find_register q d r ;;
        r <- new_state ;; q <- tm_write q DST (-1) r ;;
        r <- new_state ;; q <- tm_rewind q r ;;
        r <- new_state ;; q <- tm_find_register q s r ;;
        r <- new_state ;; q <- tm_copy q (intcmp d s) r ;;
        r <- new_state ;; tm_rewind q r
  | IMM i =>
      r <- new_state ;; q <- tm_find_register q d r ;;
      r <- new_state ;; q <- tm_write_word q i r ;;
      r <- new_state ;; tm_rewind q r
  | TMP => error "invalid src type"
  end.

Definition translate_arith (is_add : bool) (q : Z) (inst : Inst) : M Z :=
  d <- assert_reg (dst inst) ;;
  r <- new_state ;; q <- tm_find_register q d r ;;
  r <- new_state ;; q <- tm_move q 1 r ;;
  q <- (match src inst with
        | REG s =>
            if d =? s then error "not implemented"
            else
              r <- new_state ;; q <- tm_move q 1 r ;;
              r <- new_state ;; q <- tm_write q DST 0 r ;;
              r <- new_state ;; q <- tm_rewind q r ;;
              r <- new_state ;; q <- tm_find_register q s r ;;
              r <- new_state ;; q <- tm_copy_to_scratch q (intcmp d s) r ;;
              r <- new_state ;; tm_move q (-1) r
        | IMM i => r <- new_state ;; tm_write_word q i r
        | TMP => error "invalid src type"
        end) ;;
  r <- new_state ;; q <- tm_move q (-1) r ;;
  r <- new_state ;;
  q <- (if is_add then tm_add q r else tm_sub q r) ;;
  r <- new_state ;; tm_rewind q r.

Definition translate_jmp (q : Z) (inst : Inst) : M Z :=
  match jmp inst with
  | REG _ => error "not implemented"
  | IMM i => tm_noop q i
  | TMP => error "invalid jmp type"
  end.

Definition translate_putc (q : Z) (inst : Inst) : M Z :=
  r <- new_state ;; q <- tm_ffwd q r ;;
  r <- new_state ;; q <- tm_write q OUTPUT 1 r ;;
  q <- (match src inst with
        | REG s =>
            r <- new_state ;; q <- tm_write q DST (-1) r ;;
            r <- new_state ;; q <- tm_rewind q r ;;
            r <- new_state ;; q <- tm_find_register q s r ;;
            r <- new_state ;; tm_copy q 1 r
        | IMM i => r <- new_state ;; tm_write_byte q i r
        | TMP => error "invalid src type"
        end) ;;
  r <- new_state ;; q <- tm_write q BLANK 1 r ;;
  r <- new_state ;; q <- tm_write q END 0 r ;;
  r <- new_state ;; tm_rewind q r.

Definition translate_exit (q : Z) : M Z :=
  r <- new_state ;; q <- tm_write q DST 1 r ;;
  q_clear <- new_state ;;
  let q_findo := q in
  r <- new_state ;; q <- tm_find q 1 OUTPUT r q_clear ;;
  r <- new_state ;; q <- tm_write q BLANK 1 r ;;
  r <- new_state ;; q <- tm_copy_compact q (-1) r ;;
  tm_write q DST 1 q_findo ;;;
  r <- new_state ;; q_clear <- tm_ffwd q_clear r ;;
  tm_write_if q_clear DST BLANK 0 (-1) BLANK (-1) q_clear ;;;
  ret q.

(** The [switch] of lines 346-440; the result is the value of [q] after it. *)
Definition translate_inst (q : Z) (inst : Inst) : M Z :=
  match op inst with
  | MOV => translate_mov q inst
  | ADD => translate_arith true q inst
  | SUB => translate_arith false q inst
  | JMP => translate_jmp q inst
  | PUTC => translate_putc q inst
  | EXIT => translate_exit q
  | DUMP => ret q
  | OTHER_OP => error "not implemented"
  end.

(** The instruction loop (lines 337-441), threading [q] and [prev_pc]. *)
Fixpoint translate_text (txt : list Inst) (q prev_pc : Z) : M (Z * Z) :=
  match txt with
  | [] => ret (q, prev_pc)
  | inst :: rest =>
      q1 <- stitch q prev_pc inst ;;
      q2 <- translate_inst q1 inst ;;
      translate_text rest q2 (pc inst)
  end.

Definition target_tm_gen (m : Module) : M (Z * Z) :=
  q <- prologue m ;;
  translate_text (text m) q 0.

(** The state of the globals when [target_tm] starts emitting. *)
Definition initial_gstate (m : Module) : gstate :=
  mkG (initial_next_state (text m)) 0 [].

Definition target_tm (m : Module) : result (Z * Z) :=
  target_tm_gen m (initial_gstate m).

(** The table [target_tm] has written when it returns or aborts. *)
Definition emitted_table (m : Module) : list transition :=
  table (final (target_tm m)).

(** The lines a computation adds when run from [st], in emission order. *)
Definition emits {A} (c : M A) (st : gstate) : list transition :=
  rev (firstn (List.length (emitted (final (c st)))
               - List.length (emitted st))%nat
              (emitted (final (c st)))).

(* ================================================================= *)
(** ** Semantics of an emitted table *)

(** Modelled from the spec: the interpreter that runs the table is external.
    A transition [(q, a) -> (r, b, d)] applies in state [q] when the head
    reads [a]; it writes [b], moves the head by [d] and enters [r].  The tape
    is blank outside the cells ever written; a state without an applicable
    transition halts the machine. *)
Record tape : Type := mkTape {
  left : list symbol_t;    (* cells left of the head, nearest first *)
  right : list symbol_t    (* the cell under the head, then those right of it *)
}.

Definition read (t : tape) : symbol_t := hd BLANK (right t).
Definition write (b : symbol_t) (t : tape) : tape :=
  mkTape (left t) (b :: tl (right t)).
Definition move (d : Z) (t : tape) : tape :=
  if d =? 1 then mkTape (hd BLANK (right t) :: left t) (tl (right t))
  else if d =? -1 then mkTape (tl (left t)) (hd BLANK (left t) :: right t)
  else t.

Definition config : Type := (Z * tape)%type.

Definition apply_transition (t : transition) (tp : tape) : config :=
  (tr_r t, move (tr_d t) (write (tr_b t) tp)).

Inductive step (T : list transition) : config -> config -> Prop :=
  | step_intro : forall t q tp,
      In t T -> tr_q t = q -> tr_a t = read tp ->
      step T (q, tp) (apply_transition t tp).

Inductive steps (T : list transition) : config -> config -> Prop :=
  | steps_refl : forall c, steps T c c
  | steps_step : forall c1 c2 c3, step T c1 c2 -> steps T c2 c3 -> steps T c1 c3.

(** Executable counterpart: the first matching line of the table. *)
Definition matches (q : Z) (a : symbol_t) (t : transition) : bool :=
  (tr_q t =? q) && symbol_eqb (tr_a t) a.

Definition step_fn (T : list transition) (c : config) : option config :=
  match find (matches (fst c) (read (snd c))) T with
  | Some t => Some (apply_transition t (snd c))
  | None => None
  end.

Fixpoint run (fuel : nat) (T : list transition) (c : config) : config :=
  match fuel with
  | O => c
  | S n => match step_fn T c with
           | Some c' => run n T c'
           | None => c
           end
  end.

(** A table is deterministic when no two of its lines share state and read
    symbol. *)
Definition same_key (t1 t2 : transition) : Prop :=
  tr_q t1 = tr_q t2 /\ tr_a t1 = tr_a t2.

Definition deterministic (T : list transition) : Prop :=
  forall i j t1 t2,
    nth_error T i = Some t1 -> nth_error T j = Some t2 ->
    same_key t1 t2 -> i = j.

(* ================================================================= *)
(** ** Blocks of lines *)

(** Every primitive emitter writes, for one state [q], one line per symbol.
    An [action] is what such a line does: symbol written, move, next state. *)
Definition action : Type := (symbol_t * Z * Z)%type.

Definition act_line (q : Z) (g : symbol_t -> action) (s : symbol_t) : transition :=
  let '(b, d, r) := g s in mkT q s r b d.

Definition block (q : Z) (g : symbol_t -> action) : list transition :=
  map (act_line q g) all_symbols.

Definition add_block (q : Z) (g : symbol_t -> action) (st : gstate) : gstate :=
  mkG (next_state st) (q_reject st) (rev (block q g) ++ emitted st).

Definition valid_dir (d : Z) : bool := (d =? -1) || (d =? 0) || (d =? 1).

(** The table [T] holds the block of [q] with actions [g]. *)
Definition has_block (T : list transition) (q : Z) (g : symbol_t -> action) : Prop :=
  forall s, In (act_line q g s) T.

(** The table [T] holds every line written up to [st]. *)
Definition sub (st : gstate) (T : list transition) : Prop :=
  incl (emitted st) T.

(** The actions of the six primitive emitters. *)
Definition act_write (b : symbol_t) (d r : Z) : symbol_t -> action :=
  fun _ => (b, d, r).
Definition act_write_if (a ba : symbol_t) (da ra : Z) (b : symbol_t) (d r : Z)
  : symbol_t -> action :=
  fun s => if symbol_eqb s a then (ba, da, ra) else (b, d, r).
Definition act_write_if2 (a1 b1 : symbol_t) (d1 r1 : Z)
                         (a2 b2 : symbol_t) (d2 r2 : Z)
                         (b : symbol_t) (d r : Z) : symbol_t -> action :=
  fun s => if symbol_eqb s a1 then (b1, d1, r1)
           else if symbol_eqb s a2 then (b2, d2, r2) else (b, d, r).
Definition act_move (d r : Z) : symbol_t -> action :=
  fun s => (s, d, r).
Definition act_move_if (a : symbol_t) (da ra : Z) (d r : Z) : symbol_t -> action :=
  fun s => if symbol_eqb s a then (s, da, ra) else (s, d, r).
Definition act_move_if2 (a : symbol_t) (da ra : Z) (b : symbol_t) (db rb : Z)
                        (d r : Z) : symbol_t -> action :=
  fun s => if symbol_eqb s a then (s, da, ra)
           else if symbol_eqb s b then (s, db, rb) else (s, d, r).

(** What one line of a block does to a configuration. *)
Definition act_apply (g : symbol_t -> action) (tp : tape) : config :=
  let '(b, d, r) := g (read tp) in (r, move d (write b tp)).

(** The loop all emitters share, over any list of symbols. *)
Definition emit_loop (q : Z) (g : symbol_t -> action) (l : list symbol_t) : M unit :=
  for_each l (fun s =>
    let '(b, d, r) := g s in tm_transition q s b d r ;;; ret tt).


(* ================================================================= *)
(** ** Tape encodings *)

(** The tape whose cells are [cells] (blank elsewhere), head on cell [n]. *)
Definition at_pos (cells : list symbol_t) (n : nat) : tape :=
  mkTape (rev (firstn n cells)) (skipn n cells).

Definition sym (b : bool) : symbol_t := if b then ONE else ZERO.

Definition is_bit (s : symbol_t) : bool :=
  match s with ZERO | ONE => true | _ => false end.

(** The [n] low bits of [x], most significant first, as [tm_write_bits]
    writes them. *)
Fixpoint word_bits (n : nat) (x : Z) : list symbol_t :=
  match n with
  | O => []
  | S i => bit_symbol x i :: word_bits i x
  end.

(** The value of a word of bit symbols, most significant first. *)
Definition word_value (w : list symbol_t) : Z :=
  fold_left (fun acc s => 2 * acc + (if symbol_eqb s ONE then 1 else 0)) w 0.

(** Spread layout: one scratch cell, here blank, before each bit. *)
Definition spread (w : list symbol_t) : list symbol_t :=
  flat_map (fun b => [BLANK; b]) w.

(** A word whose bits are each followed by a blank cell. *)
Definition spread_after (w : list symbol_t) : list symbol_t :=
  flat_map (fun b => [b; BLANK]) w.

(** Interleaved layout: each main bit followed by its scratch partner. *)
Fixpoint interleaved (main scratch : list symbol_t) : list symbol_t :=
  match main, scratch with
  | a :: m, b :: s => a :: b :: interleaved m s
  | _, _ => []
  end.

(** Ripple-carry addition and subtraction on bit pairs (main, scratch),
    least significant first; the result bits come out least significant
    first too. *)
Fixpoint add_bits (c : bool) (ps : list (bool * bool)) : list bool :=
  match ps with
  | [] => []
  | (a, b) :: ps' =>
      xorb (xorb a b) c :: add_bits ((a && b) || (c && (a || b))) ps'
  end.

Fixpoint sub_bits (c : bool) (ps : list (bool * bool)) : list bool :=
  match ps with
  | [] => []
  | (a, b) :: ps' =>
      xorb (xorb a b) c :: sub_bits ((negb a && (b || c)) || (b && c)) ps'
  end.

(** The [n] low bits of [x], least significant first. *)
Fixpoint lsb_bits (n : nat) (x : Z) : list bool :=
  match n with
  | O => []
  | S n' => Z.odd x :: lsb_bits n' (x / 2)
  end.

(** The cells an adder run reads going left from its start cell: scratch
    bit, main bit, scratch bit, main bit, ... *)
Definition pair_stream (ps : list (bool * bool)) : list symbol_t :=
  flat_map (fun p => [sym (snd p); sym (fst p)]) ps.

(** What the run leaves right of the head: the result bits, most
    significant first, each followed by a blanked scratch cell. *)
Fixpoint result_cells (res : list bool) (R : list symbol_t) : list symbol_t :=
  match res with
  | [] => R
  | b :: res' => result_cells res' (sym b :: BLANK :: R)
  end.

(** The tape with the cells [l] to the left (nearest first, the first of
    them under the head) and [R] right of the head. *)
Definition tape_of (l : list symbol_t) (R : list symbol_t) : tape :=
  mkTape (tl l) (hd BLANK l :: R).

Definition bit_pairs (n : nat) (a b : Z) : list (bool * bool) :=
  combine (lsb_bits n a) (lsb_bits n b).

(** [avoid bad xs]: none of the cells [xs] holds a symbol of [bad]. *)
Definition avoid (bad : list symbol_t) (xs : list symbol_t) : bool :=
  forallb (fun s => negb (existsb (symbol_eqb s) bad)) xs.

(** Cells on which the block [g] of [q] moves on in direction [d] and stays
    in [q], leaving the cell as it is. *)
Definition passes (g : symbol_t -> action) (q d : Z) (s : symbol_t) : Prop :=
  g s = (s, d, q).

(** The tape with the cells [before] left of the head (in tape order) and
    [after] from the head on. *)
Definition tape_at (before after : list symbol_t) : tape :=
  mkTape (rev before) after.

(** ** The layout of the tape the prologue builds *)

(** A register entry (index, value) or a memory entry (address, value). *)
Inductive entry : Type :=
  | RegE (idx val : Z)
  | MemE (addr val : Z).

Definition entry_cells (e : entry) : list symbol_t :=
  match e with
  | RegE i v =>
      [BLANK; REGISTER] ++ spread (word_bits 8 i) ++
      [BLANK; VALUE] ++ spread (word_bits 8 v)
  | MemE a v =>
      [BLANK; ADDRESS] ++ spread (word_bits 8 a) ++
      [BLANK; VALUE] ++ spread (word_bits 8 v)
  end.

Definition entries_cells (es : list entry) : list symbol_t :=
  flat_map entry_cells es.

(** An output cell: marker, word in spread layout, one blank. *)
Definition output_cells (v : Z) : list symbol_t :=
  OUTPUT :: spread (word_bits 8 v) ++ [BLANK].

Definition outputs_cells (vs : list Z) : list symbol_t :=
  flat_map output_cells vs.

(** A well-formed tape: start sentinel, entries, a blank, the output cells
    written so far, end sentinel. *)
Definition wf_cells (es : list entry) (outs : list Z) : list symbol_t :=
  START :: entries_cells es ++ [BLANK] ++ outputs_cells outs ++ [END].

(** No register entry of [es] has index [reg] (as an 8-bit word). *)
Definition reg_absent (reg : Z) (es : list entry) : bool :=
  forallb (fun e => match e with
                    | RegE i _ => negb (i mod 256 =? reg mod 256)
                    | MemE _ _ => true
                    end) es.

(** A computation that never aborts. *)
Definition succeeds {A} (c : M A) : Prop :=
  forall st, is_ok (c st) = true.

Definition all_bits (w : list symbol_t) : bool := forallb is_bit w.

(** The cells a copy writes at the destination: in spread mode a blank
    before each bit ([pad = [BLANK]]), in compact mode the bits alone
    ([pad = []]). *)
Definition padded (pad : list symbol_t) (w : list symbol_t) : list symbol_t :=
  flat_map (fun b => pad ++ [b]) w.

(** Executable form of [deterministic]: no later line repeats the state and
    read symbol of an earlier one. *)
Fixpoint deterministicb (T : list transition) : bool :=
  match T with
  | [] => true
  | t :: T' =>
      negb (existsb (matches (tr_q t) (tr_a t)) T') && deterministicb T'
  end.

(** The configuration after exactly [n] steps, if the machine runs that
    long. *)
Fixpoint run_exact (n : nat) (T : list transition) (c : config) : option config :=
  match n with
  | O => Some c
  | S n' => match step_fn T c with
            | Some c' => run_exact n' T c'
            | None => None
            end
  end.

(** None of the first [k] configurations of the run from [c0] is in state
    [r]. *)
Definition avoids_state (r : Z) (k : nat) (T : list transition) (c0 : config) : bool :=
  forallb (fun j => match run_exact j T c0 with
                    | Some c => negb (fst c =? r)
                    | None => true
                    end) (seq 0 (S k)).

(** The table [tm_copy] emits for direction 0, and two tapes with a source
    word holding 165: one with the destination marker to the right of the
    source, one with the marker to the left. *)
Definition copy0_table : list transition :=
  table (final (tm_copy 0 0 1 (mkG 3 2 []))).

Definition copy_tape_right : tape :=
  tape_at [VALUE]
    (BLANK :: spread_after (word_bits 8 165) ++ [REGISTER] ++
       DST :: repeat BLANK 16 ++ [END]).

Definition copy_tape_left : tape :=
  tape_at ([START] ++ DST :: repeat BLANK 16 ++ [REGISTER])
    (BLANK :: spread_after (word_bits 8 165) ++ [REGISTER; END]).

(** The bits [i .. 1] of [x], as the loop of [tm_write_bits] writes them. *)
Fixpoint loop_bits (i : nat) (x : Z) : list symbol_t :=
  match i with
  | O => []
  | S i' => bit_symbol x i :: loop_bits i' x
  end.

(** The value the entries [es] hold for register [reg], if any. *)
Fixpoint reg_value (reg : Z) (es : list entry) : option Z :=
  match es with
  | [] => None
  | RegE i v :: es' =>
      if i mod 256 =? reg mod 256 then Some v else reg_value reg es'
  | MemE _ _ :: es' => reg_value reg es'
  end.

(** The cells of a tape in tape order, from the leftmost cell visited. *)
Definition tape_cells (tp : tape) : list symbol_t :=
  rev (left tp) ++ right tp.

(** The [k] cells from position [n] on; the tape is blank beyond [cells]. *)
Definition cells_from (n k : nat) (cells : list symbol_t) : list symbol_t :=
  firstn k (skipn n cells ++ repeat BLANK k).

(** The table of a lone EXIT entered in state 5, and a well-formed tape with
    one register and the two output cells 72 and 105. *)
Definition exit_table : list transition :=
  table (final (translate_exit 5 (mkG 7 6 []))).

Definition exit_cells : list symbol_t := wf_cells [RegE 0 3] [72; 105].

Definition exit_tape : tape := tape_at [] exit_cells.

(** The first configuration without an applicable line, within [fuel] steps. *)
Fixpoint run_to_halt (fuel : nat) (T : list transition) (c : config) : option config :=
  match step_fn T c with
  | None => Some c
  | Some c' => match fuel with
               | O => None
               | S n => run_to_halt n T c'
               end
  end.

(* ================================================================= *)
(** ** Invariants of the generator *)

(** [c] keeps the invariant [I] of the globals, whether it returns or
    aborts, and its result satisfies [Q] when it returns. *)
Definition keeps (I : gstate -> Prop) {A} (c : M A) (Q : A -> Prop) : Prop :=
  forall st, I st ->
    I (final (c st)) /\ forall a st', c st = Ok a st' -> Q a.

(** The state a line of a block leads to. *)
Definition action_target (x : action) : Z := snd x.

(** The program counters and the immediate jump targets of [txt] satisfy
    [ok]. *)
Definition targets_ok (ok : Z -> Prop) (txt : list Inst) : Prop :=
  forall inst, In inst txt ->
    ok (pc inst) /\ (forall i, jmp inst = IMM i -> ok i).

(** Every state that has a line in [T] has a line for every symbol. *)
Definition total (T : list transition) : Prop :=
  forall t, In t T ->
    forall s, exists t', In t' T /\ tr_q t' = tr_q t /\ tr_a t' = s.



(** The lines [E0] were emitted first and are still there. *)
Definition extends_from (E0 : list transition) (st : gstate) : Prop :=
  exists L, emitted st = L ++ E0.

(** A path in the graph of a table: [r] can be reached from [q] by
    following lines, whatever the tape holds. *)
Inductive path (T : list transition) : Z -> Z -> Prop :=
  | path_refl q : path T q q
  | path_step t q r :
      In t T -> tr_q t = q -> path T (tr_r t) r -> path T q r.

(** The state reached from [q] by following, for each symbol of [l] in
    turn, the first line for the current state and that symbol. *)
Fixpoint chase (T : list transition) (q : Z) (l : list symbol_t) : Z :=
  match l with
  | [] => q
  | a :: l' =>
      match find (matches q a) T with
      | Some t => chase T (tr_r t) l'
      | None => q
      end
  end.

(** The shapes [target_tm] stops on with [error]: a jump through a register
    or with an invalid operand (lines 396-400), an ADD or SUB of a register
    to itself or with an invalid source (lines 374-383), a MOV or PUTC with
    an invalid source (lines 360, 414), an unknown opcode (line 439). *)
Definition error_shape (inst : Inst) : bool :=
  match op inst with
  | JMP => match jmp inst with IMM _ => false | _ => true end
  | ADD | SUB =>
      match dst inst, src inst with
      | REG d, REG s => d =? s
      | _, TMP => true
      | _, _ => false
      end
  | MOV | PUTC => match src inst with TMP => true | _ => false end
  | OTHER_OP => true
  | EXIT | DUMP => false
  end.


Definition mov_module : Module :=
  mkModule [mkInst MOV 0 (REG 0) (IMM 1) TMP; mkInst EXIT 0 TMP TMP TMP] [].

Definition jmp_reg_module : Module :=
  mkModule [mkInst JMP 0 TMP TMP (REG 1)] [].

Definition add_same_module : Module :=
  mkModule [mkInst ADD 0 (REG 1) (REG 1) TMP] [].

(** A jump over a block: pc 0 jumps to pc 2, pc 1 is skipped. *)
Definition jump_module : Module :=
  mkModule [mkInst JMP 0 TMP TMP (IMM 2);
            mkInst PUTC 1 TMP (IMM 65) TMP;
            mkInst EXIT 2 TMP TMP TMP] [].

(** [c] only adds lines. *)
Definition extends {A} (c : M A) : Prop :=
  forall st a st', c st = Ok a st' -> incl (emitted st) (emitted st').





(* ================================================================= *)
(** ** Further notions used to describe the generator and its machines *)

(** The instructions [target_tm] translates without stopping: the
    destination of MOV, ADD and SUB is a register (the [assert]s of lines
    348 and 369); the source of MOV and PUTC is a register or an immediate;
    the source of ADD and SUB is an immediate or another register; a jump
    has an immediate target; EXIT and DUMP always pass; any other opcode
    stops the generator. *)
Definition supported (inst : Inst) : bool :=
  match op inst with
  | MOV =>
      match dst inst, src inst with
      | REG _, REG _ | REG _, IMM _ => true
      | _, _ => false
      end
  | ADD | SUB =>
      match dst inst, src inst with
      | REG d, REG s => negb (d =? s)
      | REG _, IMM _ => true
      | _, _ => false
      end
  | JMP => match jmp inst with IMM _ => true | _ => false end
  | PUTC => match src inst with TMP => false | _ => true end
  | EXIT | DUMP => true
  | OTHER_OP => false
  end.



(* ================================================================= *)
(** ** A reference for programs without jumps *)












(* ================================================================= *)
(** ** One line for each state and symbol *)

(** What a machine looks a line up by. *)
Definition key (t : transition) : Z * symbol_t := (tr_q t, tr_a t).

(** The lines [E] have different keys and are for states below the counter
    [n]; the states of [pend] lie below [n] too and have no line yet. *)
Definition lin_lines (pend : Z -> Prop) (n : Z) (E : list transition) : Prop :=
  NoDup (map key E) /\
  (forall t, In t E -> tr_q t < n /\ ~ pend (tr_q t)) /\
  (forall x, pend x -> x < n).

Definition lin_inv (pend : Z -> Prop) (st : gstate) : Prop :=
  lin_lines pend (next_state st) (emitted st).

(** [c] writes the lines of the pending state [q] and of states it
    allocates, one block each, and returns [r]; the other pending states
    [F] are left without lines. *)
Definition lin_at (q r : Z) (c : M Z) : Prop :=
  forall (F : Z -> Prop) st a st',
    c st = Ok a st' -> ~ F q ->
    lin_inv (fun x => x = q \/ F x) st ->
    a = r /\ lin_inv F st'.

(** The same for a [c] that returns a state still without lines, from
    which the next emitter goes on. *)
Definition lin_seq (q : Z) (c : M Z) : Prop :=
  forall (F : Z -> Prop) st a st',
    c st = Ok a st' -> ~ F q ->
    lin_inv (fun x => x = q \/ F x) st ->
    lin_inv (fun x => x = a \/ F x) st' /\ ~ F a.




(* ================================================================= *)
(** * Proofs *)

(** ** Symbols *)

Lemma symbol_eqb_eq (a b : symbol_t) : symbol_eqb a b = true <-> a = b.
Proof. destruct a, b; simpl; split; intro H; congruence. Qed.

Lemma symbol_eqb_refl (a : symbol_t) : symbol_eqb a a = true.
Proof. destruct a; reflexivity. Qed.

Lemma symbol_eqb_neq (a b : symbol_t) : a <> b -> symbol_eqb a b = false.
Proof.
  intro H. destruct (symbol_eqb a b) eqn:E; [|reflexivity].
  apply symbol_eqb_eq in E. contradiction.
Qed.

Lemma all_symbols_complete (s : symbol_t) : In s all_symbols.
Proof. destruct s; simpl; tauto. Qed.

Lemma all_symbols_length : List.length all_symbols = num_symbols.
Proof. reflexivity. Qed.

(** ** Inversion of the monad *)

Lemma bind_inv {A B} (c : M A) (f : A -> M B) st b st2 :
  bind c f st = Ok b st2 ->
  exists a st1, c st = Ok a st1 /\ f a st1 = Ok b st2.
Proof.
  unfold bind. destruct (c st) as [a st1|msg st1]; intro H.
  - exists a, st1. auto.
  - discriminate.
Qed.

Lemma ret_inv {A} (a b : A) st st' : ret a st = Ok b st' -> b = a /\ st' = st.
Proof. unfold ret. intro H. inversion H. auto. Qed.

Lemma new_state_inv st r st' :
  new_state st = Ok r st' ->
  r = next_state st /\
  st' = mkG (next_state st + 1) (q_reject st) (emitted st).
Proof. unfold new_state. intro H. inversion H. auto. Qed.

Lemma get_q_reject_inv st r st' :
  get_q_reject st = Ok r st' -> r = q_reject st /\ st' = st.
Proof. unfold get_q_reject. intro H. inversion H. auto. Qed.

(** ** The primitive emitters write blocks *)

Lemma for_each_ext {A} (l : list A) (f g : A -> M unit) :
  (forall x st, f x st = g x st) ->
  forall st, for_each l f st = for_each l g st.
Proof.
  intros E. induction l as [|x l IH]; intro st; simpl; [reflexivity|].
  unfold bind. rewrite E. destruct (g x st); auto.
Qed.

Lemma emit_loop_ok q g l : forall st u st',
  emit_loop q g l st = Ok u st' ->
  st' = mkG (next_state st) (q_reject st)
            (rev (map (act_line q g) l) ++ emitted st).
Proof.
  unfold emit_loop.
  induction l as [|s l IH]; intros st u st' H; simpl in H.
  - apply ret_inv in H. destruct H as [_ ->]. destruct st; reflexivity.
  - apply bind_inv in H. destruct H as (x & st1 & H1 & H2).
    apply IH in H2. subst st'.
    destruct (g s) as [[b d] r] eqn:G.
    assert (E : act_line q g s = mkT q s r b d)
      by (unfold act_line; rewrite G; reflexivity).
    unfold tm_transition in H1.
    destruct ((d =? -1) || (d =? 0) || (d =? 1)).
    + unfold bind, emit_line, ret in H1. inversion H1. simpl.
      rewrite E, <- app_assoc. reflexivity.
    + unfold bind, error in H1. discriminate.
Qed.

Lemma emit_block_ok q g (r : Z) st a st' :
  (emit_loop q g all_symbols ;;; ret r) st = Ok a st' ->
  a = r /\ st' = add_block q g st.
Proof.
  intro H. apply bind_inv in H. destruct H as (u & st1 & H1 & H2).
  apply ret_inv in H2. destruct H2 as [-> ->].
  apply emit_loop_ok in H1. auto.
Qed.

Ltac emitter_is_block :=
  intros; unfold emit_loop; apply for_each_ext; intros s0 st0;
  repeat match goal with
         | |- context [symbol_eqb ?x ?y] => destruct (symbol_eqb x y)
         end; reflexivity.

Lemma tm_write_inv q b d r st a st' :
  tm_write q b d r st = Ok a st' ->
  a = r /\ st' = add_block q (act_write b d r) st.
Proof.
  intro H. apply emit_block_ok. rewrite <- H. unfold tm_write, bind.
  replace (emit_loop q (act_write b d r) all_symbols st)
    with (for_each all_symbols
            (fun a0 => tm_transition q a0 b d r ;;; ret tt) st);
    [reflexivity|]. unfold act_write. emitter_is_block.
Qed.

Lemma tm_write_if_inv q a ba da ra b d r st x st' :
  tm_write_if q a ba da ra b d r st = Ok x st' ->
  x = r /\ st' = add_block q (act_write_if a ba da ra b d r) st.
Proof.
  intro H. apply emit_block_ok. rewrite <- H. unfold tm_write_if, bind.
  match goal with
  | |- match ?u with _ => _ end = match ?v with _ => _ end =>
      replace u with v; [reflexivity|]
  end. unfold act_write_if. emitter_is_block.
Qed.

Lemma tm_write_if2_inv q a1 b1 d1 r1 a2 b2 d2 r2 b d r st x st' :
  tm_write_if2 q a1 b1 d1 r1 a2 b2 d2 r2 b d r st = Ok x st' ->
  x = r /\ st' = add_block q (act_write_if2 a1 b1 d1 r1 a2 b2 d2 r2 b d r) st.
Proof.
  intro H. apply emit_block_ok. rewrite <- H. unfold tm_write_if2, bind.
  match goal with
  | |- match ?u with _ => _ end = match ?v with _ => _ end =>
      replace u with v; [reflexivity|]
  end. unfold act_write_if2. emitter_is_block.
Qed.

Lemma tm_move_inv q d r st x st' :
  tm_move q d r st = Ok x st' ->
  x = r /\ st' = add_block q (act_move d r) st.
Proof.
  intro H. apply emit_block_ok. rewrite <- H. unfold tm_move, bind.
  match goal with
  | |- match ?u with _ => _ end = match ?v with _ => _ end =>
      replace u with v; [reflexivity|]
  end. unfold act_move. emitter_is_block.
Qed.

Lemma tm_move_if_inv q a da ra d r st x st' :
  tm_move_if q a da ra d r st = Ok x st' ->
  x = r /\ st' = add_block q (act_move_if a da ra d r) st.
Proof.
  intro H. apply emit_block_ok. rewrite <- H. unfold tm_move_if, bind.
  match goal with
  | |- match ?u with _ => _ end = match ?v with _ => _ end =>
      replace u with v; [reflexivity|]
  end. unfold act_move_if. emitter_is_block.
Qed.

Lemma tm_move_if2_inv q a da ra b db rb d r st x st' :
  tm_move_if2 q a da ra b db rb d r st = Ok x st' ->
  x = r /\ st' = add_block q (act_move_if2 a da ra b db rb d r) st.
Proof.
  intro H. apply emit_block_ok. rewrite <- H. unfold tm_move_if2, bind.
  match goal with
  | |- match ?u with _ => _ end = match ?v with _ => _ end =>
      replace u with v; [reflexivity|]
  end. unfold act_move_if2. emitter_is_block.
Qed.


(** ** Runs of a table *)

Lemma steps_trans T c1 c2 c3 : steps T c1 c2 -> steps T c2 c3 -> steps T c1 c3.
Proof.
  induction 1 as [|c1 c2 c2' Hs _ IH]; intro H; [assumption|].
  eapply steps_step; [exact Hs | apply IH, H].
Qed.

Lemma steps_one T c1 c2 : step T c1 c2 -> steps T c1 c2.
Proof. intro H. eapply steps_step; [exact H | apply steps_refl]. Qed.

Lemma steps_incl T T' c1 c2 : incl T T' -> steps T c1 c2 -> steps T' c1 c2.
Proof.
  intros HI H. induction H as [|c1 c2 c3 Hs _ IH]; [apply steps_refl|].
  eapply steps_step; [|exact IH].
  destruct Hs as [t q tp Hin Hq Ha]. apply step_intro; auto.
Qed.

Lemma steps_eq T c1 c2 : c1 = c2 -> steps T c1 c2.
Proof. intros ->. apply steps_refl. Qed.

Lemma block_step T q g tp :
  has_block T q g -> step T (q, tp) (act_apply g tp).
Proof.
  intro H. specialize (H (read tp)). unfold act_line in H.
  unfold act_apply. destruct (g (read tp)) as [[b d] r].
  exact (step_intro T (mkT q (read tp) r b d) q tp H eq_refl eq_refl).
Qed.

Lemma sub_add_block q g st T :
  sub (add_block q g st) T -> has_block T q g /\ sub st T.
Proof.
  unfold sub, add_block, has_block. cbn [emitted]. intro H.
  apply incl_app_inv in H. destruct H as [H1 H2]. split; [|exact H2].
  intro s. apply H1. rewrite <- in_rev. unfold block.
  apply in_map. apply all_symbols_complete.
Qed.

Lemma sub_counter n rej st T :
  sub (mkG n rej (emitted st)) T -> sub st T.
Proof. unfold sub. simpl. auto. Qed.

Lemma sub_block n rej q g e T :
  sub (mkG n rej (rev (block q g) ++ e)) T ->
  has_block T q g /\ sub (mkG n rej e) T.
Proof.
  intro H. apply (sub_add_block q g (mkG n rej e) T). exact H.
Qed.

Ltac gen_norm :=
  unfold add_block in *;
  cbn [next_state q_reject emitted Z.ltb Z.compare Z.opp] in *.

(** Unfold the generator [f] at the head of [H] by rewriting, so that the
    kernel never has to compare a folded run with an unfolded one. *)
Ltac unfold_gen f H :=
  lazymatch type of H with
  | ?c ?st = ?rhs =>
      let c' := eval unfold f in c in
      let E := fresh "E" in
      assert (E : c = c') by reflexivity;
      rewrite E in H; clear E
  end.

(** Decompose a successful generator run into its primitive calls. *)
Ltac gen_inv H :=
  lazymatch type of H with
  | bind _ _ _ = Ok _ _ =>
      let a := fresh "a" in let st := fresh "st" in
      let H1 := fresh "G" in let H2 := fresh "G" in
      apply bind_inv in H; destruct H as (a & st & H1 & H2);
      gen_inv H1; gen_inv H2
  | ret _ _ = Ok _ _ =>
      apply ret_inv in H; destruct H as [? ?]; subst; gen_norm
  | new_state _ = Ok _ _ =>
      apply new_state_inv in H; destruct H as [? ?]; subst; gen_norm
  | get_q_reject _ = Ok _ _ =>
      apply get_q_reject_inv in H; destruct H as [? ?]; subst; gen_norm
  | tm_write _ _ _ _ _ = Ok _ _ =>
      apply tm_write_inv in H; destruct H as [? ?]; subst; gen_norm
  | tm_write_if _ _ _ _ _ _ _ _ _ = Ok _ _ =>
      apply tm_write_if_inv in H; destruct H as [? ?]; subst; gen_norm
  | tm_write_if2 _ _ _ _ _ _ _ _ _ _ _ _ _ = Ok _ _ =>
      apply tm_write_if2_inv in H; destruct H as [? ?]; subst; gen_norm
  | tm_move _ _ _ _ = Ok _ _ =>
      apply tm_move_inv in H; destruct H as [? ?]; subst; gen_norm
  | tm_move_if _ _ _ _ _ _ _ = Ok _ _ =>
      apply tm_move_if_inv in H; destruct H as [? ?]; subst; gen_norm
  | tm_move_if2 _ _ _ _ _ _ _ _ _ _ = Ok _ _ =>
      apply tm_move_if2_inv in H; destruct H as [? ?]; subst; gen_norm
  | tm_noop _ _ _ = Ok _ _ => unfold_gen tm_noop H; gen_inv H
  | tm_find _ _ _ _ _ _ = Ok _ _ => unfold_gen tm_find H; gen_inv H
  | tm_rewind _ _ _ = Ok _ _ => unfold_gen tm_rewind H; gen_inv H
  | tm_ffwd _ _ _ = Ok _ _ => unfold_gen tm_ffwd H; gen_inv H
  | _ => idtac
  end.

(** Split [sub st T] along the blocks [st] is made of. *)
Ltac sub_inv H :=
  repeat lazymatch type of H with
         | sub (mkG _ _ (rev (block _ _) ++ _)) _ =>
             let B := fresh "B" in
             apply sub_block in H; destruct H as [B H]
         | sub (mkG _ _ (emitted _)) _ => apply sub_counter in H
         end.

(** One step through the block of the current state. *)
Ltac tape_simpl :=
  cbn [act_apply tape_of read write move hd tl left right fst snd
       act_write act_write_if act_write_if2 act_move act_move_if act_move_if2
       symbol_eqb Z.eqb Pos.eqb Z.opp app rev flat_map map sym
       pair_stream spread spread_after].

Ltac do_step :=
  eapply steps_step; [ eapply block_step; eassumption | tape_simpl ].


(** ** Computations that never abort *)

Lemma succeeds_ret {A} (a : A) : succeeds (ret a).
Proof. intro st. reflexivity. Qed.

Lemma succeeds_bind {A B} (c : M A) (f : A -> M B) :
  succeeds c -> (forall a, succeeds (f a)) -> succeeds (bind c f).
Proof.
  intros Hc Hf st. unfold bind. specialize (Hc st).
  destruct (c st) as [a st'|]; [apply Hf | discriminate].
Qed.

Lemma succeeds_new_state : succeeds new_state.
Proof. intro st. reflexivity. Qed.

Lemma succeeds_get_q_reject : succeeds get_q_reject.
Proof. intro st. reflexivity. Qed.

Lemma succeeds_emit_loop q g l :
  (forall s, valid_dir (snd (fst (g s))) = true) ->
  succeeds (emit_loop q g l).
Proof.
  intro Hv. unfold emit_loop.
  induction l as [|s l IH]; [apply succeeds_ret|].
  cbn [for_each]. apply succeeds_bind; [|intros _; exact IH].
  specialize (Hv s). destruct (g s) as [[b d] r]. cbn [fst snd] in Hv.
  unfold tm_transition, valid_dir in *. rewrite Hv.
  intro st. reflexivity.
Qed.

Lemma succeeds_ext {A} (c c' : M A) :
  (forall st, c st = c' st) -> succeeds c' -> succeeds c.
Proof. intros E H st. rewrite E. apply H. Qed.

Ltac succeeds_block q g :=
  intros;
  match goal with
  | |- succeeds (bind _ (fun _ => ret ?r)) =>
      apply succeeds_bind; [|intros _; apply succeeds_ret];
      apply (succeeds_ext _ (emit_loop q g all_symbols));
      [ intro st1; unfold emit_loop; apply for_each_ext; intros s0 st0;
        repeat match goal with
               | |- context [symbol_eqb ?x ?y] => destruct (symbol_eqb x y)
               end; reflexivity
      | apply succeeds_emit_loop; intro s0; cbv beta;
        repeat match goal with
               | |- context [symbol_eqb ?x ?y] => destruct (symbol_eqb x y)
               end; cbn [fst snd]; assumption ]
  end.

Lemma succeeds_tm_write q b d r :
  valid_dir d = true -> succeeds (tm_write q b d r).
Proof.
  unfold tm_write.
  succeeds_block q (fun _ : symbol_t => (b, d, r)).
Qed.

Lemma succeeds_tm_move q d r :
  valid_dir d = true -> succeeds (tm_move q d r).
Proof.
  unfold tm_move.
  succeeds_block q (fun s : symbol_t => (s, d, r)).
Qed.

Lemma succeeds_tm_write_if q a ba da ra b d r :
  valid_dir da = true -> valid_dir d = true ->
  succeeds (tm_write_if q a ba da ra b d r).
Proof.
  unfold tm_write_if.
  succeeds_block q (fun s : symbol_t =>
                    if symbol_eqb s a then (ba, da, ra) else (b, d, r)).
Qed.

Lemma succeeds_tm_write_if2 q a1 b1 d1 r1 a2 b2 d2 r2 b d r :
  valid_dir d1 = true -> valid_dir d2 = true -> valid_dir d = true ->
  succeeds (tm_write_if2 q a1 b1 d1 r1 a2 b2 d2 r2 b d r).
Proof.
  unfold tm_write_if2.
  succeeds_block q (fun s : symbol_t =>
                    if symbol_eqb s a1 then (b1, d1, r1)
                    else if symbol_eqb s a2 then (b2, d2, r2) else (b, d, r)).
Qed.

Lemma succeeds_tm_move_if q a da ra d r :
  valid_dir da = true -> valid_dir d = true ->
  succeeds (tm_move_if q a da ra d r).
Proof.
  unfold tm_move_if.
  succeeds_block q (fun s : symbol_t =>
                    if symbol_eqb s a then (s, da, ra) else (s, d, r)).
Qed.

Lemma succeeds_tm_move_if2 q a da ra b db rb d r :
  valid_dir da = true -> valid_dir db = true -> valid_dir d = true ->
  succeeds (tm_move_if2 q a da ra b db rb d r).
Proof.
  unfold tm_move_if2.
  succeeds_block q (fun s : symbol_t =>
                    if symbol_eqb s a then (s, da, ra)
                    else if symbol_eqb s b then (s, db, rb) else (s, d, r)).
Qed.

Lemma valid_dir_opp d : valid_dir d = true -> valid_dir (- d) = true.
Proof.
  unfold valid_dir. intro H.
  destruct (Z.eq_dec d (-1)) as [->|]; [reflexivity|].
  destruct (Z.eq_dec d 0) as [->|]; [reflexivity|].
  destruct (Z.eq_dec d 1) as [->|]; [reflexivity|].
  exfalso. repeat (apply orb_true_iff in H; destruct H as [H|H]);
    apply Z.eqb_eq in H; contradiction.
Qed.

Lemma valid_dir_intcmp x y : valid_dir (intcmp x y) = true.
Proof.
  unfold intcmp. destruct (x >? y); [reflexivity|].
  destruct (x <? y); reflexivity.
Qed.

(** Prove that a straight-line composition of emitters never aborts. *)
Ltac succeeds_step :=
  lazymatch goal with
  | |- succeeds (ret _) => apply succeeds_ret
  | |- succeeds new_state => apply succeeds_new_state
  | |- succeeds get_q_reject => apply succeeds_get_q_reject
  | |- succeeds (tm_write _ _ _ _) => apply succeeds_tm_write
  | |- succeeds (tm_write_if _ _ _ _ _ _ _ _) => apply succeeds_tm_write_if
  | |- succeeds (tm_write_if2 _ _ _ _ _ _ _ _ _ _ _ _) =>
      apply succeeds_tm_write_if2
  | |- succeeds (tm_move _ _ _) => apply succeeds_tm_move
  | |- succeeds (tm_move_if _ _ _ _ _ _) => apply succeeds_tm_move_if
  | |- succeeds (tm_move_if2 _ _ _ _ _ _ _ _ _) => apply succeeds_tm_move_if2
  | |- succeeds (bind _ _) => apply succeeds_bind; [|intro]
  | |- succeeds (if ?c then _ else _) => destruct c
  | |- valid_dir _ = true =>
      first [ reflexivity | assumption
            | apply valid_dir_opp; assumption | apply valid_dir_intcmp ]
  end.

Ltac succeeds_tac := repeat succeeds_step.

Lemma succeeds_tm_noop q r : succeeds (tm_noop q r).
Proof. unfold tm_noop. succeeds_tac. Qed.

Lemma succeeds_tm_find q d a ry rn :
  valid_dir d = true -> succeeds (tm_find q d a ry rn).
Proof. intro H. unfold tm_find. succeeds_tac. Qed.

Lemma succeeds_tm_rewind q r : succeeds (tm_rewind q r).
Proof. unfold tm_rewind. succeeds_tac. Qed.

Lemma succeeds_tm_ffwd q r : succeeds (tm_ffwd q r).
Proof. unfold tm_ffwd. succeeds_tac. Qed.

Lemma succeeds_tm_write_bits_loop i : forall q x,
  succeeds (tm_write_bits_loop i q x).
Proof.
  induction i as [|i IH]; intros q x; cbn [tm_write_bits_loop].
  - apply succeeds_ret.
  - succeeds_tac. apply IH.
Qed.

Lemma succeeds_tm_write_bits q x n r : succeeds (tm_write_bits q x n r).
Proof.
  unfold tm_write_bits. apply succeeds_bind;
    [apply succeeds_tm_write_bits_loop | intro]. succeeds_tac.
Qed.

Lemma succeeds_tm_find_register_loop k : forall qstart q reg,
  succeeds (tm_find_register_loop k qstart q reg).
Proof.
  induction k as [|k IH]; intros qstart q reg; cbn [tm_find_register_loop].
  - apply succeeds_ret.
  - succeeds_tac. apply IH.
Qed.

Ltac succeeds_step2 :=
  lazymatch goal with
  | |- succeeds (tm_noop _ _) => apply succeeds_tm_noop
  | |- succeeds (tm_find _ _ _ _ _) => apply succeeds_tm_find
  | |- succeeds (tm_rewind _ _) => apply succeeds_tm_rewind
  | |- succeeds (tm_ffwd _ _) => apply succeeds_tm_ffwd
  | |- succeeds (tm_write_bits _ _ _ _) => apply succeeds_tm_write_bits
  | |- succeeds (tm_write_word _ _ _) =>
      unfold tm_write_word; apply succeeds_tm_write_bits
  | |- succeeds (tm_write_byte _ _ _) =>
      unfold tm_write_byte; apply succeeds_tm_write_bits
  | |- succeeds (tm_find_register_loop _ _ _ _) =>
      apply succeeds_tm_find_register_loop
  | _ => succeeds_step
  end.

Lemma succeeds_tm_find_register q reg r : succeeds (tm_find_register q reg r).
Proof. unfold tm_find_register. repeat succeeds_step2. Qed.

Lemma succeeds_tm_copy_helper q d mode r :
  valid_dir d = true -> succeeds (tm_copy_helper q d mode r).
Proof. intro H. unfold tm_copy_helper. repeat succeeds_step2. Qed.

Lemma succeeds_tm_add q r : succeeds (tm_add q r).
Proof. unfold tm_add. succeeds_tac. Qed.

Lemma succeeds_tm_sub q r : succeeds (tm_sub q r).
Proof. unfold tm_sub. succeeds_tac. Qed.

Ltac succeeds_step3 :=
  lazymatch goal with
  | |- succeeds (tm_find_register _ _ _) => apply succeeds_tm_find_register
  | |- succeeds (tm_copy_helper _ _ _ _) => apply succeeds_tm_copy_helper
  | |- succeeds (tm_copy _ _ _) =>
      unfold tm_copy; apply succeeds_tm_copy_helper
  | |- succeeds (tm_copy_to_scratch _ _ _) =>
      unfold tm_copy_to_scratch; apply succeeds_tm_copy_helper
  | |- succeeds (tm_copy_compact _ _ _) =>
      unfold tm_copy_compact; apply succeeds_tm_copy_helper
  | |- succeeds (tm_add _ _) => apply succeeds_tm_add
  | |- succeeds (tm_sub _ _) => apply succeeds_tm_sub
  | _ => succeeds_step2
  end.

Lemma succeeds_inv {A} (c : M A) st :
  succeeds c -> exists a st', c st = Ok a st'.
Proof.
  intro H. specialize (H st). destruct (c st) as [a st'|]; [eauto|discriminate].
Qed.


(** ** Words and bits *)

Lemma lsb_bits_testbit n : forall x,
  lsb_bits n x = map (fun i => Z.testbit x (Z.of_nat i)) (seq 0 n).
Proof.
  induction n as [|n IH]; intro x; [reflexivity|].
  cbn [lsb_bits seq map]. rewrite <- Z.bit0_odd. f_equal.
  rewrite IH, <- seq_shift, map_map. apply map_ext. intro i.
  rewrite Nat2Z.inj_succ. apply Z.div2_bits. lia.
Qed.

Lemma word_bits_rev_seq n x :
  word_bits n x = map (bit_symbol x) (rev (seq 0 n)).
Proof.
  induction n as [|n IH]; [reflexivity|].
  rewrite seq_S, rev_app_distr. simpl. rewrite IH. reflexivity.
Qed.

Lemma word_bits_lsb n x : word_bits n x = map sym (rev (lsb_bits n x)).
Proof.
  rewrite word_bits_rev_seq, lsb_bits_testbit, <- map_rev, map_map.
  reflexivity.
Qed.

Lemma word_bits_mod n m x :
  (n <= m)%nat -> word_bits n (x mod 2 ^ Z.of_nat m) = word_bits n x.
Proof.
  intro H. induction n as [|n IH]; [reflexivity|].
  simpl. rewrite IH by lia. f_equal. unfold bit_symbol.
  rewrite Z.mod_pow2_bits_low by lia. reflexivity.
Qed.

Lemma word_bits_length n x : List.length (word_bits n x) = n.
Proof. induction n; simpl; auto. Qed.

(** Round trip of the word encoding. *)
Lemma word_value_app w s :
  word_value (w ++ [s]) = 2 * word_value w + (if symbol_eqb s ONE then 1 else 0).
Proof. unfold word_value. rewrite fold_left_app. reflexivity. Qed.

Lemma odd_decompose x : x = 2 * (x / 2) + Z.b2z (Z.odd x).
Proof. rewrite <- Z.div2_div. apply Z.div2_odd. Qed.

Lemma word_value_lsb n : forall x,
  word_value (map sym (rev (lsb_bits n x))) = x mod 2 ^ Z.of_nat n.
Proof.
  induction n as [|n IH]; intro x.
  - simpl. rewrite Z.mod_1_r. reflexivity.
  - cbn [lsb_bits rev]. rewrite map_app. cbn [map].
    rewrite word_value_app, IH.
    rewrite Nat2Z.inj_succ, Z.pow_succ_r by lia.
    rewrite Z.rem_mul_r by first [lia | apply Z.pow_pos_nonneg; lia].
    rewrite Zmod_odd. destruct (Z.odd x); cbn [sym symbol_eqb]; lia.
Qed.

Lemma word_value_word_bits n x :
  word_value (word_bits n x) = x mod 2 ^ Z.of_nat n.
Proof. rewrite word_bits_lsb. apply word_value_lsb. Qed.

(** ** The ripple-carry functions compute sums and differences *)

Lemma decompose_unique s q (p : bool) :
  s = 2 * q + Z.b2z p -> Z.odd s = p /\ s / 2 = q.
Proof.
  intros ->. split.
  - rewrite Z.add_comm, Z.odd_add_mul_2. destruct p; reflexivity.
  - destruct p; cbn [Z.b2z]; Z.div_mod_to_equations; lia.
Qed.

Lemma add_bits_correct n : forall a b c,
  add_bits c (bit_pairs n a b) = lsb_bits n (a + b + Z.b2z c).
Proof.
  unfold bit_pairs.
  induction n as [|n IH]; intros a b c; [reflexivity|].
  cbn [lsb_bits combine add_bits].
  destruct (decompose_unique (a + b + Z.b2z c) (a / 2 + b / 2 +
              Z.b2z ((Z.odd a && Z.odd b) || (c && (Z.odd a || Z.odd b))))
              (xorb (xorb (Z.odd a) (Z.odd b)) c)) as [E1 E2].
  { pose proof (odd_decompose a). pose proof (odd_decompose b).
    destruct (Z.odd a), (Z.odd b), c; cbn [Z.b2z xorb andb orb] in *; lia. }
  rewrite E1, E2, IH. reflexivity.
Qed.

Lemma sub_bits_correct n : forall a b c,
  sub_bits c (bit_pairs n a b) = lsb_bits n (a - b - Z.b2z c).
Proof.
  unfold bit_pairs.
  induction n as [|n IH]; intros a b c; [reflexivity|].
  cbn [lsb_bits combine sub_bits].
  destruct (decompose_unique (a - b - Z.b2z c) (a / 2 - b / 2 -
              Z.b2z ((negb (Z.odd a) && (Z.odd b || c)) || (Z.odd b && c)))
              (xorb (xorb (Z.odd a) (Z.odd b)) c)) as [E1 E2].
  { pose proof (odd_decompose a). pose proof (odd_decompose b).
    destruct (Z.odd a), (Z.odd b), c;
      cbn [Z.b2z xorb andb orb negb] in *; lia. }
  rewrite E1, E2, IH. reflexivity.
Qed.

(** ** Tapes given by their cells *)

Lemma at_pos_app pre mid k :
  at_pos (pre ++ mid) (List.length pre + k) =
  mkTape (rev (firstn k mid) ++ rev pre) (skipn k mid).
Proof.
  unfold at_pos. rewrite firstn_app_2, rev_app_distr. f_equal.
  rewrite skipn_app, skipn_all2 by lia.
  replace (List.length pre + k - List.length pre)%nat with k by lia.
  reflexivity.
Qed.

Lemma at_pos_app0 pre mid :
  at_pos (pre ++ mid) (List.length pre) = mkTape (rev pre) mid.
Proof.
  rewrite <- (Nat.add_0_r (List.length pre)), at_pos_app. reflexivity.
Qed.

Lemma result_cells_spread res : forall R,
  result_cells res R = spread_after (map sym (rev res)) ++ R.
Proof.
  induction res as [|b res IH]; intro R; [reflexivity|].
  cbn [result_cells rev]. rewrite IH, map_app. unfold spread_after.
  rewrite flat_map_app, <- app_assoc. reflexivity.
Qed.

Lemma pair_stream_interleaved (ps : list (bool * bool)) :
  pair_stream ps =
  rev (interleaved (map sym (rev (map fst ps))) (map sym (rev (map snd ps)))).
Proof.
  assert (G : forall A B : list symbol_t, forall a b,
             List.length A = List.length B ->
             interleaved (A ++ [a]) (B ++ [b]) = interleaved A B ++ [a; b]).
  { induction A as [|a' A IHA]; intros [|b' B] a b HL; simpl in *;
      try discriminate; [reflexivity|].
    rewrite IHA by lia. reflexivity. }
  induction ps as [|[a b] ps IH]; [reflexivity|].
  cbn [pair_stream flat_map map rev fst snd]. rewrite !map_app. cbn [map].
  rewrite G by (rewrite !length_map, !length_rev, !length_map; reflexivity).
  rewrite rev_app_distr. cbn [rev app]. f_equal. f_equal. exact IH.
Qed.

Lemma bit_pairs_fst n a b : map fst (bit_pairs n a b) = lsb_bits n a.
Proof.
  unfold bit_pairs. revert a b.
  induction n as [|n IH]; intros a b; [reflexivity|].
  cbn [lsb_bits combine map fst]. rewrite IH. reflexivity.
Qed.

Lemma bit_pairs_snd n a b : map snd (bit_pairs n a b) = lsb_bits n b.
Proof.
  unfold bit_pairs. revert a b.
  induction n as [|n IH]; intros a b; [reflexivity|].
  cbn [lsb_bits combine map snd]. rewrite IH. reflexivity.
Qed.

(** The tape an adder starts on, in the two-stack form. *)
Lemma adder_start_tape pre post x n a b :
  at_pos (pre ++ x :: interleaved (word_bits (S n) a) (word_bits (S n) b) ++ post)
         (List.length pre + 2 * S n) =
  tape_of (pair_stream (bit_pairs (S n) a b) ++ x :: rev pre) post.
Proof.
  rewrite pair_stream_interleaved, bit_pairs_fst, bit_pairs_snd,
    <- !word_bits_lsb.
  assert (L : List.length (interleaved (word_bits (S n) a) (word_bits (S n) b))
              = (2 * S n)%nat).
  { generalize (S n). intro m. induction m as [|m IH]; [reflexivity|].
    cbn [word_bits interleaved List.length]. rewrite IH. lia. }
  set (w := interleaved (word_bits (S n) a) (word_bits (S n) b)) in *.
  assert (W : exists w' l, w = w' ++ [l]).
  { destruct (exists_last (l := w)) as (w' & l & E).
    - intro E. rewrite E in L. simpl in L. lia.
    - eauto. }
  destruct W as (w' & l & E). rewrite E in *.
  rewrite length_app in L. simpl in L.
  replace (pre ++ x :: (w' ++ [l]) ++ post)
    with ((pre ++ x :: w') ++ l :: post)
    by (repeat rewrite <- app_assoc; reflexivity).
  replace (List.length pre + 2 * S n)%nat
    with (List.length (pre ++ x :: w')) by (rewrite length_app; simpl; lia).
  rewrite at_pos_app0. unfold tape_of.
  rewrite !rev_app_distr. simpl. rewrite <- app_assoc. reflexivity.
Qed.

(** ** The adder and the subtractor *)

Section AdderRun.
Variables (T : list transition) (s0 s1 m0 m1 m2 r rej : Z).
Variable (x : symbol_t).
Hypothesis x_not_bit : is_bit x = false.

Section Add.
Hypothesis B_s0 : has_block T s0
      (act_write_if2 ZERO BLANK (-1) m0 ONE BLANK (-1) m1 BLANK 0 r).
Hypothesis B_s1 : has_block T s1
      (act_write_if2 ZERO BLANK (-1) m1 ONE BLANK (-1) m2 BLANK 0 r).
Hypothesis B_m0 : has_block T m0
      (act_write_if2 ZERO ZERO (-1) s0 ONE ONE (-1) s0 ZERO 0 rej).
Hypothesis B_m1 : has_block T m1
      (act_write_if2 ZERO ONE (-1) s0 ONE ZERO (-1) s1 ZERO 0 rej).
Hypothesis B_m2 : has_block T m2
      (act_write_if2 ZERO ZERO (-1) s1 ONE ONE (-1) s1 ZERO 0 rej).

Lemma add_run : forall ps (c : bool) L R,
      steps T ((if c return Z then s1 else s0), tape_of (pair_stream ps ++ x :: L) R)
              (r, mkTape L (BLANK :: result_cells (add_bits c ps) R)).
    Proof.
      induction ps as [|[a b] ps IH]; intros c L R.
      - destruct c; do_step; destruct x; try discriminate; apply steps_refl.
      - destruct a, b, c; do 2 do_step;
          first [ exact (IH true _ _) | exact (IH false _ _) ].
    Qed.
End Add.

Section Sub.
Hypothesis B_s0 : has_block T s0
      (act_write_if2 ZERO BLANK (-1) m0 ONE BLANK (-1) m1 BLANK 0 r).
Hypothesis B_s1 : has_block T s1
      (act_write_if2 ZERO BLANK (-1) m1 ONE BLANK (-1) m2 BLANK 0 r).
Hypothesis B_m0 : has_block T m0
      (act_write_if2 ZERO ZERO (-1) s0 ONE ONE (-1) s0 ZERO 0 rej).
Hypothesis B_m1 : has_block T m1
      (act_write_if2 ZERO ONE (-1) s1 ONE ZERO (-1) s0 ZERO 0 rej).
Hypothesis B_m2 : has_block T m2
      (act_write_if2 ZERO ZERO (-1) s1 ONE ONE (-1) s1 ZERO 0 rej).

Lemma sub_run : forall ps (c : bool) L R,
      steps T ((if c return Z then s1 else s0), tape_of (pair_stream ps ++ x :: L) R)
              (r, mkTape L (BLANK :: result_cells (sub_bits c ps) R)).
    Proof.
      induction ps as [|[a b] ps IH]; intros c L R.
      - destruct c; do_step; destruct x; try discriminate; apply steps_refl.
      - destruct a, b, c; do 2 do_step;
          first [ exact (IH true _ _) | exact (IH false _ _) ].
    Qed.
End Sub.
End AdderRun.

Lemma is_ok_inv {A} (c : M A) st :
  is_ok (c st) = true -> exists a st', c st = Ok a st'.
Proof. destruct (c st) as [a st'|]; [eauto | discriminate]. Qed.

Lemma tm_add_run q r st a st' :
  tm_add q r st = Ok a st' ->
  a = r /\
  forall T x ps L R, sub st' T -> is_bit x = false ->
    steps T (q, tape_of (pair_stream ps ++ x :: L) R)
            (r, mkTape L (BLANK :: result_cells (add_bits false ps) R)).
Proof.
  intro H. unfold_gen tm_add H. gen_inv H. split; [reflexivity|].
  intros T x ps L R HT Hx. sub_inv HT.
  refine (add_run T q _ _ _ _ r _ x Hx _ _ _ _ _ ps false L R); eassumption.
Qed.

Lemma tm_sub_run q r st a st' :
  tm_sub q r st = Ok a st' ->
  a = r /\
  forall T x ps L R, sub st' T -> is_bit x = false ->
    steps T (q, tape_of (pair_stream ps ++ x :: L) R)
            (r, mkTape L (BLANK :: result_cells (sub_bits false ps) R)).
Proof.
  intro H. unfold_gen tm_sub H. gen_inv H. split; [reflexivity|].
  intros T x ps L R HT Hx. sub_inv HT.
  refine (sub_run T q _ _ _ _ r _ x Hx _ _ _ _ _ ps false L R); eassumption.
Qed.

(** C4 (arithmetic correctness): for all 8-bit [a] and [b], the machine
    emitted by [tm_add q r], started in [q] on the last scratch cell of a
    word holding [a] in its main cells and [b] in the interleaved scratch
    cells, reaches the caller state [r] with the head on the cell left of
    the word, the main cells holding [(a + b) mod 256] and the scratch cells
    blanked; the machine of [tm_sub] leaves [(a - b) mod 256].  There is no
    other exit: overflow and underflow wrap around. *)
Theorem tm_add_sub_correct :
  forall q r st pre post x a b,
    is_bit x = false -> 0 <= a < 256 -> 0 <= b < 256 ->
    word_value (word_bits 8 a) = a /\ word_value (word_bits 8 b) = b /\
    (exists st', tm_add q r st = Ok r st' /\
       forall T, sub st' T ->
         steps T
           (q, at_pos (pre ++ x :: interleaved (word_bits 8 a) (word_bits 8 b)
                           ++ post) (List.length pre + 16))
           (r, at_pos (pre ++ BLANK ::
                         spread_after (word_bits 8 ((a + b) mod 256)) ++ post)
                      (List.length pre))) /\
    (exists st', tm_sub q r st = Ok r st' /\
       forall T, sub st' T ->
         steps T
           (q, at_pos (pre ++ x :: interleaved (word_bits 8 a) (word_bits 8 b)
                           ++ post) (List.length pre + 16))
           (r, at_pos (pre ++ BLANK ::
                         spread_after (word_bits 8 ((a - b) mod 256)) ++ post)
                      (List.length pre))).
Proof.
  intros q r st pre post x a b Hx Ha Hb.
  assert (P : 2 ^ Z.of_nat 8 = 256) by reflexivity.
  split; [rewrite word_value_word_bits, P; apply Z.mod_small; exact Ha|].
  split; [rewrite word_value_word_bits, P; apply Z.mod_small; exact Hb|].
  split.
  - destruct (is_ok_inv (tm_add q r) st eq_refl) as (r' & st' & H).
    destruct (tm_add_run _ _ _ _ _ H) as [-> Hrun].
    exists st'. split; [exact H|]. intros T HT.
    change 16%nat with (2 * 8)%nat. rewrite adder_start_tape.
    replace (pre ++ BLANK :: spread_after (word_bits 8 ((a + b) mod 256)) ++ post)
      with (pre ++ (BLANK :: spread_after (word_bits 8 ((a + b) mod 256)) ++ post))
      by reflexivity.
    rewrite at_pos_app0.
    specialize (Hrun T x (bit_pairs 8 a b) (rev pre) post HT Hx).
    rewrite add_bits_correct, result_cells_spread, <- word_bits_lsb in Hrun.
    rewrite <- P, word_bits_mod by lia.
    replace (a + b) with (a + b + Z.b2z false) by (simpl; lia).
    exact Hrun.
  - destruct (is_ok_inv (tm_sub q r) st eq_refl) as (r' & st' & H).
    destruct (tm_sub_run _ _ _ _ _ H) as [-> Hrun].
    exists st'. split; [exact H|]. intros T HT.
    change 16%nat with (2 * 8)%nat. rewrite adder_start_tape.
    replace (pre ++ BLANK :: spread_after (word_bits 8 ((a - b) mod 256)) ++ post)
      with (pre ++ (BLANK :: spread_after (word_bits 8 ((a - b) mod 256)) ++ post))
      by reflexivity.
    rewrite at_pos_app0.
    specialize (Hrun T x (bit_pairs 8 a b) (rev pre) post HT Hx).
    rewrite sub_bits_correct, result_cells_spread, <- word_bits_lsb in Hrun.
    rewrite <- P, word_bits_mod by lia.
    replace (a - b) with (a - b - Z.b2z false) by (simpl; lia).
    exact Hrun.
Qed.

Lemma tm_add_sub_correct_witness :
  is_bit BLANK = false /\ 0 <= 200 < 256 /\ 0 <= 100 < 256 /\
  exists st', tm_add 0 1 (mkG 2 9 []) = Ok 1 st' /\
    forall T, sub st' T ->
      steps T
        (0, at_pos ([VALUE] ++ BLANK ::
                      interleaved (word_bits 8 200) (word_bits 8 100)
                      ++ [BLANK; REGISTER]) (List.length [VALUE] + 16))
        (1, at_pos ([VALUE] ++ BLANK ::
                      spread_after (word_bits 8 ((200 + 100) mod 256))
                      ++ [BLANK; REGISTER]) (List.length [VALUE])).
Proof.
  split; [reflexivity|]. split; [lia|]. split; [lia|].
  apply (tm_add_sub_correct 0 1 (mkG 2 9 []) [VALUE] [BLANK; REGISTER]
           BLANK 200 100); [reflexivity | lia | lia].
Defined.


(** ** Scanning *)

Lemma avoid_cons bad x xs :
  avoid bad (x :: xs) = true ->
  (forall b, In b bad -> symbol_eqb x b = false) /\ avoid bad xs = true.
Proof.
  unfold avoid. cbn [forallb]. intro H. apply andb_true_iff in H.
  destruct H as [H1 H2]. split; [|exact H2].
  intros b Hb. apply negb_true_iff in H1.
  destruct (symbol_eqb x b) eqn:E; [|reflexivity].
  assert (existsb (symbol_eqb x) bad = true)
    by (apply existsb_exists; eauto).
  congruence.
Qed.

Lemma avoid_app bad xs ys :
  avoid bad (xs ++ ys) = avoid bad xs && avoid bad ys.
Proof. unfold avoid. apply forallb_app. Qed.

Lemma avoid_rev bad xs : avoid bad (rev xs) = avoid bad xs.
Proof.
  induction xs as [|x xs IH]; [reflexivity|].
  cbn [rev]. rewrite avoid_app, IH. unfold avoid. cbn [forallb].
  rewrite andb_true_r. apply andb_comm.
Qed.

Lemma avoid_incl bad bad' xs :
  incl bad' bad -> avoid bad xs = true -> avoid bad' xs = true.
Proof.
  intros HI. induction xs as [|x xs IH]; [reflexivity|].
  intro H. apply avoid_cons in H. destruct H as [H1 H2].
  unfold avoid in *. cbn [forallb]. rewrite (IH H2), andb_true_r.
  apply negb_true_iff.
  destruct (existsb (symbol_eqb x) bad') eqn:E; [|reflexivity].
  apply existsb_exists in E. destruct E as (b & Hb & Eb).
  rewrite (H1 b (HI b Hb)) in Eb. discriminate.
Qed.

Section Scan.
Variables (T : list transition) (q : Z) (g : symbol_t -> action).
Hypothesis B : has_block T q g.

Lemma scan_right : forall xs l r,
    Forall (passes g q 1) xs ->
    steps T (q, mkTape l (xs ++ r)) (q, mkTape (rev xs ++ l) r).
  Proof.
    induction xs as [|x xs IH]; intros l r H; [apply steps_refl|].
    inversion H as [|? ? Hx Hxs]; subst.
    eapply steps_step; [apply block_step, B|].
    unfold act_apply. cbn [read right hd app]. rewrite Hx.
    cbn [write move left right tl hd Z.eqb Pos.eqb].
    cbn [rev]. rewrite <- app_assoc. apply IH, Hxs.
  Qed.

Lemma scan_left : forall xs c l r y,
    Forall (passes g q (-1)) (c :: xs) ->
    steps T (q, mkTape (xs ++ y :: l) (c :: r))
            (q, mkTape l (y :: rev xs ++ c :: r)).
  Proof.
    induction xs as [|x xs IH]; intros c l r y H;
      inversion H as [|? ? Hc Hxs]; subst.
    - eapply steps_step; [apply block_step, B|].
      unfold act_apply. cbn [read right hd app]. rewrite Hc.
      apply steps_refl.
    - eapply steps_step; [apply block_step, B|].
      unfold act_apply. cbn [read right hd app]. rewrite Hc.
      cbn [write move left right tl hd Z.eqb Pos.eqb].
      cbn [rev]. rewrite <- app_assoc. apply IH, Hxs.
  Qed.
End Scan.

Lemma avoid_passes_if2 a da ra m dm rm d q xs :
  avoid [a; m] xs = true ->
  Forall (passes (act_move_if2 a da ra m dm rm d q) q d) xs.
Proof.
  induction xs as [|x xs IH]; intro H; [constructor|].
  apply avoid_cons in H. destruct H as [H1 H2].
  constructor; [|exact (IH H2)].
  unfold passes, act_move_if2.
  rewrite (H1 a), (H1 m) by (simpl; tauto). reflexivity.
Qed.

Lemma avoid_passes_if a da ra d q xs :
  avoid [a] xs = true ->
  Forall (passes (act_move_if a da ra d q) q d) xs.
Proof.
  induction xs as [|x xs IH]; intro H; [constructor|].
  apply avoid_cons in H. destruct H as [H1 H2].
  constructor; [|exact (IH H2)].
  unfold passes, act_move_if.
  rewrite (H1 a) by (simpl; tauto). reflexivity.
Qed.

Section Find.
Variables (T : list transition) (q : Z) (a : symbol_t) (ry rn : Z).

Lemma find_right_yes xs l r :
    has_block T q (act_move_if2 a 0 ry END 0 rn 1 q) ->
    avoid [a; END] xs = true ->
    steps T (q, mkTape l (xs ++ a :: r)) (ry, mkTape (rev xs ++ l) (a :: r)).
  Proof.
    intros B H. eapply steps_trans.
    - apply (scan_right T q _ B). apply avoid_passes_if2, H.
    - apply steps_one.
      replace (ry, mkTape (rev xs ++ l) (a :: r))
        with (act_apply (act_move_if2 a 0 ry END 0 rn 1 q)
                (mkTape (rev xs ++ l) (a :: r))); [apply block_step, B|].
      unfold act_apply, act_move_if2. cbn [read right hd].
      rewrite symbol_eqb_refl. reflexivity.
  Qed.

Lemma find_right_no xs l r :
    has_block T q (act_move_if2 a 0 ry END 0 rn 1 q) ->
    avoid [a; END] xs = true -> a <> END ->
    steps T (q, mkTape l (xs ++ END :: r)) (rn, mkTape (rev xs ++ l) (END :: r)).
  Proof.
    intros B H Ha. eapply steps_trans.
    - apply (scan_right T q _ B). apply avoid_passes_if2, H.
    - apply steps_one.
      replace (rn, mkTape (rev xs ++ l) (END :: r))
        with (act_apply (act_move_if2 a 0 ry END 0 rn 1 q)
                (mkTape (rev xs ++ l) (END :: r))); [apply block_step, B|].
      unfold act_apply, act_move_if2. cbn [read right hd].
      rewrite (symbol_eqb_neq END a) by congruence. reflexivity.
  Qed.

Lemma find_left_here l r :
    has_block T q (act_move_if2 a 0 ry START 0 rn (-1) q) ->
    steps T (q, mkTape l (a :: r)) (ry, mkTape l (a :: r)).
  Proof.
    intros B. apply steps_one.
    replace (ry, mkTape l (a :: r))
      with (act_apply (act_move_if2 a 0 ry START 0 rn (-1) q)
              (mkTape l (a :: r))); [apply block_step, B|].
    unfold act_apply, act_move_if2. cbn [read right hd].
    rewrite symbol_eqb_refl. reflexivity.
  Qed.

Lemma find_left_yes xs c l r :
    has_block T q (act_move_if2 a 0 ry START 0 rn (-1) q) ->
    avoid [a; START] (c :: xs) = true ->
    steps T (q, mkTape (xs ++ a :: l) (c :: r))
            (ry, mkTape l (a :: rev xs ++ c :: r)).
  Proof.
    intros B H. eapply steps_trans.
    - apply (scan_left T q _ B). apply avoid_passes_if2, H.
    - apply find_left_here, B.
  Qed.
End Find.

Section Wind.
Variables (T : list transition) (q r : Z).

Lemma rewind_run xs c l rt :
    has_block T q (act_move_if START 0 r (-1) q) ->
    avoid [START] (c :: xs) = true ->
    steps T (q, mkTape (xs ++ START :: l) (c :: rt))
            (r, mkTape l (START :: rev xs ++ c :: rt)).
  Proof.
    intros B H. eapply steps_trans.
    - apply (scan_left T q _ B). apply avoid_passes_if, H.
    - apply steps_one.
      replace (r, mkTape l (START :: rev xs ++ c :: rt))
        with (act_apply (act_move_if START 0 r (-1) q)
                (mkTape l (START :: rev xs ++ c :: rt)));
        [apply block_step, B|].
      reflexivity.
  Qed.

Lemma rewind_here l rt :
    has_block T q (act_move_if START 0 r (-1) q) ->
    steps T (q, mkTape l (START :: rt)) (r, mkTape l (START :: rt)).
  Proof.
    intros B. apply steps_one.
    replace (r, mkTape l (START :: rt))
      with (act_apply (act_move_if START 0 r (-1) q) (mkTape l (START :: rt)));
      [apply block_step, B|]. reflexivity.
  Qed.

Lemma ffwd_run xs l rt :
    has_block T q (act_move_if END 0 r 1 q) ->
    avoid [END] xs = true ->
    steps T (q, mkTape l (xs ++ END :: rt)) (r, mkTape (rev xs ++ l) (END :: rt)).
  Proof.
    intros B H. eapply steps_trans.
    - apply (scan_right T q _ B). apply avoid_passes_if, H.
    - apply steps_one.
      replace (r, mkTape (rev xs ++ l) (END :: rt))
        with (act_apply (act_move_if END 0 r 1 q)
                (mkTape (rev xs ++ l) (END :: rt)));
        [apply block_step, B|].
      reflexivity.
  Qed.
End Wind.


(** ** Moves on tapes given in tape order *)

Lemma tape_at_snoc b x r : tape_at (b ++ [x]) r = mkTape (x :: rev b) r.
Proof. unfold tape_at. rewrite rev_app_distr. reflexivity. Qed.

Lemma at_pos_tape_at cells n :
  at_pos cells n = tape_at (firstn n cells) (skipn n cells).
Proof. reflexivity. Qed.

Lemma at_pos_split b a : at_pos (b ++ a) (List.length b) = tape_at b a.
Proof. apply at_pos_app0. Qed.

Lemma step_right T q r b x rt :
  has_block T q (act_move 1 r) ->
  steps T (q, tape_at b (x :: rt)) (r, tape_at (b ++ [x]) rt).
Proof.
  intro B. apply steps_one. rewrite tape_at_snoc.
  exact (block_step T q _ (tape_at b (x :: rt)) B).
Qed.

Lemma find_right_yes_at T q a ry rn b xs rt :
  has_block T q (act_move_if2 a 0 ry END 0 rn 1 q) ->
  avoid [a; END] xs = true ->
  steps T (q, tape_at b (xs ++ a :: rt)) (ry, tape_at (b ++ xs) (a :: rt)).
Proof.
  intros B H. unfold tape_at. rewrite rev_app_distr.
  apply (find_right_yes T q a ry rn xs (rev b) rt B H).
Qed.

Lemma find_right_no_at T q a ry rn b xs rt :
  has_block T q (act_move_if2 a 0 ry END 0 rn 1 q) ->
  avoid [a; END] xs = true -> a <> END ->
  steps T (q, tape_at b (xs ++ END :: rt)) (rn, tape_at (b ++ xs) (END :: rt)).
Proof.
  intros B H Ha. unfold tape_at. rewrite rev_app_distr.
  apply (find_right_no T q a ry rn xs (rev b) rt B H Ha).
Qed.

(** ** Looking a register up *)

Lemma tm_find_register_loop_S i qstart q reg :
  tm_find_register_loop (S i) qstart q reg =
  (r1 <- new_state ;;
   q1 <- tm_move q 1 r1 ;;
   q_match <- new_state ;;
   rej <- get_q_reject ;;
   tm_move_if2 q1 (bit_symbol reg i) 1 q_match END 0 rej 1 qstart ;;;
   tm_find_register_loop i qstart q_match reg).
Proof. reflexivity. Qed.

Lemma bit_symbol_cases x i : bit_symbol x i = ZERO \/ bit_symbol x i = ONE.
Proof. unfold bit_symbol. destruct (Z.testbit x (Z.of_nat i)); auto. Qed.

(** One step through the block of the current state; the block is looked
    up among the hypotheses. *)
Ltac step_block :=
  eapply steps_step; [ eapply block_step; eassumption | ];
  unfold act_apply, act_move, act_move_if, act_move_if2,
         act_write, act_write_if, act_write_if2;
  cbn [read write move left right hd tl Z.eqb Pos.eqb symbol_eqb];
  unfold write; cbn [left right hd tl].

Lemma find_register_loop_run k : forall qstart q reg st q' st',
  tm_find_register_loop k qstart q reg st = Ok q' st' ->
  q_reject st' = q_reject st /\
  forall T, sub st' T ->
    sub st T /\
    (forall l rt,
        steps T (q, mkTape l (spread (word_bits k reg) ++ rt))
                (q', mkTape (rev (spread (word_bits k reg)) ++ l) rt)) /\
    (forall idx l rt,
        word_bits k idx <> word_bits k reg ->
        exists pre post,
          spread (word_bits k idx) = pre ++ post /\
          steps T (q, mkTape l (spread (word_bits k idx) ++ rt))
                  (qstart, mkTape (rev pre ++ l) (post ++ rt))).
Proof.
  induction k as [|i IH]; intros qstart q reg st q' st' H.
  - apply ret_inv in H. destruct H as [-> ->]. split; [reflexivity|].
    intros T HT. split; [exact HT|]. split.
    + intros l rt. apply steps_refl.
    + intros idx l rt Hne. exfalso. apply Hne. reflexivity.
  - rewrite tm_find_register_loop_S in H. gen_inv H.
    match goal with
    | G : tm_find_register_loop _ _ _ _ _ = _ |- _ =>
        destruct (IH _ _ _ _ _ _ G) as [Hrej Hrun]
    end. cbn [q_reject] in Hrej.
    split; [exact Hrej|].
    intros T HT. destruct (Hrun T HT) as (HT' & Hyes & Hno).
    sub_inv HT'. split; [exact HT'|]. split.
    + intros l rt. cbn [word_bits spread flat_map app].
      step_block. step_block. rewrite symbol_eqb_refl.
      cbn [rev]. rewrite <- !app_assoc. apply Hyes.
    + intros idx l rt Hne. cbn [word_bits spread flat_map app] in *.
      destruct (symbol_eqb (bit_symbol idx i) (bit_symbol reg i)) eqn:E.
      * pose proof E as E'. apply symbol_eqb_eq in E'.
        assert (Hne' : word_bits i idx <> word_bits i reg)
          by (intro E2; apply Hne; rewrite E', E2; reflexivity).
        destruct (Hno idx (bit_symbol idx i :: BLANK :: l) rt Hne')
          as (pre & post & Hsp & Hst).
        exists (BLANK :: bit_symbol idx i :: pre), post. split.
        { unfold spread in Hsp. rewrite Hsp. reflexivity. }
        step_block. step_block. rewrite E.
        cbn [rev]. rewrite <- !app_assoc. exact Hst.
      * exists [BLANK; bit_symbol idx i],
               (spread (word_bits i idx)). split; [reflexivity|].
        step_block. step_block. rewrite E.
        destruct (bit_symbol_cases idx i) as [Hb|Hb]; rewrite Hb;
          cbn [symbol_eqb]; apply steps_refl.
Qed.

Lemma tm_find_register_run q reg r st a st' :
  tm_find_register q reg r st = Ok a st' ->
  a = r /\ q_reject st' = q_reject st /\
  forall T, sub st' T ->
    sub st T /\
    (forall l junk rt,
        avoid [REGISTER; END] junk = true ->
        steps T (q, mkTape l (junk ++ REGISTER ::
                                spread (word_bits 8 reg) ++ BLANK :: VALUE :: rt))
                (r, mkTape (VALUE :: BLANK :: rev (spread (word_bits 8 reg))
                              ++ REGISTER :: rev junk ++ l) rt)) /\
    (forall idx l junk rt,
        avoid [REGISTER; END] junk = true ->
        word_bits 8 idx <> word_bits 8 reg ->
        exists pre post,
          spread (word_bits 8 idx) = pre ++ post /\
          steps T (q, mkTape l (junk ++ REGISTER ::
                                  spread (word_bits 8 idx) ++ rt))
                  (q, mkTape (rev pre ++ REGISTER :: rev junk ++ l)
                             (post ++ rt))) /\
    (forall l junk rt,
        avoid [REGISTER; END] junk = true ->
        steps T (q, mkTape l (junk ++ END :: rt))
                (q_reject st, mkTape (rev junk ++ l) (END :: rt))).
Proof.
  intro H. unfold_gen tm_find_register H. gen_inv H.
  match goal with
  | G : tm_find_register_loop _ _ _ _ _ = _ |- _ =>
      destruct (find_register_loop_run _ _ _ _ _ _ _ G) as [Hrej Hrun]
  end.
  gen_norm. split; [reflexivity|]. split; [exact Hrej|].
  intros T HT. sub_inv HT.
  destruct (Hrun T HT) as (HT' & Hyes & Hno). sub_inv HT'.
  unfold word_size in *.
  split; [exact HT'|]. split; [|split].
  - intros l junk rt Hj.
    eapply steps_trans;
      [eapply find_right_yes; [eassumption | exact Hj]|].
    step_block.
    eapply steps_trans; [apply Hyes|].
    step_block. step_block. apply steps_refl.
  - intros idx l junk rt Hj Hne.
    destruct (Hno idx (REGISTER :: rev junk ++ l) rt Hne)
      as (pre & post & Hsp & Hst).
    exists pre, post. split; [exact Hsp|].
    eapply steps_trans;
      [eapply find_right_yes; [eassumption | exact Hj]|].
    step_block. exact Hst.
  - intros l junk rt Hj.
    eapply find_right_no; [eassumption | exact Hj | discriminate].
Qed.

Lemma mkTape_tape_at l r : mkTape l r = tape_at (rev l) r.
Proof. unfold tape_at. rewrite rev_involutive. reflexivity. Qed.

(** Bring [tape_at] and two-stack tapes to a common form. *)
Ltac tape_norm :=
  unfold tape_at;
  repeat (rewrite ?rev_app_distr, ?rev_involutive; cbn [rev app]);
  repeat rewrite <- app_assoc; cbn [app].

Lemma word_bits_neq i reg :
  i mod 256 <> reg mod 256 -> word_bits 8 i <> word_bits 8 reg.
Proof.
  intros H E. apply H.
  change 256 with (2 ^ Z.of_nat 8).
  rewrite <- !word_value_word_bits, E. reflexivity.
Qed.

Lemma avoid_spread bad n x :
  avoid bad [BLANK; ZERO; ONE] = true ->
  avoid bad (spread (word_bits n x)) = true.
Proof.
  intro H. apply avoid_cons in H. destruct H as [Hb H].
  apply avoid_cons in H. destruct H as [Hz H].
  apply avoid_cons in H. destruct H as [Ho _].
  assert (C : forall s, (forall b, In b bad -> symbol_eqb s b = false) ->
              negb (existsb (symbol_eqb s) bad) = true).
  { intros s Hs. apply negb_true_iff.
    destruct (existsb (symbol_eqb s) bad) eqn:E; [|reflexivity].
    apply existsb_exists in E. destruct E as (b & Hin & Eb).
    rewrite (Hs b Hin) in Eb. discriminate. }
  induction n as [|n IH]; [reflexivity|].
  cbn [word_bits spread flat_map app]. unfold avoid. cbn [forallb].
  rewrite (C BLANK Hb).
  destruct (bit_symbol_cases x n) as [E|E]; rewrite E;
    [rewrite (C ZERO Hz) | rewrite (C ONE Ho)]; exact IH.
Qed.

Lemma avoid_entry bad e :
  avoid bad [BLANK; ZERO; ONE; VALUE] = true ->
  avoid bad [match e with RegE _ _ => REGISTER | MemE _ _ => ADDRESS end]
    = true ->
  avoid bad (entry_cells e) = true.
Proof.
  intros H Hm.
  assert (H3 : avoid bad [BLANK; ZERO; ONE] = true).
  { change [BLANK; ZERO; ONE; VALUE] with ([BLANK; ZERO; ONE] ++ [VALUE]) in H.
    rewrite avoid_app in H. apply andb_true_iff in H. tauto. }
  assert (Hb : avoid bad [BLANK] = true).
  { change [BLANK; ZERO; ONE] with ([BLANK] ++ [ZERO; ONE]) in H3.
    rewrite avoid_app in H3. apply andb_true_iff in H3. tauto. }
  assert (Hv : avoid bad [VALUE] = true).
  { change [BLANK; ZERO; ONE; VALUE] with ([BLANK; ZERO; ONE] ++ [VALUE]) in H.
    rewrite avoid_app in H. apply andb_true_iff in H. tauto. }
  destruct e as [i v|a v]; unfold entry_cells;
    change [BLANK; REGISTER] with ([BLANK] ++ [REGISTER]);
    change [BLANK; ADDRESS] with ([BLANK] ++ [ADDRESS]);
    change [BLANK; VALUE] with ([BLANK] ++ [VALUE]);
    rewrite !avoid_app, !avoid_spread, Hb, Hv, Hm by exact H3; reflexivity.
Qed.

Lemma avoid_outputs bad vs :
  avoid bad [BLANK; ZERO; ONE; OUTPUT] = true ->
  avoid bad (outputs_cells vs) = true.
Proof.
  intro H.
  assert (H3 : avoid bad [BLANK; ZERO; ONE] = true).
  { change [BLANK; ZERO; ONE; OUTPUT] with ([BLANK; ZERO; ONE] ++ [OUTPUT]) in H.
    rewrite avoid_app in H. apply andb_true_iff in H. tauto. }
  assert (Hb : avoid bad [BLANK] = true).
  { change [BLANK; ZERO; ONE] with ([BLANK] ++ [ZERO; ONE]) in H3.
    rewrite avoid_app in H3. apply andb_true_iff in H3. tauto. }
  assert (Ho : avoid bad [OUTPUT] = true).
  { change [BLANK; ZERO; ONE; OUTPUT] with ([BLANK; ZERO; ONE] ++ [OUTPUT]) in H.
    rewrite avoid_app in H. apply andb_true_iff in H. tauto. }
  induction vs as [|v vs IH]; [reflexivity|].
  unfold outputs_cells in *. cbn [flat_map]. unfold output_cells at 1.
  change (OUTPUT :: spread (word_bits 8 v) ++ [BLANK])
    with ([OUTPUT] ++ spread (word_bits 8 v) ++ [BLANK]).
  rewrite !avoid_app, avoid_spread, Ho, Hb, IH by exact H3. reflexivity.
Qed.

Section FindEntries.
Variables (T : list transition) (q r rej reg : Z).

Hypothesis found : forall l junk rt,
    avoid [REGISTER; END] junk = true ->
    steps T (q, mkTape l (junk ++ REGISTER ::
                            spread (word_bits 8 reg) ++ BLANK :: VALUE :: rt))
            (r, mkTape (VALUE :: BLANK :: rev (spread (word_bits 8 reg))
                          ++ REGISTER :: rev junk ++ l) rt).
Hypothesis restart : forall idx l junk rt,
    avoid [REGISTER; END] junk = true ->
    word_bits 8 idx <> word_bits 8 reg ->
    exists pre post,
      spread (word_bits 8 idx) = pre ++ post /\
      steps T (q, mkTape l (junk ++ REGISTER :: spread (word_bits 8 idx) ++ rt))
              (q, mkTape (rev pre ++ REGISTER :: rev junk ++ l) (post ++ rt)).
Hypothesis at_end : forall l junk rt,
    avoid [REGISTER; END] junk = true ->
    steps T (q, mkTape l (junk ++ END :: rt))
            (rej, mkTape (rev junk ++ l) (END :: rt)).

  (** A register entry with another index: the scan comes back to [q] with
      the head inside the entry, past its marker. *)
Lemma find_restart i v b junk rest :
    avoid [REGISTER; END] junk = true ->
    i mod 256 <> reg mod 256 ->
    exists pre post,
      entry_cells (RegE i v) = pre ++ post /\
      In REGISTER pre /\ avoid [REGISTER; END] post = true /\
      steps T (q, tape_at b (junk ++ entry_cells (RegE i v) ++ rest))
              (q, tape_at (b ++ junk ++ pre) (post ++ rest)).
  Proof.
    intros Hj Hi.
    assert (Hj' : avoid [REGISTER; END] (junk ++ [BLANK]) = true)
      by (rewrite avoid_app, Hj; reflexivity).
    destruct (restart i (rev b) (junk ++ [BLANK])
                ([BLANK; VALUE] ++ spread (word_bits 8 v) ++ rest)
                Hj' (word_bits_neq _ _ Hi)) as (pre & post & Hsp & Hst).
    exists ([BLANK; REGISTER] ++ pre),
           (post ++ [BLANK; VALUE] ++ spread (word_bits 8 v)).
    split; [unfold entry_cells; rewrite Hsp; tape_norm; reflexivity|].
    split; [simpl; tauto|]. split.
    - assert (Hw : avoid [REGISTER; END] (pre ++ post) = true)
        by (rewrite <- Hsp; apply avoid_spread; reflexivity).
      rewrite avoid_app in Hw. apply andb_true_iff in Hw.
      rewrite avoid_app. destruct Hw as [_ ->].
      change [BLANK; VALUE] with ([BLANK] ++ [VALUE]).
      rewrite !avoid_app, avoid_spread by reflexivity. reflexivity.
    - unfold entry_cells. rewrite Hsp.
      revert Hst. rewrite Hsp. tape_norm. auto.
  Qed.

Lemma find_entries_found : forall es1 b junk v rest,
    avoid [REGISTER; END] junk = true ->
    reg_absent reg es1 = true ->
    steps T (q, tape_at b (junk ++ entries_cells es1 ++
                             entry_cells (RegE reg v) ++ rest))
            (r, tape_at (b ++ junk ++ entries_cells es1 ++
                           [BLANK; REGISTER] ++ spread (word_bits 8 reg) ++
                           [BLANK; VALUE])
                        (spread (word_bits 8 v) ++ rest)).
  Proof.
    induction es1 as [|e es1 IH]; intros b junk v rest Hj Ha.
    - assert (Hj' : avoid [REGISTER; END] (junk ++ [BLANK]) = true)
        by (rewrite avoid_app, Hj; reflexivity).
      pose proof (found (rev b) (junk ++ [BLANK])
                    (spread (word_bits 8 v) ++ rest) Hj') as Hst.
      revert Hst. unfold entries_cells, entry_cells. cbn [flat_map].
      tape_norm. auto.
    - cbn [reg_absent forallb] in Ha. apply andb_true_iff in Ha.
      destruct Ha as [He Ha]. fold (reg_absent reg es1) in Ha.
      destruct e as [i v'|a v'].
      + apply negb_true_iff, Z.eqb_neq in He.
        destruct (find_restart i v' b junk
                    (entries_cells es1 ++ entry_cells (RegE reg v) ++ rest)
                    Hj He) as (pre & post & Hsp & _ & Hpost & Hst).
        eapply steps_trans.
        * unfold entries_cells. cbn [flat_map]. rewrite <- app_assoc.
          exact Hst.
        * specialize (IH (b ++ junk ++ pre) post v rest Hpost Ha).
          unfold entries_cells in *. cbn [flat_map]. rewrite Hsp.
          revert IH. repeat rewrite <- app_assoc. auto.
      + assert (Hj' : avoid [REGISTER; END]
                        (junk ++ entry_cells (MemE a v')) = true).
        { rewrite avoid_app, Hj. apply avoid_entry; reflexivity. }
        specialize (IH b (junk ++ entry_cells (MemE a v')) v rest Hj' Ha).
        unfold entries_cells in *. cbn [flat_map].
        revert IH. repeat rewrite <- app_assoc. auto.
  Qed.

Lemma find_entries_end : forall es b junk tail rt,
    avoid [REGISTER; END] junk = true ->
    avoid [REGISTER; END] tail = true ->
    reg_absent reg es = true ->
    steps T (q, tape_at b (junk ++ entries_cells es ++ tail ++ END :: rt))
            (rej, tape_at (b ++ junk ++ entries_cells es ++ tail) (END :: rt)).
  Proof.
    induction es as [|e es IH]; intros b junk tail rt Hj Ht Ha.
    - assert (Hj' : avoid [REGISTER; END] (junk ++ tail) = true)
        by (rewrite avoid_app, Hj, Ht; reflexivity).
      pose proof (at_end (rev b) (junk ++ tail) rt Hj') as Hst.
      revert Hst. unfold entries_cells. cbn [flat_map]. tape_norm. auto.
    - cbn [reg_absent forallb] in Ha. apply andb_true_iff in Ha.
      destruct Ha as [He Ha]. fold (reg_absent reg es) in Ha.
      destruct e as [i v'|a v'].
      + apply negb_true_iff, Z.eqb_neq in He.
        destruct (find_restart i v' b junk
                    (entries_cells es ++ tail ++ END :: rt)
                    Hj He) as (pre & post & Hsp & _ & Hpost & Hst).
        eapply steps_trans.
        * unfold entries_cells. cbn [flat_map]. rewrite <- app_assoc.
          exact Hst.
        * specialize (IH (b ++ junk ++ pre) post tail rt Hpost Ht Ha).
          unfold entries_cells in *. cbn [flat_map]. rewrite Hsp.
          revert IH. repeat rewrite <- app_assoc. auto.
      + assert (Hj' : avoid [REGISTER; END]
                        (junk ++ entry_cells (MemE a v')) = true).
        { rewrite avoid_app, Hj. apply avoid_entry; reflexivity. }
        specialize (IH b (junk ++ entry_cells (MemE a v')) tail rt Hj' Ht Ha).
        unfold entries_cells in *. cbn [flat_map].
        revert IH. repeat rewrite <- app_assoc. auto.
  Qed.
Lemma find_entries_restart : forall es1 b junk i v rest,
    avoid [REGISTER; END] junk = true ->
    reg_absent reg es1 = true ->
    i mod 256 <> reg mod 256 ->
    exists pre post,
      entry_cells (RegE i v) = pre ++ post /\ In REGISTER pre /\
      steps T (q, tape_at b (junk ++ entries_cells es1 ++
                               entry_cells (RegE i v) ++ rest))
              (q, tape_at (b ++ junk ++ entries_cells es1 ++ pre)
                          (post ++ rest)).
  Proof.
    induction es1 as [|e es1 IH]; intros b junk i v rest Hj Ha Hi.
    - destruct (find_restart i v b junk rest Hj Hi)
        as (pre & post & Hsp & Hin & _ & Hst).
      exists pre, post. split; [exact Hsp|]. split; [exact Hin|].
      exact Hst.
    - cbn [reg_absent forallb] in Ha. apply andb_true_iff in Ha.
      destruct Ha as [He Ha]. fold (reg_absent reg es1) in Ha.
      destruct e as [i' v'|a v'].
      + apply negb_true_iff, Z.eqb_neq in He.
        destruct (find_restart i' v' b junk
                    (entries_cells es1 ++ entry_cells (RegE i v) ++ rest)
                    Hj He) as (pre' & post' & Hsp' & _ & Hpost & Hst).
        destruct (IH (b ++ junk ++ pre') post' i v rest Hpost Ha Hi)
          as (pre & post & Hsp & Hin & Hst2).
        exists pre, post. split; [exact Hsp|]. split; [exact Hin|].
        eapply steps_trans.
        * unfold entries_cells. cbn [flat_map]. rewrite <- app_assoc.
          exact Hst.
        * unfold entries_cells in *. cbn [flat_map]. rewrite Hsp'.
          revert Hst2. repeat rewrite <- app_assoc. auto.
      + assert (Hj' : avoid [REGISTER; END]
                        (junk ++ entry_cells (MemE a v')) = true).
        { rewrite avoid_app, Hj. apply avoid_entry; reflexivity. }
        destruct (IH b (junk ++ entry_cells (MemE a v')) i v rest Hj' Ha Hi)
          as (pre & post & Hsp & Hin & Hst2).
        exists pre, post. split; [exact Hsp|]. split; [exact Hin|].
        unfold entries_cells in *. cbn [flat_map].
        revert Hst2. repeat rewrite <- app_assoc. auto.
  Qed.
End FindEntries.

Lemma entries_cells_app es1 es2 :
  entries_cells (es1 ++ es2) = entries_cells es1 ++ entries_cells es2.
Proof. apply flat_map_app. Qed.

(** C7 (register lookup): on a well-formed tape the machine emitted by
    [tm_find_register q reg r], started in [q] on the start sentinel,
    tries the register entries in tape order.  At an entry with another
    index it is back in [q] with the head inside that entry, past its
    marker, and scans on for the next register marker; at the first entry
    whose index is [reg] it enters [r] with the head on the scratch cell
    just left of that entry's value word; if no entry has index [reg] it
    reaches the end sentinel and enters the reject state.  The tape is
    left as it was. *)
Theorem tm_find_register_correct :
  forall q reg r st,
    exists st', tm_find_register q reg r st = Ok r st' /\
    forall T, sub st' T ->
      (forall es1 v es2 outs,
          reg_absent reg es1 = true ->
          steps T
            (q, tape_at [] (wf_cells (es1 ++ RegE reg v :: es2) outs))
            (r, tape_at (START :: entries_cells es1 ++ [BLANK; REGISTER] ++
                           spread (word_bits 8 reg) ++ [BLANK; VALUE])
                        (spread (word_bits 8 v) ++ entries_cells es2 ++
                           [BLANK] ++ outputs_cells outs ++ [END]))) /\
      (forall es1 i v es2 outs,
          reg_absent reg es1 = true -> i mod 256 <> reg mod 256 ->
          exists pre post,
            entry_cells (RegE i v) = pre ++ post /\ In REGISTER pre /\
            steps T
              (q, tape_at [] (wf_cells (es1 ++ RegE i v :: es2) outs))
              (q, tape_at (START :: entries_cells es1 ++ pre)
                          (post ++ entries_cells es2 ++
                             [BLANK] ++ outputs_cells outs ++ [END]))) /\
      (forall es outs,
          reg_absent reg es = true ->
          steps T
            (q, tape_at [] (wf_cells es outs))
            (q_reject st,
             tape_at (START :: entries_cells es ++ [BLANK] ++
                        outputs_cells outs) [END])).
Proof.
  intros q reg r st.
  destruct (succeeds_inv _ st (succeeds_tm_find_register q reg r))
    as (r' & st' & H).
  destruct (tm_find_register_run _ _ _ _ _ _ H) as (-> & Hrej & Hrun).
  exists st'. split; [exact H|]. intros T HT.
  destruct (Hrun T HT) as (_ & Hfound & Hrestart & Hend).
  split; [|split].
  - intros es1 v es2 outs Ha.
    pose proof (find_entries_found T q r reg Hfound Hrestart es1 []
                  [START] v
                  (entries_cells es2 ++ [BLANK] ++ outputs_cells outs ++ [END])
                  eq_refl Ha) as Hst.
    unfold wf_cells. rewrite entries_cells_app.
    unfold entries_cells at 2. cbn [flat_map]. fold (entries_cells es2).
    revert Hst. repeat rewrite <- app_assoc. cbn [app]. auto.
  - intros es1 i v es2 outs Ha Hi.
    destruct (find_entries_restart T q reg Hrestart es1 [] [START] i v
                (entries_cells es2 ++ [BLANK] ++ outputs_cells outs ++ [END])
                eq_refl Ha Hi) as (pre & post & Hsp & Hin & Hst).
    exists pre, post. split; [exact Hsp|]. split; [exact Hin|].
    unfold wf_cells. rewrite entries_cells_app.
    unfold entries_cells at 2. cbn [flat_map]. fold (entries_cells es2).
    revert Hst. repeat rewrite <- app_assoc. cbn [app]. auto.
  - intros es outs Ha.
    assert (Ht : avoid [REGISTER; END] ([BLANK] ++ outputs_cells outs) = true).
    { rewrite avoid_app, avoid_outputs by reflexivity. reflexivity. }
    pose proof (find_entries_end T q (q_reject st) reg Hrestart Hend es []
                  [START] ([BLANK] ++ outputs_cells outs) [] eq_refl Ht Ha)
      as Hst.
    unfold wf_cells. revert Hst. repeat rewrite <- app_assoc. cbn [app]. auto.
Qed.

Lemma tm_find_register_correct_witness :
  reg_absent 2 [RegE 0 5; RegE 1 7] = true /\
  exists st', tm_find_register 0 2 1 (mkG 2 9 []) = Ok 1 st' /\
    steps (emitted st')
      (0, tape_at [] (wf_cells ([RegE 0 5; RegE 1 7] ++ RegE 2 9 :: [MemE 0 65]) [66]))
      (1, tape_at (START :: entries_cells [RegE 0 5; RegE 1 7] ++
                     [BLANK; REGISTER] ++ spread (word_bits 8 2) ++
                     [BLANK; VALUE])
                  (spread (word_bits 8 9) ++ entries_cells [MemE 0 65] ++
                     [BLANK] ++ outputs_cells [66] ++ [END])).
Proof.
  split; [reflexivity|].
  destruct (tm_find_register_correct 0 2 1 (mkG 2 9 [])) as (st' & H & Hrun).
  exists st'. split; [exact H|].
  destruct (Hrun (emitted st') (incl_refl _)) as (Hfound & _).
  apply Hfound. reflexivity.
Defined.



(** ** Bit-serial copy *)

Lemma all_bits_cons b w :
  all_bits (b :: w) = true -> (b = ZERO \/ b = ONE) /\ all_bits w = true.
Proof.
  unfold all_bits. cbn [forallb]. intro H. apply andb_true_iff in H.
  destruct H as [Hb Hw]. split; [|exact Hw].
  destruct b; try discriminate; auto.
Qed.

Lemma word_bits_all_bits n x : all_bits (word_bits n x) = true.
Proof.
  induction n as [|n IH]; [reflexivity|].
  unfold all_bits in *. cbn [word_bits forallb]. rewrite IH.
  destruct (bit_symbol_cases x n) as [E|E]; rewrite E; reflexivity.
Qed.

Lemma avoid_spread_after bad w :
  avoid bad [BLANK; ZERO; ONE] = true -> all_bits w = true ->
  avoid bad (spread_after w) = true.
Proof.
  intros H Hw. apply avoid_cons in H. destruct H as [Hb H].
  apply avoid_cons in H. destruct H as [Hz H].
  apply avoid_cons in H. destruct H as [Ho _].
  assert (C : forall s, (forall b, In b bad -> symbol_eqb s b = false) ->
              negb (existsb (symbol_eqb s) bad) = true).
  { intros s Hs. apply negb_true_iff.
    destruct (existsb (symbol_eqb s) bad) eqn:E; [|reflexivity].
    apply existsb_exists in E. destruct E as (b & Hin & Eb).
    rewrite (Hs b Hin) in Eb. discriminate. }
  induction w as [|b w IH]; [reflexivity|].
  apply all_bits_cons in Hw. destruct Hw as [Hbit Hw].
  cbn [spread_after flat_map app]. unfold avoid. cbn [forallb].
  rewrite (C BLANK Hb).
  destruct Hbit as [-> | ->];
    [rewrite (C ZERO Hz) | rewrite (C ONE Ho)]; exact (IH Hw).
Qed.

Lemma avoid_padded bad pad w :
  avoid bad [ZERO; ONE] = true -> avoid bad pad = true ->
  all_bits w = true -> avoid bad (padded pad w) = true.
Proof.
  intros H Hp Hw.
  induction w as [|b w IH]; [reflexivity|].
  apply all_bits_cons in Hw. destruct Hw as [Hbit Hw].
  unfold padded in *. cbn [flat_map]. rewrite !avoid_app, Hp, (IH Hw).
  change [ZERO; ONE] with ([ZERO] ++ [ONE]) in H. rewrite avoid_app in H.
  apply andb_true_iff in H. destruct H as [Hz Ho].
  destruct Hbit as [-> | ->]; [rewrite Hz | rewrite Ho]; reflexivity.
Qed.

Lemma avoid_weaken bad bad' xs :
  (forall b, In b bad' -> In b bad) -> avoid bad xs = true ->
  avoid bad' xs = true.
Proof. intro H. apply avoid_incl. exact H. Qed.

(** Right-nested form of lists built with [++] and [::]. *)
Ltac app_norm :=
  repeat first [ rewrite <- app_assoc | progress cbn [app] ].

(** Normal form of lists built with [++] and [rev]. *)
Ltac list_norm :=
  unfold padded, spread, spread_after; cbn [flat_map];
  repeat first [ rewrite rev_app_distr
               | rewrite <- app_assoc
               | rewrite rev_involutive
               | progress cbn [rev app] ].

Lemma steps_tape_eq T c q tp tp' :
  tp = tp' -> steps T (q, tp') c -> steps T (q, tp) c.
Proof. intros ->. auto. Qed.

(** Continue a run with the fact [H], whose start tape equals the current
    one up to the normal form of lists. *)
Ltac steps_via H :=
  eapply steps_trans;
  [ eapply steps_tape_eq; [ | exact H ];
    solve [ f_equal; list_norm; reflexivity ] | ].

(** Continue a run with the tactic [tac], which proves a run from a tape
    equal to the current one up to the normal form of lists. *)
Ltac steps_with tac :=
  eapply steps_trans;
  [ eapply steps_tape_eq; [ | tac ];
    solve [ f_equal; list_norm; reflexivity ] | ].

Lemma steps_conf_eq T q r tp1 tp1' tp2 tp2' :
  tp1 = tp1' -> tp2 = tp2' ->
  steps T (q, tp1') (r, tp2') -> steps T (q, tp1) (r, tp2).
Proof. intros -> ->. auto. Qed.

(** Close a run with the fact [H], up to the normal form of lists. *)
Ltac steps_by H :=
  eapply steps_conf_eq; [ | | exact H ];
  solve [ f_equal; list_norm; reflexivity ].

Section CopyRight.
Variables (T : list transition).
Variables (q_nextbit q_read q0 q1 q_clean q_back f0 f1 w0 w1 q_fin r rej : Z).
Variable (pad : list symbol_t).

Hypothesis B_next : has_block T q_nextbit (act_write BLANK 1 q_read).
Hypothesis B_read : has_block T q_read
  (act_move_if2 ZERO 1 q0 ONE 1 q1 0 q_clean).
Hypothesis B_q0 : has_block T q0 (act_write SRC 1 f0).
Hypothesis B_q1 : has_block T q1 (act_write SRC 1 f1).
Hypothesis B_f0 : has_block T f0 (act_move_if2 DST 0 w0 END 0 rej 1 f0).
Hypothesis B_f1 : has_block T f1 (act_move_if2 DST 0 w1 END 0 rej 1 f1).
(** Writing one bit at the destination marker and setting the marker
    anew behind it. *)
Hypothesis write0 : forall l rt,
  steps T (w0, mkTape l (DST :: rt))
          (q_back, mkTape (ZERO :: rev pad ++ l)
                          (DST :: skipn (List.length pad + 1) rt)).
Hypothesis write1 : forall l rt,
  steps T (w1, mkTape l (DST :: rt))
          (q_back, mkTape (ONE :: rev pad ++ l)
                          (DST :: skipn (List.length pad + 1) rt)).
Hypothesis pad_ok : avoid [SRC; DST; START; END] pad = true.
Hypothesis B_back : has_block T q_back
  (act_move_if2 SRC 0 q_nextbit START 0 rej (-1) q_back).
Hypothesis B_clean : has_block T q_clean
  (act_move_if2 DST 0 q_fin END 0 rej 1 q_clean).
Hypothesis B_fin : has_block T q_fin (act_write BLANK 0 r).

Lemma copy_loop_right : forall w tM L D,
  all_bits w = true -> is_bit (hd BLANK tM) = false -> tM <> [] ->
  avoid [SRC; DST; START; END] tM = true ->
  steps T
    (q_nextbit, mkTape L (SRC :: spread_after w ++ tM ++ DST :: D))
    (r, mkTape (rev (spread w ++ [BLANK] ++ tM ++ padded pad w) ++ L)
               (BLANK :: skipn (List.length w * (List.length pad + 1)) D)).
Proof.
  induction w as [|b w IH]; intros tM L D Hw Ht Hne HM.
  - cbn [spread_after spread flat_map padded app List.length Nat.mul skipn].
    step_block.
    destruct tM as [|t M]; [congruence|]. cbn [hd] in Ht.
    change ((t :: M) ++ DST :: D) with (t :: M ++ DST :: D).
    step_block.
    assert (E : act_move_if2 ZERO 1 q0 ONE 1 q1 0 q_clean t = (t, 0, q_clean))
      by (destruct t; try discriminate; reflexivity).
    unfold act_move_if2 in E. rewrite E.
    cbn [read write move left right hd tl Z.eqb Pos.eqb].
    eapply steps_trans.
    + apply (find_right_yes T q_clean DST q_fin rej (t :: M) (BLANK :: L) D).
      * exact B_clean.
      * revert HM. apply avoid_weaken. simpl. tauto.
    + step_block. rewrite app_nil_r.
      apply steps_eq. f_equal. f_equal.
      cbn [rev app]. rewrite <- !app_assoc. reflexivity.
  - apply all_bits_cons in Hw. destruct Hw as [Hb Hw].
    assert (Hsrc : forall bad, avoid bad [BLANK; ZERO; ONE] = true ->
                     avoid bad (spread_after w) = true)
      by (intros; apply avoid_spread_after; assumption).
    assert (Hscan : avoid [DST; END] (spread_after w ++ tM) = true).
    { rewrite avoid_app, Hsrc by reflexivity.
      revert HM. apply avoid_weaken. simpl. tauto. }
    assert (HM' : avoid [SRC; DST; START; END] (tM ++ pad ++ [b]) = true).
    { rewrite !avoid_app, HM, pad_ok.
      destruct Hb as [-> | ->]; reflexivity. }
    assert (Ht' : is_bit (hd BLANK (tM ++ pad ++ [b])) = false)
      by (destruct tM; [congruence | exact Ht]).
    assert (Hne' : tM ++ pad ++ [b] <> [])
      by (destruct tM; [congruence | discriminate]).
    assert (Hbackscan : avoid [SRC; START]
                          (DST :: b :: rev pad ++
                             rev (spread_after w ++ tM)) = true).
    { change (DST :: b :: rev pad ++ rev (spread_after w ++ tM))
        with ([DST; b] ++ rev pad ++ rev (spread_after w ++ tM)).
      rewrite !avoid_app, !avoid_rev, avoid_app, Hsrc by reflexivity.
      replace (avoid [SRC; START] pad) with true
        by (symmetry; revert pad_ok; apply avoid_weaken; simpl; tauto).
      replace (avoid [SRC; START] tM) with true
        by (symmetry; revert HM; apply avoid_weaken; simpl; tauto).
      destruct Hb as [-> | ->]; reflexivity. }
    specialize (IH (tM ++ pad ++ [b]) (b :: BLANK :: L)
                  (skipn (List.length pad + 1) D) Hw Ht' Hne' HM').
    rewrite skipn_skipn in IH.
    replace (List.length w * (List.length pad + 1) + (List.length pad + 1))%nat
      with (List.length (b :: w) * (List.length pad + 1))%nat
      in IH by (cbn [List.length]; lia).
    replace (rev (spread w ++ [BLANK] ++ (tM ++ pad ++ [b]) ++ padded pad w)
               ++ b :: BLANK :: L)
      with (rev (spread (b :: w) ++ [BLANK] ++ tM ++ padded pad (b :: w)) ++ L)
      in IH.
    2:{ unfold spread, padded. cbn [flat_map]. list_norm. reflexivity. }
    change (spread_after (b :: w)) with (b :: BLANK :: spread_after w).
    change ((b :: BLANK :: spread_after w) ++ tM ++ DST :: D)
      with (b :: BLANK :: spread_after w ++ tM ++ DST :: D).
    rewrite (app_assoc (spread_after w) tM (DST :: D)).
    repeat rewrite <- app_assoc in IH. cbn [app] in IH.
    step_block.
    destruct Hb as [-> | ->]; step_block; step_block.
    + eapply steps_trans.
      { apply (find_right_yes T f0 DST w0 rej (spread_after w ++ tM)
                 (SRC :: ZERO :: BLANK :: L) D B_f0 Hscan). }
      eapply steps_trans; [apply write0|].
      steps_via (find_left_yes T q_back SRC q_nextbit rej
                   (ZERO :: rev pad ++ rev (spread_after w ++ tM))
                   DST (ZERO :: BLANK :: L)
                   (skipn (List.length pad + 1) D) B_back Hbackscan).
      steps_by IH.
    + eapply steps_trans.
      { apply (find_right_yes T f1 DST w1 rej (spread_after w ++ tM)
                 (SRC :: ONE :: BLANK :: L) D B_f1 Hscan). }
      eapply steps_trans; [apply write1|].
      steps_via (find_left_yes T q_back SRC q_nextbit rej
                   (ONE :: rev pad ++ rev (spread_after w ++ tM))
                   DST (ONE :: BLANK :: L)
                   (skipn (List.length pad + 1) D) B_back Hbackscan).
      steps_by IH.
Qed.
End CopyRight.

Section CopyLeft.
Variables (T : list transition).
Variables (q_nextbit q_read q0 q1 q_clean q_back f0 f1 w0 w1 q_fin r rej : Z).
Variable (pad : list symbol_t).

Hypothesis B_next : has_block T q_nextbit (act_write BLANK 1 q_read).
Hypothesis B_read : has_block T q_read
  (act_move_if2 ZERO 1 q0 ONE 1 q1 0 q_clean).
Hypothesis B_q0 : has_block T q0 (act_write SRC 1 f0).
Hypothesis B_q1 : has_block T q1 (act_write SRC 1 f1).
Hypothesis B_f0 : has_block T f0 (act_move_if2 DST 0 w0 START 0 rej (-1) f0).
Hypothesis B_f1 : has_block T f1 (act_move_if2 DST 0 w1 START 0 rej (-1) f1).
(** Writing one bit at the destination marker and setting the marker
    anew behind it. *)
Hypothesis write0 : forall l rt,
  steps T (w0, mkTape l (DST :: rt))
          (q_back, mkTape (ZERO :: rev pad ++ l)
                          (DST :: skipn (List.length pad + 1) rt)).
Hypothesis write1 : forall l rt,
  steps T (w1, mkTape l (DST :: rt))
          (q_back, mkTape (ONE :: rev pad ++ l)
                          (DST :: skipn (List.length pad + 1) rt)).
Hypothesis pad_ok : avoid [SRC; DST; START; END] pad = true.
Hypothesis B_back : has_block T q_back
  (act_move_if2 SRC 0 q_nextbit END 0 rej 1 q_back).
Hypothesis B_clean : has_block T q_clean
  (act_move_if2 DST 0 q_fin START 0 rej (-1) q_clean).
Hypothesis B_fin : has_block T q_fin (act_write BLANK 0 r).

Lemma copy_loop_left : forall w Mx Drem Lw t R,
  all_bits w = true -> is_bit t = false ->
  avoid [DST; START] [t] = true ->
  avoid [SRC; DST; START; END] Mx = true ->
  avoid [SRC; DST; START; END] Drem = true ->
  List.length Drem = (List.length w * (List.length pad + 1))%nat ->
  steps T
    (q_nextbit, mkTape (rev Mx ++ rev Drem ++ DST :: Lw)
                       (SRC :: spread_after w ++ t :: R))
    (r, mkTape (rev (padded pad w) ++ Lw)
               (BLANK :: Mx ++ spread w ++ BLANK :: t :: R)).
Proof.
  induction w as [|b w IH]; intros Mx Drem Lw t R Hw Ht Ht' HM HD HL.
  - destruct Drem; [|discriminate].
    cbn [spread_after spread flat_map padded app rev].
    step_block. step_block.
    assert (E : act_move_if2 ZERO 1 q0 ONE 1 q1 0 q_clean t = (t, 0, q_clean))
      by (destruct t; try discriminate; reflexivity).
    unfold act_move_if2 in E. rewrite E.
    cbn [read write move left right hd tl Z.eqb Pos.eqb].
    assert (Hscan : avoid [DST; START] (t :: BLANK :: rev Mx) = true).
    { change (t :: BLANK :: rev Mx) with ([t] ++ [BLANK] ++ rev Mx).
      rewrite !avoid_app, avoid_rev, Ht'.
      replace (avoid [DST; START] Mx) with true
        by (symmetry; revert HM; apply avoid_weaken; simpl; tauto).
      reflexivity. }
    steps_via (find_left_yes T q_clean DST q_fin rej (BLANK :: rev Mx) t
                 Lw R B_clean Hscan).
    step_block. apply steps_eq. f_equal. f_equal. list_norm. reflexivity.
  - apply all_bits_cons in Hw. destruct Hw as [Hb Hw].
    set (k := (List.length pad + 1)%nat) in *.
    assert (HDsplit : Drem = firstn k Drem ++ skipn k Drem)
      by (symmetry; apply firstn_skipn).
    assert (HL1 : List.length (skipn k Drem) = (List.length w * k)%nat)
      by (rewrite length_skipn, HL; cbn [List.length]; lia).
    assert (HLf : List.length (firstn k Drem) = k)
      by (rewrite length_firstn, HL; cbn [List.length]; lia).
    remember (firstn k Drem) as D1. remember (skipn k Drem) as D2.
    clear HeqD1 HeqD2. subst Drem.
    rewrite avoid_app in HD. apply andb_true_iff in HD.
    destruct HD as [HD1 HD2].
    assert (Hsrc : forall bad, avoid bad [BLANK; ZERO; ONE] = true ->
                     avoid bad (spread_after w) = true)
      by (intros; apply avoid_spread_after; assumption).
    assert (Hhd : exists c rest', spread_after w ++ t :: R = c :: rest' /\
                                  avoid [DST; START] [c] = true).
    { destruct w as [|b' w'].
      - exists t, R. split; [reflexivity | exact Ht'].
      - apply all_bits_cons in Hw. destruct Hw as [Hb' _].
        eexists b', _. split; [reflexivity|].
        destruct Hb' as [-> | ->]; reflexivity. }
    destruct Hhd as (c & rest' & Hrest & Hc).
    assert (Hfind : avoid [DST; START]
                      (c :: SRC :: b :: BLANK :: rev Mx ++ rev (D1 ++ D2))
                    = true).
    { change (c :: SRC :: b :: BLANK :: rev Mx ++ rev (D1 ++ D2))
        with ([c] ++ [SRC; b; BLANK] ++ rev Mx ++ rev (D1 ++ D2)).
      rewrite !avoid_app, !avoid_rev, avoid_app, Hc.
      replace (avoid [DST; START] Mx) with true
        by (symmetry; revert HM; apply avoid_weaken; simpl; tauto).
      replace (avoid [DST; START] D1) with true
        by (symmetry; revert HD1; apply avoid_weaken; simpl; tauto).
      replace (avoid [DST; START] D2) with true
        by (symmetry; revert HD2; apply avoid_weaken; simpl; tauto).
      destruct Hb as [-> | ->]; reflexivity. }
    assert (Hback : avoid [SRC; END] (DST :: D2 ++ Mx ++ [BLANK; b]) = true).
    { change (DST :: D2 ++ Mx ++ [BLANK; b])
        with ([DST] ++ D2 ++ Mx ++ [BLANK; b]).
      rewrite !avoid_app.
      replace (avoid [SRC; END] Mx) with true
        by (symmetry; revert HM; apply avoid_weaken; simpl; tauto).
      replace (avoid [SRC; END] D2) with true
        by (symmetry; revert HD2; apply avoid_weaken; simpl; tauto).
      destruct Hb as [-> | ->]; reflexivity. }
    assert (HM' : avoid [SRC; DST; START; END] (Mx ++ [BLANK; b]) = true).
    { rewrite avoid_app, HM. destruct Hb as [-> | ->]; reflexivity. }
    assert (Hskip : forall X, skipn k ((D1 ++ D2) ++ X) = D2 ++ X).
    { intro X. rewrite <- app_assoc, skipn_app, HLf, Nat.sub_diag.
      rewrite skipn_all2 by lia. reflexivity. }
    specialize (IH (Mx ++ [BLANK; b]) D2 (b :: rev pad ++ Lw) t R
                  Hw Ht Ht' HM' HD2 HL1).
    change (spread_after (b :: w)) with (b :: BLANK :: spread_after w).
    change ((b :: BLANK :: spread_after w) ++ t :: R)
      with (b :: BLANK :: spread_after w ++ t :: R).
    rewrite Hrest in *.
    step_block.
    destruct Hb as [-> | ->]; step_block; step_block.
    + steps_via (find_left_yes T f0 DST w0 rej
                   (SRC :: ZERO :: BLANK :: rev Mx ++ rev (D1 ++ D2)) c
                   Lw rest' B_f0 Hfind).
      eapply steps_trans; [apply write0|]. fold k.
      replace (skipn k (rev (SRC :: ZERO :: BLANK :: rev Mx ++ rev (D1 ++ D2))
                          ++ c :: rest'))
        with (D2 ++ Mx ++ [BLANK; ZERO] ++ SRC :: c :: rest').
      2:{ rewrite <- (Hskip (Mx ++ [BLANK; ZERO] ++ SRC :: c :: rest')).
          f_equal. list_norm. reflexivity. }
      steps_via (find_right_yes T q_back SRC q_nextbit rej
                   (DST :: D2 ++ Mx ++ [BLANK; ZERO])
                   (ZERO :: rev pad ++ Lw) (c :: rest') B_back Hback).
      steps_by IH.
    + steps_via (find_left_yes T f1 DST w1 rej
                   (SRC :: ONE :: BLANK :: rev Mx ++ rev (D1 ++ D2)) c
                   Lw rest' B_f1 Hfind).
      eapply steps_trans; [apply write1|]. fold k.
      replace (skipn k (rev (SRC :: ONE :: BLANK :: rev Mx ++ rev (D1 ++ D2))
                          ++ c :: rest'))
        with (D2 ++ Mx ++ [BLANK; ONE] ++ SRC :: c :: rest').
      2:{ rewrite <- (Hskip (Mx ++ [BLANK; ONE] ++ SRC :: c :: rest')).
          f_equal. list_norm. reflexivity. }
      steps_via (find_right_yes T q_back SRC q_nextbit rej
                   (DST :: D2 ++ Mx ++ [BLANK; ONE])
                   (ONE :: rev pad ++ Lw) (c :: rest') B_back Hback).
      steps_by IH.
Qed.
End CopyLeft.


(** Decide the mode tests of [tm_copy_helper] for a given mode. *)
Ltac mode_simpl H :=
  repeat match type of H with
         | context [mode_has ?m ?f] =>
             let b := eval vm_compute in (mode_has m f) in
             change (mode_has m f) with b in H
         end;
  cbv iota in H.

Lemma tl_tl_skipn {A} (l : list A) : tl (tl l) = skipn 2 l.
Proof. destruct l as [|? [|? ?]]; reflexivity. Qed.

Lemma tl_skipn1 {A} (l : list A) : tl l = skipn 1 l.
Proof. destruct l; reflexivity. Qed.

Lemma tm_copy_run_right q r st a st' :
  tm_copy q 1 r st = Ok a st' ->
  a = r /\ q_reject st' = q_reject st /\
  forall T, sub st' T ->
    sub st T /\
    forall w x tM L D,
      all_bits w = true -> is_bit (hd BLANK tM) = false -> tM <> [] ->
      avoid [SRC; DST; START; END] tM = true ->
      steps T
        (q, mkTape L (x :: spread_after w ++ tM ++ DST :: D))
        (r, mkTape (rev (spread w ++ [BLANK] ++ tM ++ spread w) ++ L)
                   (BLANK :: skipn (List.length w * 2) D)).
Proof.
  intro H. unfold_gen tm_copy H. unfold_gen tm_copy_helper H.
  mode_simpl H.
  gen_inv H. split; [reflexivity|]. split; [reflexivity|].
  intros T HT. sub_inv HT. split; [exact HT|].
  intros w x tM L D Hw Ht Hne HM.
  step_block.
  change (spread w) with (padded [BLANK] w) at 2.
  change (List.length w * 2)%nat
    with (List.length w * (List.length [BLANK] + 1))%nat.
  eapply (copy_loop_right T); try eassumption; try reflexivity.
  - intros l rt. do 3 step_block. rewrite tl_tl_skipn. apply steps_refl.
  - intros l rt. do 3 step_block. rewrite tl_tl_skipn. apply steps_refl.
Qed.

Lemma tm_copy_run_left q r st a st' :
  tm_copy q (-1) r st = Ok a st' ->
  a = r /\ q_reject st' = q_reject st /\
  forall T, sub st' T ->
    sub st T /\
    forall w x Mx Drem Lw t R,
      all_bits w = true -> is_bit t = false ->
      avoid [DST; START] [t] = true ->
      avoid [SRC; DST; START; END] Mx = true ->
      avoid [SRC; DST; START; END] Drem = true ->
      List.length Drem = (List.length w * 2)%nat ->
      steps T
        (q, mkTape (rev Mx ++ rev Drem ++ DST :: Lw)
                   (x :: spread_after w ++ t :: R))
        (r, mkTape (rev (spread w) ++ Lw)
                   (BLANK :: Mx ++ spread w ++ BLANK :: t :: R)).
Proof.
  intro H. unfold_gen tm_copy H. unfold_gen tm_copy_helper H.
  mode_simpl H.
  gen_inv H. split; [reflexivity|]. split; [reflexivity|].
  intros T HT. sub_inv HT. split; [exact HT|].
  intros w x Mx Drem Lw t R Hw Ht Ht' HM HD HL.
  step_block.
  change (spread w) with (padded [BLANK] w) at 1.
  eapply (copy_loop_left T); try eassumption; try reflexivity.
  - intros l rt. do 3 step_block. rewrite tl_tl_skipn. apply steps_refl.
  - intros l rt. do 3 step_block. rewrite tl_tl_skipn. apply steps_refl.
Qed.

Lemma padded_nil w : padded [] w = w.
Proof.
  induction w as [|b w IH]; [reflexivity|].
  unfold padded in *. cbn [flat_map app]. f_equal. exact IH.
Qed.

Lemma tm_copy_compact_run_left q r st a st' :
  tm_copy_compact q (-1) r st = Ok a st' ->
  a = r /\ q_reject st' = q_reject st /\
  forall T, sub st' T ->
    sub st T /\
    forall w x Mx Drem Lw t R,
      all_bits w = true -> is_bit t = false ->
      avoid [DST; START] [t] = true ->
      avoid [SRC; DST; START; END] Mx = true ->
      avoid [SRC; DST; START; END] Drem = true ->
      List.length Drem = List.length w ->
      steps T
        (q, mkTape (rev Mx ++ rev Drem ++ DST :: Lw)
                   (x :: spread_after w ++ t :: R))
        (r, mkTape (rev w ++ Lw)
                   (BLANK :: Mx ++ spread w ++ BLANK :: t :: R)).
Proof.
  intro H. unfold_gen tm_copy_compact H. unfold_gen tm_copy_helper H.
  mode_simpl H.
  gen_inv H. split; [reflexivity|]. split; [reflexivity|].
  intros T HT. sub_inv HT. split; [exact HT|].
  intros w x Mx Drem Lw t R Hw Ht Ht' HM HD HL.
  step_block.
  replace (rev w ++ Lw) with (rev (padded [] w) ++ Lw)
    by (rewrite padded_nil; reflexivity).
  eapply (copy_loop_left T); try eassumption; try reflexivity.
  - intros l rt. do 2 step_block. rewrite tl_skipn1. apply steps_refl.
  - intros l rt. do 2 step_block. rewrite tl_skipn1. apply steps_refl.
  - cbn [List.length Nat.add]. lia.
Qed.


(** ** Deterministic tables: the relation and the function agree *)

Lemma matches_iff q a t : matches q a t = true <-> tr_q t = q /\ tr_a t = a.
Proof.
  unfold matches. rewrite andb_true_iff, Z.eqb_eq, symbol_eqb_eq. tauto.
Qed.

Lemma deterministicb_find T : deterministicb T = true ->
  forall t, In t T -> find (matches (tr_q t) (tr_a t)) T = Some t.
Proof.
  induction T as [|t0 T IH]; intros HD t Hin; [contradiction|].
  cbn [deterministicb] in HD. apply andb_true_iff in HD.
  destruct HD as [H0 HD]. apply negb_true_iff in H0.
  cbn [find]. destruct Hin as [-> | Hin].
  - assert (E : matches (tr_q t) (tr_a t) t = true)
      by (apply matches_iff; auto).
    rewrite E. reflexivity.
  - destruct (matches (tr_q t) (tr_a t) t0) eqn:E.
    + exfalso. apply matches_iff in E. destruct E as [Eq Ea].
      assert (X : existsb (matches (tr_q t0) (tr_a t0)) T = true).
      { apply existsb_exists. exists t. split; [exact Hin|].
        apply matches_iff. auto. }
      congruence.
    + apply IH; assumption.
Qed.

Lemma step_step_fn T c c' :
  deterministicb T = true -> step T c c' -> step_fn T c = Some c'.
Proof.
  intros HD Hs. destruct Hs as [t q tp Hin Hq Ha].
  unfold step_fn. cbn [fst snd]. subst q. rewrite <- Ha.
  rewrite (deterministicb_find T HD t Hin). reflexivity.
Qed.

Lemma steps_run_exact T c c' :
  deterministicb T = true -> steps T c c' ->
  exists n, run_exact n T c = Some c'.
Proof.
  intros HD H. induction H as [c|c1 c2 c3 Hs _ [n IH]].
  - exists O. reflexivity.
  - exists (S n). cbn [run_exact]. rewrite (step_step_fn T c1 c2 HD Hs).
    exact IH.
Qed.

Lemma run_exact_loop T c : step_fn T c = Some c ->
  forall n, run_exact n T c = Some c.
Proof.
  intros H n. induction n as [|n IH]; [reflexivity|].
  cbn [run_exact]. rewrite H. exact IH.
Qed.

Lemma run_exact_add T n : forall m c c',
  run_exact n T c = Some c' ->
  run_exact (n + m) T c = run_exact m T c'.
Proof.
  induction n as [|n IH]; intros m c c' H.
  - cbn in H. inversion H. reflexivity.
  - cbn [run_exact Nat.add] in *. destruct (step_fn T c) as [c1|];
      [apply IH; exact H | discriminate].
Qed.

(** ** Copy fidelity *)

Lemma succeeds_tm_copy q d r :
  valid_dir d = true -> succeeds (tm_copy q d r).
Proof. unfold tm_copy. apply succeeds_tm_copy_helper. Qed.

Lemma succeeds_tm_copy_compact q d r :
  valid_dir d = true -> succeeds (tm_copy_compact q d r).
Proof. unfold tm_copy_compact. apply succeeds_tm_copy_helper. Qed.

(** C5, as amended (copy fidelity for the directions the translator uses):
    for every source value [v] and for the copy directions +1 and -1, the
    machine emitted by [tm_copy q d r], started in [q] on the scratch cell
    left of a source word with the destination marker placed to the right
    (d = +1) or to the left (d = -1) of the source, reaches [r] with the
    destination word bit-identical to the source word, the source word
    unchanged, and the head on the cell right of the destination word,
    which is blanked. *)
Theorem tm_copy_fidelity :
  forall q r st v,
    (exists st', tm_copy q 1 r st = Ok r st' /\
       forall T pre x gap D post,
         sub st' T ->
         gap <> [] -> is_bit (hd BLANK gap) = false ->
         avoid [SRC; DST; START; END] gap = true ->
         List.length D = 16%nat ->
         steps T
           (q, tape_at pre (x :: spread_after (word_bits 8 v) ++ gap ++
                              DST :: D ++ post))
           (r, tape_at (pre ++ spread (word_bits 8 v) ++ [BLANK] ++ gap ++
                          spread (word_bits 8 v))
                       (BLANK :: post))) /\
    (exists st', tm_copy q (-1) r st = Ok r st' /\
       forall T pre D gap x t post,
         sub st' T ->
         is_bit t = false -> avoid [DST; START] [t] = true ->
         avoid [SRC; DST; START; END] gap = true ->
         avoid [SRC; DST; START; END] D = true ->
         List.length D = 16%nat ->
         steps T
           (q, tape_at (pre ++ DST :: D ++ gap)
                       (x :: spread_after (word_bits 8 v) ++ t :: post))
           (r, tape_at (pre ++ spread (word_bits 8 v))
                       (BLANK :: gap ++ spread (word_bits 8 v) ++
                          BLANK :: t :: post))).
Proof.
  intros q r st v. split.
  - destruct (succeeds_inv _ st (succeeds_tm_copy q 1 r eq_refl))
      as (r' & st' & H).
    destruct (tm_copy_run_right _ _ _ _ _ H) as (-> & _ & Hrun).
    exists st'. split; [exact H|].
    intros T pre x gap D post HT Hne Hg Hav HL.
    destruct (Hrun T HT) as [_ Hcopy].
    specialize (Hcopy (word_bits 8 v) x gap (rev pre) (D ++ post)
                  (word_bits_all_bits 8 v) Hg Hne Hav).
    rewrite word_bits_length in Hcopy.
    replace (skipn (8 * 2) (D ++ post)) with post in Hcopy
      by (rewrite skipn_app, skipn_all2, HL by lia; reflexivity).
    unfold tape_at. steps_by Hcopy.
  - destruct (succeeds_inv _ st (succeeds_tm_copy q (-1) r eq_refl))
      as (r' & st' & H).
    destruct (tm_copy_run_left _ _ _ _ _ H) as (-> & _ & Hrun).
    exists st'. split; [exact H|].
    intros T pre D gap x t post HT Ht Ht' Hg HD HL.
    destruct (Hrun T HT) as [_ Hcopy].
    specialize (Hcopy (word_bits 8 v) x gap D (rev pre) t post
                  (word_bits_all_bits 8 v) Ht Ht' Hg HD).
    rewrite word_bits_length in Hcopy. specialize (Hcopy HL).
    unfold tape_at. steps_by Hcopy.
Qed.

Lemma tm_copy_fidelity_witness :
  [REGISTER] <> [] /\ is_bit (hd BLANK [REGISTER]) = false /\
  avoid [SRC; DST; START; END] [REGISTER] = true /\
  List.length (repeat BLANK 16) = 16%nat /\
  exists st', tm_copy 0 1 1 (mkG 3 2 []) = Ok 1 st' /\
    steps (emitted st') (0, copy_tape_right)
      (1, tape_at ([VALUE] ++ spread (word_bits 8 165) ++ [BLANK] ++
                     [REGISTER] ++ spread (word_bits 8 165))
                  (BLANK :: [END])).
Proof.
  split; [discriminate|]. split; [reflexivity|]. split; [reflexivity|].
  split; [reflexivity|].
  destruct (tm_copy_fidelity 0 1 (mkG 3 2 []) 165) as [(st' & H & Hrun) _].
  exists st'. split; [exact H|].
  apply (Hrun (emitted st') [VALUE] BLANK [REGISTER] (repeat BLANK 16) [END]).
  - apply incl_refl.
  - discriminate.
  - reflexivity.
  - reflexivity.
  - reflexivity.
Defined.

Lemma loops_never_reach T c0 k ck r :
  deterministicb T = true ->
  run_exact k T c0 = Some ck -> step_fn T ck = Some ck ->
  avoids_state r k T c0 = true ->
  ~ exists tp, steps T c0 (r, tp).
Proof.
  intros HD Hk Hloop Hav [tp Hs].
  destruct (steps_run_exact T c0 (r, tp) HD Hs) as [n Hn].
  unfold avoids_state in Hav. rewrite forallb_forall in Hav.
  destruct (le_lt_dec n k) as [Hle | Hgt].
  - specialize (Hav n). rewrite Hn in Hav. cbn [fst] in Hav.
    rewrite Z.eqb_refl in Hav.
    assert (X : negb true = true) by (apply Hav, in_seq; lia).
    discriminate.
  - replace n with (k + (n - k))%nat in Hn by lia.
    rewrite (run_exact_add T k (n - k) c0 ck Hk) in Hn.
    rewrite (run_exact_loop T ck Hloop) in Hn. inversion Hn; subst ck.
    specialize (Hav k). rewrite Hk in Hav. cbn [fst] in Hav.
    rewrite Z.eqb_refl in Hav.
    assert (X : negb true = true) by (apply Hav, in_seq; lia).
    discriminate.
Qed.

(** C5 as stated fails for direction 0: on the very tapes on which the
    copies with direction +1 and -1 succeed, the machine emitted for
    direction 0 (a deterministic table) reads the first source bit and then
    searches for the destination marker without moving; it never returns to
    the caller state, so no destination word is produced. *)
Lemma tm_copy_direction_zero_never_returns :
  is_ok (tm_copy 0 0 1 (mkG 3 2 [])) = true /\
  deterministicb copy0_table = true /\
  (~ exists tp, steps copy0_table (0, copy_tape_right) (1, tp)) /\
  (~ exists tp, steps copy0_table (0, copy_tape_left) (1, tp)).
Proof.
  split; [reflexivity|]. split; [vm_compute; reflexivity|]. split.
  - eapply (loops_never_reach copy0_table _ 4).
    + vm_compute. reflexivity.
    + vm_compute. reflexivity.
    + vm_compute. reflexivity.
    + vm_compute. reflexivity.
  - eapply (loops_never_reach copy0_table _ 4).
    + vm_compute. reflexivity.
    + vm_compute. reflexivity.
    + vm_compute. reflexivity.
    + vm_compute. reflexivity.
Qed.


(** ** Writing a word on blank tape *)

Lemma tm_write_bits_loop_S i q x :
  tm_write_bits_loop (S i) q x =
  (r1 <- new_state ;;
   q1 <- tm_move q 1 r1 ;;
   r2 <- new_state ;;
   q2 <- tm_write q1 (bit_symbol x (S i)) 1 r2 ;;
   tm_write_bits_loop i q2 x).
Proof. reflexivity. Qed.

Lemma word_bits_loop_bits i x :
  word_bits (S i) x = loop_bits i x ++ [bit_symbol x 0].
Proof.
  induction i as [|i IH]; [reflexivity|].
  cbn [word_bits loop_bits app] in *. rewrite IH. reflexivity.
Qed.

Lemma tm_write_bits_loop_run i : forall q x st a st',
  tm_write_bits_loop i q x st = Ok a st' ->
  forall T, sub st' T ->
    sub st T /\
    forall l, steps T (q, mkTape l [])
                      (a, mkTape (rev (spread (loop_bits i x)) ++ l) []).
Proof.
  induction i as [|i IH]; intros q x st a st' H.
  - apply ret_inv in H. destruct H as [-> ->].
    intros T HT. split; [exact HT|]. intro l. apply steps_refl.
  - rewrite tm_write_bits_loop_S in H. gen_inv H.
    match goal with
    | G : tm_write_bits_loop _ _ _ _ = _ |- _ => pose proof (IH _ _ _ _ _ G) as Hrun
    end.
    intros T HT. destruct (Hrun T HT) as [HT' Hloop]. sub_inv HT'.
    split; [exact HT'|]. intro l.
    step_block. step_block. cbn [loop_bits].
    steps_by (Hloop (bit_symbol x (S i) :: BLANK :: l)).
Qed.

Lemma tm_write_bits_run q x n r st a st' :
  tm_write_bits q x (S n) r st = Ok a st' ->
  a = r /\
  forall T, sub st' T ->
    sub st T /\
    forall l, steps T (q, mkTape l [])
                      (r, mkTape (rev (spread (word_bits (S n) x)) ++ l) []).
Proof.
  intro H. unfold_gen tm_write_bits H.
  replace (S n - 1)%nat with n in H by lia.
  gen_inv H.
  match goal with
  | G : tm_write_bits_loop _ _ _ _ = _ |- _ =>
      pose proof (tm_write_bits_loop_run _ _ _ _ _ _ G) as Hrun
  end.
  split; [reflexivity|].
  intros T HT. sub_inv HT. destruct (Hrun T HT) as [HT' Hloop].
  split; [exact HT'|]. intro l.
  eapply steps_trans; [apply Hloop|].
  step_block. step_block. rewrite word_bits_loop_bits.
  apply steps_eq. f_equal. f_equal. list_norm.
  rewrite flat_map_app. list_norm. reflexivity.
Qed.

(** ** Avoidance facts for the layout *)

Lemma avoid_cons_eq bad x xs :
  avoid bad (x :: xs) = avoid bad [x] && avoid bad xs.
Proof. unfold avoid. cbn [forallb]. rewrite andb_true_r. reflexivity. Qed.

Lemma avoid_entries bad es :
  avoid bad [BLANK; ZERO; ONE; VALUE; REGISTER; ADDRESS] = true ->
  avoid bad (entries_cells es) = true.
Proof.
  intro H.
  assert (H4 : avoid bad [BLANK; ZERO; ONE; VALUE] = true).
  { change [BLANK; ZERO; ONE; VALUE; REGISTER; ADDRESS]
      with ([BLANK; ZERO; ONE; VALUE] ++ [REGISTER; ADDRESS]) in H.
    rewrite avoid_app in H. apply andb_true_iff in H. tauto. }
  assert (Hr : avoid bad [REGISTER] = true /\ avoid bad [ADDRESS] = true).
  { change [BLANK; ZERO; ONE; VALUE; REGISTER; ADDRESS]
      with ([BLANK; ZERO; ONE; VALUE] ++ [REGISTER] ++ [ADDRESS]) in H.
    rewrite !avoid_app in H. apply andb_true_iff in H. destruct H as [_ H].
    apply andb_true_iff in H. exact H. }
  induction es as [|e es IH]; [reflexivity|].
  unfold entries_cells in *. cbn [flat_map]. rewrite avoid_app, IH.
  rewrite avoid_entry; [reflexivity | exact H4 |].
  destruct e; tauto.
Qed.

Lemma spread_blank w X :
  spread w ++ BLANK :: X = BLANK :: spread_after w ++ X.
Proof.
  induction w as [|b w IH]; [reflexivity|].
  cbn [spread spread_after flat_map app] in *.
  unfold spread, spread_after in IH. rewrite IH. reflexivity.
Qed.

(** What follows a value word on a well-formed tape: a blank, then a
    marker. *)
Lemma zone_shape es2 outs :
  exists Z',
    entries_cells es2 ++ [BLANK] ++ outputs_cells outs = BLANK :: Z' /\
    is_bit (hd BLANK (Z' ++ [OUTPUT])) = false /\
    avoid [SRC; DST; START; END] Z' = true.
Proof.
  destruct es2 as [|e es2].
  - exists (outputs_cells outs). split; [reflexivity|]. split.
    + destruct outs; reflexivity.
    + apply avoid_outputs. reflexivity.
  - exists ([match e with RegE _ _ => REGISTER | MemE _ _ => ADDRESS end] ++
            spread (word_bits 8 (match e with RegE i _ => i | MemE a _ => a end))
            ++ [BLANK] ++ [VALUE] ++
            spread (word_bits 8 (match e with RegE _ v => v | MemE _ v => v end))
            ++ entries_cells es2 ++ [BLANK] ++ outputs_cells outs).
    split; [|split].
    + destruct e; unfold entries_cells, entry_cells; cbn [flat_map];
        repeat rewrite <- app_assoc; reflexivity.
    + destruct e; reflexivity.
    + rewrite !avoid_app.
      rewrite !avoid_spread, avoid_entries, avoid_outputs by reflexivity.
      destruct e; reflexivity.
Qed.

Lemma outputs_cells_app o1 o2 :
  outputs_cells (o1 ++ o2) = outputs_cells o1 ++ outputs_cells o2.
Proof. apply flat_map_app. Qed.

(** ** PUTC *)

Lemma avoid_markers xs bad :
  avoid [SRC; DST; START; END] xs = true ->
  (forall b, In b bad -> In b [SRC; DST; START; END]) ->
  avoid bad xs = true.
Proof. intros H Hb. revert H. apply avoid_weaken. exact Hb. Qed.

(** Solve [avoid bad cells = true] for cells assembled from layout pieces. *)
Ltac avoid_split :=
  repeat first
    [ rewrite avoid_app
    | rewrite avoid_rev
    | match goal with
      | |- context [avoid ?bad (?x :: ?xs)] =>
          lazymatch xs with
          | [] => fail
          | _ => rewrite (avoid_cons_eq bad x xs)
          end
      end ].

Ltac avoid_tac :=
  avoid_split;
  repeat match goal with
    | H : avoid ?bad ?xs = true |- context [avoid ?bad ?xs] => rewrite H
    | H : forall bad, _ -> avoid bad ?xs = true |- context [avoid ?b ?xs] =>
        rewrite (H b) by reflexivity
    | HZ : avoid [SRC; DST; START; END] ?xs = true
      |- context [avoid ?b ?xs] =>
        rewrite (avoid_markers xs b HZ) by (simpl; tauto)
    | |- context [avoid ?b (spread (word_bits ?n ?x))] =>
        rewrite (avoid_spread b n x) by reflexivity
    | |- context [avoid ?b (entries_cells ?es)] =>
        rewrite (avoid_entries b es) by reflexivity
    | |- context [avoid ?b (outputs_cells ?es)] =>
        rewrite (avoid_outputs b es) by reflexivity
    end;
  reflexivity.

Lemma putc_reg_run q inst reg st a st' :
  src inst = REG reg ->
  translate_putc q inst st = Ok a st' ->
  forall T, sub st' T ->
  forall es1 v es2 outs,
    reg_absent reg es1 = true ->
    steps T (q, tape_at [] (wf_cells (es1 ++ RegE reg v :: es2) outs))
            (a, tape_at [] (wf_cells (es1 ++ RegE reg v :: es2) (outs ++ [v]))).
Proof.
  intros Hsrc H. unfold_gen translate_putc H. rewrite Hsrc in H.
  gen_inv H.
  match goal with
  | G : tm_copy _ _ _ _ = _ |- _ =>
      destruct (tm_copy_run_right _ _ _ _ _ G) as (-> & _ & Hcopy)
  end.
  match goal with
  | G : tm_find_register _ _ _ _ = _ |- _ =>
      destruct (tm_find_register_run _ _ _ _ _ _ G) as (-> & _ & Hfind)
  end.
  intros T HT es1 v es2 outs Habs. sub_inv HT.
  destruct (Hcopy T HT) as [HT1 Hc]. sub_inv HT1.
  destruct (Hfind T HT1) as (HT2 & Hfound & Hrestart & _). sub_inv HT2.
  set (w := word_bits 8 v).
  set (E1 := entries_cells es1).
  set (P' := E1 ++ [BLANK; REGISTER] ++ spread (word_bits 8 reg) ++
             [BLANK; VALUE]).
  destruct (zone_shape es2 outs) as (Z' & HZ & HZbit & HZav).
  assert (Hbody : wf_cells (es1 ++ RegE reg v :: es2) outs =
                  (START :: P' ++ spread w ++ BLANK :: Z') ++ [END]).
  { unfold wf_cells. rewrite entries_cells_app. unfold entries_cells at 2.
    cbn [flat_map]. fold (entries_cells es2). unfold entry_cells, P', E1, w.
    rewrite <- HZ. app_norm. reflexivity. }
  assert (Hfinal : wf_cells (es1 ++ RegE reg v :: es2) (outs ++ [v]) =
                   START :: P' ++ spread w ++ [BLANK] ++ (Z' ++ [OUTPUT]) ++
                     spread w ++ [BLANK] ++ [END]).
  { unfold wf_cells. rewrite entries_cells_app, outputs_cells_app.
    unfold entries_cells at 2.
    cbn [flat_map]. fold (entries_cells es2). unfold entry_cells, P', E1.
    unfold outputs_cells at 2. cbn [flat_map]. unfold output_cells. fold w.
    transitivity (START :: entries_cells es1 ++ [BLANK; REGISTER] ++
                    spread (word_bits 8 reg) ++ [BLANK; VALUE] ++ spread w ++
                    (entries_cells es2 ++ [BLANK] ++ outputs_cells outs) ++
                    OUTPUT :: spread w ++ [BLANK] ++ [END]).
    - app_norm. reflexivity.
    - rewrite HZ. app_norm. reflexivity. }
  assert (HP' : forall bad,
             avoid bad [BLANK; ZERO; ONE; VALUE; REGISTER; ADDRESS] = true ->
             avoid bad P' = true).
  { intros bad Hb. unfold P', E1.
    assert (H3 : avoid bad [BLANK; ZERO; ONE] = true).
    { change [BLANK; ZERO; ONE; VALUE; REGISTER; ADDRESS]
        with ([BLANK; ZERO; ONE] ++ [VALUE; REGISTER; ADDRESS]) in Hb.
      rewrite avoid_app in Hb. apply andb_true_iff in Hb. tauto. }
    rewrite !avoid_app, avoid_entries, avoid_spread by assumption.
    change [BLANK; ZERO; ONE; VALUE; REGISTER; ADDRESS]
      with ([BLANK] ++ [ZERO; ONE] ++ [VALUE] ++ [REGISTER] ++ [ADDRESS]) in Hb.
    rewrite !avoid_app in Hb.
    repeat (apply andb_true_iff in Hb; destruct Hb as [? Hb]).
    rewrite (avoid_cons_eq bad BLANK), (avoid_cons_eq bad BLANK [VALUE]).
    repeat match goal with H : avoid bad _ = true |- _ => rewrite H end.
    reflexivity. }
  assert (Hw : forall bad, avoid bad [BLANK; ZERO; ONE] = true ->
                           avoid bad (spread w) = true)
    by (intros; apply avoid_spread; assumption).
  rewrite Hbody, Hfinal. unfold tape_at. cbn [rev].
  (* to the end sentinel *)
  steps_with ltac:(eapply (ffwd_run T q _ (START :: P' ++ spread w ++ BLANK :: Z')
                             [] []); [eassumption | avoid_tac]).
  (* output marker, destination marker, back to the start *)
  step_block. step_block.
  steps_with ltac:(eapply (rewind_run T _ _ (rev (P' ++ spread w ++ BLANK :: Z'))
                             OUTPUT [] [DST]); [eassumption | avoid_tac]).
  (* the register *)
  pose proof (find_entries_found T _ _ reg Hfound Hrestart es1 []
                [START] v (BLANK :: Z' ++ [OUTPUT; DST]) eq_refl Habs) as Hf.
  eapply steps_trans.
  { eapply steps_tape_eq; [|exact Hf].
    unfold tape_at, P', E1, entry_cells, w. f_equal.
    list_norm. reflexivity. }
  (* the copy *)
  assert (HtM : avoid [SRC; DST; START; END] (Z' ++ [OUTPUT]) = true)
    by avoid_tac.
  assert (HtMne : Z' ++ [OUTPUT] <> []) by (destruct Z'; discriminate).
  pose proof (Hc w BLANK (Z' ++ [OUTPUT]) (rev (START :: P')) []
                (word_bits_all_bits 8 v) HZbit HtMne HtM) as Hcp.
  eapply steps_trans.
  { eapply steps_tape_eq; [|exact Hcp].
    unfold tape_at. fold w. rewrite spread_blank.
    f_equal; list_norm; reflexivity. }
  unfold w at 3. rewrite word_bits_length. cbn [skipn Nat.mul].
  (* blank, end sentinel, back to the start *)
  step_block. step_block.
  steps_with ltac:(eapply (rewind_run T _ _
              (rev (P' ++ spread w ++ [BLANK] ++ (Z' ++ [OUTPUT]) ++
                      spread w ++ [BLANK])) END [] []);
                   [eassumption | avoid_tac]).
  apply steps_eq. f_equal. f_equal. list_norm. reflexivity.
Qed.

Lemma wf_cells_snoc_cells es outs v :
  wf_cells es (outs ++ [v]) =
  START :: entries_cells es ++ [BLANK] ++ outputs_cells outs ++
    OUTPUT :: spread (word_bits 8 v) ++ [BLANK; END].
Proof.
  unfold wf_cells. rewrite outputs_cells_app.
  replace (outputs_cells [v]) with (OUTPUT :: spread (word_bits 8 v) ++ [BLANK])
    by (unfold outputs_cells, output_cells; cbn [flat_map];
        rewrite app_nil_r; reflexivity).
  app_norm. reflexivity.
Qed.

Lemma putc_imm_run q inst i st a st' :
  src inst = IMM i ->
  translate_putc q inst st = Ok a st' ->
  forall T, sub st' T ->
  forall es outs,
    steps T (q, tape_at [] (wf_cells es outs))
            (a, tape_at [] (wf_cells es (outs ++ [i]))).
Proof.
  intros Hsrc H. unfold_gen translate_putc H. rewrite Hsrc in H.
  gen_inv H.
  match goal with
  | G : tm_write_byte _ _ _ _ = _ |- _ =>
      unfold_gen tm_write_byte G;
      destruct (tm_write_bits_run _ _ _ _ _ _ _ G) as (-> & Hbits)
  end.
  intros T HT es outs. sub_inv HT.
  destruct (Hbits T HT) as [HT1 Hw]. sub_inv HT1.
  rewrite wf_cells_snoc_cells. unfold wf_cells, tape_at. cbn [rev].
  steps_with ltac:(eapply (ffwd_run T q _
                     (START :: entries_cells es ++ [BLANK] ++
                        outputs_cells outs) [] []);
                   [eassumption | avoid_tac]).
  step_block.
  eapply steps_trans; [apply Hw|].
  step_block. step_block.
  steps_with ltac:(eapply (rewind_run T _ _
                     (rev (entries_cells es ++ [BLANK] ++ outputs_cells outs
                             ++ OUTPUT :: spread (word_bits 8 i) ++ [BLANK]))
                     END [] []);
                   [eassumption | avoid_tac]).
  apply steps_eq. f_equal. f_equal. list_norm. reflexivity.
Qed.

Lemma translate_inst_putc q inst :
  op inst = PUTC -> translate_inst q inst = translate_putc q inst.
Proof. unfold translate_inst. intros ->. reflexivity. Qed.

Lemma succeeds_translate_putc q inst :
  src inst <> TMP -> succeeds (translate_putc q inst).
Proof.
  intro H. unfold translate_putc.
  destruct (src inst) as [reg|i|]; [| |congruence]; repeat succeeds_step3.
Qed.

Lemma wf_cells_snoc es outs v :
  wf_cells es (outs ++ [v]) =
  removelast (wf_cells es outs) ++ output_cells v ++ [END].
Proof.
  assert (E : wf_cells es outs =
              (START :: entries_cells es ++ [BLANK] ++ outputs_cells outs)
                ++ [END])
    by (unfold wf_cells; app_norm; reflexivity).
  rewrite E, removelast_last, wf_cells_snoc_cells. unfold output_cells.
  app_norm. reflexivity.
Qed.

(** C10 (PUTC frame property): the states emitted for a PUTC instruction
    with a register or immediate source, run from a well-formed tape with
    the head on the start sentinel, end with the head back on the start
    sentinel and the tape well-formed with the same register and memory
    entries and one more output cell, holding the register's value or the
    immediate.  The new tape is the old one up to the old end-sentinel
    position, followed by the new output cell (marker, 8-bit word, blank)
    and the relocated end sentinel. *)
Theorem putc_frame :
  forall q inst st,
    op inst = PUTC ->
    (forall reg, src inst = REG reg ->
       exists a st', translate_inst q inst st = Ok a st' /\
         forall T es1 v es2 outs,
           sub st' T -> reg_absent reg es1 = true ->
           steps T
             (q, tape_at [] (wf_cells (es1 ++ RegE reg v :: es2) outs))
             (a, tape_at [] (wf_cells (es1 ++ RegE reg v :: es2)
                               (outs ++ [v])))) /\
    (forall i, src inst = IMM i ->
       exists a st', translate_inst q inst st = Ok a st' /\
         forall T es outs,
           sub st' T ->
           steps T (q, tape_at [] (wf_cells es outs))
                   (a, tape_at [] (wf_cells es (outs ++ [i])))) /\
    (forall es outs v,
       wf_cells es (outs ++ [v]) =
       removelast (wf_cells es outs) ++ output_cells v ++ [END]).
Proof.
  intros q inst st Hop. rewrite (translate_inst_putc q inst Hop).
  split; [|split].
  - intros reg Hsrc.
    assert (Hs : src inst <> TMP) by congruence.
    destruct (succeeds_inv _ st (succeeds_translate_putc q inst Hs))
      as (a & st' & H).
    exists a, st'. split; [exact H|].
    intros T es1 v es2 outs HT Habs.
    exact (putc_reg_run q inst reg st a st' Hsrc H T HT es1 v es2 outs Habs).
  - intros i Hsrc.
    assert (Hs : src inst <> TMP) by congruence.
    destruct (succeeds_inv _ st (succeeds_translate_putc q inst Hs))
      as (a & st' & H).
    exists a, st'. split; [exact H|].
    intros T es outs HT.
    exact (putc_imm_run q inst i st a st' Hsrc H T HT es outs).
  - intros es outs v. apply wf_cells_snoc.
Qed.

Lemma putc_frame_witness :
  op (mkInst PUTC 0 TMP (REG 1) TMP) = PUTC /\
  src (mkInst PUTC 0 TMP (REG 1) TMP) = REG 1 /\
  reg_absent 1 [RegE 0 72] = true /\
  exists a st',
    translate_inst 5 (mkInst PUTC 0 TMP (REG 1) TMP) (mkG 7 6 []) = Ok a st' /\
    steps (emitted st')
      (5, tape_at [] (wf_cells ([RegE 0 72] ++ RegE 1 73 :: [MemE 0 9]) [72]))
      (a, tape_at [] (wf_cells ([RegE 0 72] ++ RegE 1 73 :: [MemE 0 9])
                        ([72] ++ [73]))).
Proof.
  split; [reflexivity|]. split; [reflexivity|]. split; [reflexivity|].
  destruct (putc_frame 5 (mkInst PUTC 0 TMP (REG 1) TMP) (mkG 7 6 []) eq_refl)
    as (Hreg & _ & _).
  destruct (Hreg 1 eq_refl) as (a & st' & H & Hrun).
  exists a, st'. split; [exact H|].
  apply Hrun; [apply incl_refl | reflexivity].
Defined.


(** ** EXIT: compaction of the output cells *)

Section ExitLoop.
Variables (T : list transition) (q_findo q_found q_copy q_copied q_clear q_clr : Z).

Hypothesis B_findo : has_block T q_findo
  (act_move_if2 OUTPUT 0 q_found END 0 q_clear 1 q_findo).
Hypothesis B_found : has_block T q_found (act_write BLANK 1 q_copy).
Hypothesis copy : forall w x Mx Drem Lw t R,
  all_bits w = true -> is_bit t = false ->
  avoid [DST; START] [t] = true ->
  avoid [SRC; DST; START; END] Mx = true ->
  avoid [SRC; DST; START; END] Drem = true ->
  List.length Drem = List.length w ->
  steps T
    (q_copy, mkTape (rev Mx ++ rev Drem ++ DST :: Lw)
                    (x :: spread_after w ++ t :: R))
    (q_copied, mkTape (rev w ++ Lw)
                      (BLANK :: Mx ++ spread w ++ BLANK :: t :: R)).
Hypothesis B_copied : has_block T q_copied (act_write DST 1 q_findo).
Hypothesis B_clear : has_block T q_clear (act_move_if END 0 q_clr 1 q_clear).
Hypothesis B_clr : has_block T q_clr
  (act_write_if DST BLANK 0 (-1) BLANK (-1) q_clr).

Lemma exit_clear : forall xs c l rt,
  avoid [DST] (c :: xs) = true ->
  steps T (q_clr, mkTape (xs ++ DST :: l) (c :: rt))
          (-1, mkTape l (repeat BLANK (List.length xs + 2) ++ rt)).
Proof.
  induction xs as [|x xs IH]; intros c l rt H.
  - apply avoid_cons in H. destruct H as [Hc _].
    specialize (Hc DST (or_introl eq_refl)).
    step_block. rewrite Hc. cbn [app hd tl]. step_block.
    apply steps_refl.
  - apply avoid_cons in H. destruct H as [Hc H].
    specialize (Hc DST (or_introl eq_refl)).
    step_block. rewrite Hc. cbn [app hd tl].
    eapply steps_trans; [apply (IH x l (BLANK :: rt) H)|].
    apply steps_eq. f_equal. f_equal.
    cbn [List.length Nat.add].
    change (S (List.length xs + 2)) with (S (List.length xs) + 2)%nat.
    replace (S (List.length xs) + 2)%nat with (List.length xs + 2 + 1)%nat
      by lia.
    rewrite (repeat_app _ (List.length xs + 2) 1), <- app_assoc.
    reflexivity.
Qed.

Lemma exit_loop : forall outs X W R0,
  avoid [OUTPUT; SRC; DST; START; END] X = true ->
  (8 <= List.length X)%nat ->
  steps T
    (q_findo, mkTape (DST :: rev W) (X ++ outputs_cells outs ++ END :: R0))
    (-1, mkTape (rev (W ++ flat_map (word_bits 8) outs))
                (repeat BLANK (List.length X + 10 * List.length outs + 2)
                   ++ R0)).
Proof.
  induction outs as [|v outs IH]; intros X W R0 HX HL.
  - cbn [outputs_cells flat_map app List.length Nat.mul Nat.add].
    rewrite app_nil_r, Nat.add_0_r.
    eapply steps_trans.
    { eapply (find_right_no T q_findo OUTPUT q_found q_clear X _ R0 B_findo).
      - revert HX. apply avoid_weaken. simpl. tauto.
      - discriminate. }
    step_block.
    assert (HXd : avoid [DST] X = true)
      by (revert HX; apply avoid_weaken; simpl; tauto).
    assert (HXe : avoid [DST] (END :: rev X) = true)
      by (rewrite avoid_cons_eq, avoid_rev, HXd; reflexivity).
    steps_with ltac:(apply (exit_clear (rev X) END (rev W) R0 HXe)).
    rewrite length_rev. apply steps_refl.
  - set (w := word_bits 8 v).
    assert (HXsplit : X = firstn 8 X ++ skipn 8 X)
      by (symmetry; apply firstn_skipn).
    assert (HLf : List.length (firstn 8 X) = 8%nat)
      by (rewrite length_firstn; lia).
    assert (HLs : List.length (skipn 8 X) = (List.length X - 8)%nat)
      by (apply length_skipn).
    remember (firstn 8 X) as D1. remember (skipn 8 X) as D2.
    clear HeqD1 HeqD2.
    assert (HX' := HX). rewrite HXsplit, avoid_app in HX'.
    apply andb_true_iff in HX'. destruct HX' as [HD1 HD2].
    assert (Htail : exists t R, outputs_cells outs ++ END :: R0 = t :: R /\
                                is_bit t = false /\
                                avoid [DST; START] [t] = true).
    { destruct outs as [|v' outs'].
      - exists END, R0. auto.
      - eexists OUTPUT, _. split; [reflexivity|]. auto. }
    destruct Htail as (t & R & HtR & Htbit & Htav).
    unfold outputs_cells. cbn [flat_map]. fold (outputs_cells outs).
    unfold output_cells. fold w. app_norm.
    eapply steps_trans.
    { eapply (find_right_yes T q_findo OUTPUT q_found q_clear X
                (DST :: rev W) _ B_findo).
      revert HX. apply avoid_weaken. simpl. tauto. }
    step_block.
    assert (HMx : avoid [SRC; DST; START; END] (D2 ++ [BLANK]) = true).
    { assert (H2 : avoid [SRC; DST; START; END] D2 = true)
        by (revert HD2; apply avoid_weaken; simpl; tauto).
      rewrite avoid_app, H2. reflexivity. }
    assert (HDrem : avoid [SRC; DST; START; END] D1 = true)
      by (revert HD1; apply avoid_weaken; simpl; tauto).
    pose proof (copy w BLANK (D2 ++ [BLANK]) D1 (rev W) t R
                  (word_bits_all_bits 8 v) Htbit Htav HMx HDrem) as Hcp.
    unfold w in Hcp at 1. rewrite word_bits_length in Hcp.
    specialize (Hcp HLf).
    eapply steps_trans.
    { eapply steps_tape_eq; [|exact Hcp].
      rewrite HXsplit. f_equal.
      - list_norm. reflexivity.
      - app_norm. rewrite HtR. rewrite <- spread_blank.
        app_norm. reflexivity. }
    step_block.
    assert (HX2 : avoid [OUTPUT; SRC; DST; START; END]
                    (D2 ++ BLANK :: spread w ++ [BLANK]) = true).
    { rewrite avoid_app, HD2, avoid_cons_eq, avoid_app. unfold w.
      rewrite avoid_spread by reflexivity. reflexivity. }
    assert (Hsw : List.length (spread w) = 16%nat) by reflexivity.
    assert (HL2 : (8 <= List.length (D2 ++ BLANK :: spread w ++ [BLANK]))%nat).
    { rewrite length_app. cbn [List.length]. rewrite length_app, Hsw.
      cbn [List.length]. lia. }
    specialize (IH (D2 ++ BLANK :: spread w ++ [BLANK]) (W ++ w) R0 HX2 HL2).
    eapply steps_conf_eq; [ | | exact IH ].
    + f_equal.
      * list_norm. reflexivity.
      * rewrite <- HtR. app_norm. reflexivity.
    + f_equal.
      * cbn [flat_map]. fold w. app_norm. reflexivity.
      * f_equal. f_equal. rewrite length_app. cbn [List.length].
        rewrite length_app, Hsw, HLs. cbn [List.length]. lia.
Qed.
End ExitLoop.

Lemma translate_inst_exit q inst :
  op inst = EXIT -> translate_inst q inst = translate_exit q.
Proof. unfold translate_inst. intros ->. reflexivity. Qed.

Lemma succeeds_translate_exit q : succeeds (translate_exit q).
Proof. unfold translate_exit. repeat succeeds_step3. Qed.

Lemma translate_exit_run q st a st' :
  translate_exit q st = Ok a st' ->
  forall T, sub st' T ->
  forall X outs R0,
    avoid [OUTPUT; SRC; DST; START; END] X = true ->
    (8 <= List.length X)%nat ->
    steps T
      (q, mkTape [] (START :: X ++ outputs_cells outs ++ END :: R0))
      (-1, mkTape (rev (flat_map (word_bits 8) outs))
             (repeat BLANK (List.length X + 10 * List.length outs + 2)
                ++ R0)).
Proof.
  intros H. unfold_gen translate_exit H. gen_inv H.
  match goal with
  | G : tm_copy_compact _ _ _ _ = _ |- _ =>
      destruct (tm_copy_compact_run_left _ _ _ _ _ G) as (-> & _ & Hcopy)
  end.
  intros T HT X outs R0 HX HL.
  sub_inv HT. destruct (Hcopy T HT) as [HT1 Hcp]. sub_inv HT1.
  step_block.
  eapply steps_conf_eq;
    [ | | eapply (exit_loop T _ _ _ _ _ _) with (W := []); eassumption ].
  - reflexivity.
  - reflexivity.
Qed.

Lemma wf_cells_length es outs :
  List.length (wf_cells es outs) =
  (List.length (entries_cells es) + 18 * List.length outs + 3)%nat.
Proof.
  unfold wf_cells. cbn [List.length]. rewrite !length_app.
  cbn [List.length].
  assert (E : List.length (outputs_cells outs) = (18 * List.length outs)%nat).
  { induction outs as [|v outs IH]; [reflexivity|].
    unfold outputs_cells in *. cbn [flat_map]. rewrite length_app, IH.
    cbn [List.length]. assert (H : List.length (output_cells v) = 18%nat)
      by reflexivity. rewrite H. lia. }
  rewrite E. lia.
Qed.

Lemma entries_cells_length es :
  es <> [] -> (8 <= List.length (entries_cells es))%nat.
Proof.
  destruct es as [|e es]; [congruence|]. intros _.
  unfold entries_cells. cbn [flat_map]. rewrite length_app.
  assert (H : List.length (entry_cells e) = 36%nat)
    by (destruct e; reflexivity).
  rewrite H. lia.
Qed.

(** C6, as amended (EXIT compaction): the states emitted for an EXIT
    instruction, run from a well-formed tape holding at least one register or
    memory entry with the head on the start sentinel, halt in state -1 with
    the words of all output cells, in program order, compacted into one
    contiguous run that begins on the cell that held the start sentinel (the
    first cell of the tape); the head rests on the cell after the run, and
    every cell from there up to and including the former end-sentinel
    position is blank. *)
Theorem exit_compacts_output :
  forall q inst st,
    op inst = EXIT ->
    exists a st',
      translate_inst q inst st = Ok a st' /\
      forall T es outs,
        sub st' T -> es <> [] ->
        steps T
          (q, tape_at [] (wf_cells es outs))
          (-1, tape_at (flat_map (word_bits 8) outs)
                 (repeat BLANK (List.length (wf_cells es outs)
                                - 8 * List.length outs))).
Proof.
  intros q inst st Hop. rewrite (translate_inst_exit q inst Hop).
  destruct (is_ok_inv _ _ (succeeds_translate_exit q st)) as (a & st' & H).
  exists a, st'. split; [exact H|].
  intros T es outs HT Hes.
  pose proof (translate_exit_run q st a st' H T HT
                (entries_cells es ++ [BLANK]) outs []) as Hrun.
  unfold tape_at, wf_cells. cbn [rev].
  eapply steps_conf_eq; [ | | apply Hrun ].
  - f_equal. app_norm. reflexivity.
  - f_equal. rewrite app_nil_r. f_equal.
    fold (wf_cells es outs). rewrite wf_cells_length, length_app.
    cbn [List.length]. lia.
  - avoid_tac.
  - rewrite length_app. pose proof (entries_cells_length es Hes). lia.
Qed.

Lemma exit_compacts_output_witness :
  op (mkInst EXIT 2 TMP TMP TMP) = EXIT /\
  [RegE 0 3] <> [] /\
  exists a st',
    translate_inst 5 (mkInst EXIT 2 TMP TMP TMP) (mkG 7 6 []) = Ok a st' /\
    steps (emitted st')
      (5, tape_at [] (wf_cells [RegE 0 3] [72; 105]))
      (-1, tape_at (flat_map (word_bits 8) [72; 105])
             (repeat BLANK (List.length (wf_cells [RegE 0 3] [72; 105])
                            - 8 * List.length [72; 105]))).
Proof.
  split; [reflexivity|]. split; [discriminate|].
  destruct (exit_compacts_output 5 (mkInst EXIT 2 TMP TMP TMP) (mkG 7 6 [])
              eq_refl) as (a & st' & H & Hrun).
  exists a, st'. split; [exact H|].
  apply Hrun; [apply incl_refl | discriminate].
Defined.

(** C6 as stated fails: run on a well-formed tape with the output cells 72
    and 105 (75 cells, end sentinel on cell 74), the deterministic table of
    EXIT halts with the output run on cells 0..15, where the start sentinel
    and the register stood; the cells that follow the end sentinel's
    position hold no output, they are blank. *)
Lemma exit_output_run_at_tape_start :
  deterministicb exit_table = true /\
  nth_error exit_cells 74 = Some END /\
  exists tp,
    run_to_halt 4000 exit_table (5, exit_tape) = Some (-1, tp) /\
    cells_from 0 16 (tape_cells tp) = word_bits 8 72 ++ word_bits 8 105 /\
    cells_from 75 16 (tape_cells tp) = repeat BLANK 16 /\
    cells_from 75 16 (tape_cells tp) <> word_bits 8 72 ++ word_bits 8 105.
Proof.
  split; [vm_compute; reflexivity|]. split; [reflexivity|].
  eexists. split; [vm_compute; reflexivity|].
  split; [vm_compute; reflexivity|]. split; [vm_compute; reflexivity|].
  vm_compute. discriminate.
Qed.


(** ** Invariants kept by every generator function *)

Lemma final_bind_ok {A B} (c : M A) (f : A -> M B) st a st1 :
  c st = Ok a st1 -> bind c f st = f a st1.
Proof. unfold bind. intros ->. reflexivity. Qed.

Lemma final_bind_err {A B} (c : M A) (f : A -> M B) st msg st1 :
  c st = Err msg st1 -> bind c f st = Err msg st1.
Proof. unfold bind. intros ->. reflexivity. Qed.

Lemma bind_assoc {A B C} (c : M A) (f : A -> M B) (k : B -> M C) st :
  bind (bind c f) k st = bind c (fun a => bind (f a) k) st.
Proof. unfold bind. destruct (c st); reflexivity. Qed.

Lemma emitter_exact {A} (c : M A) (r : A) (g : gstate -> gstate) :
  succeeds c ->
  (forall st a st', c st = Ok a st' -> a = r /\ st' = g st) ->
  forall st, c st = Ok r (g st).
Proof.
  intros Hs Hinv st. destruct (is_ok_inv _ _ (Hs st)) as (a & st' & H).
  destruct (Hinv st a st' H) as [-> ->]. exact H.
Qed.

Section Keeps.
Variable Inv : gstate -> Prop.
Variables okq okr : Z -> Prop.
Hypothesis I_counter : forall st,
  Inv st -> Inv (mkG (next_state st + 1) (q_reject st) (emitted st)).
Hypothesis I_set_reject : forall st r,
  Inv st -> okq r -> Inv (mkG (next_state st) r (emitted st)).
Hypothesis I_fresh : forall st, Inv st -> okq (next_state st).
Hypothesis I_reject : forall st, Inv st -> okr (q_reject st).
Hypothesis I_block : forall st q g,
  Inv st -> okq q -> (forall s, okr (action_target (g s))) ->
  Inv (add_block q g st).
Hypothesis okq_okr : forall z, okq z -> okr z.
Hypothesis okq_zero : okq 0.
Hypothesis okr_halt : okr (-1).

Lemma keeps_ret {A} (a : A) (Q : A -> Prop) : Q a -> keeps Inv (ret a) Q.
Proof.
  intros HQ st HI. split; [exact HI|].
  intros b st' H. apply ret_inv in H. destruct H as [-> _]. exact HQ.
Qed.

Lemma keeps_error {A} msg (Q : A -> Prop) : keeps Inv (error msg) Q.
Proof. intros st HI. split; [exact HI|]. intros b st' H. discriminate. Qed.

Lemma keeps_bind {A B} (c : M A) (f : A -> M B) (Q1 : A -> Prop)
      (Q2 : B -> Prop) :
  keeps Inv c Q1 -> (forall a, Q1 a -> keeps Inv (f a) Q2) ->
  keeps Inv (bind c f) Q2.
Proof.
  intros Hc Hf st HI. destruct (Hc st HI) as [HI1 HQ1].
  unfold bind. destruct (c st) as [a st1|msg st1] eqn:E.
  - apply (Hf a (HQ1 a st1 eq_refl) st1 HI1).
  - split; [exact HI1|]. intros; discriminate.
Qed.

Lemma keeps_weaken {A} (c : M A) (Q1 Q2 : A -> Prop) :
  keeps Inv c Q1 -> (forall a, Q1 a -> Q2 a) -> keeps Inv c Q2.
Proof.
  intros Hc HQ st HI. destruct (Hc st HI) as [HI1 HQ1].
  split; [exact HI1|]. intros a st' H. apply HQ, (HQ1 a st' H).
Qed.

Lemma keeps_new_state : keeps Inv new_state okq.
Proof.
  intros st HI. split; [apply I_counter, HI|].
  intros a st' H. apply new_state_inv in H. destruct H as [-> _].
  apply I_fresh, HI.
Qed.

Lemma keeps_get_q_reject : keeps Inv get_q_reject okr.
Proof.
  intros st HI. split; [exact HI|].
  intros a st' H. apply get_q_reject_inv in H. destruct H as [-> _].
  apply I_reject, HI.
Qed.

Lemma keeps_set_q_reject r :
  okq r -> keeps Inv (set_q_reject r) (fun _ => True).
Proof. intros Hr st HI. split; [apply I_set_reject; assumption | auto]. Qed.

Lemma keeps_block {A} (c : M A) (r : A) q g :
  (forall st, c st = Ok r (add_block q g st)) ->
  okq q -> (forall s, okr (action_target (g s))) ->
  keeps Inv c (fun x => x = r).
Proof.
  intros E Hq Hg st HI. rewrite E. split; [apply I_block; assumption|].
  intros a st' H. inversion H. reflexivity.
Qed.

Ltac block_targets :=
  intro s0; unfold act_write, act_write_if, act_write_if2,
                   act_move, act_move_if, act_move_if2;
  repeat match goal with
         | |- context [symbol_eqb ?x ?y] => destruct (symbol_eqb x y)
         end; cbn [action_target snd]; assumption.

Lemma keeps_tm_write q b d r :
  valid_dir d = true -> okq q -> okr r ->
  keeps Inv (tm_write q b d r) (fun x => x = r).
Proof.
  intros Hd Hq Hr.
  apply (keeps_block _ r q (act_write b d r));
    [ apply emitter_exact;
      [ apply succeeds_tm_write; assumption
      | intros st a st'; apply tm_write_inv ]
    | assumption | block_targets ].
Qed.

Lemma keeps_tm_write_if q a ba da ra b d r :
  valid_dir da = true -> valid_dir d = true ->
  okq q -> okr ra -> okr r ->
  keeps Inv (tm_write_if q a ba da ra b d r) (fun x => x = r).
Proof.
  intros Hda Hd Hq Hra Hr.
  apply (keeps_block _ r q (act_write_if a ba da ra b d r));
    [ apply emitter_exact;
      [ apply succeeds_tm_write_if; assumption
      | intros st x st'; apply tm_write_if_inv ]
    | assumption | block_targets ].
Qed.

Lemma keeps_tm_write_if2 q a1 b1 d1 r1 a2 b2 d2 r2 b d r :
  valid_dir d1 = true -> valid_dir d2 = true -> valid_dir d = true ->
  okq q -> okr r1 -> okr r2 -> okr r ->
  keeps Inv (tm_write_if2 q a1 b1 d1 r1 a2 b2 d2 r2 b d r) (fun x => x = r).
Proof.
  intros H1 H2 Hd Hq Hr1 Hr2 Hr.
  apply (keeps_block _ r q (act_write_if2 a1 b1 d1 r1 a2 b2 d2 r2 b d r));
    [ apply emitter_exact;
      [ apply succeeds_tm_write_if2; assumption
      | intros st x st'; apply tm_write_if2_inv ]
    | assumption | block_targets ].
Qed.

Lemma keeps_tm_move q d r :
  valid_dir d = true -> okq q -> okr r ->
  keeps Inv (tm_move q d r) (fun x => x = r).
Proof.
  intros Hd Hq Hr.
  apply (keeps_block _ r q (act_move d r));
    [ apply emitter_exact;
      [ apply succeeds_tm_move; assumption
      | intros st x st'; apply tm_move_inv ]
    | assumption | block_targets ].
Qed.

Lemma keeps_tm_move_if q a da ra d r :
  valid_dir da = true -> valid_dir d = true ->
  okq q -> okr ra -> okr r ->
  keeps Inv (tm_move_if q a da ra d r) (fun x => x = r).
Proof.
  intros Hda Hd Hq Hra Hr.
  apply (keeps_block _ r q (act_move_if a da ra d r));
    [ apply emitter_exact;
      [ apply succeeds_tm_move_if; assumption
      | intros st x st'; apply tm_move_if_inv ]
    | assumption | block_targets ].
Qed.

Lemma keeps_tm_move_if2 q a da ra b db rb d r :
  valid_dir da = true -> valid_dir db = true -> valid_dir d = true ->
  okq q -> okr ra -> okr rb -> okr r ->
  keeps Inv (tm_move_if2 q a da ra b db rb d r) (fun x => x = r).
Proof.
  intros Hda Hdb Hd Hq Hra Hrb Hr.
  apply (keeps_block _ r q (act_move_if2 a da ra b db rb d r));
    [ apply emitter_exact;
      [ apply succeeds_tm_move_if2; assumption
      | intros st x st'; apply tm_move_if2_inv ]
    | assumption | block_targets ].
Qed.


(** Side conditions: states in range, directions valid. *)
Ltac ok_side :=
  cbv beta;
  first [ assumption
        | apply okq_okr; assumption
        | apply okq_zero
        | apply okr_halt
        | apply okq_okr; apply okq_zero
        | exact Logic.I
        | reflexivity
        | apply valid_dir_intcmp
        | apply valid_dir_opp; first [assumption | apply valid_dir_intcmp] ].

Ltac keeps_prim :=
  idtac;
  lazymatch goal with
  | |- keeps _ new_state _ => apply keeps_new_state
  | |- keeps _ get_q_reject _ => apply keeps_get_q_reject
  | |- keeps _ (set_q_reject _) _ => apply keeps_set_q_reject
  | |- keeps _ (tm_write _ _ _ _) _ => apply keeps_tm_write
  | |- keeps _ (tm_write_if _ _ _ _ _ _ _ _) _ => apply keeps_tm_write_if
  | |- keeps _ (tm_write_if2 _ _ _ _ _ _ _ _ _ _ _ _) _ =>
      apply keeps_tm_write_if2
  | |- keeps _ (tm_move _ _ _) _ => apply keeps_tm_move
  | |- keeps _ (tm_move_if _ _ _ _ _ _) _ => apply keeps_tm_move_if
  | |- keeps _ (tm_move_if2 _ _ _ _ _ _ _ _ _) _ => apply keeps_tm_move_if2
  end.

(** [call] proves [keeps Inv c Q0] for a call [c], with the postcondition
    [Q0] of its lemma; the rest follows the structure of the computation. *)
Ltac keeps_with call :=
  cbv zeta;
  lazymatch goal with
  | |- keeps _ (bind get_q_reject _) _ =>
      apply (keeps_bind _ _ okr);
      [ apply keeps_get_q_reject | intros ? ?; keeps_with call ]
  | |- keeps _ (bind (assert_reg ?v) _) _ =>
      apply (keeps_bind _ _ (fun _ => True));
      [ destruct v; [apply keeps_ret | apply keeps_error | apply keeps_error];
        exact Logic.I
      | intros ? _; keeps_with call ]
  | |- keeps _ (bind ?c (fun _ => ?k)) _ =>
      apply (keeps_bind _ _ (fun _ => True));
      [ keeps_with call | intros _ _; keeps_with call ]
  | |- keeps _ (bind _ _) _ =>
      apply (keeps_bind _ _ okq);
      [ keeps_with call | intros ? ?; keeps_with call ]
  | |- keeps _ (ret _) _ => apply keeps_ret; ok_side
  | |- keeps _ (error _) _ => apply keeps_error
  | |- keeps _ (if ?b then _ else _) _ => destruct b; keeps_with call
  | |- keeps _ _ _ =>
      eapply keeps_weaken;
      [ call; ok_side
      | cbv beta;
        let a := fresh "a" in let Ha := fresh "Ha" in
        intros a Ha; try subst a; ok_side ]
  end.

Ltac keeps_1 := keeps_with keeps_prim.

Lemma keeps_tm_noop q r :
  okq q -> okr r -> keeps Inv (tm_noop q r) (fun x => x = r).
Proof. intros. unfold tm_noop. apply keeps_tm_move; ok_side. Qed.

Lemma keeps_tm_find q d a ry rn :
  valid_dir d = true -> okq q -> okr ry -> okr rn ->
  keeps Inv (tm_find q d a ry rn) (fun x => x = ry).
Proof. intros. unfold tm_find. keeps_1. Qed.

Lemma keeps_tm_rewind q r :
  okq q -> okr r -> keeps Inv (tm_rewind q r) (fun x => x = r).
Proof. intros. unfold tm_rewind. keeps_1. Qed.

Lemma keeps_tm_ffwd q r :
  okq q -> okr r -> keeps Inv (tm_ffwd q r) (fun x => x = r).
Proof. intros. unfold tm_ffwd. keeps_1. Qed.

Lemma keeps_tm_write_bits_loop i : forall q x,
  okq q -> keeps Inv (tm_write_bits_loop i q x) okq.
Proof.
  induction i as [|i IH]; intros q x Hq; cbn [tm_write_bits_loop].
  - keeps_1.
  - keeps_with ltac:(idtac; first [keeps_prim | apply IH]).
Qed.

Lemma keeps_tm_write_bits q x n r :
  okq q -> okr r -> keeps Inv (tm_write_bits q x n r) (fun a => a = r).
Proof.
  intros. unfold tm_write_bits.
  keeps_with ltac:(idtac; first [keeps_prim | apply keeps_tm_write_bits_loop]).
Qed.

Lemma keeps_tm_find_register_loop k : forall qstart q reg,
  okq qstart -> okq q ->
  keeps Inv (tm_find_register_loop k qstart q reg) okq.
Proof.
  induction k as [|k IH]; intros qstart q reg Hs Hq;
    cbn [tm_find_register_loop].
  - keeps_1.
  - keeps_with ltac:(idtac; first [keeps_prim | apply IH]).
Qed.

Ltac keeps_call2 :=
  idtac;
  lazymatch goal with
  | |- keeps _ (tm_noop _ _) _ => apply keeps_tm_noop
  | |- keeps _ (tm_find _ _ _ _ _) _ => apply keeps_tm_find
  | |- keeps _ (tm_rewind _ _) _ => apply keeps_tm_rewind
  | |- keeps _ (tm_ffwd _ _) _ => apply keeps_tm_ffwd
  | |- keeps _ (tm_write_bits_loop _ _ _) _ =>
      apply keeps_tm_write_bits_loop
  | |- keeps _ (tm_write_bits _ _ _ _) _ => apply keeps_tm_write_bits
  | |- keeps _ (tm_find_register_loop _ _ _ _) _ =>
      apply keeps_tm_find_register_loop
  | |- _ => keeps_prim
  end.

Ltac keeps_2 := keeps_with keeps_call2.

Lemma keeps_tm_write_word q x r :
  okq q -> okr r -> keeps Inv (tm_write_word q x r) (fun a => a = r).
Proof. intros. unfold tm_write_word. apply keeps_tm_write_bits; ok_side. Qed.

Lemma keeps_tm_write_byte q x r :
  okq q -> okr r -> keeps Inv (tm_write_byte q x r) (fun a => a = r).
Proof. intros. unfold tm_write_byte. apply keeps_tm_write_bits; ok_side. Qed.

Lemma keeps_tm_find_register q reg r :
  okq q -> okr r ->
  keeps Inv (tm_find_register q reg r) (fun a => a = r).
Proof. intros. unfold tm_find_register. keeps_2. Qed.

Lemma keeps_tm_copy_helper q d mode r :
  valid_dir d = true -> okq q -> okr r ->
  keeps Inv (tm_copy_helper q d mode r) (fun a => a = r).
Proof. intros. unfold tm_copy_helper. keeps_2. Qed.

Lemma keeps_tm_add q r :
  okq q -> okr r -> keeps Inv (tm_add q r) (fun a => a = r).
Proof. intros. unfold tm_add. keeps_2. Qed.

Lemma keeps_tm_sub q r :
  okq q -> okr r -> keeps Inv (tm_sub q r) (fun a => a = r).
Proof. intros. unfold tm_sub. keeps_2. Qed.


Ltac keeps_call3 :=
  idtac;
  lazymatch goal with
  | |- keeps _ (tm_write_word _ _ _) _ => apply keeps_tm_write_word
  | |- keeps _ (tm_write_byte _ _ _) _ => apply keeps_tm_write_byte
  | |- keeps _ (tm_find_register _ _ _) _ => apply keeps_tm_find_register
  | |- keeps _ (tm_copy _ _ _) _ =>
      unfold tm_copy; apply keeps_tm_copy_helper
  | |- keeps _ (tm_copy_to_scratch _ _ _) _ =>
      unfold tm_copy_to_scratch; apply keeps_tm_copy_helper
  | |- keeps _ (tm_copy_compact _ _ _) _ =>
      unfold tm_copy_compact; apply keeps_tm_copy_helper
  | |- keeps _ (tm_add _ _) _ => apply keeps_tm_add
  | |- keeps _ (tm_sub _ _) _ => apply keeps_tm_sub
  | |- _ => keeps_call2
  end.

Ltac keeps_3 := keeps_with keeps_call3.

Lemma keeps_init_register q reg :
  okq q -> keeps Inv (init_register q reg) okq.
Proof. intros. unfold init_register. keeps_3. Qed.

Lemma keeps_init_registers regs : forall q,
  okq q -> keeps Inv (init_registers regs q) okq.
Proof.
  induction regs as [|reg regs IH]; intros q Hq; cbn [init_registers].
  - keeps_3.
  - apply (keeps_bind _ _ okq);
      [apply keeps_init_register; assumption | intros a Ha; apply IH, Ha].
Qed.

Lemma keeps_init_cell q mp v :
  okq q -> keeps Inv (init_cell q mp v) okq.
Proof. intros. unfold init_cell. keeps_3. Qed.

Lemma keeps_init_memory d : forall mp q,
  okq q -> keeps Inv (init_memory d mp q) okq.
Proof.
  induction d as [|v d IH]; intros mp q Hq; cbn [init_memory].
  - keeps_3.
  - apply (keeps_bind _ _ okq);
      [apply keeps_init_cell; assumption | intros a Ha; apply IH, Ha].
Qed.

Ltac keeps_call4 :=
  idtac;
  lazymatch goal with
  | |- keeps _ (init_registers _ _) _ => apply keeps_init_registers
  | |- keeps _ (init_memory _ _ _) _ => apply keeps_init_memory
  | |- _ => keeps_call3
  end.

Lemma keeps_prologue m : keeps Inv (prologue m) okq.
Proof. unfold prologue. keeps_with keeps_call4. Qed.

(** The prologue after its first line block (lines 306-335). *)
Lemma keeps_prologue_tail m q0 :
  okq q0 ->
  keeps Inv
    (q <- init_registers [0; 1; 2; 3; 4; 5] q0 ;;
     q <- init_memory (data m) 0 q ;;
     r <- new_state ;; q <- tm_write q BLANK 1 r ;;
     r <- new_state ;; q <- tm_write q END (-1) r ;;
     r <- new_state ;; tm_rewind q r) okq.
Proof. intros. keeps_with keeps_call4. Qed.

Lemma keeps_stitch q prev_pc inst :
  okq q -> okq (pc inst) -> keeps Inv (stitch q prev_pc inst) okq.
Proof. intros. unfold stitch. keeps_3. Qed.

Lemma keeps_translate_mov q inst :
  okq q -> keeps Inv (translate_mov q inst) okq.
Proof.
  intros. unfold translate_mov.
  destruct (src inst) as [s|i|]; keeps_3.
Qed.

Lemma keeps_translate_arith is_add q inst :
  okq q -> keeps Inv (translate_arith is_add q inst) okq.
Proof.
  intros. unfold translate_arith.
  destruct (src inst) as [s|i|]; keeps_3.
Qed.

Lemma keeps_translate_jmp q inst :
  okq q -> (forall i, jmp inst = IMM i -> okq i) ->
  keeps Inv (translate_jmp q inst) okq.
Proof.
  intros Hq Hj. unfold translate_jmp.
  destruct (jmp inst) as [s|i|]; [apply keeps_error | | apply keeps_error].
  specialize (Hj i eq_refl). keeps_3.
Qed.

Lemma keeps_translate_putc q inst :
  okq q -> keeps Inv (translate_putc q inst) okq.
Proof.
  intros. unfold translate_putc.
  destruct (src inst) as [s|i|]; keeps_3.
Qed.

Lemma keeps_translate_exit q :
  okq q -> keeps Inv (translate_exit q) okq.
Proof. intros. unfold translate_exit. keeps_3. Qed.

Lemma keeps_translate_inst q inst :
  okq q -> (forall i, jmp inst = IMM i -> okq i) ->
  keeps Inv (translate_inst q inst) okq.
Proof.
  intros Hq Hj. unfold translate_inst. destruct (op inst).
  - apply keeps_translate_mov, Hq.
  - apply keeps_translate_arith, Hq.
  - apply keeps_translate_arith, Hq.
  - apply keeps_translate_jmp; assumption.
  - apply keeps_translate_putc, Hq.
  - apply keeps_translate_exit, Hq.
  - apply keeps_ret, Hq.
  - apply keeps_error.
Qed.

Lemma keeps_translate_text txt : forall q prev_pc,
  okq q -> targets_ok okq txt ->
  keeps Inv (translate_text txt q prev_pc) (fun p => okq (fst p)).
Proof.
  induction txt as [|inst txt IH]; intros q prev_pc Hq Ht;
    cbn [translate_text].
  - apply keeps_ret. exact Hq.
  - destruct (Ht inst (or_introl eq_refl)) as [Hpc Hj].
    apply (keeps_bind _ _ okq);
      [apply keeps_stitch; assumption | intros q1 Hq1].
    apply (keeps_bind _ _ okq);
      [apply keeps_translate_inst; assumption | intros q2 Hq2].
    apply IH; [exact Hq2|].
    intros i Hi. apply Ht. right. exact Hi.
Qed.

Lemma keeps_target_tm_gen m :
  targets_ok okq (text m) ->
  keeps Inv (target_tm_gen m) (fun p => okq (fst p)).
Proof.
  intro Ht. unfold target_tm_gen.
  apply (keeps_bind _ _ okq); [apply keeps_prologue | intros q Hq].
  apply keeps_translate_text; assumption.
Qed.

Lemma keeps_target_tail m q0 :
  okq q0 -> targets_ok okq (text m) ->
  keeps Inv
    (q <- (q <- init_registers [0; 1; 2; 3; 4; 5] q0 ;;
           q <- init_memory (data m) 0 q ;;
           r <- new_state ;; q <- tm_write q BLANK 1 r ;;
           r <- new_state ;; q <- tm_write q END (-1) r ;;
           r <- new_state ;; tm_rewind q r) ;;
     translate_text (text m) q 0)
    (fun p => okq (fst p)).
Proof.
  intros Hq Ht.
  apply (keeps_bind _ _ okq);
    [apply keeps_prologue_tail; assumption | intros q Hq1].
  apply keeps_translate_text; assumption.
Qed.

End Keeps.


(** ** The range of the emitted states *)







(** ** Totality of the emitted blocks *)

Lemma act_line_key q g s :
  tr_q (act_line q g s) = q /\ tr_a (act_line q g s) = s.
Proof. unfold act_line. destruct (g s) as [[b d] r]. split; reflexivity. Qed.

Lemma total_add_block q g E :
  total E -> total (rev (block q g) ++ E).
Proof.
  intros HE t Ht s. apply in_app_or in Ht. destruct Ht as [Ht|Ht].
  - apply in_rev in Ht. unfold block in Ht. apply in_map_iff in Ht.
    destruct Ht as (s0 & <- & _).
    exists (act_line q g s). split; [|split].
    + apply in_or_app. left. apply -> in_rev. unfold block.
      apply in_map. apply all_symbols_complete.
    + rewrite (proj1 (act_line_key q g s)), (proj1 (act_line_key q g s0)).
      reflexivity.
    + apply act_line_key.
  - destruct (HE t Ht s) as (t' & Hin & Hk).
    exists t'. split; [apply in_or_app; right; exact Hin | exact Hk].
Qed.

Lemma total_rev E : total E -> total (rev E).
Proof.
  intros HE t Ht s. apply in_rev in Ht.
  destruct (HE t Ht s) as (t' & Hin & Hk).
  exists t'. split; [apply -> in_rev; exact Hin | exact Hk].
Qed.

Lemma chase_path T l : forall q, path T q (chase T q l).
Proof.
  induction l as [|a l IH]; intro q; cbn [chase]; [apply path_refl|].
  destruct (find (matches q a) T) as [t|] eqn:E; [|apply path_refl].
  apply find_some in E. destruct E as [Hin Hm].
  apply matches_iff in Hm. destruct Hm as [Hq _].
  apply (path_step T t q _ Hin Hq). apply IH.
Qed.

(** C2, as amended (totality of the emitted blocks): in the table generated
    for any IR module, every state that is the current state of some emitted
    line has an emitted line for each of the 12 alphabet symbols, because
    every emitter iterates over the whole alphabet.  A state that only
    occurs as a next state, such as the reject state, need not have any
    line. *)
Theorem emitted_states_total :
  forall m, total (emitted_table m).
Proof.
  intro m. unfold emitted_table, table, target_tm. apply total_rev.
  refine (proj1 (keeps_target_tm_gen (fun st => total (emitted st))
                   (fun _ => True) (fun _ => True)
                   _ _ _ _ _ _ _ _ m _ (initial_gstate m) _)).
  - intros st H. exact H.
  - intros st r H _. exact H.
  - intros; exact Logic.I.
  - intros; exact Logic.I.
  - intros st q g H _ _. unfold add_block. cbn [emitted].
    apply total_add_block, H.
  - intros; exact Logic.I.
  - exact Logic.I.
  - exact Logic.I.
  - intros inst _. split; intros; exact Logic.I.
  - intros t [].
Qed.

(** C2 as stated fails for the reject state: in the table of a program that
    moves an immediate into register 0 and exits, the reject state 1 is
    reached from state 0 by following lines (through the prologue, then the
    failing branch of the register search), and no line has it as current
    state. *)
Lemma reject_state_has_no_lines :
  q_reject (final (target_tm mov_module)) = 1 /\
  path (emitted_table mov_module) 0 1 /\
  (forall t, In t (emitted_table mov_module) -> tr_q t <> 1).
Proof.
  split; [vm_compute; reflexivity|]. split.
  - assert (E : chase (emitted_table mov_module) 0
                  (repeat BLANK 219 ++ [START; END]) = 1)
      by (vm_compute; reflexivity).
    rewrite <- E. apply chase_path.
  - assert (E : forallb (fun t => negb (tr_q t =? 1))
                  (emitted_table mov_module) = true)
      by (vm_compute; reflexivity).
    intros t Ht. rewrite forallb_forall in E. specialize (E t Ht).
    apply negb_true_iff in E. apply Z.eqb_neq in E. exact E.
Qed.

(** ** Determinism *)

(** C3 fails in the code: for the program that jumps from pc 0 over the
    block of pc 1 to pc 2, generation succeeds and the table holds two lines
    for state 2 and the blank symbol.  After the jump the generator's
    current state is 2; entering the block of pc 1 it emits a no-op from
    state 2 to state 1 (lines 342-343), and the block of pc 2 later emits
    its own lines for state 2. *)
Theorem jump_over_block_not_deterministic :
  is_ok (target_tm jump_module) = true /\
  nth_error (emitted_table jump_module) 2652 = Some (mkT 2 BLANK 1 BLANK 0) /\
  nth_error (emitted_table jump_module) 2928 = Some (mkT 2 BLANK 245 DST 1) /\
  ~ deterministic (emitted_table jump_module).
Proof.
  assert (H1 : nth_error (emitted_table jump_module) 2652
               = Some (mkT 2 BLANK 1 BLANK 0)) by (vm_compute; reflexivity).
  assert (H2 : nth_error (emitted_table jump_module) 2928
               = Some (mkT 2 BLANK 245 DST 1)) by (vm_compute; reflexivity).
  split; [vm_compute; reflexivity|]. split; [exact H1|]. split; [exact H2|].
  intro HD.
  specialize (HD 2652%nat 2928%nat _ _ H1 H2 (conj eq_refl eq_refl)).
  discriminate HD.
Qed.

(** ** Generation-time errors *)

Lemma is_ok_bind_false {A B} (c : M A) (f : A -> M B) st :
  (forall a st1, is_ok (f a st1) = false) -> is_ok (bind c f st) = false.
Proof. intro H. unfold bind. destruct (c st); [apply H | reflexivity]. Qed.

Lemma is_ok_bind_err {A B} (c : M A) (f : A -> M B) st :
  is_ok (c st) = false -> is_ok (bind c f st) = false.
Proof. unfold bind. destruct (c st); [discriminate | reflexivity]. Qed.

Lemma final_bind_congr {A B} (c : M A) (f g : A -> M B) st :
  (forall a st1, final (f a st1) = final (g a st1)) ->
  final (bind c f st) = final (bind c g st).
Proof. intro H. unfold bind. destruct (c st); [apply H | reflexivity]. Qed.

Lemma final_bind_stop {A B} (c : M A) (f g : A -> M B) st :
  is_ok (c st) = false -> final (bind c f st) = final (bind c g st).
Proof. unfold bind. destruct (c st); [discriminate | reflexivity]. Qed.

Lemma translate_inst_error_shape q inst st :
  error_shape inst = true -> is_ok (translate_inst q inst st) = false.
Proof.
  unfold error_shape, translate_inst. destruct (op inst); intro H.
  - unfold translate_mov. apply is_ok_bind_false. intros d st1.
    destruct (src inst); [discriminate | discriminate | reflexivity].
  - unfold translate_arith.
    destruct (dst inst) as [d|i|]; cbn [assert_reg];
      [ | reflexivity | reflexivity ].
    unfold bind at 1. cbn [ret].
    do 4 (apply is_ok_bind_false; intros ? ?).
    apply is_ok_bind_err.
    destruct (src inst) as [s|i|]; [|discriminate|reflexivity].
    rewrite H. reflexivity.
  - unfold translate_arith.
    destruct (dst inst) as [d|i|]; cbn [assert_reg];
      [ | reflexivity | reflexivity ].
    unfold bind at 1. cbn [ret].
    do 4 (apply is_ok_bind_false; intros ? ?).
    apply is_ok_bind_err.
    destruct (src inst) as [s|i|]; [|discriminate|reflexivity].
    rewrite H. reflexivity.
  - unfold translate_jmp.
    destruct (jmp inst); [reflexivity | discriminate | reflexivity].
  - unfold translate_putc.
    do 4 (apply is_ok_bind_false; intros ? ?).
    apply is_ok_bind_err.
    destruct (src inst); [discriminate | discriminate | reflexivity].
  - discriminate.
  - discriminate.
  - reflexivity.
Qed.

Lemma translate_text_error pre inst post :
  error_shape inst = true ->
  forall q prev_pc st,
    is_ok (translate_text (pre ++ inst :: post) q prev_pc st) = false /\
    final (translate_text (pre ++ inst :: post) q prev_pc st) =
    final (translate_text (pre ++ [inst]) q prev_pc st).
Proof.
  intro H. induction pre as [|i pre IH]; intros q prev_pc st;
    cbn [app translate_text].
  - split.
    + apply is_ok_bind_false. intros q1 st1. apply is_ok_bind_err.
      apply translate_inst_error_shape, H.
    + apply final_bind_congr. intros q1 st1. apply final_bind_stop.
      apply translate_inst_error_shape, H.
  - split.
    + do 2 (apply is_ok_bind_false; intros ? ?). apply IH.
    + do 2 (apply final_bind_congr; intros ? ?). apply IH.
Qed.

Lemma extends_from_table E0 st :
  extends_from E0 st -> exists rest, table st = rev E0 ++ rest.
Proof.
  intros [L HL]. exists (rev L). unfold table. rewrite HL.
  apply rev_app_distr.
Qed.

Lemma target_tm_first_block m :
  exists rest,
    emitted_table m =
    block 0 (act_write START 1 (initial_next_state (text m) + 1)) ++ rest.
Proof.
  set (n0 := initial_next_state (text m)).
  set (st1 := add_block 0 (act_write START 1 (n0 + 1))
                (mkG (n0 + 1 + 1) n0 [])).
  assert (E : target_tm m =
              (q <- (q <- init_registers [0; 1; 2; 3; 4; 5] (n0 + 1) ;;
                     q <- init_memory (data m) 0 q ;;
                     r <- new_state ;; q <- tm_write q BLANK 1 r ;;
                     r <- new_state ;; q <- tm_write q END (-1) r ;;
                     r <- new_state ;; tm_rewind q r) ;;
               translate_text (text m) q 0) st1).
  { unfold target_tm, target_tm_gen, prologue. cbv zeta.
    rewrite bind_assoc.
    rewrite (final_bind_ok new_state _ (initial_gstate m) n0
               (mkG (n0 + 1) 0 []) eq_refl).
    rewrite bind_assoc.
    rewrite (final_bind_ok (set_q_reject n0) _ (mkG (n0 + 1) 0 []) tt
               (mkG (n0 + 1) n0 []) eq_refl).
    rewrite bind_assoc.
    rewrite (final_bind_ok new_state _ (mkG (n0 + 1) n0 []) (n0 + 1)
               (mkG (n0 + 1 + 1) n0 []) eq_refl).
    rewrite bind_assoc.
    rewrite (final_bind_ok (tm_write 0 START 1 (n0 + 1)) _
               (mkG (n0 + 1 + 1) n0 []) (n0 + 1) st1).
    - reflexivity.
    - apply (emitter_exact (tm_write 0 START 1 (n0 + 1)) (n0 + 1)
               (add_block 0 (act_write START 1 (n0 + 1)))).
      + apply succeeds_tm_write. reflexivity.
      + intros st a st'. apply tm_write_inv. }
  unfold emitted_table. rewrite E.
  assert (Hc : forall st, extends_from (emitted st1) st ->
            extends_from (emitted st1)
              (mkG (next_state st + 1) (q_reject st) (emitted st)))
    by (intros st [L HL]; exists L; exact HL).
  assert (Hb : forall st q g, extends_from (emitted st1) st ->
            True -> (forall s : symbol_t, True) ->
            extends_from (emitted st1) (add_block q g st)).
  { intros st q g [L HL] _ _. exists (rev (block q g) ++ L).
    unfold add_block. cbn [emitted]. rewrite HL. apply app_assoc. }
  assert (Ht : targets_ok (fun _ => True) (text m))
    by (intros inst _; split; intros; exact Logic.I).
  assert (H0 : extends_from (emitted st1) st1) by (exists []; reflexivity).
  pose proof (proj1 (keeps_target_tail (extends_from (emitted st1))
                       (fun _ => True) (fun _ => True) Hc
                       (fun _ _ => Logic.I) (fun _ _ => Logic.I) Hb
                       (fun _ _ => Logic.I) Logic.I
                       m (n0 + 1) Logic.I Ht st1 H0)) as H.
  destruct (extends_from_table _ _ H) as [rest Hrest].
  exists rest. rewrite Hrest. reflexivity.
Qed.

Lemma prologue_data txt m : prologue (mkModule txt (data m)) = prologue m.
Proof. unfold prologue. cbn [data]. reflexivity. Qed.

(** C8, as amended (generation-time errors): for an IR input containing a
    register-indirect jump, a same-register register-to-register ADD or SUB,
    an unrecognized opcode or an invalid operand kind, code generation
    aborts with an error, and nothing is translated after the offending
    instruction: the globals end as they do for the input cut after that
    instruction.  The lines emitted before the abort stay written; the
    output always begins with the twelve lines of the prologue's state 0. *)
Theorem generation_error_aborts :
  forall m pre inst post,
    text m = pre ++ inst :: post ->
    error_shape inst = true ->
    is_ok (target_tm m) = false /\
    final (target_tm m) =
      final (target_tm_gen (mkModule (pre ++ [inst]) (data m))
               (initial_gstate m)) /\
    exists rest,
      emitted_table m =
      block 0 (act_write START 1 (initial_next_state (text m) + 1)) ++ rest.
Proof.
  intros m pre inst post Htext Hbad. split; [|split].
  - unfold target_tm, target_tm_gen. apply is_ok_bind_false.
    intros q st1. rewrite Htext.
    apply (translate_text_error pre inst post Hbad).
  - unfold target_tm, target_tm_gen. rewrite prologue_data. cbn [text].
    apply final_bind_congr. intros q st1. rewrite Htext.
    apply (translate_text_error pre inst post Hbad).
  - apply target_tm_first_block.
Qed.

Lemma generation_error_aborts_witness :
  text jmp_reg_module = [] ++ mkInst JMP 0 TMP TMP (REG 1) :: [] /\
  error_shape (mkInst JMP 0 TMP TMP (REG 1)) = true /\
  is_ok (target_tm jmp_reg_module) = false /\
  final (target_tm jmp_reg_module) =
    final (target_tm_gen
             (mkModule ([] ++ [mkInst JMP 0 TMP TMP (REG 1)])
                (data jmp_reg_module))
             (initial_gstate jmp_reg_module)) /\
  exists rest,
    emitted_table jmp_reg_module =
    block 0 (act_write START 1
               (initial_next_state (text jmp_reg_module) + 1)) ++ rest.
Proof.
  split; [reflexivity|]. split; [reflexivity|].
  apply (generation_error_aborts jmp_reg_module []
           (mkInst JMP 0 TMP TMP (REG 1)) []); reflexivity.
Defined.

(** C8 as stated fails: for a program made of one jump through a register,
    and for a program made of one ADD of a register to itself, generation
    aborts, and by then 2640 and 2892 lines have been emitted. *)
Lemma error_after_partial_table :
  is_ok (target_tm jmp_reg_module) = false /\
  List.length (emitted_table jmp_reg_module) = 2640%nat /\
  is_ok (target_tm add_same_module) = false /\
  List.length (emitted_table add_same_module) = 2892%nat.
Proof. vm_compute. repeat split; reflexivity. Qed.


(** ** Generator functions only add lines *)

Lemma extends_ret {A} (a : A) : extends (ret a).
Proof.
  intros st b st' H. apply ret_inv in H. destruct H as [_ ->].
  apply incl_refl.
Qed.

Lemma extends_error {A} msg : extends (@error A msg).
Proof. intros st b st' H. discriminate. Qed.

Lemma extends_bind {A B} (c : M A) (f : A -> M B) :
  extends c -> (forall a, extends (f a)) -> extends (bind c f).
Proof.
  intros Hc Hf st b st' H. apply bind_inv in H.
  destruct H as (a & st1 & H1 & H2).
  eapply incl_tran; [apply (Hc _ _ _ H1) | apply (Hf _ _ _ _ H2)].
Qed.

Lemma extends_new_state : extends new_state.
Proof.
  intros st a st' H. apply new_state_inv in H. destruct H as [_ ->].
  apply incl_refl.
Qed.

Lemma extends_get_q_reject : extends get_q_reject.
Proof.
  intros st a st' H. apply get_q_reject_inv in H. destruct H as [_ ->].
  apply incl_refl.
Qed.

Lemma extends_set_q_reject r : extends (set_q_reject r).
Proof.
  intros st a st' H. unfold set_q_reject in H. inversion H.
  apply incl_refl.
Qed.

Lemma extends_assert_reg v : extends (assert_reg v).
Proof. destruct v; [apply extends_ret | apply extends_error ..]. Qed.

Lemma extends_block {A} (c : M A) (r : A) q g :
  (forall st a st', c st = Ok a st' -> a = r /\ st' = add_block q g st) ->
  extends c.
Proof.
  intros Hinv st a st' H. destruct (Hinv _ _ _ H) as [_ ->].
  unfold add_block. cbn [emitted]. apply incl_appr, incl_refl.
Qed.

Lemma extends_tm_write q b d r : extends (tm_write q b d r).
Proof. eapply extends_block. intros st a st'. apply tm_write_inv. Qed.

Lemma extends_tm_write_if q a ba da ra b d r :
  extends (tm_write_if q a ba da ra b d r).
Proof. eapply extends_block. intros st x st'. apply tm_write_if_inv. Qed.

Lemma extends_tm_write_if2 q a1 b1 d1 r1 a2 b2 d2 r2 b d r :
  extends (tm_write_if2 q a1 b1 d1 r1 a2 b2 d2 r2 b d r).
Proof. eapply extends_block. intros st x st'. apply tm_write_if2_inv. Qed.

Lemma extends_tm_move q d r : extends (tm_move q d r).
Proof. eapply extends_block. intros st x st'. apply tm_move_inv. Qed.

Lemma extends_tm_move_if q a da ra d r :
  extends (tm_move_if q a da ra d r).
Proof. eapply extends_block. intros st x st'. apply tm_move_if_inv. Qed.

Lemma extends_tm_move_if2 q a da ra b db rb d r :
  extends (tm_move_if2 q a da ra b db rb d r).
Proof. eapply extends_block. intros st x st'. apply tm_move_if2_inv. Qed.


Ltac extends_prim :=
  idtac;
  lazymatch goal with
  | |- extends new_state => apply extends_new_state
  | |- extends get_q_reject => apply extends_get_q_reject
  | |- extends (set_q_reject _) => apply extends_set_q_reject
  | |- extends (assert_reg _) => apply extends_assert_reg
  | |- extends (tm_write _ _ _ _) => apply extends_tm_write
  | |- extends (tm_write_if _ _ _ _ _ _ _ _) => apply extends_tm_write_if
  | |- extends (tm_write_if2 _ _ _ _ _ _ _ _ _ _ _ _) =>
      apply extends_tm_write_if2
  | |- extends (tm_move _ _ _) => apply extends_tm_move
  | |- extends (tm_move_if _ _ _ _ _ _) => apply extends_tm_move_if
  | |- extends (tm_move_if2 _ _ _ _ _ _ _ _ _) => apply extends_tm_move_if2
  end.

(** Follow the structure of a computation; [call] settles the calls. *)
Ltac extends_with call :=
  cbv zeta;
  lazymatch goal with
  | |- extends (bind _ _) =>
      apply extends_bind;
      [ extends_with call | intros ?; extends_with call ]
  | |- extends (ret _) => apply extends_ret
  | |- extends (error _) => apply extends_error
  | |- extends (if ?b then _ else _) => destruct b; extends_with call
  | |- extends (match ?v with REG _ => _ | IMM _ => _ | TMP => _ end) =>
      destruct v; extends_with call
  | |- extends _ => call
  end.

Ltac extends_tac := extends_with extends_prim.

Lemma extends_tm_noop q r : extends (tm_noop q r).
Proof. unfold tm_noop. extends_tac. Qed.

Lemma extends_tm_find q d a ry rn : extends (tm_find q d a ry rn).
Proof. unfold tm_find. extends_tac. Qed.

Lemma extends_tm_rewind q r : extends (tm_rewind q r).
Proof. unfold tm_rewind. extends_tac. Qed.

Lemma extends_tm_ffwd q r : extends (tm_ffwd q r).
Proof. unfold tm_ffwd. extends_tac. Qed.

Lemma extends_tm_write_bits_loop i : forall q x,
  extends (tm_write_bits_loop i q x).
Proof.
  induction i as [|i IH]; intros q x; cbn [tm_write_bits_loop];
    extends_with ltac:(idtac; first [extends_prim | apply IH]).
Qed.

Lemma extends_tm_write_bits q x n r : extends (tm_write_bits q x n r).
Proof.
  unfold tm_write_bits.
  extends_with ltac:(idtac; first [extends_prim
                                  | apply extends_tm_write_bits_loop]).
Qed.

Lemma extends_tm_find_register_loop k : forall qstart q reg,
  extends (tm_find_register_loop k qstart q reg).
Proof.
  induction k as [|k IH]; intros qstart q reg;
    cbn [tm_find_register_loop];
    extends_with ltac:(idtac; first [extends_prim | apply IH]).
Qed.

Ltac extends_call2 :=
  idtac;
  lazymatch goal with
  | |- extends (tm_noop _ _) => apply extends_tm_noop
  | |- extends (tm_find _ _ _ _ _) => apply extends_tm_find
  | |- extends (tm_rewind _ _) => apply extends_tm_rewind
  | |- extends (tm_ffwd _ _) => apply extends_tm_ffwd
  | |- extends (tm_write_bits_loop _ _ _) =>
      apply extends_tm_write_bits_loop
  | |- extends (tm_write_bits _ _ _ _) => apply extends_tm_write_bits
  | |- extends (tm_find_register_loop _ _ _ _) =>
      apply extends_tm_find_register_loop
  | |- _ => extends_prim
  end.

Ltac extends_2 := extends_with extends_call2.

Lemma extends_tm_write_word q x r : extends (tm_write_word q x r).
Proof. unfold tm_write_word. extends_2. Qed.

Lemma extends_tm_write_byte q x r : extends (tm_write_byte q x r).
Proof. unfold tm_write_byte. extends_2. Qed.

Lemma extends_tm_find_register q reg r : extends (tm_find_register q reg r).
Proof. unfold tm_find_register. extends_2. Qed.

Lemma extends_tm_copy_helper q d mode r :
  extends (tm_copy_helper q d mode r).
Proof. unfold tm_copy_helper. extends_2. Qed.

Lemma extends_tm_copy q d r : extends (tm_copy q d r).
Proof. unfold tm_copy. apply extends_tm_copy_helper. Qed.

Lemma extends_tm_copy_to_scratch q d r : extends (tm_copy_to_scratch q d r).
Proof. unfold tm_copy_to_scratch. apply extends_tm_copy_helper. Qed.

Lemma extends_tm_copy_compact q d r : extends (tm_copy_compact q d r).
Proof. unfold tm_copy_compact. apply extends_tm_copy_helper. Qed.

Lemma extends_tm_add q r : extends (tm_add q r).
Proof. unfold tm_add. extends_2. Qed.

Lemma extends_tm_sub q r : extends (tm_sub q r).
Proof. unfold tm_sub. extends_2. Qed.


Ltac extends_call3 :=
  idtac;
  lazymatch goal with
  | |- extends (tm_write_word _ _ _) => apply extends_tm_write_word
  | |- extends (tm_write_byte _ _ _) => apply extends_tm_write_byte
  | |- extends (tm_find_register _ _ _) => apply extends_tm_find_register
  | |- extends (tm_copy _ _ _) => apply extends_tm_copy
  | |- extends (tm_copy_to_scratch _ _ _) => apply extends_tm_copy_to_scratch
  | |- extends (tm_copy_compact _ _ _) => apply extends_tm_copy_compact
  | |- extends (tm_add _ _) => apply extends_tm_add
  | |- extends (tm_sub _ _) => apply extends_tm_sub
  | |- _ => extends_call2
  end.

Ltac extends_3 := extends_with extends_call3.

(** ** Paths through the emitted lines *)


























































Lemma target_tm_unfold :
  target_tm = fun m => target_tm_gen m (initial_gstate m).
Proof. reflexivity. Qed.






(* ================================================================= *)
(** * Further properties of the generator *)

(** X1 (intcmp): [intcmp x y] is the sign of [x - y]: it is 1, 0 or -1, it
    is 0 exactly when the arguments are equal, and swapping the arguments
    negates it, so it always is a valid head direction. *)
Theorem intcmp_is_sign :
  forall x y,
    intcmp x y = Z.sgn (x - y) /\
    intcmp y x = - intcmp x y /\
    (intcmp x y = 0 <-> x = y) /\
    valid_dir (intcmp x y) = true.
Proof.
  intros x y. unfold intcmp. rewrite !Z.gtb_ltb.
  destruct (Z.ltb_spec y x) as [H1|H1]; destruct (Z.ltb_spec x y) as [H2|H2];
    try lia.
  - rewrite Z.sgn_pos by lia. repeat split; try reflexivity; intro; lia.
  - rewrite Z.sgn_neg by lia. repeat split; try reflexivity; intro; lia.
  - assert (x = y) by lia. subst y. rewrite Z.sub_diag.
    repeat split; reflexivity.
Qed.

(** ** Which programs are translated *)

Lemma succeeds_set_q_reject r : succeeds (set_q_reject r).
Proof. intro st. reflexivity. Qed.

Lemma succeeds_init_register q reg : succeeds (init_register q reg).
Proof. unfold init_register. repeat succeeds_step3. Qed.

Lemma succeeds_init_registers regs : forall q,
  succeeds (init_registers regs q).
Proof.
  induction regs as [|reg regs IH]; intro q; cbn [init_registers].
  - apply succeeds_ret.
  - apply succeeds_bind; [apply succeeds_init_register | intro; apply IH].
Qed.

Lemma succeeds_init_cell q mp v : succeeds (init_cell q mp v).
Proof. unfold init_cell. repeat succeeds_step3. Qed.

Lemma succeeds_init_memory d : forall mp q, succeeds (init_memory d mp q).
Proof.
  induction d as [|v d IH]; intros mp q; cbn [init_memory].
  - apply succeeds_ret.
  - apply succeeds_bind; [apply succeeds_init_cell | intro; apply IH].
Qed.

Ltac succeeds_step4 :=
  lazymatch goal with
  | |- succeeds (set_q_reject _) => apply succeeds_set_q_reject
  | |- succeeds (init_registers _ _) => apply succeeds_init_registers
  | |- succeeds (init_memory _ _ _) => apply succeeds_init_memory
  | _ => succeeds_step3
  end.

Lemma succeeds_prologue m : succeeds (prologue m).
Proof. unfold prologue. cbv zeta. repeat succeeds_step4. Qed.

Lemma succeeds_stitch q prev_pc inst : succeeds (stitch q prev_pc inst).
Proof. unfold stitch. repeat succeeds_step3. Qed.

(** A computation that starts by returning [d] is its continuation at [d]. *)
Ltac succeeds_ret_bind :=
  lazymatch goal with
  | |- succeeds (bind (ret ?d) ?f) =>
      apply (succeeds_ext _ (f d)); [intro; reflexivity | cbv beta]
  end.

Lemma succeeds_translate_mov q inst d :
  dst inst = REG d -> src inst <> TMP -> succeeds (translate_mov q inst).
Proof.
  intros Hd Hs. unfold translate_mov. rewrite Hd. cbn [assert_reg].
  succeeds_ret_bind.
  destruct (src inst) as [s|i|]; [| |congruence]; repeat succeeds_step3.
Qed.

Lemma succeeds_translate_arith is_add q inst d :
  dst inst = REG d ->
  (forall s, src inst = REG s -> d <> s) -> src inst <> TMP ->
  succeeds (translate_arith is_add q inst).
Proof.
  intros Hd Hne Hs. unfold translate_arith. rewrite Hd. cbn [assert_reg].
  succeeds_ret_bind.
  destruct (src inst) as [s|i|]; [| |congruence].
  - rewrite (proj2 (Z.eqb_neq d s) (Hne s eq_refl)).
    repeat succeeds_step3.
  - repeat succeeds_step3.
Qed.

Lemma succeeds_translate_jmp q inst i :
  jmp inst = IMM i -> succeeds (translate_jmp q inst).
Proof.
  intro H. unfold translate_jmp. rewrite H. apply succeeds_tm_noop.
Qed.

Lemma error_shape_not_supported inst :
  error_shape inst = true -> supported inst = false.
Proof.
  unfold error_shape, supported.
  destruct (op inst); destruct (dst inst); destruct (src inst);
    destruct (jmp inst); intro H; try discriminate; try reflexivity;
    rewrite H; reflexivity.
Qed.

Lemma translate_inst_is_ok q inst st :
  is_ok (translate_inst q inst st) = supported inst.
Proof.
  destruct (error_shape inst) eqn:E.
  { rewrite (translate_inst_error_shape q inst st E).
    symmetry. apply error_shape_not_supported, E. }
  unfold error_shape in E. unfold supported, translate_inst.
  destruct (op inst).
  - destruct (dst inst) as [d|i|] eqn:Hd.
    + destruct (src inst) as [s|i|] eqn:Hs; [| |discriminate];
        apply (succeeds_translate_mov q inst d Hd); congruence.
    + unfold translate_mov. rewrite Hd. destruct (src inst); reflexivity.
    + unfold translate_mov. rewrite Hd. destruct (src inst); reflexivity.
  - destruct (dst inst) as [d|i|] eqn:Hd.
    + destruct (src inst) as [s|i|] eqn:Hs; [| |discriminate].
      * rewrite E. cbn [negb].
        apply (succeeds_translate_arith true q inst d Hd);
          [|congruence].
        intros s' Hs'. rewrite Hs in Hs'. inversion Hs'; subst s'.
        apply Z.eqb_neq, E.
      * apply (succeeds_translate_arith true q inst d Hd); congruence.
    + unfold translate_arith. rewrite Hd. destruct (src inst); reflexivity.
    + unfold translate_arith. rewrite Hd. destruct (src inst); reflexivity.
  - destruct (dst inst) as [d|i|] eqn:Hd.
    + destruct (src inst) as [s|i|] eqn:Hs; [| |discriminate].
      * rewrite E. cbn [negb].
        apply (succeeds_translate_arith false q inst d Hd);
          [|congruence].
        intros s' Hs'. rewrite Hs in Hs'. inversion Hs'; subst s'.
        apply Z.eqb_neq, E.
      * apply (succeeds_translate_arith false q inst d Hd); congruence.
    + unfold translate_arith. rewrite Hd. destruct (src inst); reflexivity.
    + unfold translate_arith. rewrite Hd. destruct (src inst); reflexivity.
  - destruct (jmp inst) as [s|i|] eqn:Hj; try discriminate.
    apply (succeeds_translate_jmp q inst i Hj).
  - destruct (src inst) as [s|i|] eqn:Hs; [| |discriminate];
      apply (succeeds_translate_putc q inst); congruence.
  - apply succeeds_translate_exit.
  - reflexivity.
  - discriminate.
Qed.

Lemma translate_text_is_ok txt : forall q prev_pc st,
  is_ok (translate_text txt q prev_pc st) = forallb supported txt.
Proof.
  induction txt as [|inst txt IH]; intros q prev_pc st;
    cbn [translate_text forallb]; [reflexivity|].
  destruct (succeeds_inv _ st (succeeds_stitch q prev_pc inst))
    as (q1 & st1 & Hs).
  rewrite (final_bind_ok _ _ _ _ _ Hs).
  pose proof (translate_inst_is_ok q1 inst st1) as Hi.
  destruct (translate_inst q1 inst st1) as [q2 st2|msg st2] eqn:Ht.
  - rewrite (final_bind_ok _ _ _ _ _ Ht), IH. cbn [is_ok] in Hi.
    rewrite <- Hi. reflexivity.
  - rewrite (final_bind_err _ _ _ _ _ Ht). cbn [is_ok] in *.
    rewrite <- Hi. reflexivity.
Qed.


(** ** The reject state *)

Lemma initial_next_state_gt txt inst :
  In inst txt -> pc inst < initial_next_state txt.
Proof.
  unfold initial_next_state.
  assert (H : forall l n,
            n <= fold_left (fun n i => if pc i >=? n then pc i + 1 else n) l n
            /\ forall i, In i l ->
                 pc i < fold_left (fun n i => if pc i >=? n then pc i + 1
                                              else n) l n).
  { induction l as [|i l IH]; intros n; cbn [fold_left].
    - split; [lia | intros i []].
    - destruct (IH (if pc i >=? n then pc i + 1 else n)) as [IH1 IH2].
      destruct (pc i >=? n) eqn:E.
      + apply Z.geb_le in E. split; [lia|].
        intros j [<-|Hj]; [lia | apply IH2, Hj].
      + assert (pc i < n) by (destruct (Z.geb_spec (pc i) n); [discriminate|lia]).
        split; [lia|].
        intros j [<-|Hj]; [lia | apply IH2, Hj]. }
  intro Hin. apply (proj2 (H txt 0) inst Hin).
Qed.


Lemma emitted_table_unfold :
  emitted_table = fun m => table (final (target_tm m)).
Proof. reflexivity. Qed.

Lemma table_unfold : table = fun st => rev (emitted st).
Proof. reflexivity. Qed.






(* ================================================================= *)
(** * Further properties of the emitted micro machines *)

(** ** Winding to a sentinel *)

Lemma tm_rewind_block q r st :
  tm_rewind q r st = Ok r (add_block q (act_move_if START 0 r (-1) q) st).
Proof.
  destruct (succeeds_inv _ st (succeeds_tm_rewind q r)) as (a & st' & H).
  rewrite H. unfold_gen tm_rewind H. gen_inv H. reflexivity.
Qed.

Lemma tm_ffwd_block q r st :
  tm_ffwd q r st = Ok r (add_block q (act_move_if END 0 r 1 q) st).
Proof.
  destruct (succeeds_inv _ st (succeeds_tm_ffwd q r)) as (a & st' & H).
  rewrite H. unfold_gen tm_ffwd H. gen_inv H. reflexivity.
Qed.

(** X4 (rewind and fast-forward): the state emitted by [tm_rewind q r],
    started anywhere to the right of the start sentinel with no other start
    sentinel in between, or on the start sentinel itself, reaches [r] with
    the head on the start sentinel; the state emitted by [tm_ffwd q r],
    started left of or on the first end sentinel, reaches [r] with the head
    on that end sentinel.  Neither changes a cell, and neither allocates a
    state. *)
Theorem wind_reaches_sentinel :
  forall q r st,
    (exists st',
       tm_rewind q r st = Ok r st' /\ next_state st' = next_state st /\
       forall T b xs c rt,
         sub st' T -> avoid [START] (xs ++ [c]) = true ->
         steps T (q, tape_at (b ++ START :: xs) (c :: rt))
                 (r, tape_at b (START :: xs ++ c :: rt)) /\
         steps T (q, tape_at b (START :: rt)) (r, tape_at b (START :: rt))) /\
    (exists st',
       tm_ffwd q r st = Ok r st' /\ next_state st' = next_state st /\
       forall T b mid rt,
         sub st' T -> avoid [END] mid = true ->
         steps T (q, tape_at b (mid ++ END :: rt))
                 (r, tape_at (b ++ mid) (END :: rt))).
Proof.
  intros q r st. split.
  - eexists. split; [apply tm_rewind_block|]. split; [reflexivity|].
    intros T b xs c rt HT Hmid. apply sub_add_block in HT.
    destruct HT as [B _]. split.
    + rewrite avoid_app in Hmid. apply andb_true_iff in Hmid.
      destruct Hmid as [Hxs Hc].
      assert (Hav : avoid [START] (c :: rev xs) = true)
        by (rewrite avoid_cons_eq, avoid_rev, Hc, Hxs; reflexivity).
      pose proof (rewind_run T q r (rev xs) c (rev b) rt B Hav) as Hrun.
      unfold tape_at. rewrite rev_app_distr. cbn [rev].
      eapply steps_conf_eq; [ | | exact Hrun ].
      * f_equal. rewrite <- app_assoc. reflexivity.
      * f_equal. rewrite rev_involutive. reflexivity.
    + apply (rewind_here T q r (rev b) rt B).
  - eexists. split; [apply tm_ffwd_block|]. split; [reflexivity|].
    intros T b mid rt HT Hmid. apply sub_add_block in HT.
    destruct HT as [B _].
    pose proof (ffwd_run T q r mid (rev b) rt B Hmid) as Hrun.
    unfold tape_at. rewrite rev_app_distr. exact Hrun.
Qed.

Lemma wind_reaches_sentinel_witness :
  avoid [START] ([BLANK; ONE] ++ [VALUE]) = true /\
  avoid [END] [BLANK; ONE] = true /\
  (exists st',
     tm_rewind 3 4 (mkG 5 2 []) = Ok 4 st' /\
     steps (emitted st')
       (3, tape_at ([] ++ START :: [BLANK; ONE]) (VALUE :: [END]))
       (4, tape_at [] (START :: [BLANK; ONE] ++ VALUE :: [END]))) /\
  (exists st',
     tm_ffwd 3 4 (mkG 5 2 []) = Ok 4 st' /\
     steps (emitted st')
       (3, tape_at [START] ([BLANK; ONE] ++ END :: []))
       (4, tape_at ([START] ++ [BLANK; ONE]) (END :: []))).
Proof.
  split; [reflexivity|]. split; [reflexivity|].
  destruct (wind_reaches_sentinel 3 4 (mkG 5 2 []))
    as [(s1 & E1 & _ & R1) (s2 & E2 & _ & R2)].
  split.
  - exists s1. split; [exact E1|].
    apply (R1 (emitted s1) [] [BLANK; ONE] VALUE [END]);
      [apply incl_refl | reflexivity].
  - exists s2. split; [exact E2|].
    apply (R2 (emitted s2) [START] [BLANK; ONE] []);
      [apply incl_refl | reflexivity].
Defined.

Lemma in_block_inv q g t :
  In t (block q g) -> exists s, t = act_line q g s.
Proof.
  unfold block. intro H. apply in_map_iff in H.
  destruct H as (s & <- & _). exists s. reflexivity.
Qed.

Lemma block_has_block q g : has_block (block q g) q g.
Proof.
  intro s. unfold block. apply in_map, all_symbols_complete.
Qed.

Lemma step_in_block q g tp c :
  step (block q g) (q, tp) c -> c = act_apply g tp.
Proof.
  intro H. inversion H as [t q' tp' Hin Hq Ha Hc1 Hc2]. clear H Hq Hc1.
  destruct (in_block_inv _ _ _ Hin) as (s & Ht). subst t.
  destruct (act_line_key q g s) as [_ Hs]. rewrite Hs in Ha. subst s.
  unfold apply_transition, act_apply, act_line.
  destruct (g (read tp)) as [[b d] r']. reflexivity.
Qed.

(** A block whose lines all lead back to its own state on the tapes
    satisfying [P] never leaves that state on such a tape, and never
    halts. *)
Lemma block_runs_forever q g (P : tape -> Prop) :
  (forall tp, P tp -> exists tp', act_apply g tp = (q, tp') /\ P tp') ->
  forall c c', steps (block q g) c c' -> fst c = q -> P (snd c) ->
    (fst c' = q /\ P (snd c')) /\ exists c'', step (block q g) c' c''.
Proof.
  intros Hstep c c' H. induction H as [c|c1 c2 c3 Hs _ IH]; intros Hq HP.
  - split; [auto|]. destruct c as [q0 tp]. cbn [fst snd] in *. subst q0.
    eexists. apply block_step, block_has_block.
  - destruct c1 as [q0 tp]. cbn [fst snd] in *. subst q0.
    apply step_in_block in Hs. destruct (Hstep tp HP) as (tp' & E & HP').
    rewrite E in Hs. subst c2. apply IH; [reflexivity | exact HP'].
Qed.

Lemma table_of_block q g n rj :
  table (add_block q g (mkG n rj [])) = block q g.
Proof.
  unfold table, add_block. cbn [emitted]. rewrite app_nil_r.
  apply rev_involutive.
Qed.

(** X5 (winding without a sentinel): on a tape with no start sentinel
    under or left of the head, the machine of [tm_rewind] alone never
    reaches its exit: it stays in the scanning state and always has a next
    step, moving left over the blank cells beyond the written part of the
    tape for ever.  The machine of [tm_ffwd] does the same to the right
    when there is no end sentinel under or right of the head. *)
Theorem wind_without_sentinel_runs_forever :
  forall q r n rj l rt c',
    (avoid [START] (hd BLANK rt :: l) = true ->
     steps (table (final (tm_rewind q r (mkG n rj [])))) (q, mkTape l rt) c' ->
     fst c' = q /\
     exists c'', step (table (final (tm_rewind q r (mkG n rj [])))) c' c'') /\
    (avoid [END] rt = true ->
     steps (table (final (tm_ffwd q r (mkG n rj [])))) (q, mkTape l rt) c' ->
     fst c' = q /\
     exists c'', step (table (final (tm_ffwd q r (mkG n rj [])))) c' c'').
Proof.
  intros q r n rj l rt c'. split.
  - rewrite tm_rewind_block. cbn [final]. rewrite table_of_block.
    intros Hav Hst.
    destruct (block_runs_forever q (act_move_if START 0 r (-1) q)
                (fun tp => avoid [START] (read tp :: left tp) = true))
      with (c := (q, mkTape l rt)) (c' := c') as [[H1 _] H2];
      [ | exact Hst | reflexivity | exact Hav | split; assumption ].
    intros tp HP. apply avoid_cons in HP. destruct HP as [Hr Hl].
    specialize (Hr START (or_introl eq_refl)).
    unfold act_apply, act_move_if. rewrite Hr.
    eexists. split; [reflexivity|].
    cbn [move write read left right Z.eqb Pos.eqb hd tl].
    destruct (left tp) as [|x xs]; [reflexivity | exact Hl].
  - rewrite tm_ffwd_block. cbn [final]. rewrite table_of_block.
    intros Hav Hst.
    destruct (block_runs_forever q (act_move_if END 0 r 1 q)
                (fun tp => avoid [END] (right tp) = true))
      with (c := (q, mkTape l rt)) (c' := c') as [[H1 _] H2];
      [ | exact Hst | reflexivity | exact Hav | split; assumption ].
    intros tp HP.
    assert (Hr : symbol_eqb (read tp) END = false).
    { unfold read. destruct (right tp) as [|x xs]; [reflexivity|].
      apply avoid_cons in HP. destruct HP as [Hx _].
      apply (Hx END (or_introl eq_refl)). }
    unfold act_apply, act_move_if. rewrite Hr.
    eexists. split; [reflexivity|].
    cbn [move write read left right Z.eqb Pos.eqb hd tl].
    destruct (right tp) as [|x xs]; [reflexivity|].
    apply avoid_cons in HP. apply HP.
Qed.

Lemma wind_without_sentinel_runs_forever_witness :
  avoid [START] (hd BLANK [ONE; END] :: [BLANK; VALUE]) = true /\
  avoid [END] [ONE; BLANK] = true /\
  (fst (3, mkTape [BLANK; VALUE] [ONE; END]) = 3 /\
   exists c'', step (table (final (tm_rewind 3 4 (mkG 5 2 []))))
                    (3, mkTape [BLANK; VALUE] [ONE; END]) c'') /\
  (fst (3, mkTape [START] [ONE; BLANK]) = 3 /\
   exists c'', step (table (final (tm_ffwd 3 4 (mkG 5 2 []))))
                    (3, mkTape [START] [ONE; BLANK]) c'').
Proof.
  split; [reflexivity|]. split; [reflexivity|]. split.
  - apply (proj1 (wind_without_sentinel_runs_forever 3 4 5 2
                    [BLANK; VALUE] [ONE; END]
                    (3, mkTape [BLANK; VALUE] [ONE; END])));
      [reflexivity | apply steps_refl].
  - apply (proj2 (wind_without_sentinel_runs_forever 3 4 5 2
                    [START] [ONE; BLANK]
                    (3, mkTape [START] [ONE; BLANK])));
      [reflexivity | apply steps_refl].
Defined.

(** ** Searching for a symbol *)

Lemma find_left_no T q a ry rn xs c l r :
  has_block T q (act_move_if2 a 0 ry START 0 rn (-1) q) ->
  avoid [a; START] (c :: xs) = true -> a <> START ->
  steps T (q, mkTape (xs ++ START :: l) (c :: r))
          (rn, mkTape l (START :: rev xs ++ c :: r)).
Proof.
  intros B H Ha. eapply steps_trans.
  - apply (scan_left T q _ B). apply avoid_passes_if2, H.
  - apply steps_one.
    replace (rn, mkTape l (START :: rev xs ++ c :: r))
      with (act_apply (act_move_if2 a 0 ry START 0 rn (-1) q)
              (mkTape l (START :: rev xs ++ c :: r)));
      [apply block_step, B|].
    unfold act_apply, act_move_if2. cbn [read right hd].
    rewrite (symbol_eqb_neq START a) by congruence. reflexivity.
Qed.

Lemma tm_find_block q d a ry rn st :
  valid_dir d = true ->
  tm_find q d a ry rn st =
  Ok ry (add_block q (act_move_if2 a 0 ry (if d <? 0 then START else END)
                        0 rn d q) st).
Proof.
  intro Hd.
  destruct (succeeds_inv _ st (succeeds_tm_find q d a ry rn Hd))
    as (x & st' & H).
  rewrite H. unfold_gen tm_find H. cbv zeta in H. gen_inv H. reflexivity.
Qed.

(** X6 (search): the state emitted by [tm_find q d a r_yes r_no] moves in
    direction [d] over the cells that hold neither [a] nor the sentinel of
    that direction (the end sentinel for +1, the start sentinel for -1) and
    leaves every cell as it is; at the first [a] it enters [r_yes], at the
    sentinel it enters [r_no], in both cases with the head on the cell
    found. *)
Theorem tm_find_scans :
  forall q a ry rn st,
    (exists st',
       tm_find q 1 a ry rn st = Ok ry st' /\
       forall T b xs rt,
         sub st' T -> avoid [a; END] xs = true ->
         steps T (q, tape_at b (xs ++ a :: rt))
                 (ry, tape_at (b ++ xs) (a :: rt)) /\
         (a <> END ->
          steps T (q, tape_at b (xs ++ END :: rt))
                  (rn, tape_at (b ++ xs) (END :: rt)))) /\
    (exists st',
       tm_find q (-1) a ry rn st = Ok ry st' /\
       forall T b xs c rt,
         sub st' T -> avoid [a; START] (xs ++ [c]) = true ->
         steps T (q, tape_at (b ++ a :: xs) (c :: rt))
                 (ry, tape_at b (a :: xs ++ c :: rt)) /\
         (a <> START ->
          steps T (q, tape_at (b ++ START :: xs) (c :: rt))
                  (rn, tape_at b (START :: xs ++ c :: rt)))).
Proof.
  intros q a ry rn st. split.
  - eexists. split; [apply tm_find_block; reflexivity|].
    intros T b xs rt HT Hxs. apply sub_add_block in HT.
    destruct HT as [B _]. cbn [Z.ltb Z.compare] in B.
    unfold tape_at. rewrite rev_app_distr. split.
    + apply (find_right_yes T q a ry rn xs (rev b) rt B Hxs).
    + intro Ha. apply (find_right_no T q a ry rn xs (rev b) rt B Hxs Ha).
  - eexists. split; [apply tm_find_block; reflexivity|].
    intros T b xs c rt HT Hxs. apply sub_add_block in HT.
    destruct HT as [B _]. cbn [Z.ltb Z.compare] in B.
    rewrite avoid_app in Hxs. apply andb_true_iff in Hxs.
    destruct Hxs as [Hx Hc].
    assert (Hav : avoid [a; START] (c :: rev xs) = true)
      by (rewrite avoid_cons_eq, avoid_rev, Hc, Hx; reflexivity).
    unfold tape_at. rewrite !rev_app_distr. cbn [rev].
    rewrite <- !app_assoc. cbn [app]. split.
    + pose proof (find_left_yes T q a ry rn (rev xs) c (rev b) rt B Hav)
        as Hrun.
      rewrite rev_involutive in Hrun. exact Hrun.
    + intro Ha.
      pose proof (find_left_no T q a ry rn (rev xs) c (rev b) rt B Hav Ha)
        as Hrun.
      rewrite rev_involutive in Hrun. exact Hrun.
Qed.

Lemma tm_find_scans_witness :
  avoid [OUTPUT; END] [BLANK; ONE] = true /\
  avoid [DST; START] ([BLANK; ONE] ++ [VALUE]) = true /\
  (exists st',
     tm_find 3 1 OUTPUT 4 2 (mkG 5 2 []) = Ok 4 st' /\
     steps (emitted st')
       (3, tape_at [START] ([BLANK; ONE] ++ OUTPUT :: [END]))
       (4, tape_at ([START] ++ [BLANK; ONE]) (OUTPUT :: [END]))) /\
  (exists st',
     tm_find 3 (-1) DST 4 2 (mkG 5 2 []) = Ok 4 st' /\
     steps (emitted st')
       (3, tape_at ([START] ++ DST :: [BLANK; ONE]) (VALUE :: [END]))
       (4, tape_at [START] (DST :: [BLANK; ONE] ++ VALUE :: [END]))).
Proof.
  split; [reflexivity|]. split; [reflexivity|].
  destruct (tm_find_scans 3 OUTPUT 4 2 (mkG 5 2 []))
    as [(s1 & E1 & R1) _].
  destruct (tm_find_scans 3 DST 4 2 (mkG 5 2 []))
    as [_ (s2 & E2 & R2)].
  split.
  - exists s1. split; [exact E1|].
    apply (R1 (emitted s1) [START] [BLANK; ONE] [END]);
      [apply incl_refl | reflexivity].
  - exists s2. split; [exact E2|].
    apply (R2 (emitted s2) [START] [BLANK; ONE] VALUE [END]);
      [apply incl_refl | reflexivity].
Defined.

(** ** Writing a word over existing cells *)

Lemma interleaved_snoc ks os k o :
  List.length ks = List.length os ->
  interleaved (ks ++ [k]) (os ++ [o]) = interleaved ks os ++ [k; o].
Proof.
  revert os. induction ks as [|k0 ks IH]; intros [|o0 os] H;
    try discriminate; [reflexivity|].
  cbn [app interleaved]. rewrite IH by (cbn in H; lia). reflexivity.
Qed.

Lemma interleaved_length ks os :
  List.length ks = List.length os ->
  List.length (interleaved ks os) = (2 * List.length ks)%nat.
Proof.
  revert os. induction ks as [|k ks IH]; intros [|o os] H;
    try discriminate; [reflexivity|].
  cbn [interleaved List.length]. rewrite IH by (cbn in H; lia). lia.
Qed.

Lemma spread_interleaved w :
  spread w = interleaved (repeat BLANK (List.length w)) w.
Proof.
  induction w as [|b w IH]; [reflexivity|].
  cbn [List.length repeat interleaved]. rewrite <- IH. reflexivity.
Qed.

Lemma loop_bits_length i x : List.length (loop_bits i x) = i.
Proof. induction i as [|i IH]; [reflexivity|]. cbn. rewrite IH. reflexivity. Qed.

Lemma tm_write_bits_loop_over i : forall q x st a st',
  tm_write_bits_loop i q x st = Ok a st' ->
  forall T, sub st' T ->
    sub st T /\
    forall ks os l R,
      List.length ks = i -> List.length os = i ->
      steps T (q, mkTape l (interleaved ks os ++ R))
              (a, mkTape (rev (interleaved ks (loop_bits i x)) ++ l) R).
Proof.
  induction i as [|i IH]; intros q x st a st' H.
  - apply ret_inv in H. destruct H as [-> ->].
    intros T HT. split; [exact HT|]. intros [|k ks] [|o os] l R Hk Ho;
      try discriminate. apply steps_refl.
  - rewrite tm_write_bits_loop_S in H. gen_inv H.
    match goal with
    | G : tm_write_bits_loop _ _ _ _ = _ |- _ =>
        pose proof (IH _ _ _ _ _ G) as Hrun
    end.
    intros T HT. destruct (Hrun T HT) as [HT' Hloop]. sub_inv HT'.
    split; [exact HT'|]. intros [|k ks] [|o os] l R Hk Ho;
      try discriminate.
    cbn [interleaved app loop_bits].
    step_block. step_block.
    assert (Hk' : List.length ks = i) by (cbn in Hk; lia).
    assert (Ho' : List.length os = i) by (cbn in Ho; lia).
    pose proof (Hloop ks os (bit_symbol x (S i) :: k :: l) R Hk' Ho') as Hr.
    eapply steps_conf_eq; [ | | exact Hr ]; [reflexivity|].
    f_equal. cbn [rev]. rewrite <- !app_assoc. reflexivity.
Qed.

Lemma tm_write_bits_over q x n r st a st' :
  tm_write_bits q x (S n) r st = Ok a st' ->
  a = r /\
  forall T, sub st' T ->
    sub st T /\
    forall ks os l R,
      List.length ks = S n -> List.length os = S n ->
      steps T (q, mkTape l (interleaved ks os ++ R))
              (r, mkTape (rev (interleaved ks (word_bits (S n) x)) ++ l) R).
Proof.
  intro H. unfold_gen tm_write_bits H.
  replace (S n - 1)%nat with n in H by lia.
  gen_inv H.
  match goal with
  | G : tm_write_bits_loop _ _ _ _ = _ |- _ =>
      pose proof (tm_write_bits_loop_over _ _ _ _ _ _ G) as Hrun
  end.
  split; [reflexivity|].
  intros T HT. sub_inv HT. destruct (Hrun T HT) as [HT' Hloop].
  split; [exact HT'|]. intros ks os l R Hk Ho.
  destruct (exists_last (l := ks)) as (ks' & k & ->);
    [intro E; rewrite E in Hk; discriminate|].
  destruct (exists_last (l := os)) as (os' & o & ->);
    [intro E; rewrite E in Ho; discriminate|].
  rewrite length_app in Hk, Ho. cbn [List.length] in Hk, Ho.
  assert (Hk' : List.length ks' = n) by lia.
  assert (Ho' : List.length os' = n) by lia.
  rewrite interleaved_snoc by lia. rewrite <- app_assoc.
  eapply steps_trans; [apply (Hloop ks' os' l _ Hk' Ho')|].
  cbn [app]. step_block. step_block.
  rewrite word_bits_loop_bits.
  rewrite interleaved_snoc by (rewrite loop_bits_length; lia).
  apply steps_eq. f_equal. f_equal.
  rewrite rev_app_distr. reflexivity.
Qed.

(** X7 (writing a word): the states emitted by [tm_write_word q x r] write
    the eight low bits of [x], most significant first, into every second
    cell right of the head: the cell under the head and each cell after a
    written bit are stepped over and keep their contents, the cells in
    between are overwritten whatever they held, and the machine enters [r]
    with the head on the cell after the last bit.  The word written has the
    value [x mod 256], so negative and large immediates wrap around. *)
Theorem tm_write_word_overwrites :
  forall q x r st,
    word_value (word_bits 8 x) = x mod 256 /\
    exists st',
      tm_write_word q x r st = Ok r st' /\
      forall T b ks os rt,
        sub st' T -> List.length ks = 8%nat -> List.length os = 8%nat ->
        steps T (q, tape_at b (interleaved ks os ++ rt))
                (r, tape_at (b ++ interleaved ks (word_bits 8 x)) rt).
Proof.
  intros q x r st. split; [apply (word_value_word_bits 8 x)|].
  assert (Hs : succeeds (tm_write_word q x r))
    by (unfold tm_write_word; apply succeeds_tm_write_bits).
  destruct (succeeds_inv _ st Hs) as (a & st' & H).
  exists st'.
  assert (H' := H). unfold_gen tm_write_word H'. unfold_gen word_size H'.
  destruct (tm_write_bits_over _ _ _ _ _ _ _ H') as [-> Hrun].
  split; [exact H|].
  intros T b ks os rt HT Hk Ho. destruct (Hrun T HT) as [_ Hr].
  unfold tape_at. rewrite rev_app_distr. apply (Hr ks os (rev b) rt Hk Ho).
Qed.

Lemma tm_write_word_overwrites_witness :
  List.length (repeat BLANK 8) = 8%nat /\
  List.length (word_bits 8 3) = 8%nat /\
  word_value (word_bits 8 (-1)) = (-1) mod 256 /\
  exists st',
    tm_write_word 3 (-1) 4 (mkG 5 2 []) = Ok 4 st' /\
    steps (emitted st')
      (3, tape_at [VALUE]
            (interleaved (repeat BLANK 8) (word_bits 8 3) ++ [END]))
      (4, tape_at ([VALUE] ++ interleaved (repeat BLANK 8) (word_bits 8 (-1)))
            [END]).
Proof.
  split; [reflexivity|]. split; [reflexivity|].
  destruct (tm_write_word_overwrites 3 (-1) 4 (mkG 5 2 []))
    as [Hv (st' & E & R)].
  split; [exact Hv|]. exists st'. split; [exact E|].
  apply (R (emitted st') [VALUE] (repeat BLANK 8) (word_bits 8 3) [END]);
    [apply incl_refl | reflexivity | reflexivity].
Defined.


(* ================================================================= *)
(** * Further properties of the translated instructions *)

(** ** MOV *)

(** The cells of a tape around the value word of a register entry. *)
Lemma wf_cells_at_value es1 reg es2 outs :
  exists Z',
    entries_cells es2 ++ [BLANK] ++ outputs_cells outs = BLANK :: Z' /\
    is_bit (hd BLANK (Z' ++ [OUTPUT])) = false /\
    avoid [SRC; DST; START; END] Z' = true /\
    forall v',
      wf_cells (es1 ++ RegE reg v' :: es2) outs =
      START :: (entries_cells es1 ++ [BLANK; REGISTER] ++
                spread (word_bits 8 reg) ++ [BLANK; VALUE]) ++
               spread (word_bits 8 v') ++ BLANK :: Z' ++ [END].
Proof.
  destruct (zone_shape es2 outs) as (Z' & HZ & HZbit & HZav).
  exists Z'. split; [exact HZ|]. split; [exact HZbit|]. split; [exact HZav|].
  intro v'. unfold wf_cells. rewrite entries_cells_app.
  unfold entries_cells at 2. cbn [flat_map]. fold (entries_cells es2).
  unfold entry_cells.
  transitivity (START :: entries_cells es1 ++ [BLANK; REGISTER] ++
                  spread (word_bits 8 reg) ++ [BLANK; VALUE] ++
                  spread (word_bits 8 v') ++
                  (entries_cells es2 ++ [BLANK] ++ outputs_cells outs) ++
                  [END]).
  - app_norm. reflexivity.
  - rewrite HZ. app_norm. reflexivity.
Qed.

Lemma avoid_header bad es1 reg :
  avoid bad [BLANK; ZERO; ONE; VALUE; REGISTER; ADDRESS] = true ->
  avoid bad (entries_cells es1 ++ [BLANK; REGISTER] ++
             spread (word_bits 8 reg) ++ [BLANK; VALUE]) = true.
Proof.
  intro Hb.
  assert (H3 : avoid bad [BLANK; ZERO; ONE] = true).
  { change [BLANK; ZERO; ONE; VALUE; REGISTER; ADDRESS]
      with ([BLANK; ZERO; ONE] ++ [VALUE; REGISTER; ADDRESS]) in Hb.
    rewrite avoid_app in Hb. apply andb_true_iff in Hb. tauto. }
  rewrite !avoid_app, avoid_entries, avoid_spread by assumption.
  change [BLANK; ZERO; ONE; VALUE; REGISTER; ADDRESS]
    with ([BLANK] ++ [ZERO; ONE] ++ [VALUE] ++ [REGISTER] ++ [ADDRESS]) in Hb.
  rewrite !avoid_app in Hb.
  repeat (apply andb_true_iff in Hb; destruct Hb as [? Hb]).
  rewrite (avoid_cons_eq bad BLANK), (avoid_cons_eq bad BLANK [VALUE]).
  repeat match goal with H : avoid bad _ = true |- _ => rewrite H end.
  reflexivity.
Qed.

Lemma mov_imm_run q inst d i st a st' :
  dst inst = REG d -> src inst = IMM i ->
  translate_mov q inst st = Ok a st' ->
  forall T, sub st' T ->
  forall es1 v es2 outs,
    reg_absent d es1 = true ->
    steps T (q, tape_at [] (wf_cells (es1 ++ RegE d v :: es2) outs))
            (a, tape_at [] (wf_cells (es1 ++ RegE d i :: es2) outs)).
Proof.
  intros Hd Hs H. unfold_gen translate_mov H. rewrite Hd, Hs in H.
  cbn [assert_reg] in H. gen_inv H.
  match goal with
  | G : tm_write_word _ _ _ _ = _ |- _ =>
      unfold_gen tm_write_word G; unfold_gen word_size G;
      destruct (tm_write_bits_over _ _ _ _ _ _ _ G) as (-> & Hbits)
  end.
  match goal with
  | G : tm_find_register _ _ _ _ = _ |- _ =>
      destruct (tm_find_register_run _ _ _ _ _ _ G) as (-> & _ & Hfind)
  end.
  intros T HT es1 v es2 outs Habs. sub_inv HT.
  destruct (Hbits T HT) as [HT1 Hw].
  destruct (Hfind T HT1) as (HT2 & Hfound & Hrestart & _).
  destruct (wf_cells_at_value es1 d es2 outs)
    as (Z' & HZ & HZbit & HZav & Hcells).
  set (P' := entries_cells es1 ++ [BLANK; REGISTER] ++
             spread (word_bits 8 d) ++ [BLANK; VALUE]) in *.
  assert (HP' : forall bad,
             avoid bad [BLANK; ZERO; ONE; VALUE; REGISTER; ADDRESS] = true ->
             avoid bad P' = true)
    by (intros bad Hb; apply avoid_header, Hb).
  rewrite (Hcells v), (Hcells i). unfold tape_at. cbn [rev].
  pose proof (find_entries_found T _ _ d Hfound Hrestart es1 []
                [START] v (BLANK :: Z' ++ [END]) eq_refl Habs) as Hf.
  eapply steps_trans.
  { eapply steps_tape_eq; [|exact Hf].
    unfold tape_at, P', entry_cells. f_equal. list_norm. reflexivity. }
  pose proof (Hw (repeat BLANK 8) (word_bits 8 v) (rev (START :: P'))
                (BLANK :: Z' ++ [END]) eq_refl (word_bits_length 8 v)) as Hwr.
  eapply steps_trans.
  { eapply steps_tape_eq; [|exact Hwr].
    rewrite (spread_interleaved (word_bits 8 v)), word_bits_length.
    unfold tape_at, P'. f_equal; list_norm; reflexivity. }
  replace (interleaved (repeat BLANK 8) (word_bits 8 i))
    with (spread (word_bits 8 i))
    by (rewrite (spread_interleaved (word_bits 8 i)), word_bits_length;
        reflexivity).
  steps_with ltac:(eapply (rewind_run T _ _
                     (rev (P' ++ spread (word_bits 8 i))) BLANK []
                     (Z' ++ [END]));
                   [eassumption | avoid_tac]).
  apply steps_eq. f_equal. f_equal. list_norm. reflexivity.
Qed.

Lemma reg_absent_app reg es1 es2 :
  reg_absent reg (es1 ++ es2) = reg_absent reg es1 && reg_absent reg es2.
Proof. unfold reg_absent. apply forallb_app. Qed.

Lemma reg_absent_cons reg i v es :
  reg_absent reg (RegE i v :: es) =
  negb (i mod 256 =? reg mod 256) && reg_absent reg es.
Proof. reflexivity. Qed.

Lemma spread_word_head v :
  exists D15,
    spread (word_bits 8 v) = BLANK :: D15 /\
    List.length D15 = 15%nat /\
    forall bad, avoid bad [BLANK; ZERO; ONE] = true -> avoid bad D15 = true.
Proof.
  exists (tl (spread (word_bits 8 v))). split; [reflexivity|].
  split; [reflexivity|]. intros bad Hb.
  pose proof (avoid_spread bad 8 v Hb) as H.
  change (spread (word_bits 8 v))
    with (BLANK :: tl (spread (word_bits 8 v))) in H.
  apply avoid_cons in H. apply H.
Qed.

(** What lies between a value word and the value marker of a later
    register entry: a blank, then cells that start with a marker. *)
Lemma header_zone es2 d :
  exists M,
    (forall X, entries_cells es2 ++ BLANK :: REGISTER ::
                 spread (word_bits 8 d) ++ BLANK :: X = BLANK :: M ++ X) /\
    is_bit (hd BLANK (M ++ [VALUE])) = false /\
    forall bad,
      avoid bad [BLANK; ZERO; ONE; VALUE; REGISTER; ADDRESS] = true ->
      avoid bad M = true.
Proof.
  destruct es2 as [|e es2].
  - exists (REGISTER :: spread (word_bits 8 d) ++ [BLANK]).
    split; [|split].
    + intro X. cbn [entries_cells flat_map app]. rewrite <- app_assoc.
      reflexivity.
    + reflexivity.
    + intros bad Hb. pose proof (avoid_header bad [] d Hb) as H.
      cbn [entries_cells flat_map app] in H.
      apply avoid_cons in H. destruct H as [_ H].
      change (REGISTER :: spread (word_bits 8 d) ++ [BLANK; VALUE])
        with ((REGISTER :: spread (word_bits 8 d)) ++ [BLANK] ++ [VALUE]) in H.
      rewrite !avoid_app in H.
      apply andb_true_iff in H. destruct H as [H1 H].
      apply andb_true_iff in H. destruct H as [H2 _].
      change (REGISTER :: spread (word_bits 8 d) ++ [BLANK])
        with ((REGISTER :: spread (word_bits 8 d)) ++ [BLANK]).
      rewrite avoid_app, H1, H2. reflexivity.
  - exists (tl (entry_cells e) ++ entries_cells es2 ++
            BLANK :: REGISTER :: spread (word_bits 8 d) ++ [BLANK]).
    split; [|split].
    + intro X. unfold entries_cells. cbn [flat_map].
      fold (entries_cells es2).
      destruct e; unfold entry_cells; cbn [app tl];
        repeat rewrite <- app_assoc; cbn [app];
        repeat rewrite <- app_assoc; reflexivity.
    + destruct e; reflexivity.
    + intros bad Hb. pose proof (avoid_header bad (e :: es2) d Hb) as H.
      unfold entries_cells in H. cbn [flat_map] in H.
      fold (entries_cells es2) in H.
      assert (E : (entry_cells e ++ entries_cells es2) ++ [BLANK; REGISTER] ++
                  spread (word_bits 8 d) ++ [BLANK; VALUE] =
                  BLANK :: (tl (entry_cells e) ++ entries_cells es2 ++
                    BLANK :: REGISTER :: spread (word_bits 8 d) ++ [BLANK])
                    ++ [VALUE]).
      { destruct e; unfold entry_cells; cbn [app tl];
          repeat rewrite <- app_assoc; cbn [app];
          repeat rewrite <- app_assoc; reflexivity. }
      rewrite E in H. apply avoid_cons in H. destruct H as [_ H].
      rewrite avoid_app in H. apply andb_true_iff in H. apply H.
Qed.

Lemma skipn_past {A} (l : list A) c X :
  skipn (S (List.length l)) (l ++ c :: X) = X.
Proof. induction l as [|x l IH]; [reflexivity | exact IH]. Qed.

Lemma mov_reg_right_run q inst d s st a st' :
  dst inst = REG d -> src inst = REG s -> s < d ->
  translate_mov q inst st = Ok a st' ->
  forall T, sub st' T ->
  forall es1 vs es2 vd es3 outs,
    reg_absent s es1 = true ->
    reg_absent d (es1 ++ RegE s vs :: es2) = true ->
    steps T
      (q, tape_at [] (wf_cells (es1 ++ RegE s vs :: es2 ++
                                  RegE d vd :: es3) outs))
      (a, tape_at [] (wf_cells (es1 ++ RegE s vs :: es2 ++
                                  RegE d vs :: es3) outs)).
Proof.
  intros Hd Hs Hlt H. unfold_gen translate_mov H. rewrite Hd, Hs in H.
  cbn [assert_reg] in H.
  assert (Hne : (d =? s) = false) by (apply Z.eqb_neq; lia).
  assert (Hcmp : intcmp d s = 1).
  { unfold intcmp. destruct (Z.gtb_spec d s); [reflexivity|lia]. }
  apply bind_inv in H. destruct H as (d' & st0 & H1 & H).
  apply ret_inv in H1. destruct H1 as [-> ->].
  rewrite Hne, Hcmp in H. gen_inv H.
  match goal with
  | G : tm_copy _ _ _ _ = _ |- _ =>
      destruct (tm_copy_run_right _ _ _ _ _ G) as (-> & _ & Hcopy)
  end.
  match goal with
  | G : tm_find_register _ s _ _ = _ |- _ =>
      destruct (tm_find_register_run _ _ _ _ _ _ G) as (-> & _ & Hfs)
  end.
  match goal with
  | G : tm_find_register _ d _ _ = _ |- _ =>
      destruct (tm_find_register_run _ _ _ _ _ _ G) as (-> & _ & Hfd)
  end.
  intros T HT es1 vs es2 vd es3 outs Habs Habd. sub_inv HT.
  destruct (Hcopy T HT) as [HT1 Hc]. sub_inv HT1.
  destruct (Hfs T HT1) as (HT2 & Hsfound & Hsrestart & _). sub_inv HT2.
  destruct (Hfd T HT2) as (HT3 & Hdfound & Hdrestart & _).
  (* the layout *)
  destruct (wf_cells_at_value (es1 ++ RegE s vs :: es2) d es3 outs)
    as (Z3 & HZ3 & _ & HZ3av & Hcd).
  destruct (header_zone es2 d) as (M & HM & HMbit & HMav).
  destruct (spread_word_head vd) as (D15 & HD & HDlen & HDav).
  assert (Hes : entries_cells (es1 ++ RegE s vs :: es2) =
                entries_cells es1 ++ entry_cells (RegE s vs) ++
                entries_cells es2).
  { rewrite entries_cells_app. reflexivity. }
  replace (es1 ++ RegE s vs :: es2 ++ RegE d vd :: es3)
    with ((es1 ++ RegE s vs :: es2) ++ RegE d vd :: es3)
    by (rewrite <- app_assoc; reflexivity).
  replace (es1 ++ RegE s vs :: es2 ++ RegE d vs :: es3)
    with ((es1 ++ RegE s vs :: es2) ++ RegE d vs :: es3)
    by (rewrite <- app_assoc; reflexivity).
  rewrite (Hcd vd), (Hcd vs). unfold tape_at. cbn [rev].
  (* the destination register *)
  pose proof (find_entries_found T _ _ d Hdfound Hdrestart
                (es1 ++ RegE s vs :: es2) [] [START] vd
                (BLANK :: Z3 ++ [END]) eq_refl Habd) as Hf.
  eapply steps_trans.
  { eapply steps_tape_eq; [|exact Hf].
    unfold tape_at, entry_cells. f_equal. app_norm. reflexivity. }
  clear Hf. rewrite HD. tape_norm.
  (* the destination marker, back to the start *)
  step_block.
  steps_with ltac:(eapply (rewind_run T _ _
                     (BLANK :: rev (spread (word_bits 8 d)) ++
                        REGISTER :: BLANK ::
                        rev (entries_cells (es1 ++ RegE s vs :: es2)))
                     VALUE [] (DST :: D15 ++ BLANK :: Z3 ++ [END]));
                   [eassumption | avoid_tac]).
  (* the source register *)
  pose proof (find_entries_found T _ _ s Hsfound Hsrestart es1 []
                [START] vs
                (entries_cells es2 ++ BLANK :: REGISTER ::
                   spread (word_bits 8 d) ++ BLANK :: VALUE :: DST :: D15 ++
                   BLANK :: Z3 ++ [END]) eq_refl Habs) as Hf.
  eapply steps_trans.
  { eapply steps_tape_eq; [|exact Hf].
    unfold tape_at. rewrite Hes. f_equal. tape_norm. reflexivity. }
  clear Hf.
  (* the copy *)
  set (w := word_bits 8 vs) in *.
  set (Ps := entries_cells es1 ++ [BLANK; REGISTER] ++
             spread (word_bits 8 s) ++ [BLANK; VALUE]) in *.
  assert (HPs : forall bad,
             avoid bad [BLANK; ZERO; ONE; VALUE; REGISTER; ADDRESS] = true ->
             avoid bad Ps = true)
    by (intros bad Hb; apply avoid_header, Hb).
  assert (Hw : forall bad, avoid bad [BLANK; ZERO; ONE] = true ->
                           avoid bad (spread w) = true)
    by (intros; apply avoid_spread; assumption).
  assert (HtM : avoid [SRC; DST; START; END] (M ++ [VALUE]) = true)
    by (rewrite avoid_app, HMav by reflexivity; reflexivity).
  assert (HtMne : M ++ [VALUE] <> []) by (destruct M; discriminate).
  pose proof (Hc w BLANK (M ++ [VALUE]) (rev (START :: Ps))
                (D15 ++ BLANK :: Z3 ++ [END])
                (word_bits_all_bits 8 vs) HMbit HtMne HtM) as Hcp.
  eapply steps_trans.
  { eapply steps_tape_eq; [|exact Hcp].
    unfold tape_at. cbn [app]. rewrite HM, spread_blank.
    f_equal; app_norm; reflexivity. }
  clear Hcp. unfold w at 3. rewrite word_bits_length.
  replace (skipn (8 * 2) (D15 ++ BLANK :: Z3 ++ [END])) with (Z3 ++ [END]).
  2:{ change (8 * 2)%nat with (S 15). rewrite <- HDlen.
      symmetry. apply skipn_past. }
  (* back to the start *)
  steps_with ltac:(eapply (rewind_run T _ _
                     (rev (Ps ++ spread w ++ [BLANK] ++ (M ++ [VALUE]) ++
                             spread w))
                     BLANK [] (Z3 ++ [END]));
                   [eassumption | avoid_tac]).
  apply steps_eq. f_equal. f_equal. f_equal.
  rewrite Hes. unfold entry_cells. fold w. fold Ps.
  rewrite rev_involutive. app_norm. rewrite HM.
  unfold Ps. app_norm. reflexivity.
Qed.

(** Looking up a register past an entry whose value cells are arbitrary. *)
Section FindPast.
Variables (T : list transition) (q r reg : Z).

Hypothesis found : forall l junk rt,
    avoid [REGISTER; END] junk = true ->
    steps T (q, mkTape l (junk ++ REGISTER ::
                            spread (word_bits 8 reg) ++ BLANK :: VALUE :: rt))
            (r, mkTape (VALUE :: BLANK :: rev (spread (word_bits 8 reg))
                          ++ REGISTER :: rev junk ++ l) rt).
Hypothesis restart : forall idx l junk rt,
    avoid [REGISTER; END] junk = true ->
    word_bits 8 idx <> word_bits 8 reg ->
    exists pre post,
      spread (word_bits 8 idx) = pre ++ post /\
      steps T (q, mkTape l (junk ++ REGISTER :: spread (word_bits 8 idx) ++ rt))
              (q, mkTape (rev pre ++ REGISTER :: rev junk ++ l) (post ++ rt)).

Lemma find_entries_past : forall es1 b junk i X,
    avoid [REGISTER; END] junk = true ->
    reg_absent reg es1 = true ->
    i mod 256 <> reg mod 256 ->
    avoid [REGISTER; END] X = true ->
    forall es2 v rest,
    reg_absent reg es2 = true ->
    steps T (q, tape_at b (junk ++ entries_cells es1 ++
                             [BLANK; REGISTER] ++ spread (word_bits 8 i) ++
                             X ++ entries_cells es2 ++
                             entry_cells (RegE reg v) ++ rest))
            (r, tape_at (b ++ junk ++ entries_cells es1 ++
                           [BLANK; REGISTER] ++ spread (word_bits 8 i) ++
                           X ++ entries_cells es2 ++
                           [BLANK; REGISTER] ++ spread (word_bits 8 reg) ++
                           [BLANK; VALUE])
                        (spread (word_bits 8 v) ++ rest)).
Proof.
  induction es1 as [|e es1 IH]; intros b junk i X Hj Ha Hi HX es2 v rest Ha2.
  - assert (Hj' : avoid [REGISTER; END] (junk ++ [BLANK]) = true)
      by (rewrite avoid_app, Hj; reflexivity).
    destruct (restart i (rev b) (junk ++ [BLANK])
                (X ++ entries_cells es2 ++ entry_cells (RegE reg v) ++ rest)
                Hj' (word_bits_neq _ _ Hi)) as (pre & post & Hsp & Hst).
    assert (Hpost : avoid [REGISTER; END] (post ++ X) = true).
    { assert (Hw : avoid [REGISTER; END] (pre ++ post) = true)
        by (rewrite <- Hsp; apply avoid_spread; reflexivity).
      rewrite avoid_app in Hw. apply andb_true_iff in Hw.
      destruct Hw as [_ Hw]. rewrite avoid_app, Hw, HX. reflexivity. }
    pose proof (find_entries_found T q r reg found restart es2
                  (b ++ junk ++ [BLANK; REGISTER] ++ pre) (post ++ X)
                  v rest Hpost Ha2) as Hf.
    eapply steps_trans.
    + eapply steps_conf_eq; [ | reflexivity | exact Hst ].
      unfold entries_cells. cbn [flat_map]. tape_norm. reflexivity.
    + eapply steps_conf_eq; [ | | exact Hf ].
      * tape_norm. reflexivity.
      * unfold entries_cells at 1. cbn [flat_map]. rewrite Hsp.
        tape_norm. reflexivity.
  - cbn [reg_absent forallb] in Ha. apply andb_true_iff in Ha.
    destruct Ha as [He Ha]. fold (reg_absent reg es1) in Ha.
    destruct e as [i' v'|a v'].
    + apply negb_true_iff, Z.eqb_neq in He.
      destruct (find_restart T q reg restart i' v' b junk
                  (entries_cells es1 ++ [BLANK; REGISTER] ++
                   spread (word_bits 8 i) ++ X ++ entries_cells es2 ++
                   entry_cells (RegE reg v) ++ rest)
                  Hj He) as (pre & post & Hsp & _ & Hpost & Hst).
      eapply steps_trans.
      * unfold entries_cells. cbn [flat_map]. rewrite <- app_assoc.
        exact Hst.
      * specialize (IH (b ++ junk ++ pre) post i X Hpost Ha Hi HX
                      es2 v rest Ha2).
        unfold entries_cells in *. cbn [flat_map]. rewrite Hsp.
        revert IH. repeat rewrite <- app_assoc. auto.
    + assert (Hj' : avoid [REGISTER; END]
                      (junk ++ entry_cells (MemE a v')) = true).
      { rewrite avoid_app, Hj. apply avoid_entry; reflexivity. }
      specialize (IH b (junk ++ entry_cells (MemE a v')) i X Hj' Ha Hi HX
                    es2 v rest Ha2).
      unfold entries_cells in *. cbn [flat_map].
      revert IH. repeat rewrite <- app_assoc. auto.
Qed.
End FindPast.

Lemma zone_tail Z3 :
  is_bit (hd BLANK (Z3 ++ [OUTPUT])) = false ->
  avoid [SRC; DST; START; END] Z3 = true ->
  exists t R,
    Z3 ++ [END] = t :: R /\ is_bit t = false /\
    avoid [DST; START] [t] = true.
Proof.
  intros Hb Hav. destruct Z3 as [|z Z3].
  - exists END, []. auto.
  - exists z, (Z3 ++ [END]). split; [reflexivity|]. split; [exact Hb|].
    apply avoid_cons in Hav. destruct Hav as [Hz _].
    unfold avoid. cbn [forallb existsb].
    rewrite (Hz DST), (Hz START) by (simpl; tauto). reflexivity.
Qed.

Lemma mov_reg_left_run q inst d s st a st' :
  dst inst = REG d -> src inst = REG s -> d < s ->
  translate_mov q inst st = Ok a st' ->
  forall T, sub st' T ->
  forall es1 vd es2 vs es3 outs,
    reg_absent d es1 = true ->
    reg_absent s es1 = true -> d mod 256 <> s mod 256 ->
    reg_absent s es2 = true ->
    steps T
      (q, tape_at [] (wf_cells (es1 ++ RegE d vd :: es2 ++
                                  RegE s vs :: es3) outs))
      (a, tape_at [] (wf_cells (es1 ++ RegE d vs :: es2 ++
                                  RegE s vs :: es3) outs)).
Proof.
  intros Hd Hs Hlt H. unfold_gen translate_mov H. rewrite Hd, Hs in H.
  cbn [assert_reg] in H.
  assert (Hne : (d =? s) = false) by (apply Z.eqb_neq; lia).
  assert (Hcmp : intcmp d s = -1).
  { unfold intcmp. destruct (Z.gtb_spec d s); [lia|].
    destruct (Z.ltb_spec d s); [reflexivity|lia]. }
  apply bind_inv in H. destruct H as (d' & st0 & H1 & H).
  apply ret_inv in H1. destruct H1 as [-> ->].
  rewrite Hne, Hcmp in H. gen_inv H.
  match goal with
  | G : tm_copy _ _ _ _ = _ |- _ =>
      destruct (tm_copy_run_left _ _ _ _ _ G) as (-> & _ & Hcopy)
  end.
  match goal with
  | G : tm_find_register _ s _ _ = _ |- _ =>
      destruct (tm_find_register_run _ _ _ _ _ _ G) as (-> & _ & Hfs)
  end.
  match goal with
  | G : tm_find_register _ d _ _ = _ |- _ =>
      destruct (tm_find_register_run _ _ _ _ _ _ G) as (-> & _ & Hfd)
  end.
  intros T HT es1 vd es2 vs es3 outs Habd Habs Hds Habs2. sub_inv HT.
  destruct (Hcopy T HT) as [HT1 Hc]. sub_inv HT1.
  destruct (Hfs T HT1) as (HT2 & Hsfound & Hsrestart & _). sub_inv HT2.
  destruct (Hfd T HT2) as (HT3 & Hdfound & Hdrestart & _).
  (* the layout *)
  destruct (zone_shape es3 outs) as (Z3 & HZ3 & HZ3bit & HZ3av).
  destruct (zone_tail Z3 HZ3bit HZ3av) as (t & R & HtR & Htbit & Htav).
  destruct (header_zone es2 s) as (M & HM & _ & HMav).
  destruct (spread_word_head vd) as (D15 & HD & HDlen & HDav).
  set (w := word_bits 8 vs) in *.
  set (Pd := entries_cells es1 ++ [BLANK; REGISTER] ++
             spread (word_bits 8 d) ++ [BLANK; VALUE]) in *.
  assert (HPd : forall bad,
             avoid bad [BLANK; ZERO; ONE; VALUE; REGISTER; ADDRESS] = true ->
             avoid bad Pd = true)
    by (intros bad Hb; apply avoid_header, Hb).
  assert (Hw : forall bad, avoid bad [BLANK; ZERO; ONE] = true ->
                           avoid bad (spread w) = true)
    by (intros; apply avoid_spread; assumption).
  assert (Hcells : forall v',
             wf_cells (es1 ++ RegE d v' :: es2 ++ RegE s vs :: es3) outs =
             START :: Pd ++ spread (word_bits 8 v') ++ entries_cells es2 ++
               BLANK :: REGISTER :: spread (word_bits 8 s) ++
               BLANK :: VALUE :: spread w ++ BLANK :: Z3 ++ [END]).
  { intro v'. unfold wf_cells. rewrite entries_cells_app.
    unfold entries_cells at 2. cbn [flat_map].
    fold (entries_cells (es2 ++ RegE s vs :: es3)).
    rewrite entries_cells_app.
    unfold entries_cells at 3. cbn [flat_map]. fold (entries_cells es3).
    unfold entry_cells, Pd, w.
    transitivity (START :: entries_cells es1 ++ [BLANK; REGISTER] ++
                    spread (word_bits 8 d) ++ [BLANK; VALUE] ++
                    spread (word_bits 8 v') ++ entries_cells es2 ++
                    [BLANK; REGISTER] ++ spread (word_bits 8 s) ++
                    [BLANK; VALUE] ++ spread (word_bits 8 vs) ++
                    (entries_cells es3 ++ [BLANK] ++ outputs_cells outs) ++
                    [END]).
    - app_norm. reflexivity.
    - rewrite HZ3. app_norm. reflexivity. }
  rewrite (Hcells vd), (Hcells vs). fold w. unfold tape_at. cbn [rev].
  (* the destination register *)
  pose proof (find_entries_found T _ _ d Hdfound Hdrestart es1 []
                [START] vd
                (entries_cells es2 ++
                   BLANK :: REGISTER :: spread (word_bits 8 s) ++
                   BLANK :: VALUE :: spread w ++ BLANK :: Z3 ++ [END])
                eq_refl Habd) as Hf.
  eapply steps_trans.
  { eapply steps_tape_eq; [|exact Hf].
    unfold tape_at, entry_cells, Pd. f_equal. app_norm. reflexivity. }
  clear Hf. rewrite HD. tape_norm.
  (* the destination marker, back to the start *)
  step_block.
  steps_with ltac:(eapply (rewind_run T _ _
                     (BLANK :: rev (spread (word_bits 8 d)) ++
                        REGISTER :: BLANK :: rev (entries_cells es1))
                     VALUE []
                     (DST :: D15 ++ entries_cells es2 ++
                        BLANK :: REGISTER :: spread (word_bits 8 s) ++
                        BLANK :: VALUE :: spread w ++ BLANK :: Z3 ++ [END]));
                   [eassumption | avoid_tac]).
  (* the source register *)
  assert (HX : avoid [REGISTER; END] ([BLANK; VALUE] ++ DST :: D15) = true).
  { rewrite avoid_app, (avoid_cons_eq _ DST D15), HDav by reflexivity.
    reflexivity. }
  pose proof (find_entries_past T _ _ s Hsfound Hsrestart es1 [] [START] d
                ([BLANK; VALUE] ++ DST :: D15) eq_refl Habs Hds HX
                es2 vs (BLANK :: Z3 ++ [END]) Habs2) as Hf.
  eapply steps_trans.
  { eapply steps_tape_eq; [|exact Hf].
    unfold tape_at, entry_cells. fold w. f_equal. tape_norm. reflexivity. }
  clear Hf.
  (* the copy *)
  assert (HtM : avoid [SRC; DST; START; END] (M ++ [VALUE]) = true)
    by (rewrite avoid_app, HMav by reflexivity; reflexivity).
  assert (HDr : avoid [SRC; DST; START; END] (D15 ++ [BLANK]) = true)
    by (rewrite avoid_app, HDav by reflexivity; reflexivity).
  assert (HDl : List.length (D15 ++ [BLANK]) = (List.length w * 2)%nat).
  { rewrite length_app, HDlen. unfold w. rewrite word_bits_length.
    reflexivity. }
  pose proof (Hc w BLANK (M ++ [VALUE]) (D15 ++ [BLANK])
                (rev (START :: Pd)) t R
                (word_bits_all_bits 8 vs) Htbit Htav HtM HDr HDl) as Hcp.
  eapply steps_trans.
  { eapply steps_tape_eq; [|exact Hcp].
    unfold tape_at. fold w. f_equal.
    - transitivity (rev ((START :: Pd) ++ DST :: (D15 ++ [BLANK]) ++
                           (M ++ [VALUE]))).
      + f_equal. unfold Pd. app_norm. rewrite HM. app_norm. reflexivity.
      + repeat (rewrite ?rev_app_distr; cbn [rev app]).
        app_norm. reflexivity.
    - rewrite spread_blank, HtR. reflexivity. }
  clear Hcp.
  (* back to the start *)
  steps_with ltac:(eapply (rewind_run T _ _
                     (rev (Pd ++ spread w)) BLANK []
                     ((M ++ [VALUE]) ++ spread w ++ BLANK :: t :: R));
                   [eassumption | avoid_tac]).
  apply steps_eq. f_equal. f_equal. f_equal.
  rewrite rev_involutive, <- HtR. app_norm. rewrite HM.
  app_norm. reflexivity.
Qed.


(* ================================================================= *)
(** * What the machine of one instruction computes *)

(** ** MOV *)

(** X8 (MOV with an immediate): for [MOV REG d, IMM i] the translator never
    aborts, and its machine, started in [q] on the start sentinel of a
    well-formed tape whose first entry for register [d] holds [v], reaches
    the returned state with the head back on the start sentinel and that
    entry holding the eight low bits of [i]; no other cell changes. *)
Theorem mov_immediate_sets_register : forall q inst d i st,
  dst inst = REG d -> src inst = IMM i ->
  exists a st',
    translate_mov q inst st = Ok a st' /\
    forall T es1 v es2 outs,
      sub st' T -> reg_absent d es1 = true ->
      wf_cells (es1 ++ RegE d i :: es2) outs =
      wf_cells (es1 ++ RegE d (i mod 256) :: es2) outs /\
      steps T (q, tape_at [] (wf_cells (es1 ++ RegE d v :: es2) outs))
              (a, tape_at [] (wf_cells (es1 ++ RegE d i :: es2) outs)).
Proof.
  intros q inst d i st Hd Hs.
  assert (Hok : succeeds (translate_mov q inst)).
  { apply (succeeds_translate_mov q inst d Hd). rewrite Hs. discriminate. }
  destruct (is_ok_inv _ st (Hok st)) as (a & st' & H).
  exists a, st'. split; [exact H|].
  intros T es1 v es2 outs HT Hab. split.
  - unfold wf_cells. rewrite !entries_cells_app.
    unfold entries_cells at 2 4. cbn [flat_map]. unfold entry_cells.
    change 256 with (2 ^ Z.of_nat 8).
    rewrite (word_bits_mod 8 8 i) by lia. reflexivity.
  - exact (mov_imm_run q inst d i st a st' Hd Hs H T HT es1 v es2 outs Hab).
Qed.

Lemma mov_immediate_sets_register_witness :
  dst (mkInst MOV 0 (REG 1) (IMM 300) TMP) = REG 1 /\
  src (mkInst MOV 0 (REG 1) (IMM 300) TMP) = IMM 300 /\
  reg_absent 1 [RegE 0 7] = true /\
  exists a st',
    translate_mov 0 (mkInst MOV 0 (REG 1) (IMM 300) TMP) (mkG 1 1 []) =
      Ok a st' /\
    steps (emitted st')
      (0, tape_at [] (wf_cells ([RegE 0 7] ++ RegE 1 9 :: [RegE 2 5]) []))
      (a, tape_at [] (wf_cells ([RegE 0 7] ++ RegE 1 300 :: [RegE 2 5]) [])).
Proof.
  split; [reflexivity|]. split; [reflexivity|]. split; [reflexivity|].
  destruct (mov_immediate_sets_register 0
              (mkInst MOV 0 (REG 1) (IMM 300) TMP) 1 300 (mkG 1 1 [])
              eq_refl eq_refl) as (a & st' & H & Hrun).
  exists a, st'. split; [exact H|].
  apply (Hrun (emitted st') [RegE 0 7] 9 [RegE 2 5] []);
    [apply incl_refl | reflexivity].
Defined.

(** X9 (MOV between registers): for [MOV REG d, REG s] the translator never
    aborts.  With [d = s] it writes no line and returns [q].  Otherwise its
    machine copies the value of the entry of [s] into the entry of [d] and
    comes back to the start sentinel, provided the entry of the register
    with the smaller number stands left of the other one: the direction of
    the copy is [intcmp d s], taken from the register numbers. *)
Theorem mov_register_copies : forall q inst d s st,
  dst inst = REG d -> src inst = REG s ->
  exists a st',
    translate_mov q inst st = Ok a st' /\
    (d = s -> a = q /\ st' = st) /\
    forall T, sub st' T ->
      (forall es1 vs es2 vd es3 outs,
          s < d -> reg_absent s es1 = true ->
          reg_absent d (es1 ++ RegE s vs :: es2) = true ->
          steps T
            (q, tape_at [] (wf_cells (es1 ++ RegE s vs :: es2 ++
                                        RegE d vd :: es3) outs))
            (a, tape_at [] (wf_cells (es1 ++ RegE s vs :: es2 ++
                                        RegE d vs :: es3) outs))) /\
      (forall es1 vd es2 vs es3 outs,
          d < s -> reg_absent d es1 = true ->
          reg_absent s (es1 ++ RegE d vd :: es2) = true ->
          steps T
            (q, tape_at [] (wf_cells (es1 ++ RegE d vd :: es2 ++
                                        RegE s vs :: es3) outs))
            (a, tape_at [] (wf_cells (es1 ++ RegE d vs :: es2 ++
                                        RegE s vs :: es3) outs))).
Proof.
  intros q inst d s st Hd Hs.
  assert (Hok : succeeds (translate_mov q inst)).
  { apply (succeeds_translate_mov q inst d Hd). rewrite Hs. discriminate. }
  destruct (is_ok_inv _ st (Hok st)) as (a & st' & H).
  exists a, st'. split; [exact H|]. split.
  - intros ->. unfold_gen translate_mov H. rewrite Hd, Hs in H.
    cbn [assert_reg] in H.
    apply bind_inv in H. destruct H as (d' & st0 & H1 & H).
    apply ret_inv in H1. destruct H1 as [-> ->].
    rewrite Z.eqb_refl in H. apply ret_inv in H. destruct H as [-> ->].
    split; reflexivity.
  - intros T HT. split.
    + intros es1 vs es2 vd es3 outs Hlt Habs Habd.
      exact (mov_reg_right_run q inst d s st a st' Hd Hs Hlt H T HT
               es1 vs es2 vd es3 outs Habs Habd).
    + intros es1 vd es2 vs es3 outs Hlt Habd Habs.
      rewrite reg_absent_app, reg_absent_cons in Habs.
      apply andb_true_iff in Habs. destruct Habs as [Habs1 Habs].
      apply andb_true_iff in Habs. destruct Habs as [Hne Habs2].
      apply negb_true_iff, Z.eqb_neq in Hne.
      exact (mov_reg_left_run q inst d s st a st' Hd Hs Hlt H T HT
               es1 vd es2 vs es3 outs Habd Habs1 Hne Habs2).
Qed.

Lemma mov_register_copies_witness :
  dst (mkInst MOV 0 (REG 2) (REG 0) TMP) = REG 2 /\
  src (mkInst MOV 0 (REG 2) (REG 0) TMP) = REG 0 /\
  dst (mkInst MOV 0 (REG 0) (REG 2) TMP) = REG 0 /\
  src (mkInst MOV 0 (REG 0) (REG 2) TMP) = REG 2 /\
  (exists a st',
     translate_mov 0 (mkInst MOV 0 (REG 2) (REG 0) TMP) (mkG 1 1 []) =
       Ok a st' /\
     steps (emitted st')
       (0, tape_at [] (wf_cells ([] ++ RegE 0 7 :: [RegE 1 9] ++
                                   RegE 2 5 :: []) [65]))
       (a, tape_at [] (wf_cells ([] ++ RegE 0 7 :: [RegE 1 9] ++
                                   RegE 2 7 :: []) [65]))) /\
  (exists a st',
     translate_mov 0 (mkInst MOV 0 (REG 0) (REG 2) TMP) (mkG 1 1 []) =
       Ok a st' /\
     steps (emitted st')
       (0, tape_at [] (wf_cells ([] ++ RegE 0 7 :: [RegE 1 9] ++
                                   RegE 2 5 :: []) [65]))
       (a, tape_at [] (wf_cells ([] ++ RegE 0 5 :: [RegE 1 9] ++
                                   RegE 2 5 :: []) [65]))).
Proof.
  split; [reflexivity|]. split; [reflexivity|].
  split; [reflexivity|]. split; [reflexivity|]. split.
  - destruct (mov_register_copies 0 (mkInst MOV 0 (REG 2) (REG 0) TMP) 2 0
                (mkG 1 1 []) eq_refl eq_refl) as (a & st' & H & _ & Hrun).
    exists a, st'. split; [exact H|].
    destruct (Hrun (emitted st') (incl_refl _)) as [Hright _].
    apply (Hright [] 7 [RegE 1 9] 5 [] [65]); [lia | reflexivity | reflexivity].
  - destruct (mov_register_copies 0 (mkInst MOV 0 (REG 0) (REG 2) TMP) 0 2
                (mkG 1 1 []) eq_refl eq_refl) as (a & st' & H & _ & Hrun).
    exists a, st'. split; [exact H|].
    destruct (Hrun (emitted st') (incl_refl _)) as [_ Hleft].
    apply (Hleft [] 7 [RegE 1 9] 5 [] [65]); [lia | reflexivity | reflexivity].
Defined.

(** ** ADD and SUB *)

Lemma spread_after_interleaved w :
  spread_after w = interleaved w (repeat BLANK (List.length w)).
Proof.
  induction w as [|b w IH]; [reflexivity|].
  cbn [List.length repeat interleaved]. rewrite <- IH. reflexivity.
Qed.

Lemma interleaved_pair_stream n a b :
  rev (interleaved (word_bits n a) (word_bits n b)) =
  pair_stream (bit_pairs n a b).
Proof.
  rewrite pair_stream_interleaved, bit_pairs_fst, bit_pairs_snd,
    <- !word_bits_lsb.
  reflexivity.
Qed.

(** The adder and the subtractor on a main word [v] whose scratch cells hold
    the word [i]. *)
Lemma arith_run (is_add : bool) q r st a st' :
  (if is_add then tm_add q r else tm_sub q r) st = Ok a st' ->
  a = r /\
  forall T, sub st' T ->
    sub st T /\
    forall v i x L R, is_bit x = false ->
      steps T
        (q, tape_of (rev (interleaved (word_bits 8 v) (word_bits 8 i)) ++
                       x :: L) R)
        (r, mkTape L (spread (word_bits 8 (if is_add then v + i else v - i))
                        ++ BLANK :: R)).
Proof.
  intro H. destruct is_add.
  - destruct (tm_add_run _ _ _ _ _ H) as [-> Hrun].
    split; [reflexivity|]. intros T HT. split.
    + unfold sub in *. eapply incl_tran; [|exact HT].
      exact (extends_tm_add q r st r st' H).
    + intros v i x L R Hx.
      specialize (Hrun T x (bit_pairs 8 v i) L R HT Hx).
      rewrite add_bits_correct, result_cells_spread, <- word_bits_lsb in Hrun.
      rewrite interleaved_pair_stream, spread_blank.
      replace (v + i) with (v + i + Z.b2z false) by (simpl; lia).
      exact Hrun.
  - destruct (tm_sub_run _ _ _ _ _ H) as [-> Hrun].
    split; [reflexivity|]. intros T HT. split.
    + unfold sub in *. eapply incl_tran; [|exact HT].
      exact (extends_tm_sub q r st r st' H).
    + intros v i x L R Hx.
      specialize (Hrun T x (bit_pairs 8 v i) L R HT Hx).
      rewrite sub_bits_correct, result_cells_spread, <- word_bits_lsb in Hrun.
      rewrite interleaved_pair_stream, spread_blank.
      replace (v - i) with (v - i - Z.b2z false) by (simpl; lia).
      exact Hrun.
Qed.

Lemma arith_imm_run (is_add : bool) q inst d i st a st' :
  dst inst = REG d -> src inst = IMM i ->
  translate_arith is_add q inst st = Ok a st' ->
  forall T, sub st' T ->
  forall es1 v es2 outs,
    reg_absent d es1 = true ->
    steps T
      (q, tape_at [] (wf_cells (es1 ++ RegE d v :: es2) outs))
      (a, tape_at [] (wf_cells
                        (es1 ++ RegE d (if is_add then v + i else v - i)
                             :: es2) outs)).
Proof.
  intros Hd Hs H. unfold_gen translate_arith H. rewrite Hd, Hs in H.
  cbn [assert_reg] in H. gen_inv H.
  match goal with
  | G : (if is_add then _ else _) _ = _ |- _ =>
      destruct (arith_run is_add _ _ _ _ _ G) as (-> & Hadd)
  end.
  match goal with
  | G : tm_write_word _ _ _ _ = _ |- _ =>
      unfold_gen tm_write_word G; unfold_gen word_size G;
      destruct (tm_write_bits_over _ _ _ _ _ _ _ G) as (-> & Hbits)
  end.
  match goal with
  | G : tm_find_register _ _ _ _ = _ |- _ =>
      destruct (tm_find_register_run _ _ _ _ _ _ G) as (-> & _ & Hfind)
  end.
  intros T HT es1 v es2 outs Habs. sub_inv HT.
  destruct (Hadd T HT) as [HT0 Hrun]. sub_inv HT0.
  destruct (Hbits T HT0) as [HT1 Hw]. sub_inv HT1.
  destruct (Hfind T HT1) as (HT2 & Hfound & Hrestart & _).
  destruct (wf_cells_at_value es1 d es2 outs)
    as (Z' & HZ & HZbit & HZav & Hcells).
  destruct (zone_tail Z' HZbit HZav) as (t & R & HtR & _ & _).
  set (P' := entries_cells es1 ++ [BLANK; REGISTER] ++
             spread (word_bits 8 d) ++ [BLANK; VALUE]) in *.
  assert (HP' : forall bad,
             avoid bad [BLANK; ZERO; ONE; VALUE; REGISTER; ADDRESS] = true ->
             avoid bad P' = true)
    by (intros bad Hb; apply avoid_header, Hb).
  rewrite (Hcells v), (Hcells (if is_add then v + i else v - i)).
  unfold tape_at. cbn [rev].
  (* the register *)
  pose proof (find_entries_found T _ _ d Hfound Hrestart es1 []
                [START] v (BLANK :: Z' ++ [END]) eq_refl Habs) as Hf.
  eapply steps_trans.
  { eapply steps_tape_eq; [|exact Hf].
    unfold tape_at, P', entry_cells. f_equal. list_norm. reflexivity. }
  clear Hf.
  rewrite (spread_blank (word_bits 8 v) (Z' ++ [END])), HtR.
  rewrite (spread_after_interleaved (word_bits 8 v)), word_bits_length.
  unfold tape_at.
  (* onto the first main bit, then the immediate into the scratch cells *)
  step_block.
  eapply steps_trans.
  { apply (Hw (word_bits 8 v) (repeat BLANK 8) _ (t :: R)
             (word_bits_length 8 v) eq_refl). }
  (* back onto the last scratch cell, and the arithmetic *)
  step_block.
  eapply steps_trans.
  { eapply steps_tape_eq;
      [|apply (Hrun v i BLANK (rev (START :: P')) (t :: R) eq_refl)].
    unfold tape_of. f_equal. }
  (* back to the start *)
  steps_with ltac:(eapply (rewind_run T _ _ (rev P') BLANK []
                     (tl (spread (word_bits 8
                                    (if is_add then v + i else v - i))) ++
                      BLANK :: t :: R));
                   [eassumption | avoid_tac]).
  apply steps_eq. rewrite rev_involutive. reflexivity.
Qed.

Lemma wf_cells_reg_mod es1 d x es2 outs :
  wf_cells (es1 ++ RegE d (x mod 256) :: es2) outs =
  wf_cells (es1 ++ RegE d x :: es2) outs.
Proof.
  unfold wf_cells. rewrite !entries_cells_app.
  unfold entries_cells at 2 4. cbn [flat_map]. unfold entry_cells.
  change 256 with (2 ^ Z.of_nat 8).
  rewrite (word_bits_mod 8 8 x) by lia. reflexivity.
Qed.

Lemma translate_inst_arith q inst :
  (op inst = ADD -> translate_inst q inst = translate_arith true q inst) /\
  (op inst = SUB -> translate_inst q inst = translate_arith false q inst).
Proof. split; intro H; unfold translate_inst; rewrite H; reflexivity. Qed.

(** X10 (ADD and SUB with an immediate): for [ADD REG d, IMM i] and
    [SUB REG d, IMM i] the translator never aborts, and its machine, started
    on the start sentinel of a well-formed tape whose first entry for
    register [d] holds [v], comes back to the start sentinel in the returned
    state with that entry holding [(v + i) mod 256], respectively
    [(v - i) mod 256]: the arithmetic wraps around at eight bits and never
    rejects.  The scratch cells are blank again and no other cell changes. *)
Theorem arith_immediate_wraps : forall q inst d i st,
  (op inst = ADD \/ op inst = SUB) ->
  dst inst = REG d -> src inst = IMM i ->
  exists a st',
    translate_inst q inst st = Ok a st' /\
    forall T es1 v es2 outs,
      sub st' T -> reg_absent d es1 = true ->
      steps T
        (q, tape_at [] (wf_cells (es1 ++ RegE d v :: es2) outs))
        (a, tape_at [] (wf_cells
              (es1 ++ RegE d (match op inst with
                              | ADD => (v + i) mod 256
                              | _ => (v - i) mod 256
                              end) :: es2) outs)).
Proof.
  intros q inst d i st Hop Hd Hs.
  assert (Hsrc : src inst <> TMP) by (rewrite Hs; discriminate).
  assert (Hne : forall s, src inst = REG s -> d <> s)
    by (intros s E; rewrite Hs in E; discriminate).
  destruct (translate_inst_arith q inst) as [Eadd Esub].
  destruct Hop as [Hop | Hop].
  - rewrite (Eadd Hop), Hop.
    destruct (is_ok_inv _ st
                (succeeds_translate_arith true q inst d Hd Hne Hsrc st))
      as (a & st' & H).
    exists a, st'. split; [exact H|].
    intros T es1 v es2 outs HT Hab. rewrite wf_cells_reg_mod.
    exact (arith_imm_run true q inst d i st a st' Hd Hs H T HT
             es1 v es2 outs Hab).
  - rewrite (Esub Hop), Hop.
    destruct (is_ok_inv _ st
                (succeeds_translate_arith false q inst d Hd Hne Hsrc st))
      as (a & st' & H).
    exists a, st'. split; [exact H|].
    intros T es1 v es2 outs HT Hab. rewrite wf_cells_reg_mod.
    exact (arith_imm_run false q inst d i st a st' Hd Hs H T HT
             es1 v es2 outs Hab).
Qed.

Lemma arith_immediate_wraps_witness :
  (op (mkInst ADD 0 (REG 1) (IMM 200) TMP) = ADD \/
   op (mkInst ADD 0 (REG 1) (IMM 200) TMP) = SUB) /\
  (op (mkInst SUB 0 (REG 1) (IMM 200) TMP) = ADD \/
   op (mkInst SUB 0 (REG 1) (IMM 200) TMP) = SUB) /\
  reg_absent 1 [RegE 0 7] = true /\
  (exists a st',
     translate_inst 0 (mkInst ADD 0 (REG 1) (IMM 200) TMP) (mkG 1 1 []) =
       Ok a st' /\
     steps (emitted st')
       (0, tape_at [] (wf_cells ([RegE 0 7] ++ RegE 1 100 :: [RegE 2 5]) []))
       (a, tape_at [] (wf_cells ([RegE 0 7] ++ RegE 1 44 :: [RegE 2 5]) []))) /\
  (exists a st',
     translate_inst 0 (mkInst SUB 0 (REG 1) (IMM 200) TMP) (mkG 1 1 []) =
       Ok a st' /\
     steps (emitted st')
       (0, tape_at [] (wf_cells ([RegE 0 7] ++ RegE 1 100 :: [RegE 2 5]) []))
       (a, tape_at [] (wf_cells ([RegE 0 7] ++ RegE 1 156 :: [RegE 2 5]) []))).
Proof.
  split; [left; reflexivity|]. split; [right; reflexivity|].
  split; [reflexivity|]. split.
  - destruct (arith_immediate_wraps 0 (mkInst ADD 0 (REG 1) (IMM 200) TMP)
                1 200 (mkG 1 1 []) (or_introl eq_refl) eq_refl eq_refl)
      as (a & st' & H & Hrun).
    exists a, st'. split; [exact H|].
    apply (Hrun (emitted st') [RegE 0 7] 100 [RegE 2 5] []);
      [apply incl_refl | reflexivity].
  - destruct (arith_immediate_wraps 0 (mkInst SUB 0 (REG 1) (IMM 200) TMP)
                1 200 (mkG 1 1 []) (or_intror eq_refl) eq_refl eq_refl)
      as (a & st' & H & Hrun).
    exists a, st'. split; [exact H|].
    apply (Hrun (emitted st') [RegE 0 7] 100 [RegE 2 5] []);
      [apply incl_refl | reflexivity].
Defined.


(* ================================================================= *)
(** * The prologue builds the initial tape *)











(** Lines once written stay in the table, also when the translation of the
    text stops with an error. *)
Lemma translate_text_only_adds txt q p st :
  incl (emitted st) (emitted (final (translate_text txt q p st))).
Proof.
  set (Inv := fun s : gstate => incl (emitted st) (emitted s)).
  assert (K : keeps Inv (translate_text txt q p) (fun _ => True)).
  { apply (keeps_translate_text Inv (fun _ => True) (fun _ => True)).
    - intros s Hs. exact Hs.
    - intros; exact I.
    - intros; exact I.
    - intros s q' g Hs _ _. unfold Inv, add_block. cbn [emitted].
      apply incl_appr. exact Hs.
    - intros; exact I.
    - exact I.
    - exact I.
    - intros inst _. split; [exact I | intros; exact I]. }
  exact (proj1 (K st (incl_refl _))).
Qed.

Lemma target_tm_after_prologue m q st0 :
  prologue m (initial_gstate m) = Ok q st0 ->
  target_tm m = translate_text (text m) q 0 st0.
Proof.
  intro Hp. rewrite target_tm_unfold. cbv beta. unfold target_tm_gen.
  exact (final_bind_ok (prologue m) (fun q' => translate_text (text m) q' 0)
           _ _ _ Hp).
Qed.



(* ================================================================= *)
(** * Copying a word into the scratch cells of another *)

(** The loop of [tm_copy_helper] in the mode [BLANK_AFTER_DST]: each bit is
    written on the destination marker, the cell behind it is passed over
    and the marker is set anew on the cell after that. *)
Section CopyScratchRight.
Variables (T : list transition).
Variables (q_nextbit q_read q0 q1 q_clean q_back f0 f1 w0 w1 q_fin r rej : Z).

Hypothesis B_next : has_block T q_nextbit (act_write BLANK 1 q_read).
Hypothesis B_read : has_block T q_read
  (act_move_if2 ZERO 1 q0 ONE 1 q1 0 q_clean).
Hypothesis B_q0 : has_block T q0 (act_write SRC 1 f0).
Hypothesis B_q1 : has_block T q1 (act_write SRC 1 f1).
Hypothesis B_f0 : has_block T f0 (act_move_if2 DST 0 w0 END 0 rej 1 f0).
Hypothesis B_f1 : has_block T f1 (act_move_if2 DST 0 w1 END 0 rej 1 f1).
Hypothesis write0 : forall l k x rt,
  steps T (w0, mkTape l (DST :: k :: x :: rt))
          (q_back, mkTape (k :: ZERO :: l) (DST :: rt)).
Hypothesis write1 : forall l k x rt,
  steps T (w1, mkTape l (DST :: k :: x :: rt))
          (q_back, mkTape (k :: ONE :: l) (DST :: rt)).
Hypothesis B_back : has_block T q_back
  (act_move_if2 SRC 0 q_nextbit START 0 rej (-1) q_back).
Hypothesis B_clean : has_block T q_clean
  (act_move_if2 DST 0 q_fin END 0 rej 1 q_clean).
Hypothesis B_fin : has_block T q_fin (act_write BLANK 0 r).

Lemma copy_scratch_loop_right : forall w ks xs tM L D,
  all_bits w = true ->
  List.length ks = List.length w -> List.length xs = List.length w ->
  avoid [SRC; DST; START; END] ks = true ->
  is_bit (hd BLANK tM) = false -> tM <> [] ->
  avoid [SRC; DST; START; END] tM = true ->
  steps T
    (q_nextbit, mkTape L (SRC :: spread_after w ++ tM ++
                            DST :: interleaved ks xs ++ D))
    (r, mkTape (rev (spread w ++ [BLANK] ++ tM ++ interleaved w ks) ++ L)
               (BLANK :: D)).
Proof.
  induction w as [|b w IH]; intros ks xs tM L D Hw Hk Hx Hks Ht Hne HM.
  - destruct ks; [|discriminate].
    cbn [spread_after spread flat_map interleaved app].
    step_block.
    destruct tM as [|t M]; [congruence|]. cbn [hd] in Ht.
    change ((t :: M) ++ DST :: D) with (t :: M ++ DST :: D).
    step_block.
    assert (E : act_move_if2 ZERO 1 q0 ONE 1 q1 0 q_clean t = (t, 0, q_clean))
      by (destruct t; try discriminate; reflexivity).
    unfold act_move_if2 in E. rewrite E.
    cbn [read write move left right hd tl Z.eqb Pos.eqb].
    eapply steps_trans.
    + apply (find_right_yes T q_clean DST q_fin rej (t :: M) (BLANK :: L) D).
      * exact B_clean.
      * revert HM. apply avoid_weaken. simpl. tauto.
    + step_block. rewrite app_nil_r.
      apply steps_eq. f_equal. f_equal.
      cbn [rev app]. rewrite <- !app_assoc. reflexivity.
  - destruct ks as [|k ks]; [discriminate|].
    destruct xs as [|x xs]; [discriminate|].
    cbn [List.length] in Hk, Hx.
    apply all_bits_cons in Hw. destruct Hw as [Hb Hw].
    rewrite avoid_cons_eq in Hks. apply andb_true_iff in Hks.
    destruct Hks as [Hk1 Hks].
    assert (Hsrc : forall bad, avoid bad [BLANK; ZERO; ONE] = true ->
                     avoid bad (spread_after w) = true)
      by (intros; apply avoid_spread_after; assumption).
    assert (Hscan : avoid [DST; END] (spread_after w ++ tM) = true).
    { rewrite avoid_app, Hsrc by reflexivity.
      revert HM. apply avoid_weaken. simpl. tauto. }
    assert (HM' : avoid [SRC; DST; START; END] (tM ++ [b; k]) = true).
    { rewrite avoid_app, HM, (avoid_cons_eq _ b [k]), Hk1.
      destruct Hb as [-> | ->]; reflexivity. }
    assert (Ht' : is_bit (hd BLANK (tM ++ [b; k])) = false)
      by (destruct tM; [congruence | exact Ht]).
    assert (Hne' : tM ++ [b; k] <> [])
      by (destruct tM; [congruence | discriminate]).
    assert (Hbackscan : avoid [SRC; START]
                          (DST :: k :: b :: rev (spread_after w ++ tM))
                        = true).
    { change (DST :: k :: b :: rev (spread_after w ++ tM))
        with ([DST] ++ [k] ++ [b] ++ rev (spread_after w ++ tM)).
      rewrite !avoid_app, !avoid_rev, avoid_app, Hsrc by reflexivity.
      replace (avoid [SRC; START] [k]) with true
        by (symmetry; revert Hk1; apply avoid_weaken; simpl; tauto).
      replace (avoid [SRC; START] tM) with true
        by (symmetry; revert HM; apply avoid_weaken; simpl; tauto).
      destruct Hb as [-> | ->]; reflexivity. }
    specialize (IH ks xs (tM ++ [b; k]) (b :: BLANK :: L) D Hw
                  ltac:(lia) ltac:(lia) Hks Ht' Hne' HM').
    replace (rev (spread w ++ [BLANK] ++ (tM ++ [b; k]) ++ interleaved w ks)
               ++ b :: BLANK :: L)
      with (rev (spread (b :: w) ++ [BLANK] ++ tM ++
                   interleaved (b :: w) (k :: ks)) ++ L)
      in IH.
    2:{ unfold spread. cbn [flat_map interleaved]. list_norm. reflexivity. }
    change (spread_after (b :: w)) with (b :: BLANK :: spread_after w).
    change ((b :: BLANK :: spread_after w) ++ tM ++
              DST :: interleaved (k :: ks) (x :: xs) ++ D)
      with (b :: BLANK :: spread_after w ++ tM ++
              DST :: k :: x :: interleaved ks xs ++ D).
    rewrite (app_assoc (spread_after w) tM).
    repeat rewrite <- app_assoc in IH. cbn [app] in IH.
    step_block.
    destruct Hb as [-> | ->]; step_block; step_block.
    + eapply steps_trans.
      { apply (find_right_yes T f0 DST w0 rej (spread_after w ++ tM)
                 (SRC :: ZERO :: BLANK :: L)
                 (k :: x :: interleaved ks xs ++ D) B_f0 Hscan). }
      eapply steps_trans; [apply write0|].
      steps_via (find_left_yes T q_back SRC q_nextbit rej
                   (k :: ZERO :: rev (spread_after w ++ tM))
                   DST (ZERO :: BLANK :: L)
                   (interleaved ks xs ++ D) B_back Hbackscan).
      steps_by IH.
    + eapply steps_trans.
      { apply (find_right_yes T f1 DST w1 rej (spread_after w ++ tM)
                 (SRC :: ONE :: BLANK :: L)
                 (k :: x :: interleaved ks xs ++ D) B_f1 Hscan). }
      eapply steps_trans; [apply write1|].
      steps_via (find_left_yes T q_back SRC q_nextbit rej
                   (k :: ONE :: rev (spread_after w ++ tM))
                   DST (ONE :: BLANK :: L)
                   (interleaved ks xs ++ D) B_back Hbackscan).
      steps_by IH.
Qed.
End CopyScratchRight.

Section CopyScratchLeft.
Variables (T : list transition).
Variables (q_nextbit q_read q0 q1 q_clean q_back f0 f1 w0 w1 q_fin r rej : Z).

Hypothesis B_next : has_block T q_nextbit (act_write BLANK 1 q_read).
Hypothesis B_read : has_block T q_read
  (act_move_if2 ZERO 1 q0 ONE 1 q1 0 q_clean).
Hypothesis B_q0 : has_block T q0 (act_write SRC 1 f0).
Hypothesis B_q1 : has_block T q1 (act_write SRC 1 f1).
Hypothesis B_f0 : has_block T f0 (act_move_if2 DST 0 w0 START 0 rej (-1) f0).
Hypothesis B_f1 : has_block T f1 (act_move_if2 DST 0 w1 START 0 rej (-1) f1).
Hypothesis write0 : forall l k x rt,
  steps T (w0, mkTape l (DST :: k :: x :: rt))
          (q_back, mkTape (k :: ZERO :: l) (DST :: rt)).
Hypothesis write1 : forall l k x rt,
  steps T (w1, mkTape l (DST :: k :: x :: rt))
          (q_back, mkTape (k :: ONE :: l) (DST :: rt)).
Hypothesis B_back : has_block T q_back
  (act_move_if2 SRC 0 q_nextbit END 0 rej 1 q_back).
Hypothesis B_clean : has_block T q_clean
  (act_move_if2 DST 0 q_fin START 0 rej (-1) q_clean).
Hypothesis B_fin : has_block T q_fin (act_write BLANK 0 r).

Lemma avoid_interleaved bad : forall ks xs,
  avoid bad ks = true -> avoid bad xs = true ->
  avoid bad (interleaved ks xs) = true.
Proof.
  induction ks as [|k ks IH]; intros [|x xs] Hk Hx; try reflexivity.
  cbn [interleaved].
  rewrite avoid_cons_eq in Hk, Hx.
  apply andb_true_iff in Hk. apply andb_true_iff in Hx.
  destruct Hk as [Hk1 Hk]. destruct Hx as [Hx1 Hx].
  rewrite avoid_cons_eq, Hk1, avoid_cons_eq, Hx1, (IH xs Hk Hx).
  reflexivity.
Qed.

Lemma copy_scratch_loop_left : forall w ks xs Mx Lw t R,
  all_bits w = true ->
  List.length ks = List.length w -> List.length xs = List.length w ->
  is_bit t = false -> avoid [DST; START] [t] = true ->
  avoid [SRC; DST; START; END] Mx = true ->
  avoid [SRC; DST; START; END] ks = true ->
  avoid [SRC; DST; START; END] xs = true ->
  steps T
    (q_nextbit, mkTape (rev Mx ++ rev (interleaved ks xs) ++ DST :: Lw)
                       (SRC :: spread_after w ++ t :: R))
    (r, mkTape (rev (interleaved w ks) ++ Lw)
               (BLANK :: Mx ++ spread w ++ BLANK :: t :: R)).
Proof.
  induction w as [|b w IH];
    intros ks xs Mx Lw t R Hw Hk Hx Ht Ht' HM Hks Hxs.
  - destruct ks; [|discriminate].
    cbn [spread_after spread flat_map interleaved app rev].
    step_block. step_block.
    assert (E : act_move_if2 ZERO 1 q0 ONE 1 q1 0 q_clean t = (t, 0, q_clean))
      by (destruct t; try discriminate; reflexivity).
    unfold act_move_if2 in E. rewrite E.
    cbn [read write move left right hd tl Z.eqb Pos.eqb].
    assert (Hscan : avoid [DST; START] (t :: BLANK :: rev Mx) = true).
    { change (t :: BLANK :: rev Mx) with ([t] ++ [BLANK] ++ rev Mx).
      rewrite !avoid_app, avoid_rev, Ht'.
      replace (avoid [DST; START] Mx) with true
        by (symmetry; revert HM; apply avoid_weaken; simpl; tauto).
      reflexivity. }
    steps_via (find_left_yes T q_clean DST q_fin rej (BLANK :: rev Mx) t
                 Lw R B_clean Hscan).
    step_block. apply steps_eq. f_equal. f_equal. list_norm. reflexivity.
  - destruct ks as [|k ks]; [discriminate|].
    destruct xs as [|x xs]; [discriminate|].
    cbn [List.length] in Hk, Hx.
    apply all_bits_cons in Hw. destruct Hw as [Hb Hw].
    rewrite avoid_cons_eq in Hks, Hxs.
    apply andb_true_iff in Hks. apply andb_true_iff in Hxs.
    destruct Hks as [Hk1 Hks]. destruct Hxs as [Hx1 Hxs].
    pose proof (avoid_interleaved _ ks xs Hks Hxs) as Hrem.
    assert (Hsrc : forall bad, avoid bad [BLANK; ZERO; ONE] = true ->
                     avoid bad (spread_after w) = true)
      by (intros; apply avoid_spread_after; assumption).
    assert (Hhd : exists c rest', spread_after w ++ t :: R = c :: rest' /\
                                  avoid [DST; START] [c] = true).
    { destruct w as [|b' w'].
      - exists t, R. split; [reflexivity | exact Ht'].
      - apply all_bits_cons in Hw. destruct Hw as [Hb' _].
        eexists b', _. split; [reflexivity|].
        destruct Hb' as [-> | ->]; reflexivity. }
    destruct Hhd as (c & rest' & Hrest & Hc).
    assert (Hfind : avoid [DST; START]
                      (c :: SRC :: b :: BLANK :: rev Mx ++
                         rev (k :: x :: interleaved ks xs)) = true).
    { change (c :: SRC :: b :: BLANK :: rev Mx ++
                rev (k :: x :: interleaved ks xs))
        with ([c] ++ [SRC; b; BLANK] ++ rev Mx ++
                rev ([k] ++ [x] ++ interleaved ks xs)).
      rewrite !avoid_app, !avoid_rev, !avoid_app, Hc.
      replace (avoid [DST; START] Mx) with true
        by (symmetry; revert HM; apply avoid_weaken; simpl; tauto).
      replace (avoid [DST; START] [k]) with true
        by (symmetry; revert Hk1; apply avoid_weaken; simpl; tauto).
      replace (avoid [DST; START] [x]) with true
        by (symmetry; revert Hx1; apply avoid_weaken; simpl; tauto).
      replace (avoid [DST; START] (interleaved ks xs)) with true
        by (symmetry; revert Hrem; apply avoid_weaken; simpl; tauto).
      destruct Hb as [-> | ->]; reflexivity. }
    assert (Hback : avoid [SRC; END]
                      (DST :: interleaved ks xs ++ Mx ++ [BLANK; b]) = true).
    { change (DST :: interleaved ks xs ++ Mx ++ [BLANK; b])
        with ([DST] ++ interleaved ks xs ++ Mx ++ [BLANK; b]).
      rewrite !avoid_app.
      replace (avoid [SRC; END] Mx) with true
        by (symmetry; revert HM; apply avoid_weaken; simpl; tauto).
      replace (avoid [SRC; END] (interleaved ks xs)) with true
        by (symmetry; revert Hrem; apply avoid_weaken; simpl; tauto).
      destruct Hb as [-> | ->]; reflexivity. }
    assert (HM' : avoid [SRC; DST; START; END] (Mx ++ [BLANK; b]) = true).
    { rewrite avoid_app, HM. destruct Hb as [-> | ->]; reflexivity. }
    specialize (IH ks xs (Mx ++ [BLANK; b]) (k :: b :: Lw) t R
                  Hw ltac:(lia) ltac:(lia) Ht Ht' HM' Hks Hxs).
    change (spread_after (b :: w)) with (b :: BLANK :: spread_after w).
    change ((b :: BLANK :: spread_after w) ++ t :: R)
      with (b :: BLANK :: spread_after w ++ t :: R).
    cbn [interleaved].
    rewrite Hrest in *.
    step_block.
    destruct Hb as [-> | ->]; step_block; step_block.
    + steps_via (find_left_yes T f0 DST w0 rej
                   (SRC :: ZERO :: BLANK :: rev Mx ++
                      rev (k :: x :: interleaved ks xs)) c
                   Lw rest' B_f0 Hfind).
      eapply steps_trans.
      { eapply steps_tape_eq;
          [|apply (write0 Lw k x
                     (interleaved ks xs ++ Mx ++ [BLANK; ZERO] ++
                        SRC :: c :: rest'))].
        f_equal. list_norm. reflexivity. }
      steps_via (find_right_yes T q_back SRC q_nextbit rej
                   (DST :: interleaved ks xs ++ Mx ++ [BLANK; ZERO])
                   (k :: ZERO :: Lw) (c :: rest') B_back Hback).
      steps_by IH.
    + steps_via (find_left_yes T f1 DST w1 rej
                   (SRC :: ONE :: BLANK :: rev Mx ++
                      rev (k :: x :: interleaved ks xs)) c
                   Lw rest' B_f1 Hfind).
      eapply steps_trans.
      { eapply steps_tape_eq;
          [|apply (write1 Lw k x
                     (interleaved ks xs ++ Mx ++ [BLANK; ONE] ++
                        SRC :: c :: rest'))].
        f_equal. list_norm. reflexivity. }
      steps_via (find_right_yes T q_back SRC q_nextbit rej
                   (DST :: interleaved ks xs ++ Mx ++ [BLANK; ONE])
                   (k :: ONE :: Lw) (c :: rest') B_back Hback).
      steps_by IH.
Qed.
End CopyScratchLeft.

Lemma tm_copy_to_scratch_run_right q r st a st' :
  tm_copy_to_scratch q 1 r st = Ok a st' ->
  a = r /\ q_reject st' = q_reject st /\
  forall T, sub st' T ->
    sub st T /\
    forall w ks xs x tM L D,
      all_bits w = true ->
      List.length ks = List.length w -> List.length xs = List.length w ->
      avoid [SRC; DST; START; END] ks = true ->
      is_bit (hd BLANK tM) = false -> tM <> [] ->
      avoid [SRC; DST; START; END] tM = true ->
      steps T
        (q, mkTape L (x :: spread_after w ++ tM ++
                        DST :: interleaved ks xs ++ D))
        (r, mkTape (rev (spread w ++ [BLANK] ++ tM ++ interleaved w ks) ++ L)
                   (BLANK :: D)).
Proof.
  intro H. unfold_gen tm_copy_to_scratch H. unfold_gen tm_copy_helper H.
  mode_simpl H.
  gen_inv H. split; [reflexivity|]. split; [reflexivity|].
  intros T HT. sub_inv HT. split; [exact HT|].
  intros w ks xs x tM L D Hw Hk Hx Hks Ht Hne HM.
  step_block.
  eapply (copy_scratch_loop_right T); try eassumption; try reflexivity.
  - intros l k x' rt. do 3 step_block. apply steps_refl.
  - intros l k x' rt. do 3 step_block. apply steps_refl.
Qed.

Lemma tm_copy_to_scratch_run_left q r st a st' :
  tm_copy_to_scratch q (-1) r st = Ok a st' ->
  a = r /\ q_reject st' = q_reject st /\
  forall T, sub st' T ->
    sub st T /\
    forall w ks xs x Mx Lw t R,
      all_bits w = true ->
      List.length ks = List.length w -> List.length xs = List.length w ->
      is_bit t = false -> avoid [DST; START] [t] = true ->
      avoid [SRC; DST; START; END] Mx = true ->
      avoid [SRC; DST; START; END] ks = true ->
      avoid [SRC; DST; START; END] xs = true ->
      steps T
        (q, mkTape (rev Mx ++ rev (interleaved ks xs) ++ DST :: Lw)
                   (x :: spread_after w ++ t :: R))
        (r, mkTape (rev (interleaved w ks) ++ Lw)
                   (BLANK :: Mx ++ spread w ++ BLANK :: t :: R)).
Proof.
  intro H. unfold_gen tm_copy_to_scratch H. unfold_gen tm_copy_helper H.
  mode_simpl H.
  gen_inv H. split; [reflexivity|]. split; [reflexivity|].
  intros T HT. sub_inv HT. split; [exact HT|].
  intros w ks xs x Mx Lw t R Hw Hk Hx Ht Ht' HM Hks Hxs.
  step_block.
  eapply (copy_scratch_loop_left T); try eassumption; try reflexivity.
  - intros l k x' rt. do 3 step_block. apply steps_refl.
  - intros l k x' rt. do 3 step_block. apply steps_refl.
Qed.

(** ** ADD and SUB between registers *)

Lemma interleaved_shift : forall ws m wd c,
  List.length ws = S (List.length wd) ->
  m :: interleaved ws (wd ++ [c]) = interleaved (m :: wd) ws ++ [c].
Proof.
  induction ws as [|s ws IH]; intros m wd c H; [discriminate|].
  destruct wd as [|m' wd].
  - destruct ws; [reflexivity | discriminate].
  - cbn [app interleaved]. cbn [List.length] in H.
    rewrite (IH m' wd c) by lia. reflexivity.
Qed.

Lemma word_bits_8_head v :
  exists m wd,
    word_bits 8 v = m :: wd /\ (m = ZERO \/ m = ONE) /\
    List.length wd = 7%nat /\ all_bits wd = true.
Proof.
  exists (bit_symbol v 7), (word_bits 7 v).
  split; [reflexivity|]. split; [apply bit_symbol_cases|].
  split; [apply word_bits_length | apply word_bits_all_bits].
Qed.

(** The cells behind a value word when another entry or an output cell
    follows. *)
Lemma entry_cells_head e :
  exists c rest,
    entry_cells e = BLANK :: c :: BLANK :: rest /\
    avoid [SRC; DST; START; END] [c] = true.
Proof.
  destruct e as [i v|i v]; destruct (spread_word_head i) as (D15 & HD & _).
  - exists REGISTER, (D15 ++ [BLANK; VALUE] ++ spread (word_bits 8 v)).
    split; [|reflexivity]. unfold entry_cells. rewrite HD. reflexivity.
  - exists ADDRESS, (D15 ++ [BLANK; VALUE] ++ spread (word_bits 8 v)).
    split; [|reflexivity]. unfold entry_cells. rewrite HD. reflexivity.
Qed.

Lemma zone_two es3 outs :
  es3 <> [] \/ outs <> [] ->
  exists c1 Zr,
    entries_cells es3 ++ [BLANK] ++ outputs_cells outs ++ [END] =
      BLANK :: c1 :: BLANK :: Zr /\
    avoid [SRC; DST; START; END] [c1] = true.
Proof.
  intro H. destruct es3 as [|e es3].
  - destruct outs as [|o outs]; [destruct H; congruence|].
    destruct (spread_word_head o) as (D15 & HD & _).
    exists OUTPUT, (D15 ++ [BLANK] ++ outputs_cells outs ++ [END]).
    split; [|reflexivity].
    cbn [entries_cells flat_map outputs_cells output_cells app].
    rewrite HD. list_norm. reflexivity.
  - destruct (entry_cells_head e) as (c & rest & He & Hc).
    exists c, (rest ++ entries_cells es3 ++ [BLANK] ++ outputs_cells outs ++
                 [END]).
    split; [|exact Hc].
    cbn [entries_cells flat_map]. fold (entries_cells es3).
    rewrite He. list_norm. reflexivity.
Qed.

Lemma dest_shape m wd c1 Zr :
  spread (m :: wd) ++ BLANK :: c1 :: BLANK :: Zr =
  BLANK :: m :: BLANK ::
    interleaved (wd ++ [c1]) (repeat BLANK (S (List.length wd))) ++ Zr.
Proof.
  change (spread (m :: wd)) with (BLANK :: m :: spread wd).
  cbn [app]. f_equal. f_equal.
  rewrite spread_blank, spread_after_interleaved.
  replace (repeat BLANK (S (List.length wd)))
    with (repeat BLANK (List.length wd) ++ [BLANK]).
  2:{ clear. induction wd as [|? wd IH]; [reflexivity|].
      cbn [List.length repeat app]. rewrite IH. reflexivity. }
  rewrite interleaved_snoc by (rewrite repeat_length; reflexivity).
  rewrite <- app_assoc. reflexivity.
Qed.

Lemma arith_reg_right_run (is_add : bool) q inst d s st a st' :
  dst inst = REG d -> src inst = REG s -> s < d ->
  translate_arith is_add q inst st = Ok a st' ->
  forall T, sub st' T ->
  forall es1 vs es2 vd es3 outs,
    reg_absent s es1 = true ->
    reg_absent d (es1 ++ RegE s vs :: es2) = true ->
    es3 <> [] \/ outs <> [] ->
    steps T
      (q, tape_at [] (wf_cells (es1 ++ RegE s vs :: es2 ++
                                  RegE d vd :: es3) outs))
      (a, tape_at [] (wf_cells
                        (es1 ++ RegE s vs :: es2 ++
                           RegE d (if is_add then vd + vs else vd - vs)
                             :: es3) outs)).
Proof.
  intros Hd Hs Hlt H. unfold_gen translate_arith H. rewrite Hd, Hs in H.
  cbn [assert_reg] in H.
  assert (Hne : (d =? s) = false) by (apply Z.eqb_neq; lia).
  assert (Hcmp : intcmp d s = 1).
  { unfold intcmp. destruct (Z.gtb_spec d s); [reflexivity|lia]. }
  apply bind_inv in H. destruct H as (d' & st0 & H1 & H).
  apply ret_inv in H1. destruct H1 as [-> ->].
  rewrite Hne, Hcmp in H. gen_inv H.
  match goal with
  | G : (if is_add then _ else _) _ = _ |- _ =>
      destruct (arith_run is_add _ _ _ _ _ G) as (-> & Hadd)
  end.
  match goal with
  | G : tm_copy_to_scratch _ _ _ _ = _ |- _ =>
      destruct (tm_copy_to_scratch_run_right _ _ _ _ _ G) as (-> & _ & Hcopy)
  end.
  match goal with
  | G : tm_find_register _ s _ _ = _ |- _ =>
      destruct (tm_find_register_run _ _ _ _ _ _ G) as (-> & _ & Hfs)
  end.
  match goal with
  | G : tm_find_register _ d _ _ = _ |- _ =>
      destruct (tm_find_register_run _ _ _ _ _ _ G) as (-> & _ & Hfd)
  end.
  intros T HT es1 vs es2 vd es3 outs Habs Habd Hnext. sub_inv HT.
  destruct (Hadd T HT) as [HT0 Hrun]. sub_inv HT0.
  destruct (Hcopy T HT0) as [HT1 Hc]. sub_inv HT1.
  destruct (Hfs T HT1) as (HT2 & Hsfound & Hsrestart & _). sub_inv HT2.
  destruct (Hfd T HT2) as (HT3 & Hdfound & Hdrestart & _).
  (* the layout *)
  destruct (zone_two es3 outs Hnext) as (c1 & Zr & HZ & Hc1).
  destruct (header_zone es2 d) as (M & HM & HMbit & HMav).
  destruct (word_bits_8_head vd) as (m7 & wd & Hwd & Hm7 & Hwdlen & Hwdbits).
  set (ws := word_bits 8 vs) in *.
  set (Ps := entries_cells es1 ++ [BLANK; REGISTER] ++
             spread (word_bits 8 s) ++ [BLANK; VALUE]) in *.
  assert (HPs : forall bad,
             avoid bad [BLANK; ZERO; ONE; VALUE; REGISTER; ADDRESS] = true ->
             avoid bad Ps = true)
    by (intros bad Hb; apply avoid_header, Hb).
  assert (Hws : forall bad, avoid bad [BLANK; ZERO; ONE] = true ->
                            avoid bad (spread ws) = true)
    by (intros; apply avoid_spread; assumption).
  assert (Hcells : forall v',
             wf_cells (es1 ++ RegE s vs :: es2 ++ RegE d v' :: es3) outs =
             START :: Ps ++ spread ws ++ BLANK :: M ++ VALUE ::
               spread (word_bits 8 v') ++ BLANK :: c1 :: BLANK :: Zr).
  { intro v'. unfold wf_cells. rewrite entries_cells_app.
    unfold entries_cells at 2. cbn [flat_map].
    fold (entries_cells (es2 ++ RegE d v' :: es3)).
    rewrite entries_cells_app.
    unfold entries_cells at 3. cbn [flat_map]. fold (entries_cells es3).
    unfold entry_cells, Ps, ws.
    transitivity (START :: entries_cells es1 ++ [BLANK; REGISTER] ++
                    spread (word_bits 8 s) ++ [BLANK; VALUE] ++
                    spread (word_bits 8 vs) ++
                    (entries_cells es2 ++ BLANK :: REGISTER ::
                       spread (word_bits 8 d) ++ BLANK ::
                       (VALUE :: spread (word_bits 8 v') ++
                          entries_cells es3 ++ [BLANK] ++
                          outputs_cells outs ++ [END]))).
    - app_norm. reflexivity.
    - rewrite HM, HZ. app_norm. reflexivity. }
  rewrite (Hcells vd), (Hcells (if is_add then vd + vs else vd - vs)).
  unfold tape_at. cbn [rev].
  (* the destination register *)
  pose proof (find_entries_found T _ _ d Hdfound Hdrestart
                (es1 ++ RegE s vs :: es2) [] [START] vd
                (BLANK :: c1 :: BLANK :: Zr) eq_refl Habd) as Hf.
  eapply steps_trans.
  { eapply steps_tape_eq; [|exact Hf].
    unfold tape_at. f_equal. rewrite entries_cells_app.
    unfold entries_cells at 2. cbn [flat_map]. fold (entries_cells es2).
    unfold entry_cells, Ps, ws. app_norm. rewrite HM. reflexivity. }
  clear Hf.
  set (Pall := Ps ++ spread ws ++ BLANK :: M ++ [VALUE]).
  assert (HPall : entries_cells (es1 ++ RegE s vs :: es2) ++
                    [BLANK; REGISTER] ++ spread (word_bits 8 d) ++
                    [BLANK; VALUE] = Pall).
  { rewrite entries_cells_app.
    unfold entries_cells at 2. cbn [flat_map]. fold (entries_cells es2).
    unfold entry_cells, Pall, Ps, ws. app_norm. rewrite HM. reflexivity. }
  assert (HPav : forall bad,
             avoid bad [BLANK; ZERO; ONE; VALUE; REGISTER; ADDRESS] = true ->
             avoid bad Pall = true).
  { intros bad Hb. rewrite <- HPall. apply avoid_header, Hb. }
  rewrite HPall, Hwd, dest_shape, Hwdlen. unfold tape_at.
  set (ks := wd ++ [c1]). set (xs := repeat BLANK 8).
  assert (Hm7av : forall bad, avoid bad [ZERO; ONE] = true ->
                              avoid bad [m7] = true).
  { intros bad Hb. apply avoid_cons in Hb. destruct Hb as [Hz Hb].
    apply avoid_cons in Hb. destruct Hb as [Ho _].
    unfold avoid. cbn [forallb]. rewrite andb_true_r.
    apply negb_true_iff. apply not_true_is_false. intro E.
    apply existsb_exists in E. destruct E as (y & Hy & E).
    destruct Hm7 as [-> | ->].
    - rewrite (Hz y Hy) in E. discriminate.
    - rewrite (Ho y Hy) in E. discriminate. }
  (* onto the scratch cell behind the first bit, marked as destination *)
  step_block. step_block. step_block.
  steps_with ltac:(eapply (rewind_run T _ _ (m7 :: BLANK :: rev Pall) DST []
                             (interleaved ks xs ++ Zr));
                   [eassumption | avoid_tac]).
  (* the source register *)
  pose proof (find_entries_found T _ _ s Hsfound Hsrestart es1 []
                [START] vs
                (BLANK :: M ++ VALUE :: BLANK :: m7 :: DST ::
                   interleaved ks xs ++ Zr) eq_refl Habs) as Hf.
  eapply steps_trans.
  { eapply steps_tape_eq; [|exact Hf].
    unfold tape_at, entry_cells, Pall, Ps. fold ws. f_equal.
    list_norm. reflexivity. }
  clear Hf.
  (* the copy into the scratch cells *)
  assert (Hkl : List.length ks = List.length ws).
  { unfold ks, ws. rewrite length_app, Hwdlen, word_bits_length.
    reflexivity. }
  assert (Hxl : List.length xs = List.length ws)
    by (unfold ws; rewrite word_bits_length; reflexivity).
  assert (Hkav : avoid [SRC; DST; START; END] ks = true).
  { unfold ks. rewrite avoid_app, Hc1, andb_true_r.
    clear - Hwdbits. induction wd as [|b wd IH]; [reflexivity|].
    apply all_bits_cons in Hwdbits. destruct Hwdbits as [Hb Hw].
    rewrite avoid_cons_eq, (IH Hw).
    destruct Hb as [-> | ->]; reflexivity. }
  assert (HtM : avoid [SRC; DST; START; END] (M ++ [VALUE; BLANK; m7]) = true).
  { rewrite avoid_app, HMav by reflexivity.
    rewrite (avoid_cons_eq _ VALUE), (avoid_cons_eq _ BLANK),
      (Hm7av [SRC; DST; START; END] eq_refl). reflexivity. }
  assert (HtMbit : is_bit (hd BLANK (M ++ [VALUE; BLANK; m7])) = false)
    by (destruct M; [reflexivity | exact HMbit]).
  assert (HtMne : M ++ [VALUE; BLANK; m7] <> [])
    by (destruct M; discriminate).
  pose proof (Hc ws ks xs BLANK (M ++ [VALUE; BLANK; m7])
                (rev (START :: Ps)) Zr
                (word_bits_all_bits 8 vs) Hkl Hxl Hkav HtMbit HtMne HtM)
    as Hcp.
  eapply steps_trans.
  { eapply steps_tape_eq; [|exact Hcp].
    unfold tape_at. f_equal. fold ws.
    rewrite <- (spread_blank ws). app_norm. reflexivity. }
  clear Hcp.
  replace (rev (spread ws ++ [BLANK] ++ (M ++ [VALUE; BLANK; m7]) ++
                  interleaved ws ks) ++ rev (START :: Ps))
    with (c1 :: rev (interleaved (m7 :: wd) ws) ++
            BLANK :: rev (START :: Pall)).
  2:{ replace ((M ++ [VALUE; BLANK; m7]) ++ interleaved ws ks)
        with ((M ++ [VALUE; BLANK]) ++ interleaved (m7 :: wd) ws ++ [c1]).
      2:{ unfold ks. rewrite <- interleaved_shift
            by (unfold ws; rewrite word_bits_length, Hwdlen; reflexivity).
          app_norm. reflexivity. }
      unfold Pall.
      repeat (rewrite ?rev_app_distr; cbn [rev app]).
      repeat rewrite <- app_assoc. cbn [app]. reflexivity. }
  (* back onto the last scratch cell, and the arithmetic *)
  step_block. step_block.
  eapply steps_trans.
  { eapply steps_tape_eq;
      [|apply (Hrun vd vs BLANK (rev (START :: Pall))
                 (c1 :: BLANK :: Zr) eq_refl)].
    rewrite Hwd. fold ws. unfold tape_of. reflexivity. }
  (* back to the start *)
  steps_with ltac:(eapply (rewind_run T _ _ (rev Pall) BLANK []
                     (tl (spread (word_bits 8
                                    (if is_add then vd + vs else vd - vs)))
                        ++ BLANK :: c1 :: BLANK :: Zr));
                   [eassumption | avoid_tac]).
  apply steps_eq. rewrite rev_involutive. unfold Pall.
  f_equal. f_equal. f_equal. app_norm. reflexivity.
Qed.

Lemma avoid_single bad xs x :
  avoid bad xs = true -> In x xs -> avoid bad [x] = true.
Proof.
  unfold avoid. intros H Hin. cbn [forallb]. rewrite andb_true_r.
  rewrite forallb_forall in H. exact (H x Hin).
Qed.

Lemma header_zone2 es2 s :
  exists c1 M,
    (forall X, entries_cells es2 ++ BLANK :: REGISTER ::
                 spread (word_bits 8 s) ++ BLANK :: X =
               BLANK :: c1 :: BLANK :: M ++ X) /\
    avoid [SRC; DST; START; END] [c1] = true /\
    forall bad,
      avoid bad [BLANK; ZERO; ONE; VALUE; REGISTER; ADDRESS] = true ->
      avoid bad M = true.
Proof.
  destruct (spread_word_head s) as (D15 & HD & _ & HDav).
  assert (H3 : forall bad,
             avoid bad [BLANK; ZERO; ONE; VALUE; REGISTER; ADDRESS] = true ->
             avoid bad [BLANK; ZERO; ONE] = true).
  { intros bad Hb.
    change [BLANK; ZERO; ONE; VALUE; REGISTER; ADDRESS]
      with ([BLANK; ZERO; ONE] ++ [VALUE; REGISTER; ADDRESS]) in Hb.
    rewrite avoid_app in Hb. apply andb_true_iff in Hb. tauto. }
  destruct es2 as [|e es2].
  - exists REGISTER, (D15 ++ [BLANK]). split; [|split; [reflexivity|]].
    + intro X. cbn [entries_cells flat_map app]. rewrite HD.
      app_norm. reflexivity.
    + intros bad Hb. rewrite avoid_app, (HDav bad (H3 bad Hb)).
      apply (avoid_single bad _ BLANK Hb). simpl. tauto.
  - destruct (entry_cells_head e) as (c & rest & He & Hc).
    exists c, (rest ++ entries_cells es2 ++ BLANK :: REGISTER ::
                 spread (word_bits 8 s) ++ [BLANK]).
    split; [|split; [exact Hc|]].
    + intro X. cbn [entries_cells flat_map]. fold (entries_cells es2).
      rewrite He. app_norm. reflexivity.
    + intros bad Hb.
      pose proof (avoid_entries bad [e] Hb) as He'.
      cbn [entries_cells flat_map] in He'. rewrite app_nil_r, He in He'.
      apply avoid_cons in He'. destruct He' as [_ He'].
      apply avoid_cons in He'. destruct He' as [_ He'].
      apply avoid_cons in He'. destruct He' as [_ Hrest].
      assert (Hbl : avoid bad [BLANK] = true)
        by (apply (avoid_single bad _ BLANK Hb); simpl; tauto).
      rewrite avoid_app, Hrest, avoid_app, (avoid_entries bad es2 Hb).
      rewrite (avoid_cons_eq _ BLANK), Hbl, (avoid_cons_eq _ REGISTER).
      rewrite (avoid_single bad _ REGISTER Hb) by (simpl; tauto).
      rewrite avoid_app, (avoid_spread bad 8 s (H3 bad Hb)), Hbl.
      reflexivity.
Qed.

Lemma avoid_bits bad w :
  avoid bad [ZERO; ONE] = true -> all_bits w = true -> avoid bad w = true.
Proof.
  intros Hb Hw. induction w as [|b w IH]; [reflexivity|].
  apply all_bits_cons in Hw. destruct Hw as [Hb1 Hw].
  rewrite avoid_cons_eq, (IH Hw), andb_true_r.
  apply (avoid_single bad _ b Hb). destruct Hb1 as [-> | ->]; simpl; tauto.
Qed.

Lemma avoid_spread_bits bad w :
  avoid bad [BLANK; ZERO; ONE] = true -> all_bits w = true ->
  avoid bad (spread w) = true.
Proof.
  intros Hb Hw. induction w as [|b w IH]; [reflexivity|].
  apply all_bits_cons in Hw. destruct Hw as [Hb1 Hw].
  change (spread (b :: w)) with ([BLANK] ++ [b] ++ spread w).
  rewrite !avoid_app, (IH Hw), andb_true_r.
  rewrite (avoid_single bad _ BLANK Hb) by (simpl; tauto).
  apply (avoid_single bad _ b Hb). destruct Hb1 as [-> | ->]; simpl; tauto.
Qed.

(** The value word of the destination behind its first bit, seen as bits
    with a scratch cell behind each. *)
Lemma dest_tail wd c1 :
  wd <> [] -> all_bits wd = true ->
  exists D,
    avoid [REGISTER; END] D = true /\
    forall Z, D ++ BLANK :: c1 :: BLANK :: Z =
              interleaved (wd ++ [c1]) (repeat BLANK (S (List.length wd)))
                ++ Z.
Proof.
  intros Hne Hw. exists (tl (spread wd)). split.
  - destruct wd as [|m wd]; [congruence|].
    pose proof (avoid_spread_bits [REGISTER; END] (m :: wd) eq_refl Hw) as H.
    change (spread (m :: wd)) with (BLANK :: m :: spread wd) in H.
    apply avoid_cons in H. destruct H as [_ H]. exact H.
  - intro Z. destruct wd as [|m wd]; [congruence|].
    pose proof (dest_shape m wd c1 Z) as E.
    change (spread (m :: wd)) with (BLANK :: m :: spread wd) in *.
    cbn [app] in E. injection E as E.
    cbn [tl app List.length repeat interleaved]. f_equal. exact E.
Qed.

Lemma arith_reg_left_run (is_add : bool) q inst d s st a st' :
  dst inst = REG d -> src inst = REG s -> d < s ->
  translate_arith is_add q inst st = Ok a st' ->
  forall T, sub st' T ->
  forall es1 vd es2 vs es3 outs,
    reg_absent d es1 = true ->
    reg_absent s es1 = true -> d mod 256 <> s mod 256 ->
    reg_absent s es2 = true ->
    steps T
      (q, tape_at [] (wf_cells (es1 ++ RegE d vd :: es2 ++
                                  RegE s vs :: es3) outs))
      (a, tape_at [] (wf_cells
                        (es1 ++ RegE d (if is_add then vd + vs else vd - vs)
                             :: es2 ++ RegE s vs :: es3) outs)).
Proof.
  intros Hd Hs Hlt H. unfold_gen translate_arith H. rewrite Hd, Hs in H.
  cbn [assert_reg] in H.
  assert (Hne : (d =? s) = false) by (apply Z.eqb_neq; lia).
  assert (Hcmp : intcmp d s = -1).
  { unfold intcmp. destruct (Z.gtb_spec d s); [lia|].
    destruct (Z.ltb_spec d s); [reflexivity|lia]. }
  apply bind_inv in H. destruct H as (d' & st0 & H1 & H).
  apply ret_inv in H1. destruct H1 as [-> ->].
  rewrite Hne, Hcmp in H. gen_inv H.
  match goal with
  | G : (if is_add then _ else _) _ = _ |- _ =>
      destruct (arith_run is_add _ _ _ _ _ G) as (-> & Hadd)
  end.
  match goal with
  | G : tm_copy_to_scratch _ _ _ _ = _ |- _ =>
      destruct (tm_copy_to_scratch_run_left _ _ _ _ _ G) as (-> & _ & Hcopy)
  end.
  match goal with
  | G : tm_find_register _ s _ _ = _ |- _ =>
      destruct (tm_find_register_run _ _ _ _ _ _ G) as (-> & _ & Hfs)
  end.
  match goal with
  | G : tm_find_register _ d _ _ = _ |- _ =>
      destruct (tm_find_register_run _ _ _ _ _ _ G) as (-> & _ & Hfd)
  end.
  intros T HT es1 vd es2 vs es3 outs Habd Habs Hds Habs2. sub_inv HT.
  destruct (Hadd T HT) as [HT0 Hrun]. sub_inv HT0.
  destruct (Hcopy T HT0) as [HT1 Hc]. sub_inv HT1.
  destruct (Hfs T HT1) as (HT2 & Hsfound & Hsrestart & _). sub_inv HT2.
  destruct (Hfd T HT2) as (HT3 & Hdfound & Hdrestart & _).
  (* the layout *)
  destruct (zone_shape es3 outs) as (Z3 & HZ3 & HZ3bit & HZ3av).
  destruct (zone_tail Z3 HZ3bit HZ3av) as (t & R & HtR & Htbit & Htav).
  destruct (header_zone2 es2 s) as (c1 & M & HM & Hc1 & HMav).
  destruct (word_bits_8_head vd) as (m7 & wd & Hwd & Hm7 & Hwdlen & Hwdbits).
  set (ws := word_bits 8 vs) in *.
  set (Pd := entries_cells es1 ++ [BLANK; REGISTER] ++
             spread (word_bits 8 d) ++ [BLANK; VALUE]) in *.
  assert (HPd : forall bad,
             avoid bad [BLANK; ZERO; ONE; VALUE; REGISTER; ADDRESS] = true ->
             avoid bad Pd = true)
    by (intros bad Hb; apply avoid_header, Hb).
  assert (Hws : forall bad, avoid bad [BLANK; ZERO; ONE] = true ->
                            avoid bad (spread ws) = true)
    by (intros; apply avoid_spread; assumption).
  assert (Hcells : forall v',
             wf_cells (es1 ++ RegE d v' :: es2 ++ RegE s vs :: es3) outs =
             START :: Pd ++ spread (word_bits 8 v') ++
               BLANK :: c1 :: BLANK :: M ++ VALUE ::
               spread ws ++ BLANK :: t :: R).
  { intro v'. unfold wf_cells. rewrite entries_cells_app.
    unfold entries_cells at 2. cbn [flat_map].
    fold (entries_cells (es2 ++ RegE s vs :: es3)).
    rewrite entries_cells_app.
    unfold entries_cells at 3. cbn [flat_map]. fold (entries_cells es3).
    unfold entry_cells, Pd, ws.
    transitivity (START :: entries_cells es1 ++ [BLANK; REGISTER] ++
                    spread (word_bits 8 d) ++ [BLANK; VALUE] ++
                    spread (word_bits 8 v') ++
                    (entries_cells es2 ++ BLANK :: REGISTER ::
                       spread (word_bits 8 s) ++ BLANK ::
                       (VALUE :: spread (word_bits 8 vs) ++
                          (entries_cells es3 ++ [BLANK] ++
                             outputs_cells outs) ++ [END]))).
    - app_norm. reflexivity.
    - rewrite HM, HZ3. cbn [app]. rewrite HtR. app_norm. reflexivity. }
  rewrite (Hcells vd), (Hcells (if is_add then vd + vs else vd - vs)).
  unfold tape_at. cbn [rev].
  set (Zr := M ++ VALUE :: spread ws ++ BLANK :: t :: R).
  set (ks := wd ++ [c1]). set (xs := repeat BLANK 8).
  assert (Hshape : spread (word_bits 8 vd) ++ BLANK :: c1 :: BLANK :: Zr =
                   BLANK :: m7 :: BLANK :: interleaved ks xs ++ Zr).
  { rewrite Hwd, dest_shape, Hwdlen. reflexivity. }
  (* the destination register *)
  pose proof (find_entries_found T _ _ d Hdfound Hdrestart es1 []
                [START] vd (BLANK :: c1 :: BLANK :: Zr) eq_refl Habd) as Hf.
  eapply steps_trans.
  { eapply steps_tape_eq; [|exact Hf].
    unfold tape_at, entry_cells, Pd, Zr. f_equal. app_norm. reflexivity. }
  clear Hf. rewrite Hshape. unfold tape_at.
  replace ([] ++ [START] ++ entries_cells es1 ++ [BLANK; REGISTER] ++
             spread (word_bits 8 d) ++ [BLANK; VALUE])
    with (START :: Pd) by reflexivity.
  assert (Hm7av : forall bad, avoid bad [ZERO; ONE] = true ->
                              avoid bad [m7] = true).
  { intros bad Hb. apply (avoid_single bad _ m7 Hb).
    destruct Hm7 as [-> | ->]; simpl; tauto. }
  (* onto the scratch cell behind the first bit, marked as destination *)
  step_block. step_block. step_block.
  steps_with ltac:(eapply (rewind_run T _ _ (m7 :: BLANK :: rev Pd) DST []
                             (interleaved ks xs ++ Zr));
                   [eassumption | avoid_tac]).
  (* the source register, past the marked destination *)
  destruct (dest_tail wd c1) as (D13 & HD13av & HD13);
    [intro E; rewrite E in Hwdlen; discriminate | exact Hwdbits |].
  rewrite Hwdlen in HD13. fold ks xs in HD13.
  assert (HX : avoid [REGISTER; END]
                 ([BLANK; VALUE] ++ BLANK :: m7 :: DST :: D13) = true).
  { change ([BLANK; VALUE] ++ BLANK :: m7 :: DST :: D13)
      with ([BLANK; VALUE; BLANK] ++ [m7] ++ [DST] ++ D13).
    rewrite !avoid_app, (Hm7av [REGISTER; END] eq_refl), HD13av.
    reflexivity. }
  pose proof (find_entries_past T _ _ s Hsfound Hsrestart es1 [] [START] d
                ([BLANK; VALUE] ++ BLANK :: m7 :: DST :: D13)
                eq_refl Habs Hds HX es2 vs (BLANK :: t :: R) Habs2) as Hf.
  assert (Hbig : [START] ++ entries_cells es1 ++ [BLANK; REGISTER] ++
                   spread (word_bits 8 d) ++
                   ([BLANK; VALUE] ++ BLANK :: m7 :: DST :: D13) ++
                   entries_cells es2 ++ [BLANK; REGISTER] ++
                   spread (word_bits 8 s) ++ [BLANK; VALUE] =
                 (START :: Pd) ++ BLANK :: m7 :: DST ::
                   interleaved ks xs ++ M ++ [VALUE]).
  { unfold Pd. app_norm. rewrite HM, HD13. reflexivity. }
  eapply steps_trans.
  { eapply steps_tape_eq; [|exact Hf].
    unfold tape_at. f_equal.
    repeat (rewrite ?rev_app_distr, ?rev_involutive; cbn [rev app]).
    unfold entry_cells. fold ws. unfold Pd, Zr. app_norm.
    rewrite HM, HD13. reflexivity. }
  clear Hf. unfold tape_at. cbn [app]. cbn [app] in Hbig. rewrite Hbig.
  (* the copy into the scratch cells *)
  assert (Hkl : List.length ks = List.length ws).
  { unfold ks, ws. rewrite length_app, Hwdlen, word_bits_length.
    reflexivity. }
  assert (Hxl : List.length xs = List.length ws)
    by (unfold ws; rewrite word_bits_length; reflexivity).
  assert (Hkav : avoid [SRC; DST; START; END] ks = true).
  { unfold ks. rewrite avoid_app, Hc1, andb_true_r.
    apply avoid_bits; [reflexivity | exact Hwdbits]. }
  assert (HMx : avoid [SRC; DST; START; END] (M ++ [VALUE]) = true)
    by (rewrite avoid_app, HMav by reflexivity; reflexivity).
  pose proof (Hc ws ks xs BLANK (M ++ [VALUE])
                (m7 :: BLANK :: rev (START :: Pd)) t R
                (word_bits_all_bits 8 vs) Hkl Hxl Htbit Htav HMx Hkav
                eq_refl) as Hcp.
  eapply steps_trans.
  { eapply steps_tape_eq; [|exact Hcp].
    f_equal.
    repeat (rewrite ?rev_app_distr; cbn [rev app]).
    repeat rewrite <- app_assoc. cbn [app]. reflexivity. }
  clear Hcp.
  replace (rev (interleaved ws ks) ++ m7 :: BLANK :: rev (START :: Pd))
    with (c1 :: rev (interleaved (m7 :: wd) ws) ++
            BLANK :: rev (START :: Pd)).
  2:{ transitivity (rev (m7 :: interleaved ws ks) ++
                      BLANK :: rev (START :: Pd)).
      - unfold ks. rewrite (interleaved_shift ws m7 wd c1)
          by (unfold ws; rewrite word_bits_length, Hwdlen; reflexivity).
        rewrite rev_app_distr. reflexivity.
      - cbn [rev]. repeat rewrite <- app_assoc. reflexivity. }
  (* back onto the last scratch cell, and the arithmetic *)
  step_block. step_block.
  eapply steps_trans.
  { eapply steps_tape_eq;
      [|apply (Hrun vd vs BLANK (rev (START :: Pd))
                 (c1 :: BLANK :: (M ++ [VALUE]) ++ spread ws ++
                    BLANK :: t :: R) eq_refl)].
    rewrite Hwd. fold ws. unfold tape_of. reflexivity. }
  (* back to the start *)
  steps_with ltac:(eapply (rewind_run T _ _ (rev Pd) BLANK []
                     (tl (spread (word_bits 8
                                    (if is_add then vd + vs else vd - vs)))
                        ++ BLANK :: c1 :: BLANK :: (M ++ [VALUE]) ++
                        spread ws ++ BLANK :: t :: R));
                   [eassumption | avoid_tac]).
  apply steps_eq. rewrite rev_involutive. unfold Zr.
  f_equal. f_equal. f_equal. app_norm. reflexivity.
Qed.

Lemma wf_cells_reg2_mod es1 e es2 d x es3 outs :
  wf_cells (es1 ++ e :: es2 ++ RegE d (x mod 256) :: es3) outs =
  wf_cells (es1 ++ e :: es2 ++ RegE d x :: es3) outs.
Proof.
  replace (es1 ++ e :: es2 ++ RegE d (x mod 256) :: es3)
    with ((es1 ++ e :: es2) ++ RegE d (x mod 256) :: es3)
    by (rewrite <- app_assoc; reflexivity).
  replace (es1 ++ e :: es2 ++ RegE d x :: es3)
    with ((es1 ++ e :: es2) ++ RegE d x :: es3)
    by (rewrite <- app_assoc; reflexivity).
  apply wf_cells_reg_mod.
Qed.

(** X12 (ADD and SUB between registers): for [ADD REG d, REG s] and
    [SUB REG d, REG s] with [d <> s] the translator never aborts, and its
    machine, started on the start sentinel of a well-formed tape, comes back
    to the start sentinel in the returned state with the entry of [d]
    holding [(vd + vs) mod 256], respectively [(vd - vs) mod 256], and every
    other cell as before, the entry of [s] included.  The entry of the
    register with the smaller number has to stand left of the other one;
    when the destination is the right one, it must not be the last thing on
    the tape: another entry or an output cell has to follow it, because the
    copy into the scratch cells sets its marker two cells behind the
    word. *)
Theorem arith_register_wraps : forall q inst d s st,
  (op inst = ADD \/ op inst = SUB) ->
  dst inst = REG d -> src inst = REG s -> d <> s ->
  exists a st',
    translate_inst q inst st = Ok a st' /\
    forall T, sub st' T ->
      (forall es1 vs es2 vd es3 outs,
          s < d -> reg_absent s es1 = true ->
          reg_absent d (es1 ++ RegE s vs :: es2) = true ->
          es3 <> [] \/ outs <> [] ->
          steps T
            (q, tape_at [] (wf_cells (es1 ++ RegE s vs :: es2 ++
                                        RegE d vd :: es3) outs))
            (a, tape_at [] (wf_cells
                  (es1 ++ RegE s vs :: es2 ++
                     RegE d (match op inst with
                             | ADD => (vd + vs) mod 256
                             | _ => (vd - vs) mod 256
                             end) :: es3) outs))) /\
      (forall es1 vd es2 vs es3 outs,
          d < s -> reg_absent d es1 = true ->
          reg_absent s (es1 ++ RegE d vd :: es2) = true ->
          steps T
            (q, tape_at [] (wf_cells (es1 ++ RegE d vd :: es2 ++
                                        RegE s vs :: es3) outs))
            (a, tape_at [] (wf_cells
                  (es1 ++ RegE d (match op inst with
                                  | ADD => (vd + vs) mod 256
                                  | _ => (vd - vs) mod 256
                                  end) :: es2 ++ RegE s vs :: es3) outs))).
Proof.
  intros q inst d s st Hop Hd Hs Hds.
  assert (Hsrc : src inst <> TMP) by (rewrite Hs; discriminate).
  assert (Hne : forall s', src inst = REG s' -> d <> s').
  { intros s' E. rewrite Hs in E. injection E as <-. exact Hds. }
  destruct (translate_inst_arith q inst) as [Eadd Esub].
  assert (Hgen : exists is_add : bool,
             translate_inst q inst = translate_arith is_add q inst /\
             forall x y, match op inst with
                         | ADD => (x + y) mod 256
                         | _ => (x - y) mod 256
                         end = (if is_add then x + y else x - y) mod 256).
  { destruct Hop as [Hop | Hop].
    - exists true. split; [exact (Eadd Hop)|]. rewrite Hop. reflexivity.
    - exists false. split; [exact (Esub Hop)|]. rewrite Hop. reflexivity. }
  destruct Hgen as (is_add & Egen & Eop). rewrite Egen.
  destruct (is_ok_inv _ st
              (succeeds_translate_arith is_add q inst d Hd Hne Hsrc st))
    as (a & st' & H).
  exists a, st'. split; [exact H|].
  intros T HT. split.
  - intros es1 vs es2 vd es3 outs Hlt Habs Habd Hnext.
    rewrite Eop, wf_cells_reg2_mod.
    exact (arith_reg_right_run is_add q inst d s st a st' Hd Hs Hlt H T HT
             es1 vs es2 vd es3 outs Habs Habd Hnext).
  - intros es1 vd es2 vs es3 outs Hlt Habd Habs.
    rewrite reg_absent_app, reg_absent_cons in Habs.
    apply andb_true_iff in Habs. destruct Habs as [Habs1 Habs].
    apply andb_true_iff in Habs. destruct Habs as [Hne' Habs2].
    apply negb_true_iff, Z.eqb_neq in Hne'.
    rewrite Eop, wf_cells_reg_mod.
    exact (arith_reg_left_run is_add q inst d s st a st' Hd Hs Hlt H T HT
             es1 vd es2 vs es3 outs Habd Habs1 Hne' Habs2).
Qed.

Lemma arith_register_wraps_witness :
  (exists a st',
     translate_inst 0 (mkInst ADD 0 (REG 2) (REG 0) TMP) (mkG 1 1 []) =
       Ok a st' /\
     steps (emitted st')
       (0, tape_at [] (wf_cells ([] ++ RegE 0 200 :: [RegE 1 9] ++
                                   RegE 2 100 :: []) [65]))
       (a, tape_at [] (wf_cells ([] ++ RegE 0 200 :: [RegE 1 9] ++
                                   RegE 2 44 :: []) [65]))) /\
  (exists a st',
     translate_inst 0 (mkInst SUB 0 (REG 0) (REG 2) TMP) (mkG 1 1 []) =
       Ok a st' /\
     steps (emitted st')
       (0, tape_at [] (wf_cells ([] ++ RegE 0 3 :: [RegE 1 9] ++
                                   RegE 2 5 :: []) []))
       (a, tape_at [] (wf_cells ([] ++ RegE 0 254 :: [RegE 1 9] ++
                                   RegE 2 5 :: []) []))).
Proof.
  split.
  - destruct (arith_register_wraps 0 (mkInst ADD 0 (REG 2) (REG 0) TMP) 2 0
                (mkG 1 1 []) (or_introl eq_refl) eq_refl eq_refl
                ltac:(lia))
      as (a & st' & H & Hrun).
    exists a, st'. split; [exact H|].
    destruct (Hrun (emitted st') (incl_refl _)) as [Hright _].
    apply (Hright [] 200 [RegE 1 9] 100 [] [65]);
      [lia | reflexivity | reflexivity | right; discriminate].
  - destruct (arith_register_wraps 0 (mkInst SUB 0 (REG 0) (REG 2) TMP) 0 2
                (mkG 1 1 []) (or_intror eq_refl) eq_refl eq_refl
                ltac:(lia))
      as (a & st' & H & Hrun).
    exists a, st'. split; [exact H|].
    destruct (Hrun (emitted st') (incl_refl _)) as [_ Hleft].
    apply (Hleft [] 3 [RegE 1 9] 5 [] []); [lia | reflexivity | reflexivity].
Defined.

(** X15 (copying into scratch cells): the machine of
    [tm_copy_to_scratch q d r], started on the scratch cell left of a source
    word in spread layout, writes the bits of the word into every second
    cell from the destination marker on, leaves the cells in between as they
    are, restores the source word, and enters [r] on the cell two behind the
    last bit written, which it blanks.  With [d = 1] the marker stands right
    of the source, with [d = -1] left of it. *)
Theorem tm_copy_to_scratch_interleaves : forall q r st,
  (exists st',
     tm_copy_to_scratch q 1 r st = Ok r st' /\
     forall T w ks xs x tM b D,
       sub st' T -> all_bits w = true ->
       List.length ks = List.length w -> List.length xs = List.length w ->
       avoid [SRC; DST; START; END] ks = true ->
       is_bit (hd BLANK tM) = false -> tM <> [] ->
       avoid [SRC; DST; START; END] tM = true ->
       steps T
         (q, tape_at b (x :: spread_after w ++ tM ++
                          DST :: interleaved ks xs ++ D))
         (r, tape_at (b ++ spread w ++ [BLANK] ++ tM ++ interleaved w ks)
                     (BLANK :: D))) /\
  (exists st',
     tm_copy_to_scratch q (-1) r st = Ok r st' /\
     forall T w ks xs x Mx b t R,
       sub st' T -> all_bits w = true ->
       List.length ks = List.length w -> List.length xs = List.length w ->
       is_bit t = false -> avoid [DST; START] [t] = true ->
       avoid [SRC; DST; START; END] Mx = true ->
       avoid [SRC; DST; START; END] ks = true ->
       avoid [SRC; DST; START; END] xs = true ->
       steps T
         (q, tape_at (b ++ DST :: interleaved ks xs ++ Mx)
                     (x :: spread_after w ++ t :: R))
         (r, tape_at (b ++ interleaved w ks)
                     (BLANK :: Mx ++ spread w ++ BLANK :: t :: R))).
Proof.
  intros q r st.
  assert (Hok : forall d, valid_dir d = true ->
                  succeeds (tm_copy_to_scratch q d r)).
  { intros d Hd. unfold tm_copy_to_scratch. apply succeeds_tm_copy_helper.
    exact Hd. }
  split.
  - destruct (succeeds_inv _ st (Hok 1 eq_refl)) as (a & st' & H).
    destruct (tm_copy_to_scratch_run_right _ _ _ _ _ H) as (-> & _ & Hrun).
    exists st'. split; [exact H|].
    intros T w ks xs x tM b D HT Hw Hk Hx Hks Ht Hne HM.
    destruct (Hrun T HT) as [_ Hr].
    unfold tape_at.
    replace (rev (b ++ spread w ++ [BLANK] ++ tM ++ interleaved w ks))
      with (rev (spread w ++ [BLANK] ++ tM ++ interleaved w ks) ++ rev b)
      by (rewrite (rev_app_distr b); reflexivity).
    exact (Hr w ks xs x tM (rev b) D Hw Hk Hx Hks Ht Hne HM).
  - destruct (succeeds_inv _ st (Hok (-1) eq_refl)) as (a & st' & H).
    destruct (tm_copy_to_scratch_run_left _ _ _ _ _ H) as (-> & _ & Hrun).
    exists st'. split; [exact H|].
    intros T w ks xs x Mx b t R HT Hw Hk Hx Ht Ht' HM Hks Hxs.
    destruct (Hrun T HT) as [_ Hr].
    unfold tape_at.
    replace (rev (b ++ DST :: interleaved ks xs ++ Mx))
      with (rev Mx ++ rev (interleaved ks xs) ++ DST :: rev b).
    2:{ rewrite (rev_app_distr b). cbn [rev].
        rewrite (rev_app_distr (interleaved ks xs)).
        repeat rewrite <- app_assoc. reflexivity. }
    rewrite (rev_app_distr b).
    exact (Hr w ks xs x Mx (rev b) t R Hw Hk Hx Ht Ht' HM Hks Hxs).
Qed.

Lemma tm_copy_to_scratch_interleaves_witness :
  (exists st',
     tm_copy_to_scratch 3 1 4 (mkG 5 2 []) = Ok 4 st' /\
     steps (emitted st')
       (3, tape_at [START] (BLANK :: spread_after [ONE; ZERO] ++ [VALUE; ONE] ++
                              DST :: interleaved [ZERO; REGISTER]
                                       [BLANK; BLANK] ++ [END]))
       (4, tape_at ([START] ++ spread [ONE; ZERO] ++ [BLANK] ++ [VALUE; ONE] ++
                      interleaved [ONE; ZERO] [ZERO; REGISTER])
                   (BLANK :: [END]))) /\
  (exists st',
     tm_copy_to_scratch 3 (-1) 4 (mkG 5 2 []) = Ok 4 st' /\
     steps (emitted st')
       (3, tape_at ([START; ONE] ++ DST :: interleaved [ZERO; REGISTER]
                                            [BLANK; BLANK] ++ [VALUE])
                   (BLANK :: spread_after [ONE; ZERO] ++ OUTPUT :: [END]))
       (4, tape_at ([START; ONE] ++ interleaved [ONE; ZERO] [ZERO; REGISTER])
                   (BLANK :: [VALUE] ++ spread [ONE; ZERO] ++
                      BLANK :: OUTPUT :: [END]))).
Proof.
  destruct (tm_copy_to_scratch_interleaves 3 4 (mkG 5 2 []))
    as [(s1 & E1 & R1) (s2 & E2 & R2)].
  split.
  - exists s1. split; [exact E1|].
    apply (R1 (emitted s1) [ONE; ZERO] [ZERO; REGISTER] [BLANK; BLANK]
             BLANK [VALUE; ONE] [START] [END]);
      try reflexivity; [apply incl_refl | discriminate].
  - exists s2. split; [exact E2|].
    apply (R2 (emitted s2) [ONE; ZERO] [ZERO; REGISTER] [BLANK; BLANK]
             BLANK [VALUE] [START; ONE] OUTPUT [END]);
      try reflexivity; apply incl_refl.
Defined.


(* ================================================================= *)
(** * Programs without jumps *)

(** ** The entry of a register among the entries of a state *)







(** ** One instruction on the tape of a state *)



Section OnState.
Variables (T : list transition) (q a : Z) (d : Reg).



End OnState.





(** ** A whole text *)


Lemma translate_text_cons inst rest q p :
  translate_text (inst :: rest) q p =
  (q1 <- stitch q p inst ;;
   q2 <- translate_inst q1 inst ;;
   translate_text rest q2 (pc inst)).
Proof. reflexivity. Qed.




Lemma translate_text_app l1 : forall l2 q p st,
  translate_text (l1 ++ l2) q p st =
  match translate_text l1 q p st with
  | Ok qp st1 => translate_text l2 (fst qp) (snd qp) st1
  | Err msg st1 => Err msg st1
  end.
Proof.
  induction l1 as [|inst l1 IH]; intros l2 q p st; [reflexivity|].
  change ((inst :: l1) ++ l2) with (inst :: (l1 ++ l2)).
  rewrite !translate_text_cons. unfold bind.
  destruct (stitch q p inst st) as [q1 st1|msg st1]; [|reflexivity].
  destruct (translate_inst q1 inst st1) as [q2 st2|msg st2]; [|reflexivity].
  apply IH.
Qed.













(* ================================================================= *)
(** * Arithmetic on the last entry of the tape *)

(** The copy into the scratch cells when the end sentinel stands directly
    behind the scratch cell of the last bit: the marker is set beyond the
    sentinel, where the final search does not find it. *)
Section CopyScratchEnd.
Variables (T : list transition).
Variables (q_nextbit q_read q0 q1 q_clean q_back f0 f1 w0 w1 q_fin r rej : Z).

Hypothesis B_next : has_block T q_nextbit (act_write BLANK 1 q_read).
Hypothesis B_read : has_block T q_read
  (act_move_if2 ZERO 1 q0 ONE 1 q1 0 q_clean).
Hypothesis B_q0 : has_block T q0 (act_write SRC 1 f0).
Hypothesis B_q1 : has_block T q1 (act_write SRC 1 f1).
Hypothesis B_f0 : has_block T f0 (act_move_if2 DST 0 w0 END 0 rej 1 f0).
Hypothesis B_f1 : has_block T f1 (act_move_if2 DST 0 w1 END 0 rej 1 f1).
Hypothesis write0 : forall l k x rt,
  steps T (w0, mkTape l (DST :: k :: x :: rt))
          (q_back, mkTape (k :: ZERO :: l) (DST :: rt)).
Hypothesis write1 : forall l k x rt,
  steps T (w1, mkTape l (DST :: k :: x :: rt))
          (q_back, mkTape (k :: ONE :: l) (DST :: rt)).
Hypothesis write0_end : forall l k,
  steps T (w0, mkTape l [DST; k]) (q_back, mkTape (k :: ZERO :: l) [DST]).
Hypothesis write1_end : forall l k,
  steps T (w1, mkTape l [DST; k]) (q_back, mkTape (k :: ONE :: l) [DST]).
Hypothesis B_back : has_block T q_back
  (act_move_if2 SRC 0 q_nextbit START 0 rej (-1) q_back).
Hypothesis B_clean : has_block T q_clean
  (act_move_if2 DST 0 q_fin END 0 rej 1 q_clean).

(** The first bits: from one source bit to the next. *)
Lemma copy_scratch_iter_right : forall w ks xs tM L D,
  all_bits w = true ->
  List.length ks = List.length w -> List.length xs = List.length w ->
  avoid [SRC; DST; START; END] ks = true ->
  avoid [SRC; DST; START; END] tM = true ->
  steps T
    (q_nextbit, mkTape L (SRC :: spread_after w ++ tM ++
                            DST :: interleaved ks xs ++ D))
    (q_nextbit, mkTape (rev (spread w) ++ L)
                       (SRC :: tM ++ interleaved w ks ++ DST :: D)).
Proof.
  induction w as [|b w IH]; intros ks xs tM L D Hw Hk Hx Hks HM.
  - destruct ks; [|discriminate].
    cbn [spread_after spread flat_map interleaved app rev].
    apply steps_refl.
  - destruct ks as [|k ks]; [discriminate|].
    destruct xs as [|x xs]; [discriminate|].
    cbn [List.length] in Hk, Hx.
    apply all_bits_cons in Hw. destruct Hw as [Hb Hw].
    rewrite avoid_cons_eq in Hks. apply andb_true_iff in Hks.
    destruct Hks as [Hk1 Hks].
    assert (Hsrc : forall bad, avoid bad [BLANK; ZERO; ONE] = true ->
                     avoid bad (spread_after w) = true)
      by (intros; apply avoid_spread_after; assumption).
    assert (Hscan : avoid [DST; END] (spread_after w ++ tM) = true).
    { rewrite avoid_app, Hsrc by reflexivity.
      revert HM. apply avoid_weaken. simpl. tauto. }
    assert (HM' : avoid [SRC; DST; START; END] (tM ++ [b; k]) = true).
    { rewrite avoid_app, HM, (avoid_cons_eq _ b [k]), Hk1.
      destruct Hb as [-> | ->]; reflexivity. }
    assert (Hbackscan : avoid [SRC; START]
                          (DST :: k :: b :: rev (spread_after w ++ tM))
                        = true).
    { change (DST :: k :: b :: rev (spread_after w ++ tM))
        with ([DST] ++ [k] ++ [b] ++ rev (spread_after w ++ tM)).
      rewrite !avoid_app, !avoid_rev, avoid_app, Hsrc by reflexivity.
      replace (avoid [SRC; START] [k]) with true
        by (symmetry; revert Hk1; apply avoid_weaken; simpl; tauto).
      replace (avoid [SRC; START] tM) with true
        by (symmetry; revert HM; apply avoid_weaken; simpl; tauto).
      destruct Hb as [-> | ->]; reflexivity. }
    specialize (IH ks xs (tM ++ [b; k]) (b :: BLANK :: L) D Hw
                  ltac:(lia) ltac:(lia) Hks HM').
    replace (rev (spread w) ++ b :: BLANK :: L)
      with (rev (spread (b :: w)) ++ L) in IH.
    2:{ unfold spread. cbn [flat_map]. list_norm. reflexivity. }
    change (spread_after (b :: w)) with (b :: BLANK :: spread_after w).
    change ((b :: BLANK :: spread_after w) ++ tM ++
              DST :: interleaved (k :: ks) (x :: xs) ++ D)
      with (b :: BLANK :: spread_after w ++ tM ++
              DST :: k :: x :: interleaved ks xs ++ D).
    rewrite (app_assoc (spread_after w) tM).
    repeat rewrite <- app_assoc in IH. cbn [app] in IH.
    cbn [interleaved]. cbn [app].
    step_block.
    destruct Hb as [-> | ->]; step_block; step_block.
    + eapply steps_trans.
      { apply (find_right_yes T f0 DST w0 rej (spread_after w ++ tM)
                 (SRC :: ZERO :: BLANK :: L)
                 (k :: x :: interleaved ks xs ++ D) B_f0 Hscan). }
      eapply steps_trans; [apply write0|].
      steps_via (find_left_yes T q_back SRC q_nextbit rej
                   (k :: ZERO :: rev (spread_after w ++ tM))
                   DST (ZERO :: BLANK :: L)
                   (interleaved ks xs ++ D) B_back Hbackscan).
      steps_by IH.
    + eapply steps_trans.
      { apply (find_right_yes T f1 DST w1 rej (spread_after w ++ tM)
                 (SRC :: ONE :: BLANK :: L)
                 (k :: x :: interleaved ks xs ++ D) B_f1 Hscan). }
      eapply steps_trans; [apply write1|].
      steps_via (find_left_yes T q_back SRC q_nextbit rej
                   (k :: ONE :: rev (spread_after w ++ tM))
                   DST (ONE :: BLANK :: L)
                   (interleaved ks xs ++ D) B_back Hbackscan).
      steps_by IH.
Qed.

(** The last bit, its scratch cell directly before the end sentinel: the
    search for the marker ends on the sentinel, in the reject state. *)
Lemma copy_scratch_last_rejects : forall b t tM L,
  b = ZERO \/ b = ONE ->
  is_bit t = false ->
  avoid [SRC; DST; START; END] (t :: tM) = true ->
  exists tp,
    steps T (q_nextbit, mkTape L (SRC :: b :: BLANK :: t :: tM ++ [DST; END]))
            (rej, tp).
Proof.
  intros b t tM L Hb Ht HM.
  assert (Hscan : avoid [DST; END] (t :: tM) = true)
    by (revert HM; apply avoid_weaken; simpl; tauto).
  assert (Hbackscan : avoid [SRC; START] (DST :: END :: b :: rev (t :: tM))
                      = true).
  { change (DST :: END :: b :: rev (t :: tM))
      with ([DST; END] ++ [b] ++ rev (t :: tM)).
    rewrite !avoid_app, avoid_rev.
    replace (avoid [SRC; START] (t :: tM)) with true
      by (symmetry; revert HM; apply avoid_weaken; simpl; tauto).
    destruct Hb as [-> | ->]; reflexivity. }
  assert (E : act_move_if2 ZERO 1 q0 ONE 1 q1 0 q_clean t = (t, 0, q_clean))
    by (destruct t; try discriminate; reflexivity).
  assert (Hlast : avoid [DST; END] (t :: tM ++ [b]) = true).
  { change (t :: tM ++ [b]) with ((t :: tM) ++ [b]).
    rewrite avoid_app, Hscan. destruct Hb as [-> | ->]; reflexivity. }
  eexists.
  step_block.
  destruct Hb as [-> | ->]; step_block; step_block.
  - eapply steps_trans.
    { apply (find_right_yes T f0 DST w0 rej (t :: tM)
               (SRC :: ZERO :: BLANK :: L) [END] B_f0 Hscan). }
    eapply steps_trans; [apply write0_end|].
    steps_via (find_left_yes T q_back SRC q_nextbit rej
                 (END :: ZERO :: rev (t :: tM))
                 DST (ZERO :: BLANK :: L) [] B_back Hbackscan).
    step_block.
    replace (rev (END :: ZERO :: rev (t :: tM)) ++ [DST])
      with (t :: (tM ++ [ZERO]) ++ END :: [DST])
      by (list_norm; reflexivity).
    step_block. unfold act_move_if2 in E. rewrite E.
    cbn [read write move left right hd tl Z.eqb Pos.eqb].
    apply (find_right_no T q_clean DST q_fin rej (t :: tM ++ [ZERO])
             (BLANK :: ZERO :: BLANK :: L) [DST] B_clean Hlast).
    discriminate.
  - eapply steps_trans.
    { apply (find_right_yes T f1 DST w1 rej (t :: tM)
               (SRC :: ONE :: BLANK :: L) [END] B_f1 Hscan). }
    eapply steps_trans; [apply write1_end|].
    steps_via (find_left_yes T q_back SRC q_nextbit rej
                 (END :: ONE :: rev (t :: tM))
                 DST (ONE :: BLANK :: L) [] B_back Hbackscan).
    step_block.
    replace (rev (END :: ONE :: rev (t :: tM)) ++ [DST])
      with (t :: (tM ++ [ONE]) ++ END :: [DST])
      by (list_norm; reflexivity).
    step_block. unfold act_move_if2 in E. rewrite E.
    cbn [read write move left right hd tl Z.eqb Pos.eqb].
    apply (find_right_no T q_clean DST q_fin rej (t :: tM ++ [ONE])
             (BLANK :: ONE :: BLANK :: L) [DST] B_clean Hlast).
    discriminate.
Qed.
End CopyScratchEnd.

Lemma spread_after_snoc w b :
  spread_after (w ++ [b]) = spread_after w ++ [b; BLANK].
Proof. unfold spread_after. rewrite flat_map_app. reflexivity. Qed.

Lemma tm_copy_to_scratch_end_rejects q r st a st' :
  tm_copy_to_scratch q 1 r st = Ok a st' ->
  forall T, sub st' T ->
    sub st T /\
    forall w b ks xs x t tM L,
      all_bits w = true -> b = ZERO \/ b = ONE ->
      List.length ks = List.length w -> List.length xs = List.length w ->
      avoid [SRC; DST; START; END] ks = true ->
      is_bit t = false ->
      avoid [SRC; DST; START; END] (t :: tM) = true ->
      exists tp,
        steps T
          (q, mkTape L (x :: spread_after (w ++ [b]) ++ t :: tM ++
                          DST :: interleaved ks xs ++ [END]))
          (q_reject st, tp).
Proof.
  intro H. unfold_gen tm_copy_to_scratch H. unfold_gen tm_copy_helper H.
  mode_simpl H.
  gen_inv H.
  intros T HT. sub_inv HT. split; [exact HT|].
  intros w b ks xs x t tM L Hw Hb Hk Hx Hks Ht HM.
  assert (Hit : avoid [SRC; DST; START; END] ([b; BLANK] ++ t :: tM) = true).
  { rewrite avoid_app, HM. destruct Hb as [-> | ->]; reflexivity. }
  assert (Hwk : avoid [SRC; DST; START; END] (interleaved w ks) = true).
  { apply avoid_interleaved; [|exact Hks].
    apply avoid_bits; [reflexivity | exact Hw]. }
  assert (Hlast : avoid [SRC; DST; START; END]
                    (t :: tM ++ interleaved w ks) = true).
  { change (t :: tM ++ interleaved w ks) with ((t :: tM) ++ interleaved w ks).
    rewrite avoid_app, HM, Hwk. reflexivity. }
  assert (Hend : exists tp,
             steps T
               (next_state st,
                mkTape (rev (spread w) ++ L)
                  (SRC :: b :: BLANK :: t ::
                     (tM ++ interleaved w ks) ++ [DST; END]))
               (q_reject st, tp)).
  { eapply (copy_scratch_last_rejects T); try eassumption.
    - intros l k. do 3 step_block. apply steps_refl.
    - intros l k. do 3 step_block. apply steps_refl. }
  destruct Hend as (tp & Hend). exists tp.
  step_block.
  eapply steps_trans; [|exact Hend].
  rewrite spread_after_snoc.
  eapply steps_conf_eq;
    [ | | eapply (copy_scratch_iter_right T) with
              (w := w) (ks := ks) (xs := xs)
              (tM := [b; BLANK] ++ t :: tM) (D := [END]);
          try eassumption ].
  - f_equal. repeat rewrite <- app_assoc. reflexivity.
  - f_equal. repeat rewrite <- app_assoc. reflexivity.
  - intros l k x' rt. do 3 step_block. apply steps_refl.
  - intros l k x' rt. do 3 step_block. apply steps_refl.
Qed.

Lemma word_bits_8_last v :
  exists w b,
    word_bits 8 v = w ++ [b] /\ List.length w = 7%nat /\
    all_bits w = true /\ (b = ZERO \/ b = ONE).
Proof.
  exists (removelast (word_bits 8 v)), (bit_symbol v 0).
  split; [reflexivity|]. split; [reflexivity|]. split.
  - pose proof (word_bits_all_bits 8 v) as H.
    change (word_bits 8 v)
      with (removelast (word_bits 8 v) ++ [bit_symbol v 0]) in H.
    unfold all_bits in *. rewrite forallb_app in H.
    apply andb_true_iff in H. tauto.
  - apply bit_symbol_cases.
Qed.

Lemma dest_shape_end m wd :
  spread (m :: wd) ++ [BLANK; END] =
  BLANK :: m :: BLANK ::
    interleaved wd (repeat BLANK (List.length wd)) ++ [END].
Proof.
  change (spread (m :: wd)) with (BLANK :: m :: spread wd).
  cbn [app]. f_equal. f_equal.
  rewrite spread_blank, spread_after_interleaved. reflexivity.
Qed.

Lemma arith_reg_end_rejects (is_add : bool) q inst d s st a st' :
  dst inst = REG d -> src inst = REG s -> s < d ->
  translate_arith is_add q inst st = Ok a st' ->
  forall T, sub st' T ->
  forall es1 vs es2 vd,
    reg_absent s es1 = true ->
    reg_absent d (es1 ++ RegE s vs :: es2) = true ->
    exists tp,
      steps T
        (q, tape_at [] (wf_cells (es1 ++ RegE s vs :: es2 ++ [RegE d vd]) []))
        (q_reject st, tp).
Proof.
  intros Hd Hs Hlt H. unfold_gen translate_arith H. rewrite Hd, Hs in H.
  cbn [assert_reg] in H.
  assert (Hne : (d =? s) = false) by (apply Z.eqb_neq; lia).
  assert (Hcmp : intcmp d s = 1).
  { unfold intcmp. destruct (Z.gtb_spec d s); [reflexivity|lia]. }
  apply bind_inv in H. destruct H as (d' & st0 & H1 & H).
  apply ret_inv in H1. destruct H1 as [-> ->].
  rewrite Hne, Hcmp in H. gen_inv H.
  match goal with
  | G : (if is_add then _ else _) _ = _ |- _ =>
      destruct (arith_run is_add _ _ _ _ _ G) as (-> & Hadd)
  end.
  match goal with
  | G : tm_copy_to_scratch _ _ _ _ = _ |- _ =>
      pose proof (tm_copy_to_scratch_end_rejects _ _ _ _ _ G) as Hcopy
  end.
  match goal with
  | G : tm_find_register _ s _ _ = _ |- _ =>
      destruct (tm_find_register_run _ _ _ _ _ _ G) as (-> & Hrej2 & Hfs)
  end.
  match goal with
  | G : tm_find_register _ d _ _ = _ |- _ =>
      destruct (tm_find_register_run _ _ _ _ _ _ G) as (-> & Hrej1 & Hfd)
  end.
  intros T HT es1 vs es2 vd Habs Habd. sub_inv HT.
  destruct (Hadd T HT) as [HT0 _]. sub_inv HT0.
  destruct (Hcopy T HT0) as [HT1 Hc]. sub_inv HT1.
  destruct (Hfs T HT1) as (HT2 & Hsfound & Hsrestart & _). sub_inv HT2.
  destruct (Hfd T HT2) as (HT3 & Hdfound & Hdrestart & _).
  rewrite Hrej2, Hrej1 in Hc.
  (* the layout *)
  destruct (header_zone es2 d) as (M & HM & HMbit & HMav).
  destruct (word_bits_8_head vd) as (m7 & wd & Hwd & Hm7 & Hwdlen & Hwdbits).
  destruct (word_bits_8_last vs) as (w & b & Hws & Hwlen & Hwbits & Hb).
  set (Ps := entries_cells es1 ++ [BLANK; REGISTER] ++
             spread (word_bits 8 s) ++ [BLANK; VALUE]) in *.
  assert (HPs : forall bad,
             avoid bad [BLANK; ZERO; ONE; VALUE; REGISTER; ADDRESS] = true ->
             avoid bad Ps = true)
    by (intros bad Hb'; apply avoid_header, Hb').
  assert (Hcells :
             wf_cells (es1 ++ RegE s vs :: es2 ++ [RegE d vd]) [] =
             START :: Ps ++ spread (word_bits 8 vs) ++ BLANK :: M ++ VALUE ::
               spread (word_bits 8 vd) ++ [BLANK; END]).
  { unfold wf_cells. rewrite entries_cells_app.
    unfold entries_cells at 2. cbn [flat_map].
    fold (entries_cells (es2 ++ [RegE d vd])).
    rewrite entries_cells_app.
    unfold entries_cells at 3. cbn [flat_map outputs_cells].
    unfold entry_cells, Ps.
    transitivity (START :: entries_cells es1 ++ [BLANK; REGISTER] ++
                    spread (word_bits 8 s) ++ [BLANK; VALUE] ++
                    spread (word_bits 8 vs) ++
                    (entries_cells es2 ++ BLANK :: REGISTER ::
                       spread (word_bits 8 d) ++ BLANK ::
                       (VALUE :: spread (word_bits 8 vd) ++ [BLANK; END]))).
    - app_norm. reflexivity.
    - rewrite HM. app_norm. reflexivity. }
  rewrite Hcells. unfold tape_at. cbn [rev].
  set (Pall := Ps ++ spread (word_bits 8 vs) ++ BLANK :: M ++ [VALUE]).
  assert (HPall : entries_cells (es1 ++ RegE s vs :: es2) ++
                    [BLANK; REGISTER] ++ spread (word_bits 8 d) ++
                    [BLANK; VALUE] = Pall).
  { rewrite entries_cells_app.
    unfold entries_cells at 2. cbn [flat_map]. fold (entries_cells es2).
    unfold entry_cells, Pall, Ps. app_norm. rewrite HM. reflexivity. }
  assert (HPav : forall bad,
             avoid bad [BLANK; ZERO; ONE; VALUE; REGISTER; ADDRESS] = true ->
             avoid bad Pall = true).
  { intros bad Hb'. rewrite <- HPall. apply avoid_header, Hb'. }
  assert (Hm7av : forall bad, avoid bad [ZERO; ONE] = true ->
                              avoid bad [m7] = true).
  { intros bad Hb'. apply (avoid_single bad _ m7 Hb').
    destruct Hm7 as [-> | ->]; simpl; tauto. }
  set (xs := repeat BLANK 7).
  (* the destination register *)
  pose proof (find_entries_found T _ _ d Hdfound Hdrestart
                (es1 ++ RegE s vs :: es2) [] [START] vd
                [BLANK; END] eq_refl Habd) as Hf.
  assert (Hrun1 : steps T
            (q, mkTape [] (START :: Pall ++ spread (word_bits 8 vd) ++
                             [BLANK; END]))
            (next_state st,
             mkTape (rev (START :: Pall))
                    (BLANK :: m7 :: BLANK :: interleaved wd xs ++ [END]))).
  { eapply steps_conf_eq; [ | | exact Hf ].
    - unfold tape_at. f_equal. rewrite <- HPall. unfold entry_cells.
      app_norm. reflexivity.
    - unfold tape_at. f_equal.
      + f_equal. rewrite <- HPall. app_norm. reflexivity.
      + rewrite Hwd, dest_shape_end, Hwdlen. reflexivity. }
  clear Hf.
  (* the source register, and the copy *)
  assert (HtM : exists t tM,
             M ++ [VALUE; BLANK; m7] = t :: tM /\ is_bit t = false).
  { destruct M as [|c M'].
    - exists VALUE, [BLANK; m7]. split; reflexivity.
    - exists c, (M' ++ [VALUE; BLANK; m7]). split; [reflexivity|exact HMbit]. }
  destruct HtM as (t & tM & HtM & Htbit).
  assert (HtMav : avoid [SRC; DST; START; END] (t :: tM) = true).
  { rewrite <- HtM, avoid_app, HMav by reflexivity.
    change [VALUE; BLANK; m7] with ([VALUE; BLANK] ++ [m7]).
    rewrite avoid_app, (Hm7av [SRC; DST; START; END] eq_refl). reflexivity. }
  assert (Hkav : avoid [SRC; DST; START; END] wd = true)
    by (apply avoid_bits; [reflexivity | exact Hwdbits]).
  destruct (Hc w b wd xs BLANK t tM (rev (START :: Ps))
              Hwbits Hb ltac:(lia) ltac:(rewrite Hwlen; reflexivity)
              Hkav Htbit HtMav) as (tp & Hcp).
  exists tp.
  replace (START :: Ps ++ spread (word_bits 8 vs) ++ BLANK :: M ++ VALUE ::
             spread (word_bits 8 vd) ++ [BLANK; END])
    with (START :: Pall ++ spread (word_bits 8 vd) ++ [BLANK; END])
    by (unfold Pall; app_norm; reflexivity).
  eapply steps_trans; [exact Hrun1|].
  step_block. step_block. step_block.
  steps_with ltac:(eapply (rewind_run T _ _ (m7 :: BLANK :: rev Pall) DST []
                             (interleaved wd xs ++ [END]));
                   [eassumption | avoid_tac]).
  pose proof (find_entries_found T _ _ s Hsfound Hsrestart es1 []
                [START] vs
                (BLANK :: M ++ VALUE :: BLANK :: m7 :: DST ::
                   interleaved wd xs ++ [END]) eq_refl Habs) as Hf.
  eapply steps_trans.
  { eapply steps_tape_eq; [|exact Hf].
    unfold tape_at, entry_cells, Pall, Ps. f_equal.
    list_norm. reflexivity. }
  clear Hf.
  eapply steps_tape_eq; [|exact Hcp].
  unfold tape_at. f_equal. rewrite Hws.
  change (t :: tM ++ DST :: interleaved wd xs ++ [END])
    with ((t :: tM) ++ DST :: interleaved wd xs ++ [END]).
  rewrite <- HtM, <- (spread_blank (w ++ [b])). app_norm. reflexivity.
Qed.

(** X16 (arithmetic into the last entry): for [ADD REG d, REG s] and
    [SUB REG d, REG s] with [s < d] the translator succeeds, but on a
    well-formed tape where the entry of [d] is the last one and no output
    cell follows, the machine does not come back: the copy into the scratch
    cells sets the destination marker beyond the end sentinel, the final
    search for the marker stops at the sentinel, and the machine enters the
    reject state. *)
Theorem arith_into_last_entry_rejects : forall q inst d s st,
  (op inst = ADD \/ op inst = SUB) ->
  dst inst = REG d -> src inst = REG s -> s < d ->
  exists a st',
    translate_inst q inst st = Ok a st' /\
    forall T es1 vs es2 vd,
      sub st' T -> reg_absent s es1 = true ->
      reg_absent d (es1 ++ RegE s vs :: es2) = true ->
      exists tp,
        steps T
          (q, tape_at [] (wf_cells (es1 ++ RegE s vs :: es2 ++ [RegE d vd])
                            []))
          (q_reject st, tp).
Proof.
  intros q inst d s st Hop Hd Hs Hlt.
  assert (Hsrc : src inst <> TMP) by (rewrite Hs; discriminate).
  assert (Hne : forall s', src inst = REG s' -> d <> s').
  { intros s' E. rewrite Hs in E. injection E as <-. lia. }
  destruct (translate_inst_arith q inst) as [Eadd Esub].
  assert (Hgen : exists is_add : bool,
             translate_inst q inst = translate_arith is_add q inst).
  { destruct Hop as [Hop | Hop].
    - exists true. exact (Eadd Hop).
    - exists false. exact (Esub Hop). }
  destruct Hgen as (is_add & Egen). rewrite Egen.
  destruct (is_ok_inv _ st
              (succeeds_translate_arith is_add q inst d Hd Hne Hsrc st))
    as (a & st' & H).
  exists a, st'. split; [exact H|].
  intros T es1 vs es2 vd HT Habs Habd.
  exact (arith_reg_end_rejects is_add q inst d s st a st' Hd Hs Hlt H T HT
           es1 vs es2 vd Habs Habd).
Qed.

Lemma arith_into_last_entry_rejects_witness :
  exists a st',
    translate_inst 0 (mkInst ADD 0 (REG 5) (REG 0) TMP) (mkG 2 1 []) =
      Ok a st' /\
    exists tp,
      steps (emitted st')
        (0, tape_at [] (wf_cells ([] ++ RegE 0 3 :: [RegE 4 9] ++ [RegE 5 7])
                          []))
        (1, tp).
Proof.
  destruct (arith_into_last_entry_rejects 0
              (mkInst ADD 0 (REG 5) (REG 0) TMP) 5 0 (mkG 2 1 [])
              (or_introl eq_refl) eq_refl eq_refl ltac:(lia))
    as (a & st' & H & Hrun).
  exists a, st'. split; [exact H|].
  apply (Hrun (emitted st') [] 3 [RegE 4 9] 7);
    [apply incl_refl | reflexivity | reflexivity].
Defined.

(** ** A program that rejects *)

Lemma q_reject_kept {A} (c : M A) (Q : A -> Prop) st :
  keeps (fun s => q_reject s = q_reject st) c Q ->
  q_reject (final (c st)) = q_reject st.
Proof. intro K. exact (proj1 (K st eq_refl)). Qed.



Lemma stitch_keeps_reject q p inst st :
  q_reject (final (stitch q p inst st)) = q_reject st.
Proof.
  apply (q_reject_kept _ (fun _ => True)).
  apply (keeps_stitch _ (fun _ => True) (fun _ => True));
    try (intros; exact I).
  intros s q' g Hs _ _. exact Hs.
Qed.






(** ** Tables with one line for each state and symbol *)










(** *** How emitters compose *)




Lemma lin_at_error q r msg : lin_at q r (error msg).
Proof. intros F st a st' H. discriminate. Qed.






(** *** The primitive emitters *)










(** *** Emitters that take the reject state or continue elsewhere *)

Lemma lin_seq_rej q (f : Z -> M Z) :
  (forall rej, lin_seq q (f rej)) -> lin_seq q (bind get_q_reject f).
Proof.
  intros Hf F st a st' H. apply bind_inv in H.
  destruct H as (rej & st1 & H1 & H2).
  apply get_q_reject_inv in H1. destruct H1 as [-> ->].
  exact (Hf _ F st a st' H2).
Qed.







(** *** The composite emitters *)















(** *** The translator *)


























(** ** What follows an EXIT *)

Lemma two_lines_not_deterministic T t1 t2 :
  In t1 T -> In t2 T -> same_key t1 t2 -> t1 <> t2 -> ~ deterministic T.
Proof.
  intros H1 H2 Hk Hne HD.
  apply In_nth_error in H1. destruct H1 as [i Hi].
  apply In_nth_error in H2. destruct H2 as [j Hj].
  pose proof (HD i j t1 t2 Hi Hj Hk) as E. subst j.
  rewrite Hi in Hj. injection Hj. exact Hne.
Qed.

Lemma in_block_line q g s : In (act_line q g s) (rev (block q g)).
Proof.
  rewrite <- in_rev. unfold block. apply in_map, all_symbols_complete.
Qed.

Lemma in_block_write q b d r s :
  In (mkT q s r b d) (rev (block q (act_write b d r))).
Proof. exact (in_block_line q (act_write b d r) s). Qed.

Lemma in_block_move q d r s :
  In (mkT q s r s d) (rev (block q (act_move d r))).
Proof. exact (in_block_line q (act_move d r) s). Qed.

(** The counter never falls below its initial value. *)
Lemma counter_after_body m body q0 st0 res st1 :
  prologue m (initial_gstate m) = Ok q0 st0 ->
  translate_text body q0 0 st0 = Ok res st1 ->
  initial_next_state (text m) <= next_state st1.
Proof.
  intros Hp Hb.
  set (Inv := fun s : gstate => initial_next_state (text m) <= next_state s).
  assert (K0 : keeps Inv (prologue m) (fun _ => True)).
  { apply (keeps_prologue Inv (fun _ => True) (fun _ => True));
      unfold Inv; cbn [next_state add_block]; intros; try exact I; lia. }
  assert (K1 : keeps Inv (translate_text body q0 0) (fun _ => True)).
  { apply (keeps_translate_text Inv (fun _ => True) (fun _ => True));
      unfold Inv; cbn [next_state add_block]; intros; try exact I;
      try lia.
    split; intros; exact I. }
  assert (H0 : Inv (initial_gstate m)) by (unfold Inv; cbn; lia).
  pose proof (proj1 (K0 _ H0)) as H1. rewrite Hp in H1. cbn [final] in H1.
  pose proof (proj1 (K1 _ H1)) as H2. rewrite Hb in H2. exact H2.
Qed.

Lemma stitch_counter q p inst st a st' :
  stitch q p inst st = Ok a st' -> next_state st' = next_state st.
Proof.
  unfold stitch. destruct (negb (pc inst =? p) && negb (q =? pc inst)).
  - intro H. gen_inv H. reflexivity.
  - intro H. apply ret_inv in H. destruct H as [_ ->]. reflexivity.
Qed.

(** EXIT returns the state that follows the copy of an output byte; that
    state has its lines already: it writes the marker and goes back to the
    search for the next output. *)
Lemma translate_exit_state q st a st' :
  translate_exit q st = Ok a st' ->
  next_state st <= a /\ exists qf, In (mkT a BLANK qf DST 1) (emitted st').
Proof.
  intro H. unfold_gen translate_exit H. gen_inv H.
  match goal with
  | G : tm_copy_compact _ _ _ _ = _ |- _ =>
      destruct (tm_copy_compact_run_left _ _ _ _ _ G) as (-> & _ & _)
  end.
  split; [lia|]. eexists.
  apply in_or_app; right. apply in_or_app; right. apply in_or_app; left.
  apply in_block_write.
Qed.

(** X19 (nothing may follow an EXIT): when generation reaches an EXIT that
    is followed by an instruction with another program counter, the table
    has two different lines for one state and the blank symbol, whatever
    that instruction and the rest of the text are.  EXIT leaves the
    generator in a state that has its lines already, and the no-op into the
    state of the new program counter (lines 342-343) is written for that
    state again. *)
Theorem instruction_after_exit_not_deterministic : forall m body e i rest,
  text m = body ++ e :: i :: rest ->
  forallb supported body = true ->
  op e = EXIT ->
  pc i <> pc e ->
  ~ deterministic (emitted_table m).
Proof.
  intros m body e i rest Htext Hs He Hpc.
  destruct (succeeds_inv _ (initial_gstate m) (succeeds_prologue m))
    as (q0 & st0 & Hp).
  rewrite emitted_table_unfold. cbv beta.
  rewrite (target_tm_after_prologue m q0 st0 Hp), Htext, translate_text_app.
  assert (Hok : is_ok (translate_text body q0 0 st0) = true)
    by (rewrite translate_text_is_ok; exact Hs).
  destruct (is_ok_inv _ _ Hok) as ([qb pb] & st1 & Hb). rewrite Hb.
  cbn [fst snd].
  pose proof (counter_after_body m body q0 st0 _ st1 Hp Hb) as Hn1.
  rewrite translate_text_cons.
  destruct (succeeds_inv _ st1 (succeeds_stitch qb pb e)) as (q1 & st2 & H1).
  rewrite (final_bind_ok _ _ _ _ _ H1).
  pose proof (stitch_counter _ _ _ _ _ _ H1) as Hn2.
  destruct (succeeds_inv _ st2 (succeeds_translate_exit q1))
    as (q2 & st3 & H2).
  assert (H2' : translate_inst q1 e st2 = Ok q2 st3).
  { rewrite <- H2. unfold translate_inst. rewrite He. reflexivity. }
  rewrite (final_bind_ok _ _ _ _ _ H2').
  destruct (translate_exit_state _ _ _ _ H2) as [Hq2 (qf & HA)].
  assert (Hi : pc i < initial_next_state (text m)).
  { apply initial_next_state_gt. rewrite Htext. apply in_or_app. right.
    right. left. reflexivity. }
  rewrite translate_text_cons.
  assert (H3 : stitch q2 (pc e) i st3 =
               Ok (pc i) (add_block q2 (act_move 0 (pc i)) st3)).
  { unfold stitch.
    destruct (Z.eqb_spec (pc i) (pc e)) as [E|_]; [contradiction|].
    destruct (Z.eqb_spec q2 (pc i)) as [E|_]; [lia|]. cbn [negb andb].
    unfold tm_noop.
    apply (emitter_exact (tm_move q2 0 (pc i)) (pc i)
             (add_block q2 (act_move 0 (pc i)))).
    - apply succeeds_tm_move. reflexivity.
    - intros st a st'. apply tm_move_inv. }
  rewrite (final_bind_ok _ _ _ _ _ H3).
  set (st4 := add_block q2 (act_move 0 (pc i)) st3).
  pose proof (translate_text_only_adds (i :: rest) (pc i) (pc i) st4) as Hincl.
  rewrite translate_text_cons in Hincl.
  assert (H4 : stitch (pc i) (pc i) i st4 = Ok (pc i) st4).
  { unfold stitch. rewrite Z.eqb_refl. reflexivity. }
  rewrite (final_bind_ok _ _ _ _ _ H4) in Hincl.
  rewrite table_unfold. cbv beta.
  apply (two_lines_not_deterministic _ (mkT q2 BLANK qf DST 1)
           (mkT q2 BLANK (pc i) BLANK 0)).
  - rewrite <- in_rev. apply Hincl. unfold st4, add_block. cbn [emitted].
    apply in_or_app. right. exact HA.
  - rewrite <- in_rev. apply Hincl. unfold st4, add_block. cbn [emitted].
    apply in_or_app. left. apply in_block_move.
  - split; reflexivity.
  - discriminate.
Qed.

Lemma instruction_after_exit_not_deterministic_witness :
  ~ deterministic
      (emitted_table
         (mkModule [mkInst EXIT 0 TMP TMP TMP;
                    mkInst PUTC 1 TMP (IMM 65) TMP] [])).
Proof.
  apply (instruction_after_exit_not_deterministic
           (mkModule [mkInst EXIT 0 TMP TMP TMP;
                      mkInst PUTC 1 TMP (IMM 65) TMP] [])
           [] (mkInst EXIT 0 TMP TMP TMP)
           (mkInst PUTC 1 TMP (IMM 65) TMP) []).
  - reflexivity.
  - reflexivity.
  - reflexivity.
  - cbn [pc]. lia.
Defined.

